(** * Detrended fluctuation analysis: [neurokit2/complexity/fractal_dfa.py]

    A shallow embedding of the (multifractal) DFA estimator and of the numpy
    operations it calls, followed by the properties of its components.

    Numeric model.  A float64 that the program only stores, compares or
    passes on is an exact number: window sizes are [Z], the exponents the
    caller supplies are [Q], the samples of the signal are [R].  Results of
    reductions that can degenerate (a mean over nothing, a power of zero, a
    logarithm of zero) live in [xreal], the reals extended with the two
    infinities and NaN, with the IEEE-754 conventions for the special
    values.  Rounding, overflow and the sign of zero are outside the model. *)

From Stdlib Require Import Reals Lra Lia ZArith QArith Qabs Qreals String List Sorted Bool.
Import ListNotations.

Close Scope Q_scope.

(* ================================================================= *)
(** ** Python exceptions and results *)

Inductive exn : Type :=
| ValueError (msg : string)
| TypeError (msg : string)
| ZeroDivisionError
| AttributeError (msg : string)
| IndexError.

Inductive result (A : Type) : Type :=
| Ok (a : A)
| Err (e : exn).

Arguments Ok {A} a.
Arguments Err {A} e.

Definition rbind {A B : Type} (r : result A) (k : A -> result B) : result B :=
  match r with
  | Ok a => k a
  | Err e => Err e
  end.

Fixpoint rmapM {A B : Type} (f : A -> result B) (l : list A) : result (list B) :=
  match l with
  | [] => Ok []
  | a :: l' =>
      rbind (f a) (fun b => rbind (rmapM f l') (fun bs => Ok (b :: bs)))
  end.

(* ================================================================= *)
(** ** The ambient floating-point error policy ([np.seterr])

    numpy keeps one global record saying what to do on each kind of
    floating-point anomaly.  The program reads and writes it through
    [np.seterr], so it is threaded through the functions that touch it. *)

Inductive policy : Type := Ignore | Warn | Raise | Call | Print | Log.

Record errstate : Type := mkErrstate {
  divide : policy;
  over : policy;
  under : policy;
  invalid : policy
}.

(** A computation that may raise and that may update the policy.  An
    exception leaves the policy as it was when the exception was raised:
    the source has no [try]/[finally]. *)
Definition M (A : Type) : Type := errstate -> result A * errstate.

Definition ret {A : Type} (a : A) : M A := fun st => (Ok a, st).

Definition raise {A : Type} (e : exn) : M A := fun st => (Err e, st).

Definition bind {A B : Type} (m : M A) (k : A -> M B) : M B :=
  fun st =>
    match m st with
    | (Ok a, st') => k a st'
    | (Err e, st') => (Err e, st')
    end.

Definition lift {A : Type} (r : result A) : M A := fun st => (r, st).

Declare Scope dfa_scope.
Delimit Scope dfa_scope with dfa.
Notation "x <- m ;; k" := (bind m (fun x => k))
  (at level 61, m at next level, right associativity) : dfa_scope.
Notation "m ;;; k" := (bind m (fun _ => k))
  (at level 61, right associativity) : dfa_scope.

(** [np.seterr(divide=d, invalid=i)]: installs the two policies, leaves the
    others, and returns the previous record. *)
Definition seterr_divide_invalid (d i : policy) : M errstate :=
  fun st =>
    (Ok st, {| divide := d; over := over st; under := under st; invalid := i |}).

(** [np.seterr] called with the saved record unpacked as keywords:
    installs all four policies of [old]. *)
Definition seterr_all (old : errstate) : M errstate :=
  fun st => (Ok st, old).

(* ================================================================= *)
(** ** Extended reals with NaN *)

Inductive xreal : Type :=
| Finite (r : R)
| PosInf
| NegInf
| NaN.

Definition Rsign (r : R) : comparison :=
  match total_order_T r 0 with
  | inleft (left _) => Lt
  | inleft (right _) => Eq
  | inright _ => Gt
  end.

Definition xopp (a : xreal) : xreal :=
  match a with
  | Finite r => Finite (- r)
  | PosInf => NegInf
  | NegInf => PosInf
  | NaN => NaN
  end.

Definition xadd (a b : xreal) : xreal :=
  match a, b with
  | NaN, _ | _, NaN => NaN
  | Finite x, Finite y => Finite (x + y)
  | PosInf, NegInf | NegInf, PosInf => NaN
  | PosInf, _ | _, PosInf => PosInf
  | NegInf, _ | _, NegInf => NegInf
  end.

Definition xsub (a b : xreal) : xreal := xadd a (xopp b).

(** The infinity whose sign is the sign of a product: [s] is the sign of
    the finite factor, [pos] tells whether the infinite one is [+inf]. *)
Definition inf_of_sign (s : comparison) (pos : bool) : xreal :=
  match s with
  | Eq => NaN
  | Gt => if pos then PosInf else NegInf
  | Lt => if pos then NegInf else PosInf
  end.

Definition xmul (a b : xreal) : xreal :=
  match a, b with
  | NaN, _ | _, NaN => NaN
  | Finite x, Finite y => Finite (x * y)
  | Finite x, PosInf | PosInf, Finite x => inf_of_sign (Rsign x) true
  | Finite x, NegInf | NegInf, Finite x => inf_of_sign (Rsign x) false
  | PosInf, PosInf | NegInf, NegInf => PosInf
  | PosInf, NegInf | NegInf, PosInf => NaN
  end.

(** Division.  A zero divisor is the positive zero. *)
Definition xdiv (a b : xreal) : xreal :=
  match a, b with
  | NaN, _ | _, NaN => NaN
  | Finite x, Finite y =>
      if Req_dec_T y 0 then inf_of_sign (Rsign x) true else Finite (x / y)
  | Finite _, (PosInf | NegInf) => Finite 0
  | PosInf, Finite y => if Rlt_dec y 0 then NegInf else PosInf
  | NegInf, Finite y => if Rlt_dec y 0 then PosInf else NegInf
  | (PosInf | NegInf), (PosInf | NegInf) => NaN
  end.

Definition xsqrt (a : xreal) : xreal :=
  match a with
  | Finite r => if Rlt_dec r 0 then NaN else Finite (sqrt r)
  | PosInf => PosInf
  | NegInf | NaN => NaN
  end.

Definition xlog2 (a : xreal) : xreal :=
  match a with
  | Finite r =>
      match Rsign r with
      | Gt => Finite (ln r / ln 2)
      | Eq => NegInf
      | Lt => NaN
      end
  | PosInf => PosInf
  | NegInf | NaN => NaN
  end.

Definition is_int (y : R) : bool :=
  if Req_dec_T (IZR (Int_part y)) y then true else false.

Definition is_odd_int (y : R) : bool := is_int y && Z.odd (Int_part y).

(** [pow] on finite arguments, exponent not zero. *)
Definition Rpow_fin (x y : R) : xreal :=
  match Rsign x with
  | Gt => Finite (Rpower x y)
  | Eq => if Rlt_dec 0 y then Finite 0 else PosInf
  | Lt =>
      if is_int y
      then Finite ((if Z.odd (Int_part y) then -1 else 1) * Rpower (- x) y)
      else NaN
  end.

(** [np.float_power] on one pair of float64, with the special values of the
    C library's [pow]. *)
Definition float_power (a b : xreal) : xreal :=
  match a, b with
  | _, Finite y =>
      if Req_dec_T y 0 then Finite 1
      else
        match a with
        | Finite x => Rpow_fin x y
        | PosInf => if Rlt_dec 0 y then PosInf else Finite 0
        | NegInf =>
            if Rlt_dec 0 y
            then (if is_odd_int y then NegInf else PosInf)
            else Finite 0
        | NaN => NaN
        end
  | Finite x, NaN => if Req_dec_T x 1 then Finite 1 else NaN
  | _, NaN => NaN
  | NaN, _ => NaN
  | Finite x, PosInf =>
      match Rsign (Rabs x - 1) with
      | Lt => Finite 0
      | Eq => Finite 1
      | Gt => PosInf
      end
  | Finite x, NegInf =>
      match Rsign (Rabs x - 1) with
      | Lt => PosInf
      | Eq => Finite 1
      | Gt => Finite 0
      end
  | (PosInf | NegInf), PosInf => PosInf
  | (PosInf | NegInf), NegInf => Finite 0
  end.

(** Order on the values that are not NaN. *)
Definition xleb (a b : xreal) : bool :=
  match a, b with
  | NaN, _ | _, NaN => false
  | NegInf, _ => true
  | _, PosInf => true
  | Finite x, Finite y => if Rle_dec x y then true else false
  | _, _ => false
  end.

Definition is_nan (a : xreal) : bool :=
  match a with NaN => true | _ => false end.

(** "Not a negative number": NaN, or at least zero. *)
Definition nonneg_or_nan (a : xreal) : Prop :=
  match a with
  | Finite r => (0 <= r)%R
  | PosInf => True
  | NegInf => False
  | NaN => True
  end.

(* ================================================================= *)
(** ** numpy and Python operations on sequences *)

Definition Rsum (l : list R) : R := fold_right Rplus 0%R l.

(** [np.mean] of a vector of finite samples that is known not to be empty. *)
Definition Rmean (l : list R) : R := (Rsum l / INR (length l))%R.

(** [np.cumsum]. *)
Fixpoint cumsum_from (acc : R) (l : list R) : list R :=
  match l with
  | [] => []
  | x :: l' => (acc + x)%R :: cumsum_from (acc + x)%R l'
  end.

Definition cumsum (l : list R) : list R := cumsum_from 0%R l.

Definition xsum (l : list xreal) : xreal := fold_right xadd (Finite 0) l.

(** [np.mean] along an axis: NaN over nothing. *)
Definition xmean (l : list xreal) : xreal :=
  xdiv (xsum l) (Finite (INR (length l))).

(** [np.var] of one row, [ddof = 0]: the mean of the squared deviations
    from the mean. *)
Definition var (row : list R) : xreal :=
  match row with
  | [] => NaN
  | _ => Finite (Rmean (map (fun x => Rsqr (x - Rmean row)) row))
  end.

(** [np.arange(start, stop, step)] on integers: [ceil((stop - start) / step)]
    values when that is positive, none otherwise. *)
Definition arange_len (start stop step : Z) : Z :=
  Z.max 0 (- ((start - stop) / step)).

Definition arange (start stop step : Z) : result (list Z) :=
  if (step =? 0)%Z then Err ZeroDivisionError
  else Ok (map (fun k => (start + Z.of_nat k * step)%Z)
               (seq 0 (Z.to_nat (arange_len start stop step)))).

(** A slice bound of [s[i:j]] on a sequence of length [len]: a negative
    bound counts from the end, and every bound is clipped to the sequence. *)
Definition clip_index (len i : Z) : Z :=
  if (i <? 0)%Z then Z.max 0 (i + len) else Z.min i len.

Definition py_slice {A : Type} (l : list A) (i j : Z) : list A :=
  let len := Z.of_nat (length l) in
  let a := clip_index len i in
  let b := clip_index len j in
  firstn (Z.to_nat (b - a)) (skipn (Z.to_nat a) l).

(** [np.unique]: the sorted distinct values. *)
Fixpoint insert_unique (x : Z) (l : list Z) : list Z :=
  match l with
  | [] => [x]
  | y :: l' =>
      if (x <? y)%Z then x :: l
      else if (x =? y)%Z then l
      else y :: insert_unique x l'
  end.

Definition np_unique (l : list Z) : list Z := fold_right insert_unique [] l.

(** [np.min] and [np.max] of a vector that is not empty. *)
Definition np_min (l : list Z) : Z :=
  match l with
  | [] => 0%Z
  | x :: l' => fold_left Z.min l' x
  end.

Definition np_max (l : list Z) : Z :=
  match l with
  | [] => 0%Z
  | x :: l' => fold_left Z.max l' x
  end.

(** Elementwise combination of two vectors. *)
Fixpoint zip_with {A B C : Type} (f : A -> B -> C) (l1 : list A) (l2 : list B)
  : list C :=
  match l1, l2 with
  | a :: l1', b :: l2' => f a b :: zip_with f l1' l2'
  | _, _ => []
  end.

Definition broadcast_msg : string := "operands could not be broadcast together".

(** Broadcasting of two one-dimensional operands: equal lengths pair up,
    a single element is repeated, anything else is rejected. *)
Definition broadcast {A B C : Type} (f : A -> B -> C) (l1 : list A) (l2 : list B)
  : result (list C) :=
  if (length l1 =? length l2)%nat then Ok (zip_with f l1 l2)
  else
    match l1, l2 with
    | [a], _ => Ok (map (f a) l2)
    | _, [b] => Ok (map (fun a => f a b) l1)
    | _, _ => Err (ValueError broadcast_msg)
    end.

(** The same for the rows of two two-dimensional operands with a result per
    pair of rows. *)
Definition broadcast_rows {A B C : Type} (f : A -> B -> result C)
  (l1 : list A) (l2 : list B) : result (list C) :=
  rbind (broadcast f l1 l2) (rmapM (fun r => r)).

(** [np.polyval(p, x)]: Horner's rule, highest power first. *)
Definition polyval (p : list R) (x : R) : R :=
  fold_left (fun y pv => (y * x + pv)%R) p 0%R.

(** [np.gradient(f)] with unit spacing: central differences inside, one-sided
    differences at both ends; fewer than two values are rejected. *)
Fixpoint gradient_interior (l : list xreal) : list xreal :=
  match l with
  | a :: ((_ :: c :: _) as l') =>
      xdiv (xsub c a) (Finite 2) :: gradient_interior l'
  | _ => []
  end.

Definition gradient_msg : string :=
  "Shape of array too small to calculate a numerical gradient, at least (edge_order + 1) elements are required.".

Definition gradient (l : list xreal) : result (list xreal) :=
  match l with
  | f0 :: f1 :: _ =>
      let n := length l in
      Ok (xdiv (xsub f1 f0) (Finite 1)
            :: gradient_interior l
            ++ [xdiv (xsub (nth (n - 1) l NaN) (nth (n - 2) l NaN)) (Finite 1)])
  | _ => Err (ValueError gradient_msg)
  end.

(** Reductions that skip NaN. *)
Definition drop_nan (l : list xreal) : list xreal :=
  filter (fun a => negb (is_nan a)) l.

Definition xmax (a b : xreal) : xreal := if xleb a b then b else a.
Definition xmin (a b : xreal) : xreal := if xleb a b then a else b.

Definition zero_size_msg : string :=
  "zero-size array to reduction operation which has no identity".

(** [np.nanmax] and [np.nanmin]: NaN when every entry is NaN. *)
Definition nanmax (l : list xreal) : result xreal :=
  match l with
  | [] => Err (ValueError zero_size_msg)
  | _ =>
      match drop_nan l with
      | [] => Ok NaN
      | a :: l' => Ok (fold_left xmax l' a)
      end
  end.

Definition nanmin (l : list xreal) : result xreal :=
  match l with
  | [] => Err (ValueError zero_size_msg)
  | _ =>
      match drop_nan l with
      | [] => Ok NaN
      | a :: l' => Ok (fold_left xmin l' a)
      end
  end.

Definition nanmean (l : list xreal) : xreal := xmean (drop_nan l).

(** [np.argmax]: the first position of a largest entry. *)
Fixpoint argmax_from (best : xreal) (ibest i : nat) (l : list xreal) : nat :=
  match l with
  | [] => ibest
  | a :: l' =>
      if xleb a best then argmax_from best ibest (S i) l'
      else argmax_from a i (S i) l'
  end.

(** [np.nanargmax]: NaN entries count as minus infinity; a vector of NaN
    only is rejected. *)
Definition nanargmax (l : list xreal) : result nat :=
  if forallb is_nan l then Err (ValueError "All-NaN slice encountered")
  else
    let l0 := map (fun a => if is_nan a then NegInf else a) l in
    Ok (argmax_from (hd NegInf l0) 0 1 (tl l0)).

(** Two-dimensional arrays of results: the column count is part of the
    shape also when there is no row. *)
Record matrix : Type := mkMatrix {
  ncols : nat;
  rows : list (list xreal)
}.

Definition zeros (r c : nat) : matrix :=
  {| ncols := c; rows := repeat (repeat (Finite 0) c) r |}.

Definition column (m : matrix) (i : nat) : list xreal :=
  map (fun row => nth i row NaN) (rows m).

Fixpoint update_nth {A : Type} (i : nat) (a : A) (l : list A) : list A :=
  match l, i with
  | [], _ => []
  | _ :: l', O => a :: l'
  | b :: l', S i' => b :: update_nth i' a l'
  end.

(** A value that is either a numpy scalar or a vector. *)
Inductive scalar_or_vector : Type :=
| Scalar (x : xreal)
| Vector (l : list xreal).

(** [m[i] = v]: a scalar fills the row, a vector must have the row's length
    or a single entry. *)
Definition assign_row (m : matrix) (i : nat) (v : scalar_or_vector)
  : result matrix :=
  if (length (rows m) <=? i)%nat then Err IndexError
  else
    match v with
    | Scalar x =>
        Ok {| ncols := ncols m; rows := update_nth i (repeat x (ncols m)) (rows m) |}
    | Vector l =>
        if (length l =? ncols m)%nat
        then Ok {| ncols := ncols m; rows := update_nth i l (rows m) |}
        else
          match l with
          | [x] =>
              Ok {| ncols := ncols m;
                    rows := update_nth i (repeat x (ncols m)) (rows m) |}
          | _ => Err (ValueError "could not broadcast input array")
          end
    end.

(** [a.reshape((r, c))] of a vector into rows of [c] samples. *)
Fixpoint chunk {A : Type} (r c : nat) (l : list A) : list (list A) :=
  match r with
  | O => []
  | S r' => firstn c l :: chunk r' c (skipn c l)
  end.

(* ================================================================= *)
(** ** Arguments of the entry point *)

(** The [signal] argument: a Python list of numbers, an [np.ndarray] (its
    number of dimensions and its samples; the samples of a one-dimensional
    array are the vector itself), a [pd.DataFrame], which always has two
    dimensions, a Python list of rows, each row a list of at least one
    number (its first number and the others), or a [pd.Series] of numbers
    with the default index, so that a slice takes positions.  A row
    without any number is not modelled (the mean of an empty array is left
    to the handlers of the error policy), nor is a Series with an index of
    its own. *)
Inductive signal_arg : Type :=
| PyList (v : list R)
| NdArray (ndim : nat) (v : list R)
| DataFrame (v : list (list R))
| NestedList (rows : list (R * list R))
| PdSeries (v : list R).

(** The numbers of one row of a nested list. *)
Definition row_values (row : R * list R) : list R := fst row :: snd row.

(** The [scale] argument: [None] or a string such as ["default"], a number
    of scales, or the window sizes themselves. *)
Inductive scale_arg : Type :=
| ScaleDefault
| ScaleInt (k : Z)
| ScaleList (l : list Z).

(** One float handed in by the caller. *)
Inductive float_in : Type :=
| Fl (x : Q)
| FlInf (negative : bool)
| FlNaN.

(** The [q] argument: a string such as ["default"], a number, or a sequence
    of numbers. *)
Inductive q_arg : Type :=
| QDefault
| QScalar (x : float_in)
| QList (l : list float_in).

(** The series the pipeline works on: its samples, and whether it is an
    [np.ndarray] (a Python list has no [reshape]). *)
Record series : Type := mkSeries {
  is_ndarray : bool;
  samples : list R
}.

(** The singularity spectrum returned by [_singularity_spectrum]. *)
Record spectrum : Type := mkSpectrum {
  h : scalar_or_vector;
  Tau : list xreal;
  H : list xreal;
  D : list xreal;
  ExpRange : xreal;
  ExpMean : xreal;
  DimRange : xreal;
  DimMean : xreal;
  HMax : xreal;
  HDelta : xreal;
  HAR : xreal
}.

(** The [info] dictionary: the keys that are not there yet are [None]. *)
Record info : Type := mkInfo {
  info_scale : list Z;
  info_q : list R;
  Fluctuation : option matrix;
  Alpha : option scalar_or_vector;
  Spectrum : option spectrum
}.

(** The first component of the returned pair. *)
Inductive output : Type :=
| OutNaN
| OutSlopes (alpha : scalar_or_vector)
| OutFrame (exp_range exp_mean dim_range dim_mean h_max h_delta h_ar : xreal).

(* ================================================================= *)
(** ** Messages of the exceptions the program raises itself *)

Definition multidim_msg : string :=
  "Multidimensional inputs (e.g., matrices or multichannel data) are not supported yet.".
Definition more_windows_msg : string :=
  "NeuroKit error: more than one window is needed. Increase 'scale'.".
Definition two_points_msg : string :=
  "NeuroKit error: there must be at least 2 data points in each window. Decrease 'scale'.".
Definition too_long_msg : string :=
  "NeuroKit error: the window cannot contain more data points than the time series. Decrease 'scale'.".
Definition mismatch_msg : string :=
  "Fluctuation function and q powers don't match in dimension.".

(** The three failures of the scale validation. *)
Definition InvalidScaleError (e : exn) : Prop :=
  e = ValueError more_windows_msg \/
  e = ValueError two_points_msg \/
  e = ValueError too_long_msg.

Definition DimensionalityError : exn := ValueError multidim_msg.

(* ================================================================= *)
(** ** The functions of [fractal_dfa.py] *)

Section Dfa.

Local Open Scope dfa_scope.

(** [expspace(start, stop, num, base)] is defined in [neurokit2.misc],
    outside the module modelled here: it is a parameter of the development. *)
Variable expspace : Z -> Z -> Z -> Z -> list Z.

(** [np.polyfit(x, y, deg)], coefficients with the highest power first:
    on finite samples for the detrending, on logarithms that may be
    infinite or NaN for the regression. *)
Variable polyfit : list R -> list R -> nat -> list R.
Variable polyfit_log : list xreal -> list xreal -> nat -> list xreal.

(** *** [_sanitize_q] *)

Definition chkfinite_msg : string := "array must not contain infs or NaNs".

(** [np.asarray_chkfinite(q, dtype=float)]. *)
Definition asarray_chkfinite (q : q_arg) : result (list Q) :=
  let check x :=
    match x with
    | Fl v => Ok v
    | _ => Err (ValueError chkfinite_msg)
    end in
  match q with
  | QDefault => Err (ValueError "could not convert string to float")
  | QScalar x => rmapM check [x]
  | QList l => rmapM check l
  end.

Definition Qlt_bool (x y : Q) : bool :=
  match (x ?= y)%Q with
  | Lt => true
  | _ => false
  end.

Definition _sanitize_q (q : q_arg) (multifractal : bool) : result (list Q) :=
  let q :=
    match q with
    | QDefault =>
        if negb multifractal then QScalar (Fl 2)
        else QList (map Fl [-5; -3; -1; 0; 1; 3; 5]%Q)
    | _ => q
    end in
  rbind (asarray_chkfinite q) (fun q =>
  Ok (filter (fun x => Qlt_bool x (-1 # 10) || Qlt_bool (1 # 10) x) q)).

(** *** [_fractal_dfa_findscales] *)

Definition _fractal_dfa_findscales (n : Z) (scale : scale_arg)
  : result (list Z) :=
  let scale :=
    match scale with
    | ScaleDefault => ScaleInt (n ÷ 10)
    | _ => scale
    end in
  let scale :=
    match scale with
    | ScaleInt k => ScaleList (np_unique (expspace 10 (n ÷ 10) k 2))
    | _ => scale
    end in
  match scale with
  | ScaleList scale =>
      if (length scale <? 2)%nat then Err (ValueError more_windows_msg)
      else if (np_min scale <? 2)%Z then Err (ValueError two_points_msg)
      else if (np_max scale >=? n)%Z then Err (ValueError too_long_msg)
      else Ok scale
  | _ => Err (TypeError "object has no len()")
  end.

(** *** [_fractal_dfa_getwindow] *)

(** [np.array] of a list of rows: the rows must have one length to make a
    two-dimensional array. *)
Definition np_array2d (l : list (list R)) : result (list (list R)) :=
  match l with
  | [] => Ok []
  | r :: _ =>
      if forallb (fun r' => (length r' =? length r)%nat) l then Ok l
      else Err (ValueError "inhomogeneous shape")
  end.

Definition reshape2d (l : list R) (r c : Z) : result (list (list R)) :=
  if ((0 <=? r) && (0 <=? c) && (r * c =? Z.of_nat (length l)))%Z
  then Ok (chunk (Z.to_nat r) (Z.to_nat c) l)
  else Err (ValueError "cannot reshape array").

Definition _fractal_dfa_getwindow (signal : series) (n window : Z)
  (overlap : bool) : result (list (list R)) :=
  if overlap then
    rbind (arange 0 (n - window) (window / 2)) (fun starts =>
    np_array2d
      (map (fun i => py_slice (samples signal) i (i + window)) starts))
  else
    if (window =? 0)%Z then Err ZeroDivisionError
    else
      let segments := py_slice (samples signal) 0 (n - n mod window) in
      if negb (is_ndarray signal)
      then Err (AttributeError "'list' object has no attribute 'reshape'")
      else
        reshape2d segments
          (Z.of_nat (length (samples signal)) / window) window.

(** The same function on a Python list of rows, as the loop calls it when
    the signal was a nested list and was not integrated.  With [overlap]
    every slice is a list of rows, and [np.array] makes a three-dimensional
    array of them when the slices have one length and the rows have one
    length (a two-dimensional one when the slices are empty); without it
    the list has no [reshape]. *)
Definition np_array3d (l : list (list (list R)))
  : result (list (list (list R))) :=
  match l with
  | [] => Ok []
  | s :: _ =>
      if forallb (fun s' => (length s' =? length s)%nat) l
      then rbind (np_array2d (concat l)) (fun _ => Ok l)
      else Err (ValueError "inhomogeneous shape")
  end.

Definition _fractal_dfa_getwindow_rows (rows : list (list R)) (n window : Z)
  (overlap : bool) : result (list (list (list R))) :=
  if overlap then
    rbind (arange 0 (n - window) (window / 2)) (fun starts =>
    np_array3d (map (fun i => py_slice rows i (i + window)) starts))
  else
    if (window =? 0)%Z then Err ZeroDivisionError
    else Err (AttributeError "'list' object has no attribute 'reshape'").

(** *** [_fractal_dfa_trends]

    [np.polyfit] fits every segment on its own.  It rejects an empty
    abscissa and segments whose length is not the abscissa's.  A batch
    without any segment does not get through either: numpy rejects it in
    the fit or, when the batch was reshaped, in the subtraction that
    follows; the rows of a batch do not tell the two apart, and the error
    is raised here. *)
Definition _fractal_dfa_trends (segments : list (list R)) (window : Z)
  (order : nat) : result (list (list R)) :=
  let x := map INR (seq 0 (Z.to_nat window)) in
  let x := py_slice x 0 window in
  match x, segments with
  | [], _ => Err (TypeError "expected non-empty vector for x")
  | _, [] => Err (TypeError "expected x and y to have same length")
  | _, _ =>
      if forallb (fun s => (length s =? length x)%nat) segments
      then
        let coefs := map (fun s => polyfit x s order) segments in
        Ok (map (fun c => map (polyval c) x) coefs)
      else Err (TypeError "expected x and y to have same length")
  end.

(** The same function on the batch cut out of a list of rows: [np.polyfit]
    takes ordinates of one or two dimensions only, so it raises on the
    three-dimensional batch, after it has checked that the abscissa is not
    empty; a batch without slices, or of empty slices, has fewer
    dimensions and is rejected for its length. *)
Definition _fractal_dfa_trends_rows (segments : list (list (list R)))
  (window : Z) : exn :=
  let x := map INR (seq 0 (Z.to_nat window)) in
  let x := py_slice x 0 window in
  match x, segments with
  | [], _ => TypeError "expected non-empty vector for x"
  | _, (_ :: _) :: _ => TypeError "expected 1D or 2D array for y"
  | _, _ => TypeError "expected x and y to have same length"
  end.

(** *** [_fractal_dfa_fluctuation] *)

Definition fluctuation_multi (detrended : list (list R)) (q : list R)
  : list xreal :=
  let var := map var detrended in
  map (fun qj =>
         float_power
           (xmean (map (fun v => float_power v (Finite (qj / 2)%R)) var))
           (xdiv (Finite 1) (Finite qj)))
      q.

Definition fluctuation_mono (detrended : list (list R)) : xreal :=
  let fluctuation :=
    map (fun row =>
           xdiv (Finite (Rsum (map (fun x => (x ^ 2)%R) row)))
                (Finite (INR (length row))))
        detrended in
  xsqrt (xdiv (xsum fluctuation) (Finite (INR (length fluctuation)))).

Definition _fractal_dfa_fluctuation (segments trends : list (list R))
  (multifractal : bool) (q : list R) : M scalar_or_vector :=
  detrended <- lift (broadcast_rows (broadcast Rminus) segments trends) ;;
  if multifractal then
    old_setting <- seterr_divide_invalid Ignore Ignore ;;
    let fluctuation := fluctuation_multi detrended q in
    seterr_all old_setting ;;;
    ret (Vector fluctuation)
  else
    ret (Scalar (fluctuation_mono detrended)).

(** *** [_slopes] *)

Fixpoint slopes_loop (scale : list Z) (fluctuations : matrix)
  (range : list nat) (slopes : list xreal) : M (list xreal) :=
  match range with
  | [] => ret slopes
  | i :: range' =>
      old_setting <- seterr_divide_invalid Ignore Ignore ;;
      slope <- lift
        (match polyfit_log (map (fun s => xlog2 (Finite (IZR s))) scale)
                           (map xlog2 (column fluctuations i)) 1 with
         | c :: _ => Ok c
         | [] => Err IndexError
         end) ;;
      seterr_all old_setting ;;;
      slopes_loop scale fluctuations range' (update_nth i slope slopes)
  end.

Definition _slopes (scale : list Z) (fluctuations : matrix) (q : list R)
  : M (list xreal) :=
  if negb (ncols fluctuations =? length q)%nat
  then raise (ValueError mismatch_msg)
  else
    slopes_loop scale fluctuations (seq 0 (length q))
      (repeat (Finite 0) (length q)).

(** *** [_singularity_spectrum] *)

Definition times (q : list R) (v : scalar_or_vector) : result (list xreal) :=
  match v with
  | Scalar x => Ok (map (fun qj => xmul (Finite qj) x) q)
  | Vector l => broadcast xmul (map Finite q) l
  end.

Definition _singularity_spectrum (q : list R) (slopes : scalar_or_vector)
  : result spectrum :=
  rbind (times q slopes) (fun qh =>
  let tau := map (fun t => xsub t (Finite 1)) qh in
  rbind (gradient tau) (fun dtau =>
  rbind (gradient (map Finite q)) (fun dq =>
  rbind (broadcast xdiv dtau dq) (fun H =>
  rbind (times q (Vector H)) (fun qH =>
  rbind (broadcast xsub qH tau) (fun D =>
  rbind (nanmax H) (fun maxH =>
  rbind (nanmin H) (fun minH =>
  rbind (nanmax D) (fun maxD =>
  rbind (nanmin D) (fun minD =>
  rbind (nanargmax D) (fun imax =>
  match nth_error H imax with
  | None => Err IndexError
  | Some hmax =>
      let hdelta := xsub maxH minH in
      Ok {| h := slopes;
            Tau := tau;
            H := H;
            D := D;
            ExpRange := xsub maxH minH;
            ExpMean := nanmean H;
            DimRange := xsub maxD minD;
            DimMean := nanmean D;
            HMax := hmax;
            HDelta := hdelta;
            HAR := xdiv (xsub minH hmax) hdelta |}
  end))))))))))).

(** *** [fractal_dfa]

    The plots requested with [show] draw what has been computed and are
    left out; so are the unused keyword arguments. *)

Fixpoint fluctuation_loop (signal : series) (n : Z) (overlap : bool)
  (order : nat) (multifractal : bool) (q : list R)
  (i : nat) (scale : list Z) (fluctuations : matrix) : M matrix :=
  match scale with
  | [] => ret fluctuations
  | window :: scale' =>
      segments <- lift (_fractal_dfa_getwindow signal n window overlap) ;;
      trends <- lift (_fractal_dfa_trends segments window order) ;;
      f <- _fractal_dfa_fluctuation segments trends multifractal q ;;
      fluctuations <- lift (assign_row fluctuations i f) ;;
      fluctuation_loop signal n overlap order multifractal q
        (S i) scale' fluctuations
  end.

(** The Profiler step: with [integrate], the cumulative sum of the
    mean-centred samples; otherwise the signal as it came.  The signal is
    a list or an array here, and a list minus its mean is an array, so the
    profile is an array. *)
Definition profile (is_array : bool) (v : list R) (integrate : bool)
  : series :=
  if integrate
  then {| is_ndarray := true;
          samples := cumsum (map (fun x => (x - Rmean v)%R) v) |}
  else {| is_ndarray := is_array; samples := v |}.

(** [if len(slopes) == 1: slopes = slopes[0]]. *)
Definition unwrap_single (slopes : list xreal) : scalar_or_vector :=
  match slopes with
  | [s] => Scalar s
  | _ => Vector slopes
  end.

(** The entry point from the allocation of the matrix on: the loop over
    the scales, the regression and the spectrum. *)
Definition analyse (signal : series) (n : Z) (scale : list Z) (q : list R)
  (overlap : bool) (order : nat) (multifractal : bool)
  : M (output * info) :=
  let info0 :=
    {| info_scale := scale; info_q := q; Fluctuation := None;
       Alpha := None; Spectrum := None |} in
  fluctuations <-
    fluctuation_loop signal n overlap order multifractal q
      0 scale (zeros (length scale) (length q)) ;;
  if (length (rows fluctuations) =? 0)%nat then ret (OutNaN, info0)
  else
    slopes <- _slopes scale fluctuations q ;;
    let slopes := unwrap_single slopes in
    let info1 :=
      {| info_scale := scale; info_q := q;
         Fluctuation := Some fluctuations; Alpha := Some slopes;
         Spectrum := None |} in
    if multifractal then
      sp <- lift (_singularity_spectrum q slopes) ;;
      ret (OutFrame (ExpRange sp) (ExpMean sp) (DimRange sp) (DimMean sp)
                    (HMax sp) (HDelta sp) (HAR sp),
           {| info_scale := scale; info_q := q;
              Fluctuation := Some fluctuations; Alpha := Some slopes;
              Spectrum := Some sp |})
    else ret (OutSlopes slopes, info1).

(** The guard looks at arrays and data frames only.  A list of rows gets
    past it: its length is the number of rows; with [integrate],
    [np.mean] makes an array of it (the rows must have one length),
    [np.cumsum] flattens it and the analysis goes on with the flattened
    profile; without it the first window of the loop raises.  A Series
    stays a Series when it is integrated: with [overlap] its slices make
    the array of segments, without it the first window of the loop finds
    no [reshape]. *)
Definition fractal_dfa (signal : signal_arg) (scale : scale_arg)
  (overlap integrate : bool) (order : nat) (multifractal : bool) (q : q_arg)
  : M (output * info) :=
  match signal with
  | NdArray (S (S _)) _ | DataFrame _ => raise DimensionalityError
  | NdArray O _ => raise (TypeError "len() of unsized object")
  | PyList v | NdArray 1 v =>
      let n := Z.of_nat (length v) in
      scale <- lift (_fractal_dfa_findscales n scale) ;;
      qs <- lift (_sanitize_q q multifractal) ;;
      let q := map Q2R qs in
      let signal :=
        profile (match signal with PyList _ => false | _ => true end)
          v integrate in
      analyse signal n scale q overlap order multifractal
  | NestedList rows =>
      let rows := map row_values rows in
      let n := Z.of_nat (length rows) in
      scale <- lift (_fractal_dfa_findscales n scale) ;;
      qs <- lift (_sanitize_q q multifractal) ;;
      let q := map Q2R qs in
      if integrate then
        array <- lift (np_array2d rows) ;;
        analyse (profile true (concat array) true) n scale q overlap order
          multifractal
      else
        match scale with
        | [] =>
            ret (OutNaN,
                 {| info_scale := scale; info_q := q; Fluctuation := None;
                    Alpha := None; Spectrum := None |})
        | window :: _ =>
            segments <-
              lift (_fractal_dfa_getwindow_rows rows n window overlap) ;;
            raise (_fractal_dfa_trends_rows segments window)
        end
  | PdSeries v =>
      let n := Z.of_nat (length v) in
      scale <- lift (_fractal_dfa_findscales n scale) ;;
      qs <- lift (_sanitize_q q multifractal) ;;
      let q := map Q2R qs in
      let signal :=
        {| is_ndarray := false;
           samples := samples (profile true v integrate) |} in
      if overlap then analyse signal n scale q overlap order multifractal
      else
        match scale with
        | [] =>
            ret (OutNaN,
                 {| info_scale := scale; info_q := q; Fluctuation := None;
                    Alpha := None; Spectrum := None |})
        | window :: _ =>
            if (window =? 0)%Z then raise ZeroDivisionError
            else raise (AttributeError
                          "'Series' object has no attribute 'reshape'")
        end
  end.

End Dfa.

(* ================================================================= *)
(** ** Notions used in the statements *)

(** The number of dimensions of the [signal] argument. *)
Definition signal_ndim (signal : signal_arg) : nat :=
  match signal with
  | PyList _ => 1
  | NdArray ndim _ => ndim
  | DataFrame _ => 2
  | NestedList _ => 2
  | PdSeries _ => 1
  end.

(** [isinstance(signal, (np.ndarray, pd.DataFrame))]. *)
Definition is_array_or_frame (signal : signal_arg) : bool :=
  match signal with
  | NdArray _ _ | DataFrame _ => true
  | PyList _ | NestedList _ | PdSeries _ => false
  end.

(** The entry point on a series that is ready for the loop: the scales
    are chosen for the length [n], the exponents are sanitized, and the
    analysis runs. *)
Definition run_on (expspace : Z -> Z -> Z -> Z -> list Z)
  (polyfit : list R -> list R -> nat -> list R)
  (polyfit_log : list xreal -> list xreal -> nat -> list xreal)
  (working : series) (n : Z) (scale : scale_arg) (overlap : bool)
  (order : nat) (multifractal : bool) (q : q_arg) : M (output * info) :=
  bind (lift (_fractal_dfa_findscales expspace n scale)) (fun sc =>
  bind (lift (_sanitize_q q multifractal)) (fun qs =>
  analyse polyfit polyfit_log working n sc (map Q2R qs) overlap order
    multifractal)).

(** A flat list of numbers or a one-dimensional array. *)
Definition signal_1d (is_array : bool) (v : list R) : signal_arg :=
  if is_array then NdArray 1 v else PyList v.

(** The scales that are validated: the generated ones once deduplicated,
    the caller's own as they are. *)
Definition validated_scales (expspace : Z -> Z -> Z -> Z -> list Z) (n : Z)
  (scale : scale_arg) : list Z :=
  match scale with
  | ScaleDefault => np_unique (expspace 10 (n ÷ 10) (n ÷ 10) 2)%Z
  | ScaleInt k => np_unique (expspace 10 (n ÷ 10) k 2)%Z
  | ScaleList l => l
  end.

(** Every scale is a valid window of a series of length [n]. *)
Definition valid_scales (n : Z) (scale : list Z) : Prop :=
  (2 <= length scale)%nat /\ Forall (fun w => (2 <= w < n)%Z) scale.

(** [|x| > 0.1]. *)
Definition exceeds_tenth (x : Q) : bool := Qlt_bool (1 # 10) (Qabs x).

(** A batch of segments as the Windower hands it on: at least one segment,
    each of [window] samples. *)
Definition batch_of (window : Z) (segments : list (list R)) : Prop :=
  segments <> [] /\ forall s, In s segments -> length s = Z.to_nat window.

(** The entries of what [_fractal_dfa_fluctuation] returns. *)
Definition entries_nonneg (v : scalar_or_vector) : Prop :=
  match v with
  | Scalar x => nonneg_or_nan x
  | Vector l => Forall nonneg_or_nan l
  end.

(** A property of every entry of a matrix. *)
Definition matrix_forall (P : xreal -> Prop) (m : matrix) : Prop :=
  Forall (Forall P) (rows m).

(** Every row of the matrix is one value repeated over the columns. *)
Definition constant_rows (m : matrix) : Prop :=
  Forall (fun row => exists x, row = repeat x (ncols m)) (rows m).

(** *** Least squares *)

(** The abscissa of a window, [np.arange(window)]. *)
Definition abscissa (window : Z) : list R := map INR (seq 0 (Z.to_nat window)).

(** The residuals of the polynomial with coefficients [c] on the points
    [(x, y)]. *)
Definition residuals (x y c : list R) : list R :=
  zip_with (fun xi yi => (yi - polyval c xi)%R) x y.

Definition sum_sq (l : list R) : R := Rsum (map (fun r => (r ^ 2)%R) l).

(** [c] is a least-squares fit of degree [deg] of the points [(x, y)]: it
    has [deg + 1] coefficients, and no vector of [deg + 1] coefficients has
    a smaller sum of squared residuals. *)
Definition least_squares (x y : list R) (deg : nat) (c : list R) : Prop :=
  length c = S deg /\
  forall c', length c' = S deg ->
    (sum_sq (residuals x y c) <= sum_sq (residuals x y c'))%R.

(** The fit is a least-squares fit on every segment that the Windower cuts
    out of [signal] for the windows of [scale]. *)
Definition fits_least_squares (polyfit : list R -> list R -> nat -> list R)
  (signal : series) (n : Z) (overlap : bool) (order : nat) (scale : list Z)
  : Prop :=
  forall w segments s,
    In w scale ->
    _fractal_dfa_getwindow signal n w overlap = Ok segments ->
    In s segments ->
    least_squares (abscissa w) s order (polyfit (abscissa w) s order).


(** *** The singularity spectrum in the words of the specification

    These three definitions follow the specification, not the code; the
    code's [_singularity_spectrum] is compared with them. *)

(** The scaling exponents [q * h - 1], pointwise. *)
Definition tau_of (q : list R) (h : list xreal) : list xreal :=
  zip_with (fun qi hi => xsub (xmul (Finite qi) hi) (Finite 1)) q h.

(** The difference quotient of [tau] over [q] between two positions. *)
Definition quotient (tau : list xreal) (q : list R) (i j : nat) : xreal :=
  xdiv (xsub (nth j tau NaN) (nth i tau NaN))
       (Finite (nth j q 0 - nth i q 0)%R).

(** The numerical gradient of [tau] with respect to [q] over the spacing
    of [q]: a forward difference at the first position, a backward one at
    the last, central differences in between. *)
Definition gradient_wrt (tau : list xreal) (q : list R) : list xreal :=
  let n := length q in
  map (fun i =>
         if (i =? 0)%nat then quotient tau q 0 1
         else if (i =? n - 1)%nat then quotient tau q (n - 2) (n - 1)
         else quotient tau q (i - 1) (i + 1))
      (seq 0 n).

(** The singularity dimension [q * H - tau], pointwise. *)
Definition dimension_of (q : list R) (H tau : list xreal) : list xreal :=
  zip_with xsub (zip_with (fun qi Hi => xmul (Finite qi) Hi) q H) tau.

(** *** The setting of the examples *)

(** No scale generator (the windows are given), numpy's default error
    policy, and a signal. *)
Definition no_expspace : Z -> Z -> Z -> Z -> list Z := fun _ _ _ _ => [].
Definition default_errstate : errstate := mkErrstate Warn Warn Ignore Warn.
Definition seven_samples : list R := [0; 1; 0; 0; 2; 0; 1]%R.

(** The same samples as a list of seven rows of one number,
    [[[0], [1], [0], [0], [2], [0], [1]]]. *)
Definition seven_rows : list (R * list R) :=
  map (fun x => (x, [])) seven_samples.

Definition dot (x y : list R) : R := Rsum (zip_with Rmult x y).

(** The straight line of least squares through the points [(x, y)], as
    [np.polyfit(x, y, 1)] returns it: slope first, intercept second. *)
Definition line_fit (x y : list R) : list R :=
  let n := INR (length x) in
  let a := ((n * dot x y - Rsum x * Rsum y)
            / (n * dot x x - Rsum x * Rsum x))%R in
  [a; ((Rsum y - a * Rsum x) / n)%R].

(** The fit of the examples: the line of least squares for degree 1, and
    the zero polynomial otherwise. *)
Definition example_fit : list R -> list R -> nat -> list R :=
  fun x y deg =>
    match deg with
    | 1%nat => line_fit x y
    | _ => repeat 0%R (S deg)
    end.

(** The regression of the examples: the same fit when every value is
    finite, NaN coefficients otherwise. *)
Fixpoint finite_values (l : list xreal) : option (list R) :=
  match l with
  | [] => Some []
  | Finite r :: l' =>
      match finite_values l' with
      | Some rs => Some (r :: rs)
      | None => None
      end
  | _ :: _ => None
  end.

Definition example_regression : list xreal -> list xreal -> nat -> list xreal :=
  fun x y deg =>
    match finite_values x, finite_values y with
    | Some xs, Some ys => map Finite (example_fit xs ys deg)
    | _, _ => repeat NaN (S deg)
    end.

(** *** The exponents as the caller hands them in *)

(** The floats that [_sanitize_q] converts: the caller's, or the default
    ones of the mode when [q] is a string. *)
Definition q_entries (q : q_arg) (multifractal : bool) : list float_in :=
  match q with
  | QDefault =>
      if multifractal then map Fl [-5; -3; -1; 0; 1; 3; 5]%Q else [Fl 2]
  | QScalar x => [x]
  | QList l => l
  end.

Definition is_finite (x : float_in) : bool :=
  match x with
  | Fl _ => true
  | _ => false
  end.

(** A float within a tenth of zero, the range that [_sanitize_q] drops. *)
Definition near_zero (x : float_in) : bool :=
  match x with
  | Fl v => negb (exceeds_tenth v)
  | _ => false
  end.

(** The series can be cut into windows: overlapping windows are slices,
    the others need an array to reshape, which the Profiler makes of any
    signal. *)
Definition can_window (is_array overlap integrate : bool) : bool :=
  overlap || integrate || is_array.

Definition series_no_reshape_msg : string :=
  "'Series' object has no attribute 'reshape'".

Definition no_reshape_msg : string :=
  "'list' object has no attribute 'reshape'".

Definition all_nan_msg : string := "All-NaN slice encountered".

(** *** The FluctuationMatrix *)

(** Every row has as many entries as the matrix has columns. *)
Definition rectangular (m : matrix) : Prop :=
  Forall (fun row => length row = ncols m) (rows m).

(** The row that [fluctuations[i] = f] writes into a matrix of [c] columns:
    a scalar, or a vector of one entry, is repeated over the columns. *)
Definition row_of (c : nat) (f : scalar_or_vector) : list xreal :=
  match f with
  | Scalar x => repeat x c
  | Vector l =>
      if (length l =? c)%nat then l
      else match l with
           | [x] => repeat x c
           | _ => l
           end
  end.

(** *** The features of the spectrum *)

(** A value as [np.nanargmax] compares it: NaN counts as minus infinity. *)
Definition nan_as_neginf (a : xreal) : xreal :=
  if is_nan a then NegInf else a.

(** A ratio between -1 and 0, or NaN. *)
Definition unit_ratio_or_nan (a : xreal) : Prop :=
  match a with
  | Finite r => (-1 <= r <= 0)%R
  | NaN => True
  | _ => False
  end.

(** The detrended batch of a window: for every segment, the residuals of
    its own fitted polynomial. *)
Definition detrended_of (polyfit : list R -> list R -> nat -> list R)
  (segments : list (list R)) (w : Z) (order : nat) : list (list R) :=
  map (fun s => residuals (abscissa w) s (polyfit (abscissa w) s order))
      segments.

(** The value that [_fractal_dfa_fluctuation] computes from a detrended
    batch. *)
Definition fluctuation_of (detrended : list (list R)) (multifractal : bool)
  (q : list R) : scalar_or_vector :=
  if multifractal then Vector (fluctuation_multi detrended q)
  else Scalar (fluctuation_mono detrended).

(** *** Fits that are not unique

    Through the two samples of a window of 2 there is a parabola for every
    leading coefficient; each one is a least-squares fit of degree 2. *)
Definition two_point_fit (lead : R) : list R -> list R -> nat -> list R :=
  fun x y deg =>
    match y with
    | [y0; y1] => repeat 0%R (deg - 2) ++ [lead; (y1 - y0 - lead)%R; y0]
    | _ => repeat 0%R (S deg)
    end.

(** *** The fluctuation function

    The fluctuation of the series at one window size and one exponent, in
    one formula: the series is cut into the segments of the window and each
    segment is detrended by its own fitted polynomial; with [multifractal]
    the variances [v] of the detrended segments are averaged as
    [(mean (v ^ (q / 2))) ^ (1 / q)], without it the result is the root of
    the mean of their mean squares. *)
Definition fluctuation_at (polyfit : list R -> list R -> nat -> list R)
  (working : series) (n : Z) (overlap : bool) (order : nat)
  (multifractal : bool) (w : Z) (qj : R) : xreal :=
  match _fractal_dfa_getwindow working n w overlap with
  | Ok segments =>
      let detrended := detrended_of polyfit segments w order in
      if multifractal
      then float_power
             (xmean (map (fun v => float_power v (Finite (qj / 2)))
                         (map var detrended)))
             (xdiv (Finite 1) (Finite qj))
      else fluctuation_mono detrended
  | Err _ => NaN
  end.

(** The slope that the regression finds for one exponent: the leading
    coefficient of the line fitted to the base-2 logarithms of the
    fluctuations against those of the window sizes. *)
Definition hurst_at (polyfit : list R -> list R -> nat -> list R)
  (polyfit_log : list xreal -> list xreal -> nat -> list xreal)
  (working : series) (n : Z) (overlap : bool) (order : nat)
  (multifractal : bool) (scale : list Z) (qj : R) : xreal :=
  hd NaN
    (polyfit_log (map (fun s => xlog2 (Finite (IZR s))) scale)
       (map (fun w => xlog2 (fluctuation_at polyfit working n overlap order
                               multifractal w qj)) scale) 1).

(** The [j]-th slope of [Alpha], which is a bare number when there is one
    exponent only. *)
Definition slope_of (a : scalar_or_vector) (j : nat) : xreal :=
  match a with
  | Scalar x => x
  | Vector l => nth j l NaN
  end.

(** *** Error policies that let a computation go on

    Outside the regions where the program relaxes the policy, a division
    by zero or an invalid operation yields its IEEE value when the policy
    ignores it, warns or prints; with [raise] numpy raises
    FloatingPointError, and with [call] or [log] it hands the anomaly to a
    handler of the caller. *)
Definition quiet_policy (p : policy) : bool :=
  match p with
  | Ignore | Warn | Print => true
  | Raise | Call | Log => false
  end.

Definition quiet (st : errstate) : bool :=
  quiet_policy (divide st) && quiet_policy (invalid st).

(** *** Rescaled signals *)

(** Zero, a positive number or plus infinity: the values that the powers
    and the means of variances take. *)
Definition nonneg_or_inf (a : xreal) : Prop :=
  match a with
  | Finite r => (0 <= r)%R
  | PosInf => True
  | NegInf | NaN => False
  end.

(** A positive number: a fluctuation whose logarithm is finite. *)
Definition positive_finite (a : xreal) : Prop :=
  match a with
  | Finite r => (0 < r)%R
  | _ => False
  end.

(** The regression is a least-squares fit of degree 1 on finite data over
    the abscissa [xs]. *)
Definition regression_least_squares
  (polyfit_log : list xreal -> list xreal -> nat -> list xreal)
  (xs : list R) : Prop :=
  forall ys : list R,
    length ys = length xs ->
    exists c,
      polyfit_log (map Finite xs) (map Finite ys) 1 = map Finite c /\
      least_squares xs ys 1 c.

(** The base-2 logarithm of a window size. *)
Definition log2_window (s : Z) : R := (ln (IZR s) / ln 2)%R.

(** *** Signals with a trend *)

(** The samples with a straight line added, [v[i] + a * (o + i) + b]:
    [with_trend a b v] is [v + a * np.arange(len(v)) + b]. *)
Definition with_trend_from (a b : R) (o : nat) (v : list R) : list R :=
  zip_with (fun i x => (x + (a * INR i + b))%R) (seq o (length v)) v.

Definition with_trend (a b : R) (v : list R) : list R :=
  with_trend_from a b 0 v.

(* ================================================================= *)
(** * Remote photoplethysmography: [neurokit2/video/video_ppg.py]

    The Plane-Orthogonal-to-Skin extraction of a pulse signal from the
    mean skin colour of the frames of a video.  The numeric model is the
    one above: exact reals, extended with the infinities and NaN where a
    division by zero can produce them. *)

(** The exceptions of this function: the inverse of a singular matrix,
    and operands of shapes that do not go together. *)
Inductive ppg_error : Type :=
| LinAlgError (msg : string)
| ShapeError (msg : string).

Inductive answer (A : Type) : Type :=
| Returns (a : A)
| Raises (e : ppg_error).

Arguments Returns {A} a.
Arguments Raises {A} e.

Definition and_then {A B : Type} (r : answer A) (k : A -> answer B)
  : answer B :=
  match r with
  | Returns a => k a
  | Raises e => Raises e
  end.

(** [np.std]: the root of the mean squared deviation from the mean. *)
Definition xstd (l : list xreal) : xreal :=
  let mu := xmean l in
  xsqrt (xmean (map (fun a => xmul (xsub a mu) (xsub a mu)) l)).

(** The transpose of an array of [c] columns given by its rows. *)
Definition transpose (c : nat) (rows : list (list xreal))
  : list (list xreal) :=
  map (fun k => map (fun row => nth k row NaN) rows) (seq 0 c).

(** [np.diag] of a vector. *)
Definition diag (d : list xreal) : list (list xreal) :=
  map (fun i => map (fun j => if (i =? j)%nat then nth i d NaN else Finite 0)
                    (seq 0 (length d)))
      (seq 0 (length d)).

(** One row of a matrix product: the combination of the rows of [B] with
    the coefficients [a], so that entry [k] is the sum over [j] of
    [a[j] * B[j][k]]. *)
Fixpoint combination (a : list xreal) (B : list (list xreal)) (m : nat)
  : list xreal :=
  match a, B with
  | aj :: a', row :: B' =>
      zip_with xadd (map (xmul aj) row) (combination a' B' m)
  | _, _ => repeat (Finite 0) m
  end.

(** [np.matmul] of two matrices whose shapes go together. *)
Definition matmul (A B : list (list xreal)) : list (list xreal) :=
  let m := length (hd [] B) in
  map (fun a => combination a B m) A.

Definition is_zero (x : R) : bool :=
  if Req_dec_T x 0 then true else false.

Definition singular_msg : string := "Singular matrix".

(** [H[i:j] = H[i:j] + v]: the slice is read, added to [v] and written
    back in place. *)
Definition slice_add (H : list xreal) (i j : Z) (v : list xreal)
  : answer (list xreal) :=
  let len := Z.of_nat (length H) in
  let a := Z.to_nat (clip_index len i) in
  let old := py_slice H i j in
  match broadcast xadd old v with
  | Err _ => Raises (ShapeError broadcast_msg)
  | Ok new =>
      if (length new =? length old)%nat
      then Returns (firstn a H ++ new ++ skipn (a + length old) H)
      else Raises (ShapeError "could not broadcast input array")
  end.

(** [int(sampling_rate * 1.6)] for an integer rate: the product is
    truncated towards zero. *)
Definition window_length (sampling_rate : Z) : Z := (sampling_rate * 8) ÷ 5.

(** What [video_skin] returns for one face, as far as it is read: the
    entries of the mask, and those of the three colour planes
    [masked_face[:, :, 0]], [masked_face[:, :, 1]] and
    [masked_face[:, :, 2]]. *)
Record skin : Type := mkSkin {
  mask : list R;
  plane0 : list R;
  plane1 : list R;
  plane2 : list R
}.

(** [np.sum(mask > 0)]. *)
Definition count_positive (l : list R) : nat :=
  length (filter (fun x => if Rlt_dec 0 x then true else false) l).

(** The mean colour of the skin of one face: the sum of each plane over
    the number of pixels of the mask. *)
Definition skin_colour (s : skin) : list xreal :=
  let count := Finite (INR (count_positive (mask s))) in
  [xdiv (Finite (Rsum (plane0 s))) count;
   xdiv (Finite (Rsum (plane1 s))) count;
   xdiv (Finite (Rsum (plane2 s))) count].

Section VideoPPG.

(** [video_face] and [video_skin] are defined in their own modules of
    [neurokit2.video], outside the one modelled here: they are parameters
    of the development, on videos and faces of any kind. *)
Variable video face : Type.
Variable video_face : video -> list face.
Variable video_skin : face -> skin.

(** What LAPACK makes of a diagonal matrix that holds a NaN or an
    infinity is left open. *)
Variable inv_nonfinite : list xreal -> answer (list (list xreal)).

(** [np.linalg.inv(np.diag(d))]: the reciprocals on the diagonal, unless
    an entry is zero. *)
Definition inv_diag (d : list xreal) : answer (list (list xreal)) :=
  match finite_values d with
  | Some ds =>
      if existsb is_zero ds then Raises (LinAlgError singular_msg)
      else Returns (diag (map (fun x => Finite (/ x)) ds))
  | None => inv_nonfinite d
  end.

(** Step 5, temporal normalization: every channel of the window [C], one
    row per channel, is divided by its mean, as the product with the
    inverse of the diagonal matrix of the means. *)
Definition temporal_normalization (C : list (list xreal))
  : answer (list (list xreal)) :=
  let mean_color := map xmean C in
  and_then (inv_diag mean_color) (fun inv => Returns (matmul inv C)).

(** Step 6, projection on the plane orthogonal to the skin tone. *)
Definition projection (Cn : list (list xreal)) : list (list xreal) :=
  matmul [[Finite 0; Finite 1; Finite (-1)];
          [Finite (-2); Finite 1; Finite 1]] Cn.

(** Step 7, tuning: the two projected signals are combined into one, the
    second weighted by the ratio of the standard deviations. *)
Definition tuning (S : list (list xreal)) : list xreal :=
  let std := [Finite 1; xdiv (xstd (nth 0 S [])) (xstd (nth 1 S []))] in
  hd [] (matmul [std] S).

(** The term that step 8 adds to [H]: the tuned signal, standardised. *)
Definition standardised (P : list xreal) : list xreal :=
  map (fun p => xdiv (xsub p (xmean P)) (xstd P)) P.

(** Steps 5 to 7 on one window. *)
Definition pos_window (C : list (list xreal)) : answer (list xreal) :=
  and_then (temporal_normalization C) (fun Cn =>
  let S := projection Cn in
  let P := tuning S in
  Returns (standardised P)).

Fixpoint ppg_loop (rgb : list (list xreal)) (l : Z) (range : list nat)
  (H : list xreal) : answer (list xreal) :=
  match range with
  | [] => Returns H
  | t :: range' =>
      let i := Z.of_nat t in
      let j := (Z.of_nat t + l - 1)%Z in
      let C := transpose 3 (py_slice rgb i j) in
      and_then (pos_window C) (fun pulse =>
      and_then (slice_add H i j pulse) (fun H' =>
      ppg_loop rgb l range' H'))
  end.

Definition video_ppg (v : video) (sampling_rate : Z)
  : answer (list xreal) :=
  let faces := video_face v in
  let rgb := map (fun f => skin_colour (video_skin f)) faces in
  let l := window_length sampling_rate in
  let H := repeat (Finite 0) (length rgb) in
  ppg_loop rgb l (seq 0 (Z.to_nat (Z.of_nat (length rgb) - l))) H.

End VideoPPG.

Arguments video_ppg {video face} video_face video_skin inv_nonfinite v
  sampling_rate.

(** ** Notions used in the statements about [video_ppg] *)

(** The mask of the face has a pixel: the mean colour is a number. *)
Definition skin_visible (s : skin) : bool :=
  (0 <? count_positive (mask s))%nat.

(** The mean colour of a face whose mask has a pixel. *)
Definition mean_colour (s : skin) : list R :=
  let count := INR (count_positive (mask s)) in
  [(Rsum (plane0 s) / count)%R;
   (Rsum (plane1 s) / count)%R;
   (Rsum (plane2 s) / count)%R].

(** One colour channel of a sequence of colours. *)
Definition channel (c : nat) (colours : list (list R)) : list R :=
  map (fun row => nth c row 0%R) colours.

(** The colours that window [t] reads, [rgb[t : t + l - 1]]. *)
Definition window_colours (colours : list (list R)) (l : Z) (t : nat)
  : list (list R) :=
  py_slice colours (Z.of_nat t) (Z.of_nat t + l - 1).

(** A channel of the window has mean zero. *)
Definition zero_mean_channel (w : list (list R)) : bool :=
  existsb (fun c => is_zero (Rmean (channel c w))) (seq 0 3).

(** The skin seen through a camera with its own gain on each colour
    channel. *)
Definition with_gain (k0 k1 k2 : R) (s : skin) : skin :=
  {| mask := mask s;
     plane0 := map (Rmult k0) (plane0 s);
     plane1 := map (Rmult k1) (plane1 s);
     plane2 := map (Rmult k2) (plane2 s) |}.

(** A colour seen through that camera. *)
Definition gain_row (k0 k1 k2 : R) (row : list R) : list R :=
  [(k0 * nth 0 row 0)%R; (k1 * nth 1 row 0)%R; (k2 * nth 2 row 0)%R].

(** The mean colours of the faces of a video, frame by frame. *)
Definition colours_of {face : Type} (video_skin : face -> skin)
  (faces : list face) : list (list R) :=
  map (fun f => mean_colour (video_skin f)) faces.

(** Some window of the run has a channel of mean zero. *)
Definition some_window_singular (colours : list (list R)) (l : Z) : bool :=
  existsb (fun t => zero_mean_channel (window_colours colours l t))
          (seq 0 (Z.to_nat (Z.of_nat (length colours) - l))).

(** *** The setting of the examples: a video is the list of the skins of
    its faces, one pixel each, and non-finite matrices are not inverted. *)
Definition one_pixel (r g b : R) : skin :=
  {| mask := [1%R]; plane0 := [r]; plane1 := [g]; plane2 := [b] |}.

Definition example_video : list skin :=
  [one_pixel 1 2 1; one_pixel 2 1 3; one_pixel 1 1 1; one_pixel 3 2 2].

Definition no_inverse : list xreal -> answer (list (list xreal)) :=
  fun _ => Raises (LinAlgError singular_msg).

(* ================================================================= *)
(** * Properties *)

(** ** Windower: [_fractal_dfa_getwindow] *)

Lemma ceil_div_opp (a s : Z) :
  (0 < s)%Z -> (- ((- a) / s) = (a + s - 1) / s)%Z.
Proof.
  intros Hs.
  pose proof (Z.div_mod (- a) s ltac:(lia)) as E1.
  pose proof (Z.mod_pos_bound (- a) s Hs) as B1.
  pose proof (Z.div_mod (a + s - 1) s ltac:(lia)) as E2.
  pose proof (Z.mod_pos_bound (a + s - 1) s Hs) as B2.
  nia.
Qed.

Lemma arange_len_pos (stop step : Z) :
  (0 < stop)%Z -> (0 < step)%Z ->
  arange_len 0 stop step = ((stop + step - 1) / step)%Z.
Proof.
  intros Hstop Hstep. unfold arange_len.
  replace (0 - stop)%Z with (- stop)%Z by lia.
  rewrite ceil_div_opp by assumption.
  apply Z.max_r. apply Z.div_pos; lia.
Qed.

Lemma ceil_div_bounds (a s : Z) :
  (0 < s)%Z ->
  let c := ((a + s - 1) / s)%Z in
  ((c - 1) * s < a <= c * s)%Z.
Proof.
  intros Hs c. subst c.
  pose proof (Z.div_mod (a + s - 1) s ltac:(lia)) as E.
  pose proof (Z.mod_pos_bound (a + s - 1) s Hs) as B.
  nia.
Qed.

Lemma clip_index_inside (len i : Z) :
  (0 <= i <= len)%Z -> clip_index len i = i.
Proof.
  intros Hi. unfold clip_index.
  destruct (Z.ltb_spec i 0); lia.
Qed.

Lemma py_slice_inside {A : Type} (l : list A) (i j : Z) :
  (0 <= i <= j)%Z -> (j <= Z.of_nat (length l))%Z ->
  py_slice l i j = firstn (Z.to_nat (j - i)) (skipn (Z.to_nat i) l) /\
  length (py_slice l i j) = Z.to_nat (j - i).
Proof.
  intros Hij Hj. unfold py_slice.
  rewrite !clip_index_inside by lia.
  split; [reflexivity|].
  rewrite length_firstn, length_skipn. lia.
Qed.

Lemma np_array2d_uniform (l : list (list R)) (w : nat) :
  (forall r, In r l -> length r = w) -> np_array2d l = Ok l.
Proof.
  intros Hl. destruct l as [|r l']; [reflexivity|].
  unfold np_array2d.
  replace (forallb _ _) with true; [reflexivity|].
  symmetry. apply forallb_forall. intros r' Hr'.
  apply Nat.eqb_eq. rewrite (Hl r' Hr'), (Hl r (or_introl eq_refl)).
  reflexivity.
Qed.

(** The segments of the overlapping mode, for a valid window. *)
Lemma getwindow_overlap_eq (signal : series) (n w : Z) :
  Z.of_nat (length (samples signal)) = n -> (2 <= w < n)%Z ->
  _fractal_dfa_getwindow signal n w true =
  Ok (map (fun k => firstn (Z.to_nat w)
                      (skipn (Z.to_nat (Z.of_nat k * (w / 2))) (samples signal)))
          (seq 0 (Z.to_nat ((n - w + w / 2 - 1) / (w / 2))))).
Proof.
  intros Hn Hw.
  assert (Hs : (0 < w / 2)%Z) by (apply Z.div_str_pos; lia).
  unfold _fractal_dfa_getwindow, arange.
  destruct (Z.eqb_spec (w / 2) 0) as [E|_]; [lia|].
  rewrite arange_len_pos by lia.
  cbn [rbind]. rewrite map_map.
  set (c := ((n - w + w / 2 - 1) / (w / 2))%Z).
  pose proof (ceil_div_bounds (n - w) (w / 2) Hs) as Hc. cbv zeta in Hc. fold c in Hc.
  assert (Hmap :
    map (fun k => py_slice (samples signal) (0 + Z.of_nat k * (w / 2))
                    (0 + Z.of_nat k * (w / 2) + w)) (seq 0 (Z.to_nat c)) =
    map (fun k => firstn (Z.to_nat w)
                    (skipn (Z.to_nat (Z.of_nat k * (w / 2))) (samples signal)))
        (seq 0 (Z.to_nat c))).
  { apply map_ext_in. intros k Hk. apply in_seq in Hk.
    assert (Z.of_nat k * (w / 2) <= (c - 1) * (w / 2))%Z by nia.
    pose proof (py_slice_inside (samples signal) (0 + Z.of_nat k * (w / 2))%Z
                  (0 + Z.of_nat k * (w / 2) + w)%Z ltac:(nia) ltac:(nia))
      as [E _].
    rewrite E. f_equal. f_equal. lia. }
  rewrite Hmap.
  apply np_array2d_uniform with (w := Z.to_nat w).
  intros r Hr. apply in_map_iff in Hr. destruct Hr as [k [<- Hk]].
  apply in_seq in Hk.
  assert (Z.of_nat k * (w / 2) <= (c - 1) * (w / 2))%Z by nia.
  rewrite length_firstn, length_skipn. nia.
Qed.

(** C1, as the code has it: with [overlap = True], a series of length [n]
    and a window [2 <= w < n], the Windower returns the segments that start
    at the multiples of [w // 2] from 0 up to but excluding [n - w], each
    exactly [w] samples long; their number is [ceil((n - w) / (w // 2))],
    which is [floor((n - w) / (w // 2))] when [w // 2] divides [n - w] and
    one more otherwise. *)
Theorem getwindow_overlap_segments (signal : series) (n w : Z) :
  Z.of_nat (length (samples signal)) = n -> (2 <= w < n)%Z ->
  exists segments,
    _fractal_dfa_getwindow signal n w true = Ok segments /\
    Z.of_nat (length segments) = ((n - w + w / 2 - 1) / (w / 2))%Z /\
    Z.of_nat (length segments) =
      ((n - w) / (w / 2) + (if ((n - w) mod (w / 2) =? 0) then 0 else 1))%Z /\
    (forall k, (k < length segments)%nat ->
       let i := (Z.of_nat k * (w / 2))%Z in
       (0 <= i < n - w)%Z /\
       nth k segments [] =
         firstn (Z.to_nat w) (skipn (Z.to_nat i) (samples signal)) /\
       length (nth k segments []) = Z.to_nat w) /\
    (forall i, (0 <= i < n - w)%Z -> (i mod (w / 2) = 0)%Z ->
       exists k, (k < length segments)%nat /\ i = (Z.of_nat k * (w / 2))%Z).
Proof.
  intros Hn Hw.
  assert (Hs : (0 < w / 2)%Z) by (apply Z.div_str_pos; lia).
  pose proof (ceil_div_bounds (n - w) (w / 2) Hs) as Hc. cbv zeta in Hc.
  set (c := ((n - w + w / 2 - 1) / (w / 2))%Z) in *.
  assert (Hc0 : (0 <= c)%Z) by (apply Z.div_pos; lia).
  eexists. split; [apply getwindow_overlap_eq; assumption|].
  fold c. rewrite length_map, length_seq.
  split; [lia|]. split.
  { rewrite Z2Nat.id by lia.
    pose proof (Z.div_mod (n - w) (w / 2) ltac:(lia)) as E.
    pose proof (Z.mod_pos_bound (n - w) (w / 2) Hs) as B.
    destruct (Z.eqb_spec ((n - w) mod (w / 2)) 0); nia. }
  split.
  - intros k Hk i.
    assert (Hi : (0 <= i < n - w)%Z) by (subst i; nia).
    split; [exact Hi|].
    set (f := fun k0 : nat => firstn (Z.to_nat w)
                 (skipn (Z.to_nat (Z.of_nat k0 * (w / 2))) (samples signal))).
    assert (E : nth k (map f (seq 0 (Z.to_nat c))) [] = f k).
    { rewrite nth_indep with (d' := f 0%nat)
        by (rewrite length_map, length_seq; exact Hk).
      rewrite map_nth, seq_nth by exact Hk. reflexivity. }
    rewrite E. unfold f. split; [reflexivity|].
    rewrite length_firstn, length_skipn. lia.
  - intros i Hi Hmod.
    exists (Z.to_nat (i / (w / 2))).
    pose proof (Z.div_mod i (w / 2) ltac:(lia)) as E.
    assert (0 <= i / (w / 2))%Z by (apply Z.div_pos; lia).
    split; [|rewrite Z2Nat.id by lia; lia].
    apply Nat2Z.inj_lt. rewrite !Z2Nat.id by lia. nia.
Qed.

(** A witness of [getwindow_overlap_segments]: a series of 7 samples and a
    window of 4. *)
Lemma getwindow_overlap_segments_witness :
  exists segments,
    _fractal_dfa_getwindow (mkSeries true (repeat 0%R 7)) 7 4 true = Ok segments /\
    Z.of_nat (length segments) = ((7 - 4 + 4 / 2 - 1) / (4 / 2))%Z.
Proof.
  destruct (getwindow_overlap_segments (mkSeries true (repeat 0%R 7)) 7 4
              eq_refl ltac:(lia))
    as [segments [E [L _]]].
  exists segments. split; assumption.
Defined.

(** C1 as stated fails on the count: 7 samples and a window of 4 give the two
    segments starting at 0 and 2, while [floor((7 - 4) / (4 // 2)) = 1]. *)
Lemma getwindow_overlap_count_counterexample :
  exists segments,
    _fractal_dfa_getwindow (mkSeries true (repeat 0%R 7)) 7 4 true = Ok segments /\
    Z.of_nat (length segments) <> ((7 - 4) / (4 / 2))%Z.
Proof.
  eexists. split; [reflexivity|]. cbn. discriminate.
Qed.

(** ** ExponentSanitizer: [_sanitize_q] *)

Lemma Qlt_bool_iff (x y : Q) : Qlt_bool x y = true <-> (x < y)%Q.
Proof.
  unfold Qlt_bool. rewrite Qlt_alt.
  destruct (x ?= y)%Q; split; congruence.
Qed.

Lemma outside_tenth_abs (x : Q) :
  Qlt_bool x (-1 # 10) || Qlt_bool (1 # 10) x = exceeds_tenth x.
Proof.
  unfold exceeds_tenth. apply eq_true_iff_eq.
  rewrite orb_true_iff, !Qlt_bool_iff.
  split.
  - intros Hx. apply Qnot_le_lt. intros Habs.
    apply Qabs_Qle_condition in Habs. destruct Habs as [Hlo Hhi].
    destruct Hx as [Hx|Hx].
    + apply (Qlt_not_le _ _ Hx). exact Hlo.
    + apply (Qlt_not_le _ _ Hx). exact Hhi.
  - intros Habs.
    destruct (Qlt_le_dec x (-1 # 10)) as [Hlo|Hlo]; [left; exact Hlo|].
    destruct (Qlt_le_dec (1 # 10) x) as [Hhi|Hhi]; [right; exact Hhi|].
    exfalso. apply (Qlt_not_le _ _ Habs).
    apply Qabs_Qle_condition. split; assumption.
Qed.

Lemma rmapM_finite (l : list Q) :
  rmapM (fun x => match x with
                  | Fl v => Ok v
                  | _ => Err (ValueError chkfinite_msg)
                  end) (map Fl l) = Ok l.
Proof.
  induction l as [|x l IH]; [reflexivity|].
  cbn [map rmapM rbind]. rewrite IH. reflexivity.
Qed.

(** C5: on finite exponents the sanitizer keeps exactly those with
    [|q| > 0.1], in their order, whether they come as a sequence or as one
    number; [[-5, -0.05, 0, 0.05, 5]] becomes [[-5, 5]]; the default with
    [multifractal = True] is [[-5, -3, -1, 1, 3, 5]], which has no 0. *)
Theorem sanitize_q_keeps_outside_tenth :
  (forall (l : list Q) (multifractal : bool),
     _sanitize_q (QList (map Fl l)) multifractal = Ok (filter exceeds_tenth l)) /\
  (forall (x : Q) (multifractal : bool),
     _sanitize_q (QScalar (Fl x)) multifractal = Ok (filter exceeds_tenth [x])) /\
  (forall multifractal : bool,
     _sanitize_q (QList (map Fl [-5; -5 # 100; 0; 5 # 100; 5]%Q)) multifractal
     = Ok [-5; 5]%Q) /\
  _sanitize_q QDefault true = Ok [-5; -3; -1; 1; 3; 5]%Q /\
  existsb (Qeq_bool 0) [-5; -3; -1; 1; 3; 5]%Q = false.
Proof.
  split; [|split; [|split; [|split]]].
  - intros l multifractal. unfold _sanitize_q, asarray_chkfinite.
    rewrite rmapM_finite. cbn [rbind]. f_equal.
    apply filter_ext. intros x. apply outside_tenth_abs.
  - intros x multifractal. unfold _sanitize_q, asarray_chkfinite.
    cbn [rmapM rbind]. f_equal.
    apply filter_ext. intros y. apply outside_tenth_abs.
  - intros multifractal. reflexivity.
  - reflexivity.
  - reflexivity.
Qed.

(** ** ScaleSelector: [_fractal_dfa_findscales] *)

Lemma fold_min_spec (l : list Z) (a : Z) :
  In (fold_left Z.min l a) (a :: l) /\
  (forall x, In x (a :: l) -> (fold_left Z.min l a <= x)%Z).
Proof.
  revert a. induction l as [|b l IH]; intros a.
  - cbn. split; [left; reflexivity|]. intros x [<-|[]]. lia.
  - cbn [fold_left]. destruct (IH (Z.min a b)) as [Hin Hle]. split.
    + destruct Hin as [E|Hin].
      * rewrite <- E. destruct (Z.min_spec a b) as [[_ ->]|[_ ->]];
          [left; reflexivity | right; left; reflexivity].
      * right; right; exact Hin.
    + intros x [<-|[<-|Hx]].
      * pose proof (Hle (Z.min a b) (or_introl eq_refl)). lia.
      * pose proof (Hle (Z.min a b) (or_introl eq_refl)). lia.
      * apply Hle. right; exact Hx.
Qed.

Lemma fold_max_spec (l : list Z) (a : Z) :
  In (fold_left Z.max l a) (a :: l) /\
  (forall x, In x (a :: l) -> (x <= fold_left Z.max l a)%Z).
Proof.
  revert a. induction l as [|b l IH]; intros a.
  - cbn. split; [left; reflexivity|]. intros x [<-|[]]. lia.
  - cbn [fold_left]. destruct (IH (Z.max a b)) as [Hin Hle]. split.
    + destruct Hin as [E|Hin].
      * rewrite <- E. destruct (Z.max_spec a b) as [[_ ->]|[_ ->]];
          [right; left; reflexivity | left; reflexivity].
      * right; right; exact Hin.
    + intros x [<-|[<-|Hx]].
      * pose proof (Hle (Z.max a b) (or_introl eq_refl)). lia.
      * pose proof (Hle (Z.max a b) (or_introl eq_refl)). lia.
      * apply Hle. right; exact Hx.
Qed.

Lemma np_min_below (l : list Z) (b : Z) :
  l <> [] -> ((np_min l <? b)%Z = true <-> exists x, In x l /\ (x < b)%Z).
Proof.
  destruct l as [|a l]; [congruence|]. intros _. unfold np_min.
  destruct (fold_min_spec l a) as [Hin Hle].
  rewrite Z.ltb_lt. split.
  - intros Hlt. exists (fold_left Z.min l a). split; assumption.
  - intros [x [Hx Hlt]]. specialize (Hle x Hx). lia.
Qed.

Lemma np_max_reaches (l : list Z) (b : Z) :
  l <> [] -> ((np_max l >=? b)%Z = true <-> exists x, In x l /\ (x >= b)%Z).
Proof.
  destruct l as [|a l]; [congruence|]. intros _. unfold np_max.
  destruct (fold_max_spec l a) as [Hin Hle].
  rewrite Z.geb_le. split.
  - intros Hge. exists (fold_left Z.max l a). split; [assumption|lia].
  - intros [x [Hx Hge]]. specialize (Hle x Hx). lia.
Qed.

(** [np.unique] keeps the values and drops the repetitions. *)
Lemma insert_unique_In (x y : Z) (l : list Z) :
  In y (insert_unique x l) <-> y = x \/ In y l.
Proof.
  induction l as [|z l IH]; cbn [insert_unique].
  - cbn. intuition.
  - destruct (Z.ltb_spec x z).
    + cbn. intuition.
    + destruct (Z.eqb_spec x z).
      * subst. cbn. intuition.
      * cbn [In]. rewrite IH. intuition.
Qed.

Lemma np_unique_In (y : Z) (l : list Z) : In y (np_unique l) <-> In y l.
Proof.
  induction l as [|x l IH]; [reflexivity|].
  cbn [np_unique fold_right]. fold (np_unique l).
  rewrite insert_unique_In, IH. cbn. intuition.
Qed.

Lemma insert_unique_sorted (x : Z) (l : list Z) :
  StronglySorted Z.lt l -> StronglySorted Z.lt (insert_unique x l).
Proof.
  induction l as [|z l IH]; intros Hs; cbn [insert_unique].
  - constructor; constructor.
  - inversion Hs as [|? ? Hs' Hall]; subst.
    destruct (Z.ltb_spec x z).
    + constructor; [exact Hs|]. constructor; [assumption|].
      eapply Forall_impl; [|exact Hall]. cbn. intros; lia.
    + destruct (Z.eqb_spec x z); [exact Hs|].
      constructor; [apply IH; exact Hs'|].
      apply Forall_forall. intros y Hy. apply insert_unique_In in Hy.
      destruct Hy as [->|Hy]; [lia|].
      rewrite Forall_forall in Hall. apply Hall. exact Hy.
Qed.

Lemma np_unique_sorted (l : list Z) : StronglySorted Z.lt (np_unique l).
Proof.
  induction l as [|x l IH]; [constructor|].
  cbn [np_unique fold_right]. apply insert_unique_sorted. exact IH.
Qed.

Lemma np_unique_NoDup (l : list Z) : NoDup (np_unique l).
Proof.
  pose proof (np_unique_sorted l) as Hs.
  induction Hs as [|a l' Hs IH Hall]; constructor; [|exact IH].
  intros Hin. rewrite Forall_forall in Hall. specialize (Hall a Hin). lia.
Qed.

Lemma findscales_validates (expspace : Z -> Z -> Z -> Z -> list Z) (n : Z)
  (scale : scale_arg) :
  _fractal_dfa_findscales expspace n scale =
  let c := validated_scales expspace n scale in
  if (length c <? 2)%nat then Err (ValueError more_windows_msg)
  else if (np_min c <? 2)%Z then Err (ValueError two_points_msg)
  else if (np_max c >=? n)%Z then Err (ValueError too_long_msg)
  else Ok c.
Proof. destruct scale; reflexivity. Qed.

(** C4, as the code has it: the scales that are validated are the generated
    ones after deduplication, or the caller's own sequence as it is
    (repetitions included).  The ScaleSelector raises one of the three
    InvalidScaleErrors exactly when that sequence has fewer than 2 entries,
    or has an entry below 2, or has an entry of at least [n]; otherwise it
    returns the sequence. *)
Theorem findscales_raises_iff (expspace : Z -> Z -> Z -> Z -> list Z) (n : Z)
  (scale : scale_arg) :
  let c := validated_scales expspace n scale in
  let invalid :=
    (length c < 2)%nat \/
    (exists x, In x c /\ (x < 2)%Z) \/
    (exists x, In x c /\ (x >= n)%Z) in
  ((exists e, _fractal_dfa_findscales expspace n scale = Err e /\
              InvalidScaleError e) <-> invalid) /\
  (_fractal_dfa_findscales expspace n scale = Ok c <-> ~ invalid) /\
  (forall r, _fractal_dfa_findscales expspace n scale = Ok r -> r = c).
Proof.
  intros c invalid. rewrite findscales_validates. fold c. cbv zeta.
  unfold InvalidScaleError.
  destruct (Nat.ltb_spec (length c) 2) as [Hlen|Hlen].
  { assert (invalid) by (left; exact Hlen).
    split; [|split].
    - split; [trivial|]. intros _. eexists. split; [reflexivity|]. auto.
    - split; [discriminate|]. intros Hn. contradiction.
    - discriminate. }
  assert (Hne : c <> []) by (destruct c; cbn in Hlen; [lia|discriminate]).
  pose proof (np_min_below c 2 Hne) as Hmin.
  pose proof (np_max_reaches c n Hne) as Hmax.
  destruct (np_min c <? 2)%Z.
  { assert (invalid) by (right; left; apply Hmin; reflexivity).
    split; [|split].
    - split; [trivial|]. intros _. eexists. split; [reflexivity|]. auto.
    - split; [discriminate|]. intros Hn. contradiction.
    - discriminate. }
  destruct (np_max c >=? n)%Z.
  { assert (invalid) by (right; right; apply Hmax; reflexivity).
    split; [|split].
    - split; [trivial|]. intros _. eexists. split; [reflexivity|]. auto.
    - split; [discriminate|]. intros Hn. contradiction.
    - discriminate. }
  assert (Hvalid : ~ invalid).
  { intros [H1|[H2|H3]].
    - lia.
    - apply Hmin in H2. discriminate.
    - apply Hmax in H3. discriminate. }
  split; [|split].
  - split; [|contradiction]. intros [e [E _]]. discriminate.
  - split; [intros _; exact Hvalid | reflexivity].
  - intros r E. congruence.
Qed.

(** C4 as stated fails on a caller's sequence with a repeated scale: on a
    signal of length 100, [[5, 5]] has a single distinct value, yet it is
    returned and nothing is raised. *)
Lemma findscales_repeated_scale_counterexample :
  length (np_unique [5; 5]%Z) = 1%nat /\
  _fractal_dfa_findscales (fun _ _ _ _ => []) 100 (ScaleList [5; 5]%Z)
  = Ok [5; 5]%Z.
Proof. split; reflexivity. Qed.

(** ** Entry point: the guard on the dimensions *)

(** C6: an array or a data frame with more than one dimension makes the
    entry point raise the DimensionalityError, whatever the other arguments
    and whatever the scale generator would do, and the error policy is
    left untouched: the guard comes before every other step, and no result
    is produced.  A Python list of rows has more than one dimension too,
    but the guard does not look at lists: the scales are chosen for the
    number of rows, so a scale that the validation rejects is reported as
    such; and with [integrate], when the rows have one length, the entry
    point analyses the profile of the flattened rows. *)
Theorem fractal_dfa_rejects_multidimensional
  (expspace : Z -> Z -> Z -> Z -> list Z)
  (polyfit : list R -> list R -> nat -> list R)
  (polyfit_log : list xreal -> list xreal -> nat -> list xreal)
  (scale : scale_arg) (overlap integrate : bool)
  (order : nat) (multifractal : bool) (q : q_arg) (st : errstate) :
  (forall signal,
     is_array_or_frame signal = true -> (1 < signal_ndim signal)%nat ->
     fractal_dfa expspace polyfit polyfit_log signal scale overlap integrate
       order multifractal q st
     = (Err DimensionalityError, st)) /\
  (forall rows e,
     _fractal_dfa_findscales expspace (Z.of_nat (length rows)) scale = Err e ->
     fractal_dfa expspace polyfit polyfit_log (NestedList rows) scale overlap
       integrate order multifractal q st
     = (Err e, st)) /\
  (forall rows array,
     np_array2d (map row_values rows) = Ok array ->
     fractal_dfa expspace polyfit polyfit_log (NestedList rows) scale overlap
       true order multifractal q st
     = run_on expspace polyfit polyfit_log
         (profile true (concat array) true) (Z.of_nat (length rows)) scale
         overlap order multifractal q st).
Proof.
  split; [|split].
  - intros signal Hguard Hdim.
    destruct signal as [v|ndim v|v|rows|v]; cbn in Hguard, Hdim;
      try discriminate.
    + destruct ndim as [|[|ndim]]; [lia|lia|reflexivity].
    + reflexivity.
  - intros rows e Esc. unfold fractal_dfa, bind, lift.
    rewrite length_map, Esc. reflexivity.
  - intros rows array Ea. unfold fractal_dfa, run_on, bind, lift.
    rewrite length_map.
    destruct (_fractal_dfa_findscales expspace _ scale); [|reflexivity].
    destruct (_sanitize_q q multifractal); [|reflexivity].
    rewrite Ea. reflexivity.
Qed.

(** A witness of [fractal_dfa_rejects_multidimensional]: a 2-D array, with
    a [scale] that the validation would reject. *)
Lemma fractal_dfa_rejects_multidimensional_witness :
  fractal_dfa (fun _ _ _ _ => []) (fun _ _ _ => []) (fun _ _ _ => [])
    (NdArray 2 [1; 2; 3; 4]%R) (ScaleList [1; 5]%Z) true true 1 false QDefault
    (mkErrstate Warn Warn Ignore Warn)
  = (Err DimensionalityError, mkErrstate Warn Warn Ignore Warn).
Proof.
  apply (proj1 (fractal_dfa_rejects_multidimensional (fun _ _ _ _ => [])
                  (fun _ _ _ => []) (fun _ _ _ => []) (ScaleList [1; 5]%Z)
                  true true 1 false QDefault
                  (mkErrstate Warn Warn Ignore Warn))).
  - reflexivity.
  - cbn. lia.
Defined.

(** ** The error policy around the relaxed regions *)

Lemma slopes_loop_errstate
  (polyfit_log : list xreal -> list xreal -> nat -> list xreal)
  (scale : list Z) (fluctuations : matrix) (range : list nat) :
  forall (slopes : list xreal) (st : errstate),
    snd (slopes_loop polyfit_log scale fluctuations range slopes st) = st \/
    fst (slopes_loop polyfit_log scale fluctuations range slopes st)
    = Err IndexError.
Proof.
  induction range as [|i range IH]; intros slopes st.
  - left. reflexivity.
  - cbn [slopes_loop]. unfold bind, seterr_divide_invalid, seterr_all, lift.
    destruct (polyfit_log _ _ 1) as [|c cs].
    + right. reflexivity.
    + apply IH.
Qed.

Lemma slopes_errstate
  (polyfit_log : list xreal -> list xreal -> nat -> list xreal)
  (scale : list Z) (fluctuations : matrix) (q : list R) (st st' : errstate)
  (slopes : list xreal) :
  _slopes polyfit_log scale fluctuations q st = (Ok slopes, st') -> st' = st.
Proof.
  intros E. unfold _slopes in E.
  destruct (negb (ncols fluctuations =? length q)%nat).
  - discriminate.
  - destruct (slopes_loop_errstate polyfit_log scale fluctuations
                (seq 0 (length q)) (repeat (Finite 0) (length q)) st)
      as [H|H]; rewrite E in H; cbn in H; congruence.
Qed.

Lemma fluctuation_errstate (segments trends : list (list R))
  (multifractal : bool) (q : list R) (st : errstate) :
  snd (_fractal_dfa_fluctuation segments trends multifractal q st) = st.
Proof.
  unfold _fractal_dfa_fluctuation, bind, lift, seterr_divide_invalid,
    seterr_all, ret.
  destruct (broadcast_rows _ segments trends); [|reflexivity].
  destruct multifractal; reflexivity.
Qed.

(** C8: the slope regression leaves the error policy as it found it
    whenever it returns, and also when it rejects mismatched dimensions
    (the only way out with the relaxed policy in force would be a fit
    without coefficients, which numpy never returns); the fluctuation
    computation always leaves it as it found it; and relaxing then
    restoring is the identity on the policy. *)
Theorem errstate_restored
  (polyfit_log : list xreal -> list xreal -> nat -> list xreal) :
  (forall scale fluctuations q st slopes st',
     _slopes polyfit_log scale fluctuations q st = (Ok slopes, st') ->
     st' = st) /\
  (forall scale fluctuations q st,
     (forall x y, polyfit_log x y 1 <> []) ->
     snd (_slopes polyfit_log scale fluctuations q st) = st) /\
  (forall segments trends multifractal q st,
     snd (_fractal_dfa_fluctuation segments trends multifractal q st) = st) /\
  (forall st,
     bind (seterr_divide_invalid Ignore Ignore) seterr_all st
     = (Ok (mkErrstate Ignore (over st) (under st) Ignore), st)).
Proof.
  split; [|split; [|split]].
  - intros scale fluctuations q st slopes st' E.
    exact (slopes_errstate polyfit_log scale fluctuations q st st' slopes E).
  - intros scale fluctuations q st Hfit.
    unfold _slopes.
    destruct (negb (ncols fluctuations =? length q)%nat); [reflexivity|].
    generalize (repeat (Finite 0) (length q)).
    generalize (seq 0 (length q)).
    intros range. revert st.
    induction range as [|i range IH]; intros st slopes; [reflexivity|].
    cbn [slopes_loop]. unfold bind, seterr_divide_invalid, seterr_all, lift.
    destruct (polyfit_log _ _ 1) as [|c cs] eqn:E.
    + exfalso. exact (Hfit _ _ E).
    + apply IH.
  - intros segments trends multifractal q st.
    apply fluctuation_errstate.
  - intros st. reflexivity.
Qed.

(** ** FluctuationEstimator: signs *)

Lemma Rsign_spec (r : R) :
  (Rsign r = Lt /\ r < 0)%R \/ (Rsign r = Eq /\ r = 0%R) \/
  (Rsign r = Gt /\ 0 < r)%R.
Proof.
  unfold Rsign. destruct (total_order_T r 0) as [[H|H]|H]; auto.
Qed.

Lemma Rsign_pos (r : R) : (0 < r)%R -> Rsign r = Gt.
Proof. intros H. destruct (Rsign_spec r) as [[_ ?]|[[_ ?]|[? _]]]; auto; lra. Qed.

Lemma Rsign_zero : Rsign 0 = Eq.
Proof. destruct (Rsign_spec 0) as [[_ ?]|[[? _]|[_ ?]]]; auto; lra. Qed.

Lemma nonneg_xadd (a b : xreal) :
  nonneg_or_nan a -> nonneg_or_nan b -> nonneg_or_nan (xadd a b).
Proof.
  destruct a, b; cbn; intros; try tauto; lra.
Qed.

Lemma nonneg_xsum (l : list xreal) :
  Forall nonneg_or_nan l -> nonneg_or_nan (xsum l).
Proof.
  induction 1 as [|a l Ha Hl IH]; cbn.
  - lra.
  - apply nonneg_xadd; assumption.
Qed.

Lemma nonneg_xdiv_count (a : xreal) (n : nat) :
  nonneg_or_nan a -> nonneg_or_nan (xdiv a (Finite (INR n))).
Proof.
  pose proof (pos_INR n) as Hn.
  destruct a as [x| | |]; cbn; intros Ha; try tauto.
  - destruct (Req_dec_T (INR n) 0) as [E|E].
    + destruct (Rsign_spec x) as [[-> ?]|[[-> ?]|[-> ?]]]; cbn; auto; lra.
    + cbn. apply Rmult_le_pos; [exact Ha|].
      apply Rlt_le, Rinv_0_lt_compat. lra.
  - destruct (Rlt_dec (INR n) 0); [lra|exact I].
Qed.

Lemma nonneg_xmean (l : list xreal) :
  Forall nonneg_or_nan l -> nonneg_or_nan (xmean l).
Proof.
  intros Hl. unfold xmean. apply nonneg_xdiv_count, nonneg_xsum, Hl.
Qed.

Lemma nonneg_xsqrt (a : xreal) : nonneg_or_nan a -> nonneg_or_nan (xsqrt a).
Proof.
  destruct a as [x| | |]; cbn; intros Ha; try tauto.
  destruct (Rlt_dec x 0); cbn; [exact I|]. apply sqrt_pos.
Qed.

Lemma nonneg_Rpow_fin (x y : R) : (0 <= x)%R -> nonneg_or_nan (Rpow_fin x y).
Proof.
  intros Hx. unfold Rpow_fin.
  destruct (Rsign_spec x) as [[-> ?]|[[-> ?]|[-> ?]]]; [lra| |].
  - destruct (Rlt_dec 0 y); cbn; auto; lra.
  - cbn. unfold Rpower. apply Rlt_le, exp_pos.
Qed.

Lemma nonneg_float_power (a b : xreal) :
  nonneg_or_nan a -> nonneg_or_nan (float_power a b).
Proof.
  intros Ha.
  destruct a as [x| | |]; destruct b as [y| | |]; cbn in Ha |- *;
    try tauto; try lra.
  - destruct (Req_dec_T y 0); [cbn; lra|]. apply nonneg_Rpow_fin, Ha.
  - destruct (Rsign (Rabs x - 1)); cbn; auto; lra.
  - destruct (Rsign (Rabs x - 1)); cbn; auto; lra.
  - destruct (Req_dec_T x 1); cbn; auto; lra.
  - destruct (Req_dec_T y 0); [cbn; lra|].
    destruct (Rlt_dec 0 y); cbn; auto; lra.
  - destruct (Req_dec_T y 0); cbn; auto; lra.
Qed.

Lemma Rsum_nonneg (l : list R) :
  Forall (fun x => 0 <= x)%R l -> (0 <= Rsum l)%R.
Proof.
  induction 1 as [|x l Hx Hl IH].
  - cbn. lra.
  - change (Rsum (x :: l)) with (x + Rsum l)%R. lra.
Qed.

Lemma Rmean_nonneg (l : list R) :
  Forall (fun x => 0 <= x)%R l -> (0 <= Rmean l)%R.
Proof.
  intros Hl. unfold Rmean, Rdiv.
  destruct l as [|x l'].
  - cbn. rewrite Rmult_0_l. lra.
  - apply Rmult_le_pos; [apply Rsum_nonneg; exact Hl|].
    apply Rlt_le, Rinv_0_lt_compat. apply lt_0_INR. cbn. lia.
Qed.

Lemma nonneg_var (row : list R) : nonneg_or_nan (var row).
Proof.
  destruct row as [|x row]; [exact I|].
  unfold var. cbn [nonneg_or_nan]. apply Rmean_nonneg.
  apply Forall_forall. intros y Hy. apply in_map_iff in Hy.
  destruct Hy as [z [<- _]]. apply Rle_0_sqr.
Qed.

Lemma nonneg_fluctuation_multi (detrended : list (list R)) (q : list R) :
  Forall nonneg_or_nan (fluctuation_multi detrended q).
Proof.
  unfold fluctuation_multi. apply Forall_forall. intros a Ha.
  apply in_map_iff in Ha. destruct Ha as [qj [<- _]].
  apply nonneg_float_power, nonneg_xmean.
  apply Forall_forall. intros b Hb. apply in_map_iff in Hb.
  destruct Hb as [v [<- Hv]]. apply nonneg_float_power.
  apply in_map_iff in Hv. destruct Hv as [row [<- _]]. apply nonneg_var.
Qed.

Lemma nonneg_fluctuation_mono (detrended : list (list R)) :
  nonneg_or_nan (fluctuation_mono detrended).
Proof.
  unfold fluctuation_mono.
  apply nonneg_xsqrt, nonneg_xdiv_count, nonneg_xsum.
  apply Forall_forall. intros a Ha. apply in_map_iff in Ha.
  destruct Ha as [row [<- _]]. apply nonneg_xdiv_count.
  cbn. apply Rsum_nonneg. apply Forall_forall. intros y Hy.
  apply in_map_iff in Hy. destruct Hy as [z [<- _]].
  apply pow2_ge_0.
Qed.

Lemma fluctuation_entries_nonneg (segments trends : list (list R))
  (multifractal : bool) (q : list R) (st st' : errstate)
  (f : scalar_or_vector) :
  _fractal_dfa_fluctuation segments trends multifractal q st = (Ok f, st') ->
  entries_nonneg f.
Proof.
  unfold _fractal_dfa_fluctuation, bind, lift, seterr_divide_invalid,
    seterr_all, ret.
  destruct (broadcast_rows _ segments trends) as [detrended|e]; [|discriminate].
  destruct multifractal; intros E; inversion E; subst; cbn.
  - apply nonneg_fluctuation_multi.
  - apply nonneg_fluctuation_mono.
Qed.

(** ** Detrender: residuals of a least-squares fit *)

Section LeastSquares.

Local Open Scope R_scope.

Lemma Rsum_cons (x : R) (l : list R) : Rsum (x :: l) = x + Rsum l.
Proof. reflexivity. Qed.

Lemma polyval_snoc (p : list R) (a x : R) :
  polyval (p ++ [a]) x = polyval p x * x + a.
Proof. unfold polyval. rewrite fold_left_app. reflexivity. Qed.

Lemma residuals_shift (p : list R) (a t : R) (x y : list R) :
  residuals x y (p ++ [a + t]) =
  map (fun r => r - t) (residuals x y (p ++ [a])).
Proof.
  unfold residuals. revert y.
  induction x as [|xi x IH]; intros [|yi y]; try reflexivity.
  cbn [zip_with map]. rewrite IH, !polyval_snoc. f_equal. ring.
Qed.

Lemma sum_sq_shift (t : R) (l : list R) :
  sum_sq (map (fun r => r - t) l) =
  sum_sq l - 2 * t * Rsum l + INR (length l) * t ^ 2.
Proof.
  unfold sum_sq. induction l as [|r l IH].
  - cbn. ring.
  - cbn [map length]. rewrite !Rsum_cons, IH, S_INR. ring.
Qed.

(** A fit that cannot be improved by moving its constant term leaves
    residuals that sum to zero. *)
Lemma least_squares_residuals_sum (x y : list R) (deg : nat) (c : list R) :
  least_squares x y deg c -> Rsum (residuals x y c) = 0.
Proof.
  intros [Hlen Hmin].
  destruct (exists_last (l := c)) as [p [a ->]];
    [intros ->; discriminate|].
  set (r := residuals x y (p ++ [a])) in *.
  destruct (length r) as [|m] eqn:Hr.
  { apply length_zero_iff_nil in Hr. rewrite Hr. reflexivity. }
  set (n := INR (S m)).
  assert (Hn : 0 < n) by (apply lt_0_INR; lia).
  set (t := Rsum r / n).
  assert (Ht : n * t = Rsum r) by (unfold t; field; lra).
  clearbody t.
  specialize (Hmin (p ++ [a + t])).
  rewrite residuals_shift in Hmin. fold r in Hmin.
  rewrite sum_sq_shift, Hr in Hmin. fold n in Hmin.
  assert (Hlen' : length (p ++ [a + t]) = S deg).
  { rewrite length_app in Hlen |- *. exact Hlen. }
  specialize (Hmin Hlen'). rewrite <- Ht in Hmin.
  clearbody n. generalize dependent (sum_sq r). intros s Hmin.
  assert (Hsq : n * (t * t) <= 0) by (simpl in Hmin; lra).
  assert (Ht0 : t = 0).
  { apply Rsqr_0_uniq. unfold Rsqr.
    apply Rle_antisym; [|apply Rle_0_sqr].
    destruct (Rle_lt_dec (t * t) 0) as [H0|H0]; [exact H0|].
    pose proof (Rmult_lt_0_compat n (t * t) Hn H0). lra. }
  rewrite <- Ht, Ht0. ring.
Qed.

Lemma zip_with_minus_map (g : R -> R) (x y : list R) :
  zip_with Rminus y (map g x) = zip_with (fun xi yi => yi - g xi) x y.
Proof.
  revert y. induction x as [|xi x IH]; intros [|yi y]; try reflexivity.
  cbn [map zip_with]. rewrite IH. reflexivity.
Qed.

(** *** Variance and mean square of centred values *)

Lemma var_centred (row : list R) :
  row <> [] -> Rsum row = 0 ->
  var row = Finite (sum_sq row / INR (length row)).
Proof.
  intros Hne Hsum. destruct row as [|x row]; [congruence|].
  unfold var, Rmean, sum_sq. rewrite Hsum, length_map. f_equal. f_equal.
  f_equal. apply map_ext. intros z. unfold Rsqr, Rdiv. ring.
Qed.

Lemma mean_sq_row (row : list R) :
  row <> [] ->
  xdiv (Finite (Rsum (map (fun x => x ^ 2) row))) (Finite (INR (length row)))
  = Finite (sum_sq row / INR (length row)).
Proof.
  intros Hne. cbn [xdiv].
  destruct (Req_dec_T (INR (length row)) 0) as [E|E]; [|reflexivity].
  exfalso. destruct row; [congruence|].
  pose proof (lt_0_INR (length (r :: row)) ltac:(cbn; lia)). lra.
Qed.



Lemma xsum_finite (l : list R) : xsum (map Finite l) = Finite (Rsum l).
Proof.
  induction l as [|x l IH]; [reflexivity|].
  cbn [map]. unfold xsum in *. cbn [fold_right]. rewrite IH. reflexivity.
Qed.

Lemma xmean_finite (l : list R) :
  l <> [] -> xmean (map Finite l) = Finite (Rmean l).
Proof.
  intros Hne. unfold xmean. rewrite xsum_finite, length_map. cbn [xdiv].
  destruct (Req_dec_T (INR (length l)) 0) as [E|E]; [|reflexivity].
  exfalso. destruct l; [congruence|].
  pose proof (lt_0_INR (length (r :: l)) ltac:(cbn; lia)). lra.
Qed.

Lemma sum_sq_nonneg (l : list R) : 0 <= sum_sq l.
Proof.
  unfold sum_sq. apply Rsum_nonneg. apply Forall_forall.
  intros y Hy. apply in_map_iff in Hy. destruct Hy as [z [<- _]].
  apply pow2_ge_0.
Qed.

Lemma mean_sq_nonneg (row : list R) : 0 <= sum_sq row / INR (length row).
Proof.
  destruct row as [|x row].
  - unfold sum_sq, Rdiv. cbn. rewrite Rmult_0_l. lra.
  - apply Rmult_le_pos; [apply sum_sq_nonneg|].
    apply Rlt_le, Rinv_0_lt_compat, lt_0_INR. cbn. lia.
Qed.


End LeastSquares.

(** ** Windower, Detrender and FluctuationEstimator on valid windows *)

Lemma length_chunk {A : Type} (r c : nat) (l : list A) :
  length (chunk r c l) = r.
Proof.
  revert l. induction r as [|r IH]; intros l; [reflexivity|].
  cbn [chunk length]. rewrite IH. reflexivity.
Qed.

Lemma chunk_rows {A : Type} (r c : nat) (l : list A) :
  (r * c <= length l)%nat ->
  forall s, In s (chunk r c l) -> length s = c.
Proof.
  revert l. induction r as [|r IH]; intros l Hl s Hs; [destruct Hs|].
  cbn [chunk] in Hs. destruct Hs as [<-|Hs].
  - rewrite length_firstn. lia.
  - apply (IH (skipn c l)); [|exact Hs]. rewrite length_skipn. lia.
Qed.

(** The Windower returns a proper batch for every validated window, in
    both modes (the non-overlapping one needs an array to reshape). *)
Lemma getwindow_batch (signal : series) (n w : Z) (overlap : bool) :
  Z.of_nat (length (samples signal)) = n -> (2 <= w < n)%Z ->
  overlap = true \/ is_ndarray signal = true ->
  exists segments,
    _fractal_dfa_getwindow signal n w overlap = Ok segments /\
    batch_of w segments.
Proof.
  intros Hn Hw Hmode.
  destruct overlap.
  - assert (Hs : (0 < w / 2)%Z) by (apply Z.div_str_pos; lia).
    pose proof (ceil_div_bounds (n - w) (w / 2) Hs) as Hc. cbv zeta in Hc.
    set (c := ((n - w + w / 2 - 1) / (w / 2))%Z) in *.
    eexists. split; [apply getwindow_overlap_eq; assumption|].
    fold c. split.
    + intros E. apply (f_equal (@length _)) in E.
      rewrite length_map, length_seq in E. cbn in E. nia.
    + intros s Hs'. apply in_map_iff in Hs'. destruct Hs' as [k [<- Hk]].
      apply in_seq in Hk.
      assert (Z.of_nat k * (w / 2) <= (c - 1) * (w / 2))%Z by nia.
      rewrite length_firstn, length_skipn. nia.
  - destruct Hmode as [?|Harr]; [discriminate|].
    unfold _fractal_dfa_getwindow.
    destruct (Z.eqb_spec w 0) as [?|_]; [lia|].
    rewrite Harr. cbn [negb]. unfold reshape2d.
    pose proof (Z.div_mod n w ltac:(lia)) as Hdm.
    pose proof (Z.mod_pos_bound n w ltac:(lia)) as Hmod.
    assert (Hq : (1 <= n / w)%Z).
    { apply Z.div_le_lower_bound; lia. }
    destruct (py_slice_inside (samples signal) 0 (n - n mod w)
                ltac:(lia) ltac:(lia)) as [_ Hlen].
    rewrite Hn, Hlen.
    replace ((0 <=? n / w) && (0 <=? w)
             && (n / w * w =? Z.of_nat (Z.to_nat (n - n mod w - 0))))%Z
      with true.
    2:{ symmetry. rewrite !andb_true_iff, !Z.leb_le, Z.eqb_eq. lia. }
    eexists. split; [reflexivity|]. split.
    + intros E. apply (f_equal (@length _)) in E.
      rewrite length_chunk in E. cbn in E. lia.
    + apply chunk_rows. rewrite Hlen. nia.
Qed.

Lemma length_abscissa (w : Z) : length (abscissa w) = Z.to_nat w.
Proof. unfold abscissa. rewrite length_map, length_seq. reflexivity. Qed.

Lemma py_slice_abscissa (w : Z) : py_slice (abscissa w) 0 w = abscissa w.
Proof.
  unfold py_slice. rewrite length_abscissa.
  rewrite (clip_index_inside (Z.of_nat (Z.to_nat w)) 0) by lia.
  cbn [Z.to_nat skipn].
  destruct (Z.ltb_spec w 0) as [Hneg|Hpos].
  - assert (E : abscissa w = []).
    { apply length_zero_iff_nil. rewrite length_abscissa. lia. }
    rewrite E. apply firstn_nil.
  - rewrite clip_index_inside by lia. rewrite Z.sub_0_r.
    apply firstn_all2. rewrite length_abscissa. lia.
Qed.

(** The Detrender on a proper batch: every segment gets the values of its
    own fitted polynomial. *)
Lemma trends_batch (polyfit : list R -> list R -> nat -> list R)
  (segments : list (list R)) (w : Z) (order : nat) :
  (1 <= w)%Z -> batch_of w segments ->
  _fractal_dfa_trends polyfit segments w order =
  Ok (map (fun s => map (polyval (polyfit (abscissa w) s order)) (abscissa w))
          segments).
Proof.
  intros Hw [Hne Hrows]. unfold _fractal_dfa_trends.
  fold (abscissa w). rewrite py_slice_abscissa.
  destruct (abscissa w) as [|x0 x] eqn:Ex.
  { apply (f_equal (@length _)) in Ex. rewrite length_abscissa in Ex.
    cbn in Ex. lia. }
  destruct segments as [|s0 segments]; [congruence|].
  replace (forallb _ (s0 :: segments)) with true.
  - rewrite map_map. reflexivity.
  - symmetry. apply forallb_forall. intros s Hs. apply Nat.eqb_eq.
    rewrite (Hrows s Hs), <- length_abscissa, Ex. reflexivity.
Qed.

Lemma trends_inv (polyfit : list R -> list R -> nat -> list R)
  (segments trends : list (list R)) (w : Z) (order : nat) :
  _fractal_dfa_trends polyfit segments w order = Ok trends ->
  (1 <= w)%Z /\ batch_of w segments.
Proof.
  unfold _fractal_dfa_trends. fold (abscissa w). rewrite py_slice_abscissa.
  destruct (abscissa w) as [|x0 x] eqn:Ex; [discriminate|].
  destruct segments as [|s0 segments]; [discriminate|].
  destruct (forallb _ (s0 :: segments)) eqn:Hall; [|discriminate].
  intros _.
  assert (Hlen : length (abscissa w) = S (length x)) by (rewrite Ex; reflexivity).
  rewrite length_abscissa in Hlen.
  split; [lia|]. split; [discriminate|].
  intros s Hs. rewrite forallb_forall in Hall. specialize (Hall s Hs).
  apply Nat.eqb_eq in Hall. rewrite Hall. cbn [length]. lia.
Qed.

Lemma rmapM_ok {A : Type} (l : list A) : rmapM (fun r => r) (map Ok l) = Ok l.
Proof.
  induction l as [|a l IH]; [reflexivity|].
  cbn [map rmapM rbind]. rewrite IH. reflexivity.
Qed.

Lemma zip_with_map_r {A B C : Type} (f : A -> B -> C) (g : A -> B) (l : list A) :
  zip_with f l (map g l) = map (fun a => f a (g a)) l.
Proof.
  induction l as [|a l IH]; [reflexivity|].
  cbn [map zip_with]. rewrite IH. reflexivity.
Qed.

(** The detrended batch: each segment minus its own trend, that is the
    residuals of its fit. *)
Lemma detrended_batch (polyfit : list R -> list R -> nat -> list R)
  (segments : list (list R)) (w : Z) (order : nat) :
  batch_of w segments ->
  broadcast_rows (broadcast Rminus) segments
    (map (fun s => map (polyval (polyfit (abscissa w) s order)) (abscissa w))
         segments)
  = Ok (map (fun s => residuals (abscissa w) s (polyfit (abscissa w) s order))
            segments).
Proof.
  intros [Hne Hrows]. unfold broadcast_rows, broadcast at 1.
  rewrite length_map, Nat.eqb_refl. cbn [rbind].
  rewrite zip_with_map_r.
  replace (map _ segments)
    with (map Ok (map (fun s => residuals (abscissa w) s
                                  (polyfit (abscissa w) s order)) segments)).
  - apply rmapM_ok.
  - rewrite map_map. apply map_ext_in. intros s Hs.
    unfold broadcast. rewrite length_map, length_abscissa, (Hrows s Hs).
    rewrite Nat.eqb_refl. unfold residuals.
    rewrite zip_with_minus_map. reflexivity.
Qed.

Lemma length_residuals (x y c : list R) :
  length x = length y -> length (residuals x y c) = length y.
Proof.
  unfold residuals. revert y.
  induction x as [|xi x IH]; intros [|yi y] H; cbn in *; try congruence.
  rewrite IH; congruence.
Qed.

(** ** The main loop over the scales *)

Lemma length_update_nth {A : Type} (i : nat) (a : A) (l : list A) :
  length (update_nth i a l) = length l.
Proof.
  revert i. induction l as [|b l IH]; intros [|i]; cbn; auto.
Qed.

Lemma Forall_update_nth {A : Type} (P : A -> Prop) (i : nat) (a : A)
  (l : list A) :
  P a -> Forall P l -> Forall P (update_nth i a l).
Proof.
  intros Ha Hl. revert i.
  induction Hl as [|b l Hb Hl IH]; intros [|i]; cbn; auto.
Qed.

Lemma assign_row_inv (m m' : matrix) (i : nat) (f : scalar_or_vector) :
  assign_row m i f = Ok m' ->
  ncols m' = ncols m /\ (i < length (rows m))%nat /\
  exists row,
    rows m' = update_nth i row (rows m) /\
    match f with
    | Scalar x => row = repeat x (ncols m)
    | Vector l =>
        (row = l /\ length l = ncols m) \/
        (exists x, l = [x] /\ row = repeat x (ncols m))
    end.
Proof.
  unfold assign_row.
  destruct (Nat.leb_spec (length (rows m)) i) as [?|Hi]; [discriminate|].
  destruct f as [x|l].
  - intros E. inversion E; subst; cbn. repeat split; auto.
    eexists; split; reflexivity.
  - destruct (Nat.eqb_spec (length l) (ncols m)) as [Hl|Hl].
    + intros E. inversion E; subst; cbn. repeat split; auto.
      exists l. split; [reflexivity|]. left. split; [reflexivity|exact Hl].
    + destruct l as [|x [|y l]]; try discriminate.
      intros E. inversion E; subst; cbn. repeat split; auto.
      eexists. split; [reflexivity|]. right. exists x. split; reflexivity.
Qed.

Section Loop.

Variable polyfit : list R -> list R -> nat -> list R.
Variable signal : series.
Variable n : Z.
Variable overlap : bool.
Variable order : nat.

Local Abbreviation loop := (fluctuation_loop polyfit signal n overlap order).

(** One turn of the loop. *)
Lemma loop_cons (multifractal : bool) (q : list R) (i : nat) (w : Z)
  (scale : list Z) (m : matrix) (st : errstate) :
  loop multifractal q i (w :: scale) m st =
  match _fractal_dfa_getwindow signal n w overlap with
  | Err e => (Err e, st)
  | Ok segments =>
      match _fractal_dfa_trends polyfit segments w order with
      | Err e => (Err e, st)
      | Ok trends =>
          match _fractal_dfa_fluctuation segments trends multifractal q st with
          | (Err e, st1) => (Err e, st1)
          | (Ok f, st1) =>
              match assign_row m i f with
              | Err e => (Err e, st1)
              | Ok m1 => loop multifractal q (S i) scale m1 st1
              end
          end
      end
  end.
Proof.
  cbn [fluctuation_loop]. unfold bind, lift.
  destruct (_fractal_dfa_getwindow signal n w overlap); [|reflexivity].
  destruct (_fractal_dfa_trends polyfit _ w order); [|reflexivity].
  destruct (_fractal_dfa_fluctuation _ _ multifractal q st) as [[f|e] st1];
    [|reflexivity].
  destruct (assign_row m i f); reflexivity.
Qed.

(** One turn of the loop that goes through. *)
Lemma loop_step (multifractal : bool) (q : list R) (i : nat) (w : Z)
  (scale : list Z) (m m' : matrix) (st st' : errstate) :
  loop multifractal q i (w :: scale) m st = (Ok m', st') ->
  exists segments trends f m1,
    _fractal_dfa_getwindow signal n w overlap = Ok segments /\
    _fractal_dfa_trends polyfit segments w order = Ok trends /\
    _fractal_dfa_fluctuation segments trends multifractal q st = (Ok f, st) /\
    assign_row m i f = Ok m1 /\
    loop multifractal q (S i) scale m1 st = (Ok m', st').
Proof.
  rewrite loop_cons.
  destruct (_fractal_dfa_getwindow signal n w overlap) as [segments|e] eqn:Eg;
    [|discriminate].
  destruct (_fractal_dfa_trends polyfit segments w order) as [trends|e] eqn:Et;
    [|discriminate].
  pose proof (fluctuation_errstate segments trends multifractal q st) as Hst.
  destruct (_fractal_dfa_fluctuation segments trends multifractal q st)
    as [[f|e] st1] eqn:Ef; [|discriminate].
  cbn in Hst. subst st1.
  destruct (assign_row m i f) as [m1|e] eqn:Ea; [|discriminate].
  intros E. exists segments, trends, f, m1. repeat split; trivial.
Qed.

Lemma loop_shape (multifractal : bool) (q : list R) (scale : list Z) :
  forall i m m' st st',
    loop multifractal q i scale m st = (Ok m', st') ->
    length (rows m') = length (rows m) /\ ncols m' = ncols m /\ st' = st.
Proof.
  induction scale as [|w scale IH]; intros i m m' st st' E.
  - inversion E; subst. auto.
  - apply loop_step in E.
    destruct E as [segments [trends [f [m1 [_ [_ [_ [Ha E]]]]]]]].
    apply IH in E. destruct E as [E1 [E2 E3]].
    apply assign_row_inv in Ha. destruct Ha as [Hc [_ [row [Hr _]]]].
    rewrite E1, E2, Hr, length_update_nth. auto.
Qed.

Lemma loop_nonneg (multifractal : bool) (q : list R) (scale : list Z) :
  forall i m m' st st',
    loop multifractal q i scale m st = (Ok m', st') ->
    matrix_forall nonneg_or_nan m -> matrix_forall nonneg_or_nan m'.
Proof.
  induction scale as [|w scale IH]; intros i m m' st st' E Hm.
  - inversion E; subst. exact Hm.
  - apply loop_step in E.
    destruct E as [segments [trends [f [m1 [_ [_ [Hf [Ha E]]]]]]]].
    apply (IH _ _ _ _ _ E).
    apply fluctuation_entries_nonneg in Hf.
    apply assign_row_inv in Ha. destruct Ha as [_ [_ [row [Hr Hrow]]]].
    unfold matrix_forall. rewrite Hr.
    apply Forall_update_nth; [|exact Hm].
    destruct f as [x|l]; cbn in Hf.
    + subst row. apply Forall_forall. intros y Hy.
      apply repeat_spec in Hy. subst y. exact Hf.
    + destruct Hrow as [[-> _]|[x [-> ->]]]; [exact Hf|].
      apply Forall_forall. intros y Hy.
      apply repeat_spec in Hy. subst y. inversion Hf; assumption.
Qed.

(** Without [multifractal] the exponents play no part in the loop. *)
Lemma loop_mono_any_q (q1 q2 : list R) (scale : list Z) :
  forall i m st,
    loop false q1 i scale m st = loop false q2 i scale m st.
Proof.
  induction scale as [|w scale IH]; intros i m st; [reflexivity|].
  rewrite !loop_cons.
  destruct (_fractal_dfa_getwindow signal n w overlap) as [segments|e];
    [|reflexivity].
  destruct (_fractal_dfa_trends polyfit segments w order) as [trends|e];
    [|reflexivity].
  unfold _fractal_dfa_fluctuation, bind, lift, ret.
  destruct (broadcast_rows _ segments trends) as [detrended|e];
    [|reflexivity].
  destruct (assign_row m i _) as [m1|e]; [|reflexivity].
  apply IH.
Qed.

Lemma loop_mono_constant_rows (q : list R) (scale : list Z) :
  forall i m m' st st',
    loop false q i scale m st = (Ok m', st') ->
    constant_rows m -> constant_rows m'.
Proof.
  induction scale as [|w scale IH]; intros i m m' st st' E Hm.
  - inversion E; subst. exact Hm.
  - apply loop_step in E.
    destruct E as [segments [trends [f [m1 [_ [_ [Hf [Ha E]]]]]]]].
    apply (IH _ _ _ _ _ E).
    assert (Hs : exists x, f = Scalar x).
    { revert Hf. unfold _fractal_dfa_fluctuation, bind, lift, ret.
      destruct (broadcast_rows _ segments trends); [|discriminate].
      intros Hf. inversion Hf. eexists; reflexivity. }
    destruct Hs as [x ->].
    apply assign_row_inv in Ha. destruct Ha as [Hc [_ [row [Hr ->]]]].
    unfold constant_rows. rewrite Hr, Hc.
    apply Forall_update_nth; [exists x; reflexivity | exact Hm].
Qed.

(** The loop goes through on validated scales. *)
Lemma loop_completes (multifractal : bool) (q : list R) (scale : list Z) :
  Z.of_nat (length (samples signal)) = n ->
  overlap = true \/ is_ndarray signal = true ->
  Forall (fun w => (2 <= w < n)%Z) scale ->
  forall i m st,
    (i + length scale <= length (rows m))%nat ->
    ncols m = length q ->
    exists m', loop multifractal q i scale m st = (Ok m', st).
Proof.
  intros Hn Hmode Hscale.
  induction Hscale as [|w scale Hw Hscale IH]; intros i m st Hi Hq.
  - exists m. reflexivity.
  - rewrite loop_cons.
    destruct (getwindow_batch signal n w overlap Hn Hw Hmode)
      as [segments [-> Hb]].
    rewrite (trends_batch polyfit segments w order ltac:(lia) Hb).
    unfold _fractal_dfa_fluctuation at 1. unfold bind at 1, lift at 1.
    rewrite (detrended_batch polyfit segments w order Hb).
    cbn [length] in Hi.
    destruct multifractal.
    + unfold bind, seterr_divide_invalid, seterr_all, ret, lift.
      unfold assign_row.
      destruct (Nat.leb_spec (length (rows m)) i) as [?|_]; [lia|].
      unfold fluctuation_multi at 1. rewrite length_map, Hq, Nat.eqb_refl.
      apply IH; cbn; [rewrite length_update_nth; lia | reflexivity].
    + unfold bind, ret, lift. unfold assign_row.
      destruct (Nat.leb_spec (length (rows m)) i) as [?|_]; [lia|].
      apply IH; cbn; [rewrite length_update_nth; lia | exact Hq].
Qed.


End Loop.

(** ** The regression over the columns *)

Lemma nth_update_nth_same {A : Type} (i : nat) (a d : A) (l : list A) :
  (i < length l)%nat -> nth i (update_nth i a l) d = a.
Proof.
  revert i. induction l as [|b l IH]; intros [|i] Hi; cbn in *;
    try lia; [reflexivity|]. apply IH. lia.
Qed.

Lemma nth_update_nth_other {A : Type} (i j : nat) (a d : A) (l : list A) :
  i <> j -> nth j (update_nth i a l) d = nth j l d.
Proof.
  revert i j. induction l as [|b l IH]; intros [|i] [|j] Hij; cbn;
    try reflexivity; try congruence. apply IH. congruence.
Qed.

Lemma all_nth_repeat {A : Type} (c d : A) (l : list A) :
  (forall j, (j < length l)%nat -> nth j l d = c) -> l = repeat c (length l).
Proof.
  induction l as [|a l IH]; intros H; [reflexivity|].
  cbn [length repeat]. f_equal.
  - apply (H 0%nat). cbn. lia.
  - apply IH. intros j Hj. apply (H (S j)). cbn. lia.
Qed.

Lemma column_constant_rows (m : matrix) (i : nat) :
  constant_rows m -> (i < ncols m)%nat -> column m i = column m 0.
Proof.
  intros Hm Hi. unfold column. apply map_ext_in. intros row Hrow.
  unfold constant_rows in Hm. rewrite Forall_forall in Hm.
  destruct (Hm row Hrow) as [x ->].
  rewrite !nth_repeat_lt by lia. reflexivity.
Qed.

Section Slopes.

Variable polyfit_log : list xreal -> list xreal -> nat -> list xreal.
Variable scale : list Z.
Variable fluctuations : matrix.

Lemma slopes_loop_cons (i : nat) (range : list nat) (slopes : list xreal)
  (st : errstate) :
  slopes_loop polyfit_log scale fluctuations (i :: range) slopes st =
  match polyfit_log (map (fun s => xlog2 (Finite (IZR s))) scale)
                    (map xlog2 (column fluctuations i)) 1 with
  | c :: _ =>
      slopes_loop polyfit_log scale fluctuations range
        (update_nth i c slopes) st
  | [] => (Err IndexError, mkErrstate Ignore (over st) (under st) Ignore)
  end.
Proof.
  cbn [slopes_loop]. unfold bind, seterr_divide_invalid, seterr_all, lift.
  destruct (polyfit_log _ _ 1); reflexivity.
Qed.

Lemma slopes_loop_length (range : list nat) :
  forall slopes st result st',
    slopes_loop polyfit_log scale fluctuations range slopes st
    = (Ok result, st') ->
    length result = length slopes.
Proof.
  induction range as [|i range IH]; intros slopes st result st' E.
  - inversion E; subst. reflexivity.
  - rewrite slopes_loop_cons in E.
    destruct (polyfit_log _ _ 1) as [|c cs]; [discriminate|].
    apply IH in E. rewrite E. apply length_update_nth.
Qed.

Lemma slopes_loop_completes (range : list nat) :
  (forall x y, polyfit_log x y 1 <> []) ->
  forall slopes st,
    exists result,
      slopes_loop polyfit_log scale fluctuations range slopes st
      = (Ok result, st).
Proof.
  intros Hfit. induction range as [|i range IH]; intros slopes st.
  - exists slopes. reflexivity.
  - rewrite slopes_loop_cons.
    destruct (polyfit_log _ _ 1) as [|c cs] eqn:E.
    + exfalso. exact (Hfit _ _ E).
    + apply IH.
Qed.

(** When all the columns in the range are one and the same, every turn
    writes the same slope. *)
Lemma slopes_loop_constant (col : list xreal) (c : xreal) (cs : list xreal)
  (range : list nat) :
  polyfit_log (map (fun s => xlog2 (Finite (IZR s))) scale)
              (map xlog2 col) 1 = c :: cs ->
  (forall i, In i range -> column fluctuations i = col) ->
  forall slopes st,
    slopes_loop polyfit_log scale fluctuations range slopes st =
    (Ok (fold_left (fun acc i => update_nth i c acc) range slopes), st).
Proof.
  intros Ec. induction range as [|i range IH]; intros Hcol slopes st.
  - reflexivity.
  - rewrite slopes_loop_cons, (Hcol i (or_introl eq_refl)), Ec.
    cbn [fold_left]. apply IH. intros k Hk. apply Hcol. right; exact Hk.
Qed.

Lemma slopes_loop_no_coefficient (col : list xreal) (i : nat)
  (range : list nat) (slopes : list xreal) (st : errstate) :
  polyfit_log (map (fun s => xlog2 (Finite (IZR s))) scale)
              (map xlog2 col) 1 = [] ->
  column fluctuations i = col ->
  fst (slopes_loop polyfit_log scale fluctuations (i :: range) slopes st)
  = Err IndexError.
Proof.
  intros Ec Hcol. rewrite slopes_loop_cons, Hcol, Ec. reflexivity.
Qed.

End Slopes.

Lemma length_fold_update {A : Type} (c : A) (range : list nat) :
  forall init,
    length (fold_left (fun acc i => update_nth i c acc) range init)
    = length init.
Proof.
  induction range as [|i range IH]; intros init; [reflexivity|].
  cbn [fold_left]. rewrite IH. apply length_update_nth.
Qed.

Lemma nth_fold_update {A : Type} (c d : A) (range : list nat) :
  forall init j,
    (j < length init)%nat -> In j range ->
    nth j (fold_left (fun acc i => update_nth i c acc) range init) d = c.
Proof.
  induction range as [|i range IH]; intros init j Hj Hin; [destruct Hin|].
  cbn [fold_left].
  destruct (in_dec Nat.eq_dec j range) as [Hr|Hr].
  - apply IH; [rewrite length_update_nth; exact Hj | exact Hr].
  - destruct Hin as [->|Hin]; [|contradiction].
    clear IH. revert init Hj.
    induction range as [|k range IH]; intros init Hj.
    + cbn. apply nth_update_nth_same. exact Hj.
    + cbn [fold_left].
      assert (Hk : k <> j) by (intros ->; apply Hr; left; reflexivity).
      assert (Hr' : ~ In j range) by (intros H; apply Hr; right; exact H).
      destruct (Nat.eq_dec 0 0) as [_|]; [|congruence].
      replace (update_nth k c (update_nth j c init))
        with (update_nth j c (update_nth k c init)).
      * apply (IH Hr'). rewrite length_update_nth. exact Hj.
      * clear. revert j k. induction init as [|a init IHi];
          intros [|j] [|k]; cbn; try reflexivity. f_equal. apply IHi.
Qed.

Lemma fold_update_all {A : Type} (c : A) (k : nat) (init : list A) :
  length init = k ->
  fold_left (fun acc i => update_nth i c acc) (seq 0 k) init = repeat c k.
Proof.
  intros Hk.
  destruct init as [|d init'] eqn:Ei.
  { cbn in Hk. subst k. reflexivity. }
  rewrite <- Ei in *. clear Ei init'.
  set (r := fold_left _ (seq 0 k) init).
  assert (Hr : length r = k) by (subst r; rewrite length_fold_update; exact Hk).
  transitivity (repeat c (length r)); [|rewrite Hr; reflexivity].
  apply all_nth_repeat with (d := d).
  intros j Hj. rewrite Hr in Hj. subst r. apply nth_fold_update.
  - lia.
  - apply in_seq. lia.
Qed.

(** The regression reads the exponents only for their number. *)
Lemma slopes_any_q
  (polyfit_log : list xreal -> list xreal -> nat -> list xreal)
  (scale : list Z) (fluctuations : matrix) (q1 q2 : list R) :
  length q1 = length q2 ->
  _slopes polyfit_log scale fluctuations q1
  = _slopes polyfit_log scale fluctuations q2.
Proof. intros H. unfold _slopes. rewrite H. reflexivity. Qed.

Lemma slopes_length
  (polyfit_log : list xreal -> list xreal -> nat -> list xreal)
  (scale : list Z) (fluctuations : matrix) (q : list R) (st st' : errstate)
  (slopes : list xreal) :
  _slopes polyfit_log scale fluctuations q st = (Ok slopes, st') ->
  length slopes = length q /\ ncols fluctuations = length q.
Proof.
  unfold _slopes.
  destruct (Nat.eqb_spec (ncols fluctuations) (length q)) as [Hc|Hc];
    cbn [negb]; [|discriminate].
  intros E. apply slopes_loop_length in E.
  rewrite repeat_length in E. auto.
Qed.

(** On a matrix with constant rows all the slopes are equal. *)
Lemma slopes_constant_rows
  (polyfit_log : list xreal -> list xreal -> nat -> list xreal)
  (scale : list Z) (fluctuations : matrix) (q : list R) (st st' : errstate)
  (slopes : list xreal) :
  constant_rows fluctuations ->
  _slopes polyfit_log scale fluctuations q st = (Ok slopes, st') ->
  exists c, slopes = repeat c (length q).
Proof.
  intros Hm E. pose proof E as E0. unfold _slopes in E.
  destruct (Nat.eqb_spec (ncols fluctuations) (length q)) as [Hc|Hc];
    cbn [negb] in E; [|discriminate].
  destruct (length q) as [|k] eqn:Hk.
  { cbn in E. inversion E. exists NaN. reflexivity. }
  rewrite <- Hk in *.
  assert (Hcol : forall i, In i (seq 0 (length q)) ->
            column fluctuations i = column fluctuations 0).
  { intros i Hi. apply in_seq in Hi.
    apply column_constant_rows; [exact Hm | lia]. }
  destruct (polyfit_log (map (fun s => xlog2 (Finite (IZR s))) scale)
              (map xlog2 (column fluctuations 0)) 1) as [|c cs] eqn:Ec.
  - exfalso. rewrite Hk in E. cbn [seq] in E.
    pose proof (slopes_loop_no_coefficient polyfit_log scale fluctuations
                  (column fluctuations 0) 0 (seq 1 k)
                  (repeat (Finite 0) (S k)) st Ec eq_refl) as H.
    rewrite E in H. discriminate.
  - rewrite (slopes_loop_constant polyfit_log scale fluctuations
               (column fluctuations 0) c cs (seq 0 (length q)) Ec Hcol) in E.
    inversion E. exists c. apply fold_update_all. apply repeat_length.
Qed.

(** ** The entry point on a one-dimensional signal *)

Lemma findscales_valid (expspace : Z -> Z -> Z -> Z -> list Z) (n : Z)
  (scale : scale_arg) (sc : list Z) :
  _fractal_dfa_findscales expspace n scale = Ok sc -> valid_scales n sc.
Proof.
  rewrite findscales_validates. cbv zeta.
  set (c := validated_scales expspace n scale).
  destruct (Nat.ltb_spec (length c) 2) as [?|Hlen]; [discriminate|].
  assert (Hne : c <> []) by (destruct c; cbn in Hlen; [lia|discriminate]).
  destruct (np_min c <? 2)%Z eqn:Hmin; [discriminate|].
  destruct (np_max c >=? n)%Z eqn:Hmax; [discriminate|].
  intros E. inversion E; subst sc. split; [exact Hlen|].
  apply Forall_forall. intros w Hw. split.
  - destruct (Z.lt_ge_cases w 2) as [Hlt|Hge]; [|exact Hge].
    assert (H : (np_min c <? 2)%Z = true)
      by (apply np_min_below; [exact Hne | exists w; auto]).
    congruence.
  - destruct (Z.lt_ge_cases w n) as [Hlt|Hge]; [exact Hlt|].
    assert (H : (np_max c >=? n)%Z = true)
      by (apply np_max_reaches; [exact Hne | exists w; split; [auto|lia]]).
    congruence.
Qed.

Lemma length_cumsum_from (acc : R) (l : list R) :
  length (cumsum_from acc l) = length l.
Proof.
  revert acc. induction l as [|x l IH]; intros acc; [reflexivity|].
  cbn [cumsum_from length]. rewrite IH. reflexivity.
Qed.

Lemma length_profile (is_array : bool) (v : list R) (integrate : bool) :
  length (samples (profile is_array v integrate)) = length v.
Proof.
  unfold profile. destruct integrate; cbn [samples]; [|reflexivity].
  unfold cumsum. rewrite length_cumsum_from, length_map. reflexivity.
Qed.

Lemma length_zeros (r c : nat) :
  length (rows (zeros r c)) = r /\ ncols (zeros r c) = c.
Proof. unfold zeros. cbn. rewrite repeat_length. auto. Qed.

Section Entry.

Variable expspace : Z -> Z -> Z -> Z -> list Z.
Variable polyfit : list R -> list R -> nat -> list R.
Variable polyfit_log : list xreal -> list xreal -> nat -> list xreal.

Local Abbreviation dfa := (fractal_dfa expspace polyfit polyfit_log).

(** The steps of the analysis of a series, one after the other. *)
Lemma run_on_steps (working : series) (n : Z) (scale : scale_arg)
  (overlap : bool) (order : nat) (multifractal : bool) (q : q_arg)
  (st : errstate) :
  run_on expspace polyfit polyfit_log working n scale overlap order
    multifractal q st =
  match _fractal_dfa_findscales expspace n scale with
  | Err e => (Err e, st)
  | Ok sc =>
      match _sanitize_q q multifractal with
      | Err e => (Err e, st)
      | Ok qs =>
          let q := map Q2R qs in
          match fluctuation_loop polyfit working n
                  overlap order multifractal q 0 sc
                  (zeros (length sc) (length q)) st with
          | (Err e, st1) => (Err e, st1)
          | (Ok m, st1) =>
              if (length (rows m) =? 0)%nat
              then (Ok (OutNaN, mkInfo sc q None None None), st1)
              else
                match _slopes polyfit_log sc m q st1 with
                | (Err e, st2) => (Err e, st2)
                | (Ok slopes, st2) =>
                    let a := unwrap_single slopes in
                    if multifractal then
                      match _singularity_spectrum q a with
                      | Err e => (Err e, st2)
                      | Ok sp =>
                          (Ok (OutFrame (ExpRange sp) (ExpMean sp)
                                 (DimRange sp) (DimMean sp) (HMax sp)
                                 (HDelta sp) (HAR sp),
                               mkInfo sc q (Some m) (Some a) (Some sp)), st2)
                      end
                    else
                      (Ok (OutSlopes a, mkInfo sc q (Some m) (Some a) None),
                       st2)
                end
          end
      end
  end.
Proof.
  cbv zeta. unfold run_on, analyse, bind, lift, ret.
  destruct (_fractal_dfa_findscales expspace _ scale) as [sc|e];
    [|reflexivity].
  destruct (_sanitize_q q multifractal) as [qs|e]; [|reflexivity].
  destruct (fluctuation_loop _ _ _ _ _ _ _ _ _ _ st) as [[m|e] st1];
    [|reflexivity].
  destruct (length (rows m) =? 0)%nat; [reflexivity|].
  destruct (_slopes polyfit_log sc m _ st1) as [[slopes|e] st2];
    [|reflexivity].
  destruct multifractal; [|reflexivity].
  destruct (_singularity_spectrum _ _); reflexivity.
Qed.

(** On a one-dimensional signal the entry point analyses the profile. *)
Lemma fractal_dfa_run_on (is_array : bool) (v : list R) (scale : scale_arg)
  (overlap integrate : bool) (order : nat) (multifractal : bool) (q : q_arg)
  (st : errstate) :
  dfa (signal_1d is_array v) scale overlap integrate order multifractal q st
  = run_on expspace polyfit polyfit_log (profile is_array v integrate)
      (Z.of_nat (length v)) scale overlap order multifractal q st.
Proof. destruct is_array; reflexivity. Qed.

(** The steps of the entry point, one after the other. *)
Lemma fractal_dfa_1d (is_array : bool) (v : list R) (scale : scale_arg)
  (overlap integrate : bool) (order : nat) (multifractal : bool) (q : q_arg)
  (st : errstate) :
  dfa (signal_1d is_array v) scale overlap integrate order multifractal q st =
  let n := Z.of_nat (length v) in
  match _fractal_dfa_findscales expspace n scale with
  | Err e => (Err e, st)
  | Ok sc =>
      match _sanitize_q q multifractal with
      | Err e => (Err e, st)
      | Ok qs =>
          let q := map Q2R qs in
          match fluctuation_loop polyfit (profile is_array v integrate) n
                  overlap order multifractal q 0 sc
                  (zeros (length sc) (length q)) st with
          | (Err e, st1) => (Err e, st1)
          | (Ok m, st1) =>
              if (length (rows m) =? 0)%nat
              then (Ok (OutNaN, mkInfo sc q None None None), st1)
              else
                match _slopes polyfit_log sc m q st1 with
                | (Err e, st2) => (Err e, st2)
                | (Ok slopes, st2) =>
                    let a := unwrap_single slopes in
                    if multifractal then
                      match _singularity_spectrum q a with
                      | Err e => (Err e, st2)
                      | Ok sp =>
                          (Ok (OutFrame (ExpRange sp) (ExpMean sp)
                                 (DimRange sp) (DimMean sp) (HMax sp)
                                 (HDelta sp) (HAR sp),
                               mkInfo sc q (Some m) (Some a) (Some sp)), st2)
                      end
                    else
                      (Ok (OutSlopes a, mkInfo sc q (Some m) (Some a) None),
                       st2)
                end
          end
      end
  end.
Proof. rewrite fractal_dfa_run_on. apply run_on_steps. Qed.

(** What an analysis that returns has gone through. *)
Lemma run_on_returns (working : series) (n : Z) (scale : scale_arg)
  (overlap : bool) (order : nat) (multifractal : bool) (q : q_arg)
  (st st' : errstate) (out : output) (i : info) :
  run_on expspace polyfit polyfit_log working n scale overlap order
    multifractal q st = (Ok (out, i), st') ->
  exists sc qs m slopes,
    _fractal_dfa_findscales expspace n scale = Ok sc /\
    _sanitize_q q multifractal = Ok qs /\
    fluctuation_loop polyfit working n overlap order multifractal
      (map Q2R qs) 0 sc
      (zeros (length sc) (length (map Q2R qs))) st = (Ok m, st) /\
    _slopes polyfit_log sc m (map Q2R qs) st = (Ok slopes, st) /\
    st' = st /\
    info_scale i = sc /\ info_q i = map Q2R qs /\
    Fluctuation i = Some m /\ Alpha i = Some (unwrap_single slopes) /\
    (if multifractal
     then exists sp,
            _singularity_spectrum (map Q2R qs) (unwrap_single slopes) = Ok sp /\
            Spectrum i = Some sp /\
            out = OutFrame (ExpRange sp) (ExpMean sp) (DimRange sp)
                    (DimMean sp) (HMax sp) (HDelta sp) (HAR sp)
     else Spectrum i = None /\ out = OutSlopes (unwrap_single slopes)).
Proof.
  intros E. rewrite run_on_steps in E. cbv zeta in E.
  destruct (_fractal_dfa_findscales expspace _ scale) as [sc|e] eqn:Esc;
    [|discriminate].
  destruct (_sanitize_q q multifractal) as [qs|e] eqn:Eq; [|discriminate].
  destruct (fluctuation_loop _ _ _ _ _ _ _ _ _ _ st) as [[m|e] st1] eqn:El;
    [|discriminate].
  destruct (loop_shape _ _ _ _ _ _ _ _ _ _ _ _ _ El) as [Hr [Hc ->]].
  destruct (length_zeros (length sc) (length (map Q2R qs))) as [Hz _].
  pose proof (findscales_valid _ _ _ _ Esc) as [Hlen _].
  destruct (Nat.eqb_spec (length (rows m)) 0) as [H0|_]; [lia|].
  destruct (_slopes polyfit_log sc m _ st) as [[slopes|e] st2] eqn:Es;
    [|discriminate].
  pose proof (slopes_errstate _ _ _ _ _ _ _ Es) as ->.
  exists sc, qs, m, slopes.
  destruct multifractal.
  - destruct (_singularity_spectrum _ _) as [sp|e] eqn:Esp; [|discriminate].
    inversion E; subst. cbn. repeat split; trivial.
    exists sp. repeat split; trivial.
  - inversion E; subst. cbn. repeat split; trivial.
Qed.

(** What a run that returns on a one-dimensional signal has gone through. *)
Lemma fractal_dfa_returns (is_array0 : bool) (v0 : list R)
  (scale : scale_arg)
  (overlap integrate : bool) (order : nat) (multifractal : bool) (q : q_arg)
  (st st' : errstate) (out : output) (i : info) :
  dfa (signal_1d is_array0 v0) scale overlap integrate order multifractal q st
  = (Ok (out, i), st') ->
  exists is_array v sc qs m slopes,
    signal_1d is_array0 v0 = signal_1d is_array v /\
    _fractal_dfa_findscales expspace (Z.of_nat (length v)) scale = Ok sc /\
    _sanitize_q q multifractal = Ok qs /\
    fluctuation_loop polyfit (profile is_array v integrate)
      (Z.of_nat (length v)) overlap order multifractal (map Q2R qs) 0 sc
      (zeros (length sc) (length (map Q2R qs))) st = (Ok m, st) /\
    _slopes polyfit_log sc m (map Q2R qs) st = (Ok slopes, st) /\
    st' = st /\
    info_scale i = sc /\ info_q i = map Q2R qs /\
    Fluctuation i = Some m /\ Alpha i = Some (unwrap_single slopes) /\
    (if multifractal
     then exists sp,
            _singularity_spectrum (map Q2R qs) (unwrap_single slopes) = Ok sp /\
            Spectrum i = Some sp /\
            out = OutFrame (ExpRange sp) (ExpMean sp) (DimRange sp)
                    (DimMean sp) (HMax sp) (HDelta sp) (HAR sp)
     else Spectrum i = None /\ out = OutSlopes (unwrap_single slopes)).
Proof.
  intros E. rewrite fractal_dfa_run_on in E.
  destruct (run_on_returns _ _ _ _ _ _ _ _ _ _ _ E)
    as [sc [qs [m [slopes H]]]].
  exists is_array0, v0, sc, qs, m, slopes. split; [reflexivity|exact H].
Qed.

(** A nested list that is not integrated gets no result: the first window
    of the loop raises. *)
Lemma nested_not_integrated (rows : list (R * list R)) (scale : scale_arg)
  (overlap : bool) (order : nat) (multifractal : bool) (q : q_arg)
  (st st' : errstate) (out : output) (i : info) :
  dfa (NestedList rows) scale overlap false order multifractal q st
  <> (Ok (out, i), st').
Proof.
  unfold fractal_dfa, bind, lift, ret, raise. intros E.
  destruct (_fractal_dfa_findscales expspace _ scale) as [sc|e] eqn:Esc;
    [|discriminate].
  pose proof (findscales_valid _ _ _ _ Esc) as [Hlen _].
  destruct (_sanitize_q q multifractal) as [qs|e]; [|discriminate].
  destruct sc as [|w sc]; [cbn in Hlen; lia|].
  destruct (_fractal_dfa_getwindow_rows _ _ w overlap); discriminate.
Qed.

(** With [overlap] the loop cuts slices and does not ask whether the
    series is an array. *)
Lemma loop_overlap_any_kind (flag1 flag2 : bool) (s : list R) (n : Z)
  (order : nat) (multifractal : bool) (q : list R) (scale : list Z) :
  forall i m st,
    fluctuation_loop polyfit {| is_ndarray := flag1; samples := s |} n true
      order multifractal q i scale m st
    = fluctuation_loop polyfit {| is_ndarray := flag2; samples := s |} n true
        order multifractal q i scale m st.
Proof.
  induction scale as [|w scale IH]; intros i m st; [reflexivity|].
  rewrite !loop_cons.
  change (_fractal_dfa_getwindow {| is_ndarray := flag1; samples := s |} n w
            true)
    with (_fractal_dfa_getwindow {| is_ndarray := flag2; samples := s |} n w
            true).
  destruct (_fractal_dfa_getwindow _ n w true) as [segments|e];
    [|reflexivity].
  destruct (_fractal_dfa_trends polyfit segments w order) as [trends|e];
    [|reflexivity].
  destruct (_fractal_dfa_fluctuation segments trends multifractal q st)
    as [[f|e] st1]; [|reflexivity].
  destruct (assign_row m i f) as [m1|e]; [|reflexivity].
  apply IH.
Qed.

(** With [overlap] a Series is analysed as the array of its values. *)
Lemma series_run_on (v : list R) (scale : scale_arg) (integrate : bool)
  (order : nat) (multifractal : bool) (q : q_arg) (st : errstate) :
  dfa (PdSeries v) scale true integrate order multifractal q st
  = run_on expspace polyfit polyfit_log (profile true v integrate)
      (Z.of_nat (length v)) scale true order multifractal q st.
Proof.
  unfold fractal_dfa, run_on, analyse, bind, lift.
  destruct (_fractal_dfa_findscales expspace _ scale) as [sc|e];
    [|reflexivity].
  destruct (_sanitize_q q multifractal) as [qs|e]; [|reflexivity].
  assert (Ep : profile true v integrate
               = {| is_ndarray := true;
                    samples := samples (profile true v integrate) |})
    by (destruct integrate; reflexivity).
  rewrite Ep at 2.
  rewrite (loop_overlap_any_kind false true). reflexivity.
Qed.

(** Without [overlap] a Series gets no result: it has no [reshape]. *)
Lemma series_not_overlapping (v : list R) (scale : scale_arg)
  (integrate : bool) (order : nat) (multifractal : bool) (q : q_arg)
  (st : errstate) :
  dfa (PdSeries v) scale false integrate order multifractal q st
  = match _fractal_dfa_findscales expspace (Z.of_nat (length v)) scale with
    | Err e => (Err e, st)
    | Ok _ =>
        match _sanitize_q q multifractal with
        | Err e => (Err e, st)
        | Ok _ =>
            (Err (AttributeError "'Series' object has no attribute 'reshape'"),
             st)
        end
    end.
Proof.
  unfold fractal_dfa, bind, lift, raise.
  destruct (_fractal_dfa_findscales expspace _ scale) as [sc|e] eqn:Esc;
    [|reflexivity].
  pose proof (findscales_valid _ _ _ _ Esc) as [Hlen Hvalid].
  destruct (_sanitize_q q multifractal) as [qs|e]; [|reflexivity].
  destruct sc as [|w sc]; [cbn in Hlen; lia|].
  inversion Hvalid as [|w' sc' Hw _]; subst.
  destruct (Z.eqb_spec w 0) as [?|_]; [lia|]. reflexivity.
Qed.

(** What a run that returns has gone through, whatever the signal: the
    entry point has analysed some series [working] for some length [n],
    and it does so for every exponent argument. *)
Lemma fractal_dfa_returns_any (signal : signal_arg) (scale : scale_arg)
  (overlap integrate : bool) (order : nat) (multifractal : bool) (q : q_arg)
  (st st' : errstate) (out : output) (i : info) :
  dfa signal scale overlap integrate order multifractal q st
  = (Ok (out, i), st') ->
  exists working n,
    (forall multifractal' q' st0,
       dfa signal scale overlap integrate order multifractal' q' st0
       = run_on expspace polyfit polyfit_log working n scale overlap order
           multifractal' q' st0) /\
    exists sc qs m slopes,
    _fractal_dfa_findscales expspace n scale = Ok sc /\
    _sanitize_q q multifractal = Ok qs /\
    fluctuation_loop polyfit working n overlap order multifractal
      (map Q2R qs) 0 sc
      (zeros (length sc) (length (map Q2R qs))) st = (Ok m, st) /\
    _slopes polyfit_log sc m (map Q2R qs) st = (Ok slopes, st) /\
    st' = st /\
    info_scale i = sc /\ info_q i = map Q2R qs /\
    Fluctuation i = Some m /\ Alpha i = Some (unwrap_single slopes) /\
    (if multifractal
     then exists sp,
            _singularity_spectrum (map Q2R qs) (unwrap_single slopes) = Ok sp /\
            Spectrum i = Some sp /\
            out = OutFrame (ExpRange sp) (ExpMean sp) (DimRange sp)
                    (DimMean sp) (HMax sp) (HDelta sp) (HAR sp)
     else Spectrum i = None /\ out = OutSlopes (unwrap_single slopes)).
Proof.
  intros E.
  destruct signal as [v|[|[|nd]] v|v|rows|v];
    try (unfold fractal_dfa, raise in E; discriminate).
  - exists (profile false v integrate), (Z.of_nat (length v)).
    split; [intros; apply (fractal_dfa_run_on false)|].
    apply run_on_returns.
    rewrite <- (fractal_dfa_run_on false). exact E.
  - exists (profile true v integrate), (Z.of_nat (length v)).
    split; [intros; apply (fractal_dfa_run_on true)|].
    apply run_on_returns.
    rewrite <- (fractal_dfa_run_on true). exact E.
  - destruct integrate; [|exfalso; exact (nested_not_integrated _ _ _ _ _ _ _ _ _ _ E)].
    destruct (np_array2d (map row_values rows)) as [array|e] eqn:Ea.
    + assert (Hrun : forall multifractal' q' st0,
                dfa (NestedList rows) scale overlap true order multifractal'
                  q' st0
                = run_on expspace polyfit polyfit_log
                    (profile true (concat array) true)
                    (Z.of_nat (length (map row_values rows))) scale overlap
                    order multifractal' q' st0).
      { intros mf' q' st0. unfold fractal_dfa, run_on, bind, lift.
        destruct (_fractal_dfa_findscales expspace _ scale); [|reflexivity].
        destruct (_sanitize_q q' mf'); [|reflexivity].
        rewrite Ea. reflexivity. }
      exists (profile true (concat array) true),
        (Z.of_nat (length (map row_values rows))).
      split; [exact Hrun|].
      apply run_on_returns. rewrite <- Hrun. exact E.
    + exfalso. unfold fractal_dfa, bind, lift in E.
      destruct (_fractal_dfa_findscales expspace _ scale); [|discriminate].
      destruct (_sanitize_q q multifractal); [|discriminate].
      rewrite Ea in E. discriminate.
  - destruct overlap.
    + exists (profile true v integrate), (Z.of_nat (length v)).
      split; [intros; apply series_run_on|].
      apply run_on_returns. rewrite <- series_run_on. exact E.
    + exfalso. rewrite series_not_overlapping in E.
      destruct (_fractal_dfa_findscales expspace _ scale); [|discriminate].
      destruct (_sanitize_q q multifractal); discriminate.
Qed.

(** The loop and the regression go through on every one-dimensional
    signal whose scales and exponents are accepted, as long as the fit
    returns its coefficients and the series can be reshaped when the
    windows do not overlap. *)
Lemma fractal_dfa_reaches_slopes (is_array : bool) (v : list R)
  (scale : scale_arg) (overlap integrate : bool) (order : nat)
  (multifractal : bool) (q : q_arg) (st : errstate) (sc : list Z)
  (qs : list Q) :
  _fractal_dfa_findscales expspace (Z.of_nat (length v)) scale = Ok sc ->
  _sanitize_q q multifractal = Ok qs ->
  (forall x y, polyfit_log x y 1 <> []) ->
  overlap = true \/ integrate = true \/ is_array = true ->
  exists m slopes,
    fluctuation_loop polyfit (profile is_array v integrate)
      (Z.of_nat (length v)) overlap order multifractal (map Q2R qs) 0 sc
      (zeros (length sc) (length (map Q2R qs))) st = (Ok m, st) /\
    length (rows m) = length sc /\
    _slopes polyfit_log sc m (map Q2R qs) st = (Ok slopes, st) /\
    length slopes = length qs.
Proof.
  intros Esc Eq Hfit Hmode.
  pose proof (findscales_valid _ _ _ _ Esc) as [Hlen Hvalid].
  destruct (length_zeros (length sc) (length (map Q2R qs))) as [Hz Hzc].
  destruct (loop_completes polyfit (profile is_array v integrate)
              (Z.of_nat (length v)) overlap order multifractal (map Q2R qs) sc)
    with (i := 0%nat) (m := zeros (length sc) (length (map Q2R qs))) (st := st)
    as [m El].
  - rewrite length_profile. reflexivity.
  - destruct Hmode as [?|[->| ->]]; [left; assumption | right | right].
    + reflexivity.
    + unfold profile. destruct integrate; reflexivity.
  - exact Hvalid.
  - rewrite Hz. lia.
  - exact Hzc.
  - destruct (loop_shape _ _ _ _ _ _ _ _ _ _ _ _ _ El) as [Hr [Hc _]].
    exists m.
    unfold _slopes. rewrite Hc, Hzc, Nat.eqb_refl. cbn [negb].
    destruct (slopes_loop_completes polyfit_log sc m
                (seq 0 (length (map Q2R qs))) Hfit
                (repeat (Finite 0) (length (map Q2R qs))) st) as [slopes Es].
    exists slopes. repeat split; trivial.
    + rewrite Hr. exact Hz.
    + apply slopes_loop_length in Es.
      rewrite Es, repeat_length, length_map. reflexivity.
Qed.

End Entry.

(** ** The line of least squares *)

Section LineFit.

Local Open Scope R_scope.

Lemma polyval_line (a b x : R) : polyval [a; b] x = a * x + b.
Proof. unfold polyval. cbn. ring. Qed.

Lemma dot_cons (a b : R) (x y : list R) :
  dot (a :: x) (b :: y) = a * b + dot x y.
Proof. reflexivity. Qed.

(** The sum of squares of the residuals of any line, around a given one. *)
Lemma sum_sq_line (a b a' b' : R) (x y : list R) :
  sum_sq (residuals x y [a'; b']) =
  sum_sq (residuals x y [a; b])
  + 2 * (a - a') * dot x (residuals x y [a; b])
  + 2 * (b - b') * Rsum (residuals x y [a; b])
  + sum_sq (map (fun xi => (a - a') * xi + (b - b')) (firstn (length y) x)).
Proof.
  unfold sum_sq, residuals. revert y.
  induction x as [|xi x IH]; intros [|yi y].
  - cbn. ring.
  - cbn. ring.
  - cbn. ring.
  - cbn [zip_with map length firstn]. rewrite !Rsum_cons, dot_cons, IH.
    rewrite !polyval_line. ring.
Qed.

Lemma residuals_line_sum (a b : R) (x y : list R) :
  length x = length y ->
  Rsum (residuals x y [a; b]) = Rsum y - a * Rsum x - INR (length x) * b.
Proof.
  unfold residuals. revert y.
  induction x as [|xi x IH]; intros [|yi y] Hlen; try discriminate.
  - cbn. ring.
  - cbn [zip_with length]. rewrite !Rsum_cons, IH, S_INR, polyval_line
      by (cbn in Hlen; congruence).
    ring.
Qed.

Lemma residuals_line_dot (a b : R) (x y : list R) :
  length x = length y ->
  dot x (residuals x y [a; b]) = dot x y - a * dot x x - b * Rsum x.
Proof.
  unfold residuals. revert y.
  induction x as [|xi x IH]; intros [|yi y] Hlen; try discriminate.
  - cbn. ring.
  - cbn [zip_with]. rewrite !dot_cons, !Rsum_cons, IH, polyval_line
      by (cbn in Hlen; congruence).
    ring.
Qed.

(** The line of [line_fit] is a least-squares fit of degree 1 whenever the
    abscissae are not all equal. *)
Lemma line_fit_least_squares (x y : list R) :
  length x = length y ->
  INR (length x) * dot x x - Rsum x * Rsum x <> 0 ->
  least_squares x y 1 (line_fit x y).
Proof.
  intros Hlen Hdet. split; [reflexivity|].
  intros c' Hc'.
  destruct c' as [|a' [|b' [|? ?]]]; try discriminate.
  unfold line_fit. cbv zeta.
  set (n := INR (length x)) in *.
  set (a := (n * dot x y - Rsum x * Rsum y) / (n * dot x x - Rsum x * Rsum x)).
  set (b := (Rsum y - a * Rsum x) / n).
  assert (Hn : n <> 0).
  { intros E. apply Hdet. rewrite E.
    assert (Hx : x = []).
    { destruct x; [reflexivity|]. exfalso.
      pose proof (lt_0_INR (length (r :: x)) ltac:(cbn; lia)) as Hp.
      fold n in Hp. lra. }
    rewrite Hx. cbn. ring. }
  assert (Hsum : Rsum (residuals x y [a; b]) = 0).
  { rewrite residuals_line_sum by exact Hlen. fold n. unfold b. field.
    exact Hn. }
  assert (Hdot : dot x (residuals x y [a; b]) = 0).
  { rewrite residuals_line_dot by exact Hlen. unfold b, a. field.
    split; assumption. }
  rewrite (sum_sq_line a b a' b'), Hsum, Hdot.
  pose proof (sum_sq_nonneg
                (map (fun xi => (a - a') * xi + (b - b')) (firstn (length y) x))).
  lra.
Qed.

End LineFit.

(** The sums over the abscissa [0, 1, ..., w - 1] in closed form. *)
Lemma Rsum_app (l1 l2 : list R) : Rsum (l1 ++ l2) = (Rsum l1 + Rsum l2)%R.
Proof.
  induction l1 as [|a l1 IH]; cbn [app].
  - cbn. ring.
  - rewrite !Rsum_cons, IH. ring.
Qed.

Lemma dot_app (x1 x2 y1 y2 : list R) :
  length x1 = length y1 ->
  dot (x1 ++ x2) (y1 ++ y2) = (dot x1 y1 + dot x2 y2)%R.
Proof.
  revert y1. induction x1 as [|a x1 IH]; intros [|b y1] Hlen;
    try discriminate.
  - cbn [app]. change (dot [] []) with 0%R. ring.
  - cbn [app]. rewrite !dot_cons, IH by (cbn in Hlen; congruence). ring.
Qed.

Lemma abscissa_sums (w : nat) :
  let x := map INR (seq 0 w) in
  (2 * Rsum x = INR w * (INR w - 1) /\
   6 * dot x x = (INR w - 1) * INR w * (2 * INR w - 1))%R.
Proof.
  cbv zeta. induction w as [|w [IH1 IH2]].
  - unfold dot. cbn. split; ring.
  - rewrite seq_S, map_app, Rsum_app, dot_app by reflexivity.
    cbn [map Nat.add]. unfold dot at 2. cbn [zip_with]. rewrite !Rsum_cons.
    cbn [Rsum fold_right]. rewrite S_INR. split; nra.
Qed.

Lemma abscissa_spread (w : Z) :
  (2 <= w)%Z ->
  (INR (length (abscissa w)) * dot (abscissa w) (abscissa w)
   - Rsum (abscissa w) * Rsum (abscissa w) <> 0)%R.
Proof.
  intros Hw. rewrite length_abscissa. unfold abscissa.
  destruct (abscissa_sums (Z.to_nat w)) as [H1 H2]. cbv zeta in H1, H2.
  set (x := map INR (seq 0 (Z.to_nat w))) in *.
  assert (Hn : (2 <= INR (Z.to_nat w))%R).
  { replace 2%R with (INR 2) by (cbn; ring). apply le_INR. lia. }
  set (n := INR (Z.to_nat w)) in *.
  assert (E : (12 * (n * dot x x - Rsum x * Rsum x)
               = n * n * (n - 1) * (n + 1))%R) by nra.
  assert (Hpos : (0 < n * n * (n - 1) * (n + 1))%R).
  { repeat apply Rmult_lt_0_compat; lra. }
  lra.
Qed.

(** On every window of at least two samples [example_fit] is a
    least-squares fit for degree 1. *)
Lemma example_fit_least_squares (w : Z) (s : list R) :
  (2 <= w)%Z -> length s = Z.to_nat w ->
  least_squares (abscissa w) s 1 (example_fit (abscissa w) s 1).
Proof.
  intros Hw Hs. cbn [example_fit].
  apply line_fit_least_squares.
  - rewrite length_abscissa. symmetry. exact Hs.
  - apply abscissa_spread. exact Hw.
Qed.

(** Hence it is one on every segment of every run of degree 1. *)
Lemma example_fit_on_windows (signal : series) (n : Z) (overlap : bool)
  (scale : list Z) :
  Z.of_nat (length (samples signal)) = n ->
  overlap = true \/ is_ndarray signal = true ->
  Forall (fun w => 2 <= w < n)%Z scale ->
  fits_least_squares example_fit signal n overlap 1 scale.
Proof.
  intros Hn Hmode Hscale w segments s Hw Eg Hs.
  rewrite Forall_forall in Hscale. specialize (Hscale w Hw).
  apply example_fit_least_squares; [lia|].
  destruct (getwindow_batch signal n w overlap Hn Hscale Hmode)
    as [segments' [Eg' [_ Hrows]]].
  rewrite Eg in Eg'. injection Eg' as <-. apply Hrows. exact Hs.
Qed.

(** ** Runs that return *)

(** A monofractal run returns on every one-dimensional signal whose scales
    and exponents are accepted. *)
Lemma fractal_dfa_mono_returns (expspace : Z -> Z -> Z -> Z -> list Z)
  (polyfit : list R -> list R -> nat -> list R)
  (polyfit_log : list xreal -> list xreal -> nat -> list xreal)
  (is_array : bool) (v : list R) (scale : scale_arg)
  (overlap integrate : bool) (order : nat) (q : q_arg) (st : errstate)
  (sc : list Z) (qs : list Q) :
  _fractal_dfa_findscales expspace (Z.of_nat (length v)) scale = Ok sc ->
  _sanitize_q q false = Ok qs ->
  (forall x y, polyfit_log x y 1 <> []) ->
  overlap = true \/ integrate = true \/ is_array = true ->
  exists m slopes,
    fractal_dfa expspace polyfit polyfit_log (signal_1d is_array v) scale
      overlap integrate order false q st
    = (Ok (OutSlopes (unwrap_single slopes),
           mkInfo sc (map Q2R qs) (Some m) (Some (unwrap_single slopes)) None),
       st).
Proof.
  intros Esc Eq Hfit Hmode.
  destruct (fractal_dfa_reaches_slopes expspace polyfit polyfit_log is_array v
              scale overlap integrate order false q st sc qs Esc Eq Hfit Hmode)
    as [m [slopes [El [Hr [Es _]]]]].
  exists m, slopes.
  rewrite fractal_dfa_1d. cbv zeta. rewrite Esc, Eq, El.
  pose proof (findscales_valid _ _ _ _ Esc) as [Hlen _].
  destruct (Nat.eqb_spec (length (rows m)) 0) as [H0|_]; [lia|].
  rewrite Es. reflexivity.
Qed.

Lemma example_regression_nonempty (x y : list xreal) :
  example_regression x y 1 <> [].
Proof.
  unfold example_regression.
  destruct (finite_values x); [destruct (finite_values y)|]; discriminate.
Qed.

Lemma findscales_3_4 :
  _fractal_dfa_findscales no_expspace (Z.of_nat (length seven_samples))
    (ScaleList [3; 4]%Z) = Ok [3; 4]%Z.
Proof. reflexivity. Qed.

(** ** The degenerate branch *)

(** C10: the NaN short-circuit of the entry point never fires.  Accepted
    scales are at least two; the matrix is allocated with one row per
    scale; the loop keeps the rows; so a run that returns has a matrix of at
    least two rows, one per scale, and its result is never the bare NaN. *)
Theorem nan_shortcut_unreachable (expspace : Z -> Z -> Z -> Z -> list Z)
  (polyfit : list R -> list R -> nat -> list R)
  (polyfit_log : list xreal -> list xreal -> nat -> list xreal)
  (signal : signal_arg) (scale : scale_arg) (overlap integrate : bool)
  (order : nat) (multifractal : bool) (q : q_arg) (st : errstate) :
  (forall n sc ncol,
     _fractal_dfa_findscales expspace n scale = Ok sc ->
     (2 <= length sc)%nat /\
     length (rows (zeros (length sc) ncol)) = length sc) /\
  (forall working n qs i sc m m' st1 st2,
     fluctuation_loop polyfit working n overlap order multifractal qs i sc m st1
     = (Ok m', st2) ->
     length (rows m') = length (rows m)) /\
  (forall out i st',
     fractal_dfa expspace polyfit polyfit_log signal scale overlap integrate
       order multifractal q st = (Ok (out, i), st') ->
     out <> OutNaN /\
     exists m, Fluctuation i = Some m /\
               length (rows m) = length (info_scale i) /\
               (2 <= length (rows m))%nat).
Proof.
  split; [|split].
  - intros n sc ncol Esc. split.
    + apply (findscales_valid _ _ _ _ Esc).
    + apply length_zeros.
  - intros working n qs i sc m m' st1 st2 El.
    apply (loop_shape _ _ _ _ _ _ _ _ _ _ _ _ _ El).
  - intros out i st' E.
    destruct (fractal_dfa_returns_any _ _ _ _ _ _ _ _ _ _ _ _ _ _ E)
      as [working [n [_ [sc [qs [m [slopes
           [Esc [Eq [El [Es [-> [Hsc [Hq [Hf [Ha Hout]]]]]]]]]]]]]]]].
    split.
    + destruct multifractal.
      * destruct Hout as [sp [_ [_ ->]]]. discriminate.
      * destruct Hout as [_ ->]. discriminate.
    + exists m. split; [exact Hf|].
      destruct (loop_shape _ _ _ _ _ _ _ _ _ _ _ _ _ El) as [Hr _].
      destruct (length_zeros (length sc) (length (map Q2R qs))) as [Hz _].
      pose proof (findscales_valid _ _ _ _ Esc) as [Hlen _].
      rewrite Hsc, Hr, Hz. split; [reflexivity | exact Hlen].
Qed.

(** ** FluctuationMatrix: no negative entry *)

(** C7: on every run that returns, every entry of the FluctuationMatrix is
    NaN or not negative. *)
Theorem fluctuation_matrix_nonneg (expspace : Z -> Z -> Z -> Z -> list Z)
  (polyfit : list R -> list R -> nat -> list R)
  (polyfit_log : list xreal -> list xreal -> nat -> list xreal)
  (signal : signal_arg) (scale : scale_arg) (overlap integrate : bool)
  (order : nat) (multifractal : bool) (q : q_arg) (st st' : errstate)
  (out : output) (i : info) :
  fractal_dfa expspace polyfit polyfit_log signal scale overlap integrate
    order multifractal q st = (Ok (out, i), st') ->
  exists m, Fluctuation i = Some m /\ matrix_forall nonneg_or_nan m.
Proof.
  intros E.
  destruct (fractal_dfa_returns_any _ _ _ _ _ _ _ _ _ _ _ _ _ _ E)
    as [working [n [_ [sc [qs [m [slopes
         [_ [_ [El [_ [_ [_ [_ [Hf _]]]]]]]]]]]]]]].
  exists m. split; [exact Hf|].
  apply (loop_nonneg _ _ _ _ _ _ _ _ _ _ _ _ _ El).
  unfold matrix_forall, zeros. cbn [rows].
  apply Forall_forall. intros row Hrow. apply repeat_spec in Hrow. subst row.
  apply Forall_forall. intros x Hx. apply repeat_spec in Hx. subst x.
  cbn. lra.
Qed.

(** A witness of [fluctuation_matrix_nonneg]: the monofractal run on seven
    samples with the windows 3 and 4. *)
Lemma fluctuation_matrix_nonneg_witness :
  exists out i m,
    fractal_dfa no_expspace example_fit example_regression (PyList seven_samples)
      (ScaleList [3; 4]%Z) true true 1 false QDefault default_errstate
    = (Ok (out, i), default_errstate) /\
    Fluctuation i = Some m /\ matrix_forall nonneg_or_nan m.
Proof.
  destruct (fractal_dfa_mono_returns no_expspace example_fit example_regression false
              seven_samples (ScaleList [3; 4]%Z) true true 1 QDefault
              default_errstate [3; 4]%Z [2%Q] findscales_3_4 eq_refl
              example_regression_nonempty (or_introl eq_refl))
    as [m [slopes E]].
  destruct (fluctuation_matrix_nonneg no_expspace example_fit example_regression
              (PyList seven_samples) (ScaleList [3; 4]%Z) true true 1 false
              QDefault default_errstate default_errstate _ _ E)
    as [m' [Hf Hm]].
  eexists. eexists. exists m'. split; [exact E|]. split; assumption.
Defined.

(** ** Monofractal runs and the exponents *)

(** C9: without [multifractal], two runs that differ only in [q], with
    sanitized exponent sets of one size, return the same result from the
    same FluctuationMatrix; every row of the matrix is one value repeated
    over the columns, and the slopes are one value repeated. *)
Theorem mono_run_ignores_exponents (expspace : Z -> Z -> Z -> Z -> list Z)
  (polyfit : list R -> list R -> nat -> list R)
  (polyfit_log : list xreal -> list xreal -> nat -> list xreal)
  (signal : signal_arg) (scale : scale_arg) (overlap integrate : bool)
  (order : nat) (q1 q2 : q_arg) (qs1 qs2 : list Q) (st st' : errstate)
  (out : output) (i1 : info) :
  _sanitize_q q1 false = Ok qs1 ->
  _sanitize_q q2 false = Ok qs2 ->
  length qs1 = length qs2 ->
  fractal_dfa expspace polyfit polyfit_log signal scale overlap integrate
    order false q1 st = (Ok (out, i1), st') ->
  exists i2 m c,
    fractal_dfa expspace polyfit polyfit_log signal scale overlap integrate
      order false q2 st = (Ok (out, i2), st') /\
    Fluctuation i1 = Some m /\ Fluctuation i2 = Some m /\
    constant_rows m /\ ncols m = length qs1 /\
    Alpha i1 = Some (unwrap_single (repeat c (length qs1))) /\
    Alpha i2 = Alpha i1 /\
    out = OutSlopes (unwrap_single (repeat c (length qs1))).
Proof.
  intros Eq1 Eq2 Hlen E.
  destruct (fractal_dfa_returns_any _ _ _ _ _ _ _ _ _ _ _ _ _ _ E)
    as [working [n [Hrun [sc [qs [m [slopes
         [Esc [Eq [El [Es [-> [Hsc [Hq [Hf [Ha [Hsp ->]]]]]]]]]]]]]]]]].
  rewrite Eq1 in Eq. inversion Eq; subst qs; clear Eq.
  assert (Hm : constant_rows m).
  { apply (loop_mono_constant_rows _ _ _ _ _ _ _ _ _ _ _ _ El).
    unfold constant_rows, zeros. cbn [rows ncols].
    apply Forall_forall. intros row Hrow. apply repeat_spec in Hrow.
    exists (Finite 0). exact Hrow. }
  destruct (slopes_constant_rows _ _ _ _ _ _ _ Hm Es) as [c Hc].
  destruct (slopes_length _ _ _ _ _ _ _ Es) as [_ Hcols].
  rewrite length_map in Hc, Hcols.
  exists (mkInfo sc (map Q2R qs2) (Some m) (Some (unwrap_single slopes)) None),
    m, c.
  split;
    [|subst slopes; cbn [Fluctuation Alpha]; repeat split; trivial;
      symmetry; exact Ha].
  rewrite Hrun, run_on_steps. cbv zeta. rewrite Esc, Eq2.
  rewrite (loop_mono_any_q _ _ _ _ _ (map Q2R qs2) (map Q2R qs1)).
  rewrite !length_map, <- Hlen, <- (length_map Q2R qs1), El.
  pose proof (findscales_valid _ _ _ _ Esc) as [Hsc2 _].
  destruct (loop_shape _ _ _ _ _ _ _ _ _ _ _ _ _ El) as [Hr _].
  destruct (length_zeros (length sc) (length (map Q2R qs1))) as [Hz _].
  destruct (Nat.eqb_spec (length (rows m)) 0) as [H0|_]; [lia|].
  rewrite (slopes_any_q polyfit_log sc m (map Q2R qs2) (map Q2R qs1))
    by (rewrite !length_map; symmetry; exact Hlen).
  rewrite Es. reflexivity.
Qed.

(** A witness of [mono_run_ignores_exponents]: the default exponent and
    the exponent 5 on seven samples. *)
Lemma mono_run_ignores_exponents_witness :
  exists out i1 i2 m,
    fractal_dfa no_expspace example_fit example_regression (PyList seven_samples)
      (ScaleList [3; 4]%Z) true true 1 false QDefault default_errstate
    = (Ok (out, i1), default_errstate) /\
    fractal_dfa no_expspace example_fit example_regression (PyList seven_samples)
      (ScaleList [3; 4]%Z) true true 1 false (QList [Fl 5]) default_errstate
    = (Ok (out, i2), default_errstate) /\
    Fluctuation i1 = Some m /\ Fluctuation i2 = Some m /\ constant_rows m.
Proof.
  destruct (fractal_dfa_mono_returns no_expspace example_fit example_regression false
              seven_samples (ScaleList [3; 4]%Z) true true 1 QDefault
              default_errstate [3; 4]%Z [2%Q] findscales_3_4 eq_refl
              example_regression_nonempty (or_introl eq_refl))
    as [m [slopes E]].
  destruct (mono_run_ignores_exponents no_expspace example_fit example_regression
              (PyList seven_samples) (ScaleList [3; 4]%Z) true true 1
              QDefault (QList [Fl 5]) [2%Q] [5%Q] default_errstate
              default_errstate _ _ eq_refl eq_refl eq_refl E)
    as [i2 [m' [c [E2 [Hf1 [Hf2 [Hm _]]]]]]].
  eexists. eexists. exists i2, m'.
  split; [exact E|]. split; [exact E2|].
  split; [exact Hf1|]. split; [exact Hf2 | exact Hm].
Defined.

(** ** Entry point: lists of rows *)

Lemma np_array2d_single_column (v : list R) :
  np_array2d (map row_values (map (fun x => (x, [])) v))
  = Ok (map (fun x => [x]) v) /\
  concat (map (fun x => [x]) v) = v.
Proof.
  replace (map row_values (map (fun x => (x, [])) v))
    with (map (fun x => [x]) v) by (rewrite map_map; reflexivity).
  split.
  - unfold np_array2d. destruct v as [|x v]; [reflexivity|].
    cbn [map].
    replace (forallb (fun r' => (length r' =? length [x])%nat)
               ([x] :: map (fun x0 => [x0]) v)) with true; [reflexivity|].
    symmetry. apply forallb_forall. intros r Hr.
    destruct Hr as [<-|Hr]; [reflexivity|].
    apply in_map_iff in Hr. destruct Hr as [y [<- _]]. reflexivity.
  - induction v as [|x v IH]; [reflexivity|].
    cbn [map concat app]. rewrite IH. reflexivity.
Qed.

(** With [integrate], a list of rows of one number each is analysed as the
    array of these numbers. *)
Lemma nested_single_column (expspace : Z -> Z -> Z -> Z -> list Z)
  (polyfit : list R -> list R -> nat -> list R)
  (polyfit_log : list xreal -> list xreal -> nat -> list xreal)
  (v : list R) (scale : scale_arg) (overlap : bool) (order : nat)
  (multifractal : bool) (q : q_arg) (st : errstate) :
  fractal_dfa expspace polyfit polyfit_log
    (NestedList (map (fun x => (x, [])) v)) scale overlap true order
    multifractal q st
  = fractal_dfa expspace polyfit polyfit_log (NdArray 1 v) scale overlap true
      order multifractal q st.
Proof.
  destruct (np_array2d_single_column v) as [Ea Ec].
  unfold fractal_dfa, bind, lift. rewrite !length_map.
  destruct (_fractal_dfa_findscales expspace _ scale); [|reflexivity].
  destruct (_sanitize_q q multifractal); [|reflexivity].
  rewrite Ea, Ec. reflexivity.
Qed.

(** C6 as stated fails on a list of rows: the seven rows
    [[[0], [1], [0], [0], [2], [0], [1]]] have two dimensions and are not
    an array, the guard lets them pass, and the default run on them with
    the windows 3 and 4 returns a result. *)
Lemma nested_list_accepted_counterexample :
  (1 < signal_ndim (NestedList seven_rows))%nat /\
  is_array_or_frame (NestedList seven_rows) = false /\
  exists out i,
    fractal_dfa no_expspace example_fit example_regression
      (NestedList seven_rows) (ScaleList [3; 4]%Z) true true 1 false
      QDefault default_errstate
    = (Ok (out, i), default_errstate).
Proof.
  split; [cbn; lia|]. split; [reflexivity|].
  destruct (fractal_dfa_mono_returns no_expspace example_fit
              example_regression true seven_samples (ScaleList [3; 4]%Z)
              true true 1 QDefault default_errstate [3; 4]%Z [2%Q]
              findscales_3_4 eq_refl example_regression_nonempty
              (or_introl eq_refl)) as [m [slopes E]].
  eexists. eexists. unfold seven_rows.
  rewrite nested_single_column. exact E.
Qed.

(** ** The exponent 2 and the root mean square *)










(** ** SingularitySpectrumExtractor: [_singularity_spectrum] *)

Lemma length_zip_with {A B C : Type} (f : A -> B -> C) (l1 : list A)
  (l2 : list B) :
  length (zip_with f l1 l2) = Nat.min (length l1) (length l2).
Proof.
  revert l2. induction l1 as [|a l1 IH]; intros [|b l2]; cbn; auto.
Qed.

Lemma nth_zip_with {A B C : Type} (f : A -> B -> C) (l1 : list A)
  (l2 : list B) (i : nat) (da : A) (db : B) (dc : C) :
  (i < length l1)%nat -> (i < length l2)%nat ->
  nth i (zip_with f l1 l2) dc = f (nth i l1 da) (nth i l2 db).
Proof.
  revert l2 i. induction l1 as [|a l1 IH]; intros [|b l2] [|i] H1 H2;
    cbn in *; try lia; [reflexivity|]. apply IH; lia.
Qed.

Lemma broadcast_same_length {A B C : Type} (f : A -> B -> C) (l1 : list A)
  (l2 : list B) :
  length l1 = length l2 -> broadcast f l1 l2 = Ok (zip_with f l1 l2).
Proof. intros H. unfold broadcast. rewrite H, Nat.eqb_refl. reflexivity. Qed.

Lemma length_gradient_interior (l : list xreal) :
  length (gradient_interior l) = (length l - 2)%nat.
Proof.
  induction l as [|a [|b [|c l]] IH]; try reflexivity.
  cbn [gradient_interior length] in *. rewrite IH. lia.
Qed.

Lemma nth_gradient_interior (l : list xreal) (i : nat) (d : xreal) :
  (i + 2 < length l)%nat ->
  nth i (gradient_interior l) d =
  xdiv (xsub (nth (i + 2) l NaN) (nth i l NaN)) (Finite 2).
Proof.
  revert i. induction l as [|a [|b [|c l]] IH]; intros i Hi;
    cbn [length] in Hi; try lia.
  destruct i as [|i].
  - reflexivity.
  - cbn [gradient_interior]. cbn [nth]. rewrite IH by (cbn [length]; lia).
    reflexivity.
Qed.

Lemma gradient_eq (l : list xreal) :
  (2 <= length l)%nat ->
  gradient l =
  Ok (xdiv (xsub (nth 1 l NaN) (nth 0 l NaN)) (Finite 1)
        :: gradient_interior l
        ++ [xdiv (xsub (nth (length l - 1) l NaN) (nth (length l - 2) l NaN))
                 (Finite 1)]).
Proof.
  destruct l as [|a [|b l]]; cbn [length]; try lia. intros _. reflexivity.
Qed.

Lemma gradient_short (l : list xreal) :
  (length l < 2)%nat -> gradient l = Err (ValueError gradient_msg).
Proof.
  destruct l as [|a [|b l]]; cbn [length]; try lia; reflexivity.
Qed.

Lemma length_gradient (l g : list xreal) :
  gradient l = Ok g -> length g = length l /\ (2 <= length l)%nat.
Proof.
  intros E.
  assert (H2 : (2 <= length l)%nat).
  { destruct (Nat.le_gt_cases 2 (length l)) as [H|H]; [exact H|].
    rewrite gradient_short in E by exact H. discriminate. }
  rewrite gradient_eq in E by exact H2. injection E as <-.
  split; [|exact H2].
  cbn [length]. rewrite length_app, length_gradient_interior.
  cbn [length]. lia.
Qed.

Lemma gradient_returns (l : list xreal) :
  (2 <= length l)%nat -> exists g, gradient l = Ok g.
Proof.
  destruct l as [|a [|b l]]; cbn [length]; try lia.
  intros _. eexists. reflexivity.
Qed.

(** The entries of [np.gradient] by position. *)
Lemma nth_gradient (l g : list xreal) (i : nat) :
  gradient l = Ok g -> (i < length l)%nat ->
  nth i g NaN =
  if (i =? 0)%nat
  then xdiv (xsub (nth 1 l NaN) (nth 0 l NaN)) (Finite 1)
  else if (i =? length l - 1)%nat
       then xdiv (xsub (nth (length l - 1) l NaN) (nth (length l - 2) l NaN))
                 (Finite 1)
       else xdiv (xsub (nth (i + 1) l NaN) (nth (i - 1) l NaN)) (Finite 2).
Proof.
  intros E Hi. pose proof (length_gradient l g E) as [Hlen H2].
  rewrite gradient_eq in E by exact H2. injection E as <-.
  destruct i as [|i]; [reflexivity|].
  change (S i =? 0)%nat with false. cbv iota. cbn [nth].
  destruct (Nat.eqb_spec (S i) (length l - 1)) as [Hlast|Hmid].
  - rewrite app_nth2 by (rewrite length_gradient_interior; lia).
    rewrite length_gradient_interior.
    replace (i - (length l - 2))%nat with 0%nat by lia. reflexivity.
  - rewrite app_nth1 by (rewrite length_gradient_interior; lia).
    rewrite nth_gradient_interior by lia.
    replace (i + 2)%nat with (S i + 1)%nat by lia.
    replace (S i - 1)%nat with i by lia. reflexivity.
Qed.

(** A quotient of two differences that were both divided by [k]. *)
Lemma xdiv_cancel (a : xreal) (b k : R) :
  (0 < k)%R ->
  xdiv (xdiv a (Finite k)) (xdiv (Finite b) (Finite k)) = xdiv a (Finite b).
Proof.
  intros Hk.
  assert (Hbk : (b / k = 0 <-> b = 0)%R).
  { split; intros H.
    - apply (Rmult_eq_compat_r k) in H. unfold Rdiv in H.
      rewrite Rmult_assoc, Rinv_l, Rmult_1_r, Rmult_0_l in H by lra. exact H.
    - subst b. unfold Rdiv. apply Rmult_0_l. }
  assert (Hneg : (b / k < 0 <-> b < 0)%R).
  { assert (Hik : (0 < / k)%R) by (apply Rinv_0_lt_compat; exact Hk).
    unfold Rdiv. split; intros Hb; nra. }
  destruct a as [x| | |]; cbn [xdiv].
  - destruct (Req_dec_T k 0) as [?|_]; [lra|]. cbn [xdiv].
    destruct (Req_dec_T (b / k) 0) as [E|E];
      destruct (Req_dec_T b 0) as [E'|E']; try tauto.
    + assert (0 < / k)%R by (apply Rinv_0_lt_compat; exact Hk).
      f_equal.
      destruct (Rsign_spec x) as [[-> ?]|[[-> ?]|[-> ?]]];
        destruct (Rsign_spec (x / k)) as [[-> ?]|[[-> ?]|[-> ?]]];
        try reflexivity; unfold Rdiv in *; exfalso; nra.
    + f_equal. field. split; lra.
  - destruct (Req_dec_T k 0) as [?|_]; [lra|].
    destruct (Rlt_dec k 0); [lra|]. cbn [xdiv].
    destruct (Rlt_dec (b / k) 0); destruct (Rlt_dec b 0); tauto.
  - destruct (Req_dec_T k 0) as [?|_]; [lra|].
    destruct (Rlt_dec k 0); [lra|]. cbn [xdiv].
    destruct (Rlt_dec (b / k) 0); destruct (Rlt_dec b 0); tauto.
  - destruct (Req_dec_T k 0) as [?|_]; [lra|]. reflexivity.
Qed.

Lemma nth_gradient_wrt (tau : list xreal) (q : list R) (i : nat) :
  (i < length q)%nat ->
  nth i (gradient_wrt tau q) NaN =
  if (i =? 0)%nat then quotient tau q 0 1
  else if (i =? length q - 1)%nat
       then quotient tau q (length q - 2) (length q - 1)
       else quotient tau q (i - 1) (i + 1).
Proof.
  intros Hi. unfold gradient_wrt. cbv zeta.
  set (f := fun i : nat => if (i =? 0)%nat then _ else _).
  rewrite (nth_indep (map f (seq 0 (length q))) NaN (f 0%nat))
    by (rewrite length_map, length_seq; exact Hi).
  rewrite (map_nth f (seq 0 (length q)) 0%nat i), seq_nth by exact Hi.
  reflexivity.
Qed.

Lemma gradient_ratio (q : list R) (tau dtau dq : list xreal) :
  length tau = length q ->
  gradient tau = Ok dtau -> gradient (map Finite q) = Ok dq ->
  zip_with xdiv dtau dq = gradient_wrt tau q.
Proof.
  intros Hlen Et Eq.
  pose proof (length_gradient _ _ Et) as [Hlt H2].
  pose proof (length_gradient _ _ Eq) as [Hlq _].
  rewrite length_map in Hlq.
  apply nth_ext with (d := NaN) (d' := NaN).
  - unfold gradient_wrt. cbv zeta.
    rewrite length_zip_with, length_map, length_seq. lia.
  - intros i Hi. rewrite length_zip_with in Hi.
    rewrite (nth_zip_with xdiv dtau dq i NaN NaN NaN) by lia.
    rewrite (nth_gradient _ _ i Et) by lia.
    rewrite (nth_gradient _ _ i Eq) by (rewrite length_map; lia).
    rewrite nth_gradient_wrt by lia.
    rewrite length_map, Hlen.
    assert (Hq : forall j, (j < length q)%nat ->
              nth j (map Finite q) NaN = Finite (nth j q 0%R)).
    { intros j Hj.
      rewrite (nth_indep (map Finite q) NaN (Finite 0))
        by (rewrite length_map; exact Hj).
      apply map_nth. }
    unfold quotient.
    destruct (Nat.eqb_spec i 0) as [->|Hi0].
    + rewrite !Hq by lia. cbn [xsub xopp xadd].
      apply (xdiv_cancel _ (nth 1 q 0 - nth 0 q 0)%R 1%R). lra.
    + destruct (Nat.eqb_spec i (length q - 1)) as [Hlast|Hmid].
      * rewrite !Hq by lia. cbn [xsub xopp xadd].
        apply (xdiv_cancel _
                 (nth (length q - 1) q 0 - nth (length q - 2) q 0)%R 1%R).
        lra.
      * rewrite !Hq by lia. cbn [xsub xopp xadd].
        apply (xdiv_cancel _ (nth (i + 1) q 0 - nth (i - 1) q 0)%R 2%R). lra.
Qed.

Lemma zip_with_map_l {A A' B C : Type} (f : A' -> B -> C) (g : A -> A')
  (l1 : list A) (l2 : list B) :
  zip_with f (map g l1) l2 = zip_with (fun a b => f (g a) b) l1 l2.
Proof.
  revert l2. induction l1 as [|a l1 IH]; intros [|b l2]; try reflexivity.
  cbn [map zip_with]. rewrite IH. reflexivity.
Qed.

Lemma map_zip_with {A B C D : Type} (g : C -> D) (f : A -> B -> C)
  (l1 : list A) (l2 : list B) :
  map g (zip_with f l1 l2) = zip_with (fun a b => g (f a b)) l1 l2.
Proof.
  revert l2. induction l1 as [|a l1 IH]; intros [|b l2]; try reflexivity.
  cbn [map zip_with]. rewrite IH. reflexivity.
Qed.

Lemma nanmax_returns (l : list xreal) :
  l <> [] -> exists x, nanmax l = Ok x.
Proof.
  destruct l as [|a l]; [congruence|]. intros _. unfold nanmax.
  destruct (drop_nan (a :: l)); eexists; reflexivity.
Qed.

Lemma nanmin_returns (l : list xreal) :
  l <> [] -> exists x, nanmin l = Ok x.
Proof.
  destruct l as [|a l]; [congruence|]. intros _. unfold nanmin.
  destruct (drop_nan (a :: l)); eexists; reflexivity.
Qed.

Lemma argmax_from_bound (l : list xreal) :
  forall best ibest i,
    (ibest < i)%nat -> (argmax_from best ibest i l < i + length l)%nat.
Proof.
  induction l as [|a l IH]; intros best ibest i Hi; cbn [argmax_from length].
  - lia.
  - destruct (xleb a best).
    + specialize (IH best ibest (S i) ltac:(lia)). lia.
    + specialize (IH a i (S i) ltac:(lia)). lia.
Qed.

Lemma nanargmax_bound (l : list xreal) (i : nat) :
  nanargmax l = Ok i -> (i < length l)%nat.
Proof.
  unfold nanargmax. destruct (forallb is_nan l) eqn:E; [discriminate|].
  intros H. injection H as <-.
  destruct l as [|a l]; [discriminate|].
  cbn [map tl length].
  pose proof (argmax_from_bound
                (map (fun a0 => if is_nan a0 then NegInf else a0) l)
                (hd NegInf ((if is_nan a then NegInf else a)
                            :: map (fun a0 => if is_nan a0 then NegInf else a0) l))
                0 1 ltac:(lia)) as H.
  rewrite length_map in H. lia.
Qed.

(** The extractor, step by step, on at least two exponents. *)
Lemma spectrum_steps (q : list R) (slopes : list xreal) :
  length slopes = length q -> (2 <= length q)%nat ->
  let tau := tau_of q slopes in
  let Hq := gradient_wrt tau q in
  let Dq := dimension_of q Hq tau in
  exists maxH minH maxD minD,
    nanmax Hq = Ok maxH /\ nanmin Hq = Ok minH /\
    nanmax Dq = Ok maxD /\ nanmin Dq = Ok minD /\
    _singularity_spectrum q (Vector slopes) =
    match nanargmax Dq with
    | Err e => Err e
    | Ok imax =>
        match nth_error Hq imax with
        | None => Err IndexError
        | Some hmax =>
            Ok {| h := Vector slopes; Tau := tau; H := Hq; D := Dq;
                  ExpRange := xsub maxH minH; ExpMean := nanmean Hq;
                  DimRange := xsub maxD minD; DimMean := nanmean Dq;
                  HMax := hmax; HDelta := xsub maxH minH;
                  HAR := xdiv (xsub minH hmax) (xsub maxH minH) |}
        end
    end.
Proof.
  intros Hlen H2 tau Hq Dq.
  assert (Ltau : length tau = length q).
  { subst tau. unfold tau_of. rewrite length_zip_with. lia. }
  assert (LH : length Hq = length q).
  { subst Hq. unfold gradient_wrt. cbv zeta.
    rewrite length_map, length_seq. reflexivity. }
  assert (LD : length Dq = length q).
  { subst Dq. unfold dimension_of. rewrite !length_zip_with. lia. }
  destruct (nanmax_returns Hq) as [maxH EmaxH];
    [intros E; rewrite E in LH; cbn in LH; lia|].
  destruct (nanmin_returns Hq) as [minH EminH];
    [intros E; rewrite E in LH; cbn in LH; lia|].
  destruct (nanmax_returns Dq) as [maxD EmaxD];
    [intros E; rewrite E in LD; cbn in LD; lia|].
  destruct (nanmin_returns Dq) as [minD EminD];
    [intros E; rewrite E in LD; cbn in LD; lia|].
  exists maxH, minH, maxD, minD. repeat split; trivial.
  unfold _singularity_spectrum, times.
  rewrite broadcast_same_length by (rewrite length_map; lia).
  cbn [rbind]. rewrite zip_with_map_l, map_zip_with. fold (tau_of q slopes).
  fold tau.
  destruct (gradient_returns tau ltac:(lia)) as [dtau Et].
  destruct (gradient_returns (map Finite q)
              ltac:(rewrite length_map; lia)) as [dq Eq].
  pose proof (length_gradient _ _ Et) as [Ldt _].
  pose proof (length_gradient _ _ Eq) as [Ldq _]. rewrite length_map in Ldq.
  rewrite Et, Eq. cbn [rbind].
  rewrite broadcast_same_length by lia. cbn [rbind].
  rewrite (gradient_ratio q tau dtau dq Ltau Et Eq). fold Hq.
  rewrite broadcast_same_length by (rewrite length_map; lia).
  cbn [rbind]. rewrite zip_with_map_l.
  rewrite broadcast_same_length by (rewrite length_zip_with; lia).
  cbn [rbind]. fold (dimension_of q Hq tau). fold Dq.
  rewrite EmaxH, EminH, EmaxD, EminD. cbn [rbind].
  destruct (nanargmax Dq) as [imax|e]; [|reflexivity]. cbn [rbind].
  destruct (nth_error Hq imax); reflexivity.
Qed.

Lemma spectrum_too_short (q : list R) (slopes : list xreal) :
  length slopes = length q -> (length q < 2)%nat ->
  _singularity_spectrum q (Vector slopes) = Err (ValueError gradient_msg).
Proof.
  intros Hlen Hq.
  destruct q as [|q0 [|q1 q]]; cbn in Hq; try lia;
    destruct slopes as [|s0 [|s1 slopes]]; try discriminate; reflexivity.
Qed.




(* ================================================================= *)
(** * Further properties of the estimator *)

(** ** Windower: the non-overlapping mode *)

Lemma firstn_plus {A : Type} (a b : nat) (l : list A) :
  firstn (a + b) l = firstn a l ++ firstn b (skipn a l).
Proof.
  revert l. induction a as [|a IH]; intros l; [reflexivity|].
  destruct l as [|x l]; cbn [Nat.add firstn skipn app].
  - rewrite firstn_nil. reflexivity.
  - rewrite IH. reflexivity.
Qed.

Lemma concat_chunk {A : Type} (r c : nat) (l : list A) :
  concat (chunk r c l) = firstn (r * c) l.
Proof.
  revert l. induction r as [|r IH]; intros l; [reflexivity|].
  cbn [chunk concat Nat.mul]. rewrite IH, firstn_plus. reflexivity.
Qed.

Lemma nth_chunk {A : Type} (r c k : nat) (l : list A) :
  (k < r)%nat -> nth k (chunk r c l) [] = firstn c (skipn (k * c) l).
Proof.
  revert k l. induction r as [|r IH]; intros k l Hk; [lia|].
  destruct k as [|k]; cbn [chunk nth Nat.mul]; [reflexivity|].
  rewrite IH by lia. rewrite skipn_skipn.
  replace (k * c + c)%nat with (c + k * c)%nat by lia. reflexivity.
Qed.

(** Without overlap an array is cut into [n // w] consecutive segments of
    [w] samples: segment [k] is [signal[k*w : (k+1)*w]], no sample is used
    twice, and the [n mod w] samples at the end are dropped. *)
Theorem getwindow_nonoverlap_segments (signal : series) (n w : Z) :
  is_ndarray signal = true ->
  Z.of_nat (length (samples signal)) = n -> (1 <= w)%Z ->
  exists segments,
    _fractal_dfa_getwindow signal n w false = Ok segments /\
    Z.of_nat (length segments) = (n / w)%Z /\
    (forall k, (k < length segments)%nat ->
       nth k segments [] =
         firstn (Z.to_nat w) (skipn (k * Z.to_nat w) (samples signal)) /\
       length (nth k segments []) = Z.to_nat w) /\
    concat segments = firstn (Z.to_nat (n - n mod w)) (samples signal).
Proof.
  intros Harr Hn Hw.
  unfold _fractal_dfa_getwindow.
  destruct (Z.eqb_spec w 0) as [?|_]; [lia|].
  rewrite Harr. cbn [negb]. unfold reshape2d.
  pose proof (Z.div_mod n w ltac:(lia)) as Hdm.
  pose proof (Z.mod_pos_bound n w ltac:(lia)) as Hmod.
  assert (Hn0 : (0 <= n)%Z) by lia.
  assert (Hq : (0 <= n / w)%Z) by (apply Z.div_pos; lia).
  destruct (py_slice_inside (samples signal) 0 (n - n mod w)
              ltac:(nia) ltac:(lia)) as [Hsl Hlen].
  rewrite Hn, Hlen.
  replace ((0 <=? n / w) && (0 <=? w)
           && (n / w * w =? Z.of_nat (Z.to_nat (n - n mod w - 0))))%Z
    with true.
  2:{ symmetry. rewrite !andb_true_iff, !Z.leb_le, Z.eqb_eq. nia. }
  rewrite Hsl. cbn [Z.to_nat skipn]. rewrite Z.sub_0_r.
  set (body := firstn (Z.to_nat (n - n mod w)) (samples signal)).
  assert (Hbody : length body = (Z.to_nat (n / w) * Z.to_nat w)%nat).
  { subst body. rewrite length_firstn. nia. }
  eexists. split; [reflexivity|]. split; [|split].
  - rewrite length_chunk. lia.
  - intros k Hk. rewrite length_chunk in Hk.
    rewrite nth_chunk by exact Hk.
    assert (Hin : (k * Z.to_nat w + Z.to_nat w <= Z.to_nat (n - n mod w))%nat)
      by nia.
    split.
    + subst body. rewrite firstn_skipn_comm, firstn_firstn.
      rewrite Nat.min_l by lia. rewrite <- firstn_skipn_comm. reflexivity.
    + rewrite length_firstn, length_skipn. lia.
  - rewrite concat_chunk. apply firstn_all2. lia.
Qed.

(** A witness of [getwindow_nonoverlap_segments]: seven samples cut into
    two segments of three, the last sample dropped. *)
Lemma getwindow_nonoverlap_segments_witness :
  exists segments,
    _fractal_dfa_getwindow (mkSeries true seven_samples) 7 3 false
    = Ok segments /\
    Z.of_nat (length segments) = (7 / 3)%Z /\
    concat segments = firstn (Z.to_nat (7 - 7 mod 3)) seven_samples.
Proof.
  destruct (getwindow_nonoverlap_segments (mkSeries true seven_samples) 7 3
              eq_refl eq_refl ltac:(lia)) as [segments [E [L [_ C]]]].
  exists segments. split; [exact E|]. split; [exact L|exact C].
Defined.

(** ** Windower: the last sample in the overlapping mode *)

Lemma arange_len_neg_step (stop step : Z) :
  (0 <= stop)%Z -> (step < 0)%Z -> arange_len 0 stop step = 0%Z.
Proof.
  intros Hs Hstep. unfold arange_len.
  assert (0 <= (0 - stop) / step)%Z.
  { rewrite <- (Z.opp_involutive ((0 - stop) / step)).
    rewrite <- Z.div_opp_opp by lia.
    rewrite Z.opp_involutive. apply Z.div_pos; lia. }
  lia.
Qed.

(** Every start that [np.arange(0, stop, step)] yields is a multiple of the
    step that lies in [[0, stop)], unless the values run downwards. *)
Lemma arange_starts (stop step : Z) (starts : list Z) :
  ((step < 0)%Z -> (0 <= stop)%Z) ->
  arange 0 stop step = Ok starts ->
  forall i, In i starts -> (0 <= i < stop)%Z /\ (0 < step)%Z.
Proof.
  intros Hdown.
  unfold arange. destruct (Z.eqb_spec step 0) as [?|Hstep]; [discriminate|].
  intros E i Hi. inversion E; subst starts; clear E.
  apply in_map_iff in Hi. destruct Hi as [k [<- Hk]]. apply in_seq in Hk.
  destruct (Z.lt_ge_cases step 0) as [Hneg|Hpos].
  - rewrite arange_len_neg_step in Hk by auto. cbn in Hk. lia.
  - assert (Hs : (0 < step)%Z) by lia.
    split; [|exact Hs].
    unfold arange_len in Hk.
    destruct (Z.lt_ge_cases 0 stop) as [Hstop|Hstop].
    + replace (0 - stop)%Z with (- stop)%Z in Hk by lia.
      rewrite ceil_div_opp in Hk by exact Hs.
      pose proof (ceil_div_bounds stop step Hs) as Hc. cbv zeta in Hc.
      nia.
    + assert (0 <= (0 - stop) / step)%Z by (apply Z.div_pos; lia). lia.
Qed.

Lemma py_slice_app_inside {A : Type} (l t : list A) (i j : Z) :
  (0 <= i <= j)%Z -> (j <= Z.of_nat (length l))%Z ->
  py_slice (l ++ t) i j = py_slice l i j.
Proof.
  intros Hi Hj.
  destruct (py_slice_inside l i j Hi Hj) as [-> _].
  destruct (py_slice_inside (l ++ t) i j Hi) as [-> _].
  { rewrite length_app. lia. }
  rewrite skipn_app, firstn_app, length_skipn.
  replace (Z.to_nat i - length l)%nat with 0%nat by lia.
  replace (Z.to_nat (j - i) - (length l - Z.to_nat i))%nat with 0%nat by lia.
  cbn [skipn firstn]. apply app_nil_r.
Qed.

(** With overlap no window reaches the last sample of the series. *)
Lemma getwindow_overlap_last (is_array : bool) (v : list R) (a b : R)
  (w : Z) :
  _fractal_dfa_getwindow (mkSeries is_array (v ++ [a]))
    (Z.of_nat (length (v ++ [a]))) w true
  = _fractal_dfa_getwindow (mkSeries is_array (v ++ [b]))
      (Z.of_nat (length (v ++ [b]))) w true.
Proof.
  unfold _fractal_dfa_getwindow. cbn [samples].
  rewrite !length_app. cbn [length].
  set (n := Z.of_nat (length v + 1)).
  destruct (arange 0 (n - w) (w / 2)) as [starts|e] eqn:Ea; [|reflexivity].
  cbn [rbind]. f_equal. apply map_ext_in. intros i Hi.
  assert (Hdown : ((w / 2 < 0)%Z -> (0 <= n - w)%Z)).
  { intros Hneg.
    assert (w < 0)%Z; [|lia].
    destruct (Z.lt_ge_cases w 0) as [?|Hw]; [assumption|].
    pose proof (Z.div_pos w 2 Hw ltac:(lia)). lia. }
  destruct (arange_starts _ _ _ Hdown Ea i Hi) as [Hrange Hstep].
  assert (Hw : (2 <= w)%Z).
  { destruct (Z.lt_ge_cases w 2) as [Hlt|?]; [|assumption].
    assert (w / 2 <= 0)%Z; [|lia].
    destruct (Z.lt_ge_cases w 0) as [Hn|Hp].
    - pose proof (Z.div_lt_upper_bound w 2 0 ltac:(lia) ltac:(lia)). lia.
    - assert (w / 2 = 0)%Z by (apply Z.div_small; lia). lia. }
  rewrite !py_slice_app_inside by lia. reflexivity.
Qed.

(** With overlapping windows and without integration the result does not
    depend on the last sample of the signal: it is never read. *)
Theorem overlap_ignores_last_sample
  (expspace : Z -> Z -> Z -> Z -> list Z)
  (polyfit : list R -> list R -> nat -> list R)
  (polyfit_log : list xreal -> list xreal -> nat -> list xreal)
  (is_array : bool) (v : list R) (a b : R) (scale : scale_arg) (order : nat)
  (multifractal : bool) (q : q_arg) (st : errstate) :
  fractal_dfa expspace polyfit polyfit_log (signal_1d is_array (v ++ [a]))
    scale true false order multifractal q st
  = fractal_dfa expspace polyfit polyfit_log (signal_1d is_array (v ++ [b]))
      scale true false order multifractal q st.
Proof.
  rewrite !fractal_dfa_1d. cbv zeta.
  assert (Hlen : length (v ++ [a]) = length (v ++ [b]))
    by (rewrite !length_app; reflexivity).
  rewrite <- Hlen.
  destruct (_fractal_dfa_findscales expspace _ scale) as [sc|e]; [|reflexivity].
  destruct (_sanitize_q q multifractal) as [qs|e]; [|reflexivity].
  assert (Hloop : forall sc i m st0,
    fluctuation_loop polyfit (profile is_array (v ++ [a]) false)
      (Z.of_nat (length (v ++ [a]))) true order multifractal (map Q2R qs)
      i sc m st0
    = fluctuation_loop polyfit (profile is_array (v ++ [b]) false)
        (Z.of_nat (length (v ++ [a]))) true order multifractal (map Q2R qs)
        i sc m st0).
  { clear sc. intros sc. induction sc as [|w sc IH]; intros i m st0;
      [reflexivity|].
    rewrite !loop_cons. unfold profile.
    rewrite Hlen at 2.
    rewrite <- (getwindow_overlap_last is_array v a b w).
    destruct (_fractal_dfa_getwindow _ _ w true) as [segments|e];
      [|reflexivity].
    destruct (_fractal_dfa_trends polyfit segments w order) as [trends|e];
      [|reflexivity].
    destruct (_fractal_dfa_fluctuation segments trends multifractal _ st0)
      as [[f|e] st1]; [|reflexivity].
    destruct (assign_row m i f) as [m1|e]; [|reflexivity].
    apply IH. }
  rewrite Hloop. reflexivity.
Qed.

(** ** Profiler: the integrated signal *)

Lemma Rsum_map_shift (c : R) (v : list R) :
  Rsum (map (fun x => (x + c)%R) v) = (Rsum v + INR (length v) * c)%R.
Proof.
  induction v as [|x v IH].
  - cbn. ring.
  - change (map (fun x => (x + c)%R) (x :: v))
      with ((x + c)%R :: map (fun x => (x + c)%R) v).
    rewrite !Rsum_cons, IH.
    change (length (x :: v)) with (S (length v)). rewrite S_INR. ring.
Qed.

Lemma Rmean_map_shift (c : R) (v : list R) :
  v <> [] -> Rmean (map (fun x => (x + c)%R) v) = (Rmean v + c)%R.
Proof.
  intros Hv. unfold Rmean. rewrite Rsum_map_shift, length_map.
  assert (INR (length v) <> 0%R).
  { apply not_0_INR. destruct v; [congruence|discriminate]. }
  field. assumption.
Qed.

Lemma profile_shift (is_array : bool) (c : R) (v : list R) :
  profile is_array (map (fun x => (x + c)%R) v) true = profile is_array v true.
Proof.
  unfold profile. f_equal.
  destruct v as [|x v]; [reflexivity|].
  rewrite Rmean_map_shift by discriminate.
  rewrite map_map. f_equal. apply map_ext. intros y. ring.
Qed.

(** With [integrate] the estimator does not see a constant offset of the
    signal: the profile is built from the deviations from the mean (exact
    arithmetic). *)
Theorem integrate_offset_invariant
  (expspace : Z -> Z -> Z -> Z -> list Z)
  (polyfit : list R -> list R -> nat -> list R)
  (polyfit_log : list xreal -> list xreal -> nat -> list xreal)
  (is_array : bool) (v : list R) (c : R) (scale : scale_arg) (overlap : bool)
  (order : nat) (multifractal : bool) (q : q_arg) (st : errstate) :
  fractal_dfa expspace polyfit polyfit_log
    (signal_1d is_array (map (fun x => (x + c)%R) v))
    scale overlap true order multifractal q st
  = fractal_dfa expspace polyfit polyfit_log (signal_1d is_array v)
      scale overlap true order multifractal q st.
Proof.
  rewrite !fractal_dfa_1d. cbv zeta.
  rewrite length_map, profile_shift. reflexivity.
Qed.

Lemma last_cumsum_from (d acc : R) (l : list R) :
  l <> [] -> last (cumsum_from acc l) d = (acc + Rsum l)%R.
Proof.
  revert acc. induction l as [|x l IH]; intros acc Hl; [congruence|].
  destruct l as [|y l].
  - cbn. ring.
  - change (cumsum_from acc (x :: y :: l))
      with ((acc + x)%R :: cumsum_from (acc + x)%R (y :: l)).
    change (cumsum_from (acc + x)%R (y :: l))
      with ((acc + x + y)%R :: cumsum_from (acc + x + y)%R l).
    change (last (?a :: ?b :: ?t) d) with (last (b :: t) d).
    change ((acc + x + y)%R :: cumsum_from (acc + x + y)%R l)
      with (cumsum_from (acc + x)%R (y :: l)).
    rewrite IH by discriminate. rewrite (Rsum_cons x). ring.
Qed.

Lemma Rsum_centred (v : list R) :
  v <> [] -> Rsum (map (fun x => (x - Rmean v)%R) v) = 0%R.
Proof.
  intros Hv.
  replace (map (fun x => (x - Rmean v)%R) v)
    with (map (fun x => (x + - Rmean v)%R) v)
    by (apply map_ext; intros; ring).
  rewrite Rsum_map_shift. unfold Rmean.
  assert (INR (length v) <> 0%R).
  { apply not_0_INR. destruct v; [congruence|discriminate]. }
  field. assumption.
Qed.

(** The profile of a signal ends at zero: its last sample is the sum of
    all the deviations from the mean (exact arithmetic). *)
Theorem profile_ends_at_zero (is_array : bool) (v : list R) :
  v <> [] ->
  length (samples (profile is_array v true)) = length v /\
  last (samples (profile is_array v true)) 1%R = 0%R.
Proof.
  intros Hv. split; [apply length_profile|].
  unfold profile. cbn [samples]. unfold cumsum.
  assert (Hne : map (fun x => (x - Rmean v)%R) v <> []).
  { destruct v; [congruence|discriminate]. }
  rewrite (last_cumsum_from 1 0 _ Hne), Rsum_centred by exact Hv. ring.
Qed.

(** A witness of [profile_ends_at_zero]: the seven samples of the
    examples. *)
Lemma profile_ends_at_zero_witness :
  last (samples (profile false seven_samples true)) 1%R = 0%R.
Proof.
  apply (profile_ends_at_zero false seven_samples). discriminate.
Defined.

(** ** ExponentSanitizer: values that are not numbers *)

Lemma sanitize_q_entries (q : q_arg) (multifractal : bool) :
  _sanitize_q q multifractal =
  rbind (rmapM (fun x => match x with
                         | Fl v => Ok v
                         | _ => Err (ValueError chkfinite_msg)
                         end) (q_entries q multifractal))
        (fun l => Ok (filter exceeds_tenth l)).
Proof.
  assert (Hf : forall l : list Q,
    filter (fun x => Qlt_bool x (-1 # 10) || Qlt_bool (1 # 10) x) l
    = filter exceeds_tenth l).
  { intros l. apply filter_ext. intros x. apply outside_tenth_abs. }
  unfold _sanitize_q, asarray_chkfinite, q_entries.
  destruct q as [|x|l]; [destruct multifractal|..]; cbn [negb];
    match goal with
    | |- rbind ?r _ = _ => destruct r as [l0|e]; cbn [rbind];
                           [rewrite Hf|]; reflexivity
    end.
Qed.

Lemma rmapM_chkfinite (l : list float_in) :
  (forallb is_finite l = true ->
   exists qs, rmapM (fun x => match x with
                              | Fl v => Ok v
                              | _ => Err (ValueError chkfinite_msg)
                              end) l = Ok qs /\ l = map Fl qs) /\
  (forallb is_finite l = false ->
   rmapM (fun x => match x with
                   | Fl v => Ok v
                   | _ => Err (ValueError chkfinite_msg)
                   end) l = Err (ValueError chkfinite_msg)).
Proof.
  induction l as [|x l [IH1 IH2]].
  - split; [|discriminate]. intros _. exists []. split; reflexivity.
  - cbn [forallb rmapM]. destruct x as [v|neg|]; cbn [is_finite andb rbind].
    + split.
      * intros Hl. destruct (IH1 Hl) as [qs [-> ->]].
        exists (v :: qs). split; reflexivity.
      * intros Hl. rewrite (IH2 Hl). reflexivity.
    + split; [discriminate|reflexivity].
    + split; [discriminate|reflexivity].
Qed.

(** An exponent that is infinite or NaN is rejected, in every mode:
    also without [multifractal], where the exponents are not used
    otherwise, a signal with accepted scales gets the [ValueError] of
    [np.asarray_chkfinite], and no window is cut. *)
Theorem nonfinite_exponent_rejected
  (expspace : Z -> Z -> Z -> Z -> list Z)
  (polyfit : list R -> list R -> nat -> list R)
  (polyfit_log : list xreal -> list xreal -> nat -> list xreal)
  (is_array : bool) (v : list R) (scale : scale_arg)
  (overlap integrate : bool) (order : nat) (multifractal : bool) (q : q_arg)
  (st : errstate) (sc : list Z) :
  _fractal_dfa_findscales expspace (Z.of_nat (length v)) scale = Ok sc ->
  forallb is_finite (q_entries q multifractal) = false ->
  _sanitize_q q multifractal = Err (ValueError chkfinite_msg) /\
  fractal_dfa expspace polyfit polyfit_log (signal_1d is_array v) scale
    overlap integrate order multifractal q st
  = (Err (ValueError chkfinite_msg), st).
Proof.
  intros Esc Hq.
  assert (E : _sanitize_q q multifractal = Err (ValueError chkfinite_msg)).
  { rewrite sanitize_q_entries.
    rewrite (proj2 (rmapM_chkfinite _) Hq). reflexivity. }
  split; [exact E|].
  rewrite fractal_dfa_1d. cbv zeta. rewrite Esc, E. reflexivity.
Qed.

(** A witness of [nonfinite_exponent_rejected]: a NaN beside the
    exponent 2, in a monofractal run. *)
Lemma nonfinite_exponent_rejected_witness :
  fractal_dfa no_expspace example_fit example_regression
    (signal_1d false seven_samples) (ScaleList [3; 4]%Z) true true 1 false
    (QList [Fl 2; FlNaN]) default_errstate
  = (Err (ValueError chkfinite_msg), default_errstate).
Proof.
  exact (proj2 (nonfinite_exponent_rejected no_expspace example_fit
                  example_regression false seven_samples (ScaleList [3; 4]%Z)
                  true true 1 false (QList [Fl 2; FlNaN]) default_errstate
                  [3; 4]%Z findscales_3_4 eq_refl)).
Defined.

(** ** The outcomes of the entry point *)

(** A Python list cannot be reshaped: without overlap and without
    integration the first window already fails. *)
Lemma loop_list_no_reshape (polyfit : list R -> list R -> nat -> list R)
  (v : list R) (n : Z) (order : nat) (multifractal : bool) (q : list R)
  (sc : list Z) (m : matrix) (st : errstate) :
  sc <> [] -> Forall (fun w => (2 <= w < n)%Z) sc ->
  fluctuation_loop polyfit (profile false v false) n false order multifractal
    q 0 sc m st
  = (Err (AttributeError no_reshape_msg), st).
Proof.
  intros Hne Hsc. destruct sc as [|w sc]; [congruence|].
  inversion Hsc as [|w' sc' Hw _]; subst.
  rewrite loop_cons. unfold _fractal_dfa_getwindow, profile.
  cbn [is_ndarray negb].
  destruct (Z.eqb_spec w 0) as [?|_]; [lia|]. reflexivity.
Qed.

Lemma can_window_cases (is_array overlap integrate : bool) :
  can_window is_array overlap integrate = true ->
  overlap = true \/ integrate = true \/ is_array = true.
Proof.
  unfold can_window. destruct overlap, integrate, is_array; cbn; auto.
Qed.

(** The outcome of a monofractal run on a flat Python list of numbers or
    on a one-dimensional array, as long as the regression returns its
    coefficients: the error of the scale
    validation if there is one; otherwise the error of the exponents if
    there is one; otherwise [AttributeError] for a Python list taken
    without overlap and without integration; otherwise it returns one
    slope per exponent that was kept, with a matrix of one row per scale,
    and the error policy is the one it found. *)
Theorem fractal_dfa_mono_outcome
  (expspace : Z -> Z -> Z -> Z -> list Z)
  (polyfit : list R -> list R -> nat -> list R)
  (polyfit_log : list xreal -> list xreal -> nat -> list xreal)
  (is_array : bool) (v : list R) (scale : scale_arg)
  (overlap integrate : bool) (order : nat) (q : q_arg) (st : errstate) :
  (forall x y, polyfit_log x y 1 <> []) ->
  let run :=
    fractal_dfa expspace polyfit polyfit_log (signal_1d is_array v) scale
      overlap integrate order false q st in
  match _fractal_dfa_findscales expspace (Z.of_nat (length v)) scale,
        _sanitize_q q false with
  | Err e, _ => run = (Err e, st)
  | Ok _, Err e => run = (Err e, st)
  | Ok sc, Ok qs =>
      if can_window is_array overlap integrate
      then exists m slopes,
             run = (Ok (OutSlopes (unwrap_single slopes),
                        mkInfo sc (map Q2R qs) (Some m)
                          (Some (unwrap_single slopes)) None), st) /\
             length (rows m) = length sc /\ ncols m = length qs /\
             length slopes = length qs
      else run = (Err (AttributeError no_reshape_msg), st)
  end.
Proof.
  intros Hfit run. subst run.
  destruct (_fractal_dfa_findscales expspace _ scale) as [sc|e] eqn:Esc.
  2:{ rewrite fractal_dfa_1d. cbv zeta. rewrite Esc. reflexivity. }
  destruct (_sanitize_q q false) as [qs|e] eqn:Eq.
  2:{ rewrite fractal_dfa_1d. cbv zeta. rewrite Esc, Eq. reflexivity. }
  destruct (can_window is_array overlap integrate) eqn:Hmode.
  - apply can_window_cases in Hmode.
    destruct (fractal_dfa_reaches_slopes expspace polyfit polyfit_log is_array
                v scale overlap integrate order false q st sc qs Esc Eq Hfit
                Hmode) as [m [slopes [El [Hr [Es Hsl]]]]].
    exists m, slopes.
    destruct (slopes_length _ _ _ _ _ _ _ Es) as [_ Hc].
    rewrite length_map in Hc.
    split; [|auto].
    rewrite fractal_dfa_1d. cbv zeta. rewrite Esc, Eq, El.
    pose proof (findscales_valid _ _ _ _ Esc) as [Hlen _].
    destruct (Nat.eqb_spec (length (rows m)) 0) as [H0|_]; [lia|].
    rewrite Es. reflexivity.
  - unfold can_window in Hmode.
    destruct overlap, integrate, is_array; try discriminate.
    rewrite fractal_dfa_1d. cbv zeta. rewrite Esc, Eq.
    pose proof (findscales_valid _ _ _ _ Esc) as [Hlen Hvalid].
    rewrite loop_list_no_reshape;
      [reflexivity | destruct sc; [cbn in Hlen; lia | discriminate] | exact Hvalid].
Qed.

(** A witness of [fractal_dfa_mono_outcome]: the default run on seven
    samples returns; the same list without overlap and integration does
    not. *)
Lemma fractal_dfa_mono_outcome_witness :
  (exists m slopes,
     fractal_dfa no_expspace example_fit example_regression
       (signal_1d false seven_samples) (ScaleList [3; 4]%Z) true true 1
       false QDefault default_errstate
     = (Ok (OutSlopes (unwrap_single slopes),
            mkInfo [3; 4]%Z (map Q2R [2%Q]) (Some m)
              (Some (unwrap_single slopes)) None), default_errstate) /\
     length (rows m) = 2%nat /\ ncols m = 1%nat /\ length slopes = 1%nat) /\
  fractal_dfa no_expspace example_fit example_regression
    (signal_1d false seven_samples) (ScaleList [3; 4]%Z) false false 1
    false QDefault default_errstate
  = (Err (AttributeError no_reshape_msg), default_errstate).
Proof.
  split.
  - exact (fractal_dfa_mono_outcome no_expspace example_fit example_regression
             false seven_samples (ScaleList [3; 4]%Z) true true 1 QDefault
             default_errstate example_regression_nonempty).
  - exact (fractal_dfa_mono_outcome no_expspace example_fit example_regression
             false seven_samples (ScaleList [3; 4]%Z) false false 1 QDefault
             default_errstate example_regression_nonempty).
Defined.

Lemma length_spectrum_parts (q : list R) (slopes : list xreal) :
  length slopes = length q ->
  let tau := tau_of q slopes in
  let Hq := gradient_wrt tau q in
  let Dq := dimension_of q Hq tau in
  length tau = length q /\ length Hq = length q /\ length Dq = length q.
Proof.
  intros Hlen tau Hq Dq.
  assert (Lt : length tau = length q).
  { subst tau. unfold tau_of. rewrite length_zip_with. lia. }
  assert (LH : length Hq = length q).
  { subst Hq. unfold gradient_wrt. cbv zeta.
    rewrite length_map, length_seq. reflexivity. }
  split; [exact Lt|]. split; [exact LH|].
  subst Dq. unfold dimension_of. rewrite !length_zip_with. lia.
Qed.

(** The extractor on at least two exponents: it rejects a [D] that is NaN
    throughout and returns otherwise. *)
Lemma spectrum_outcome (q : list R) (slopes : list xreal) :
  length slopes = length q -> (2 <= length q)%nat ->
  let Dq := dimension_of q (gradient_wrt (tau_of q slopes) q)
              (tau_of q slopes) in
  if forallb is_nan Dq
  then _singularity_spectrum q (Vector slopes) = Err (ValueError all_nan_msg)
  else exists sp, _singularity_spectrum q (Vector slopes) = Ok sp.
Proof.
  intros Hlen H2 Dq.
  destruct (spectrum_steps q slopes Hlen H2)
    as [maxH [minH [maxD [minD [_ [_ [_ [_ E]]]]]]]].
  cbv zeta in E. fold Dq in E. rewrite E. clear E.
  destruct (length_spectrum_parts q slopes Hlen) as [_ [LH LD]].
  fold Dq in LD.
  destruct (forallb is_nan Dq) eqn:Hnan.
  - unfold nanargmax. rewrite Hnan. reflexivity.
  - destruct (nanargmax Dq) as [imax|e] eqn:Ei.
    + pose proof (nanargmax_bound Dq imax Ei) as Hb.
      destruct (nth_error (gradient_wrt (tau_of q slopes) q) imax) eqn:En.
      * eexists. reflexivity.
      * apply nth_error_None in En. lia.
    + unfold nanargmax in Ei. rewrite Hnan in Ei. discriminate.
Qed.

(** The outcome of a multifractal run on a flat Python list of numbers or
    on a one-dimensional array, as long as the regression returns its
    coefficients and the error policy the run finds lets a division by
    zero or an invalid operation yield its value (the features of the
    spectrum are computed under that policy: with two exponents [HAR] is
    [0 / 0]).  After the errors of the
    scales, of the exponents and of a list that cannot be reshaped, the
    loop and the regression go through; then fewer than two exponents
    are rejected by the gradient, a singularity dimension that is NaN
    throughout is rejected by [np.nanargmax], and every other run returns
    the seven features of the spectrum, with the spectrum in [info]. *)
Theorem fractal_dfa_multi_outcome
  (expspace : Z -> Z -> Z -> Z -> list Z)
  (polyfit : list R -> list R -> nat -> list R)
  (polyfit_log : list xreal -> list xreal -> nat -> list xreal)
  (is_array : bool) (v : list R) (scale : scale_arg)
  (overlap integrate : bool) (order : nat) (q : q_arg) (st : errstate) :
  (forall x y, polyfit_log x y 1 <> []) ->
  quiet st = true ->
  let run :=
    fractal_dfa expspace polyfit polyfit_log (signal_1d is_array v) scale
      overlap integrate order true q st in
  match _fractal_dfa_findscales expspace (Z.of_nat (length v)) scale,
        _sanitize_q q true with
  | Err e, _ => run = (Err e, st)
  | Ok _, Err e => run = (Err e, st)
  | Ok sc, Ok qs =>
      if can_window is_array overlap integrate
      then exists m slopes,
             fluctuation_loop polyfit (profile is_array v integrate)
               (Z.of_nat (length v)) overlap order true (map Q2R qs) 0 sc
               (zeros (length sc) (length (map Q2R qs))) st = (Ok m, st) /\
             _slopes polyfit_log sc m (map Q2R qs) st = (Ok slopes, st) /\
             length slopes = length qs /\
             if (length qs <? 2)%nat
             then run = (Err (ValueError gradient_msg), st)
             else
               let Dq := dimension_of (map Q2R qs)
                           (gradient_wrt (tau_of (map Q2R qs) slopes)
                              (map Q2R qs))
                           (tau_of (map Q2R qs) slopes) in
               if forallb is_nan Dq
               then run = (Err (ValueError all_nan_msg), st)
               else exists sp,
                      _singularity_spectrum (map Q2R qs) (Vector slopes)
                      = Ok sp /\
                      run = (Ok (OutFrame (ExpRange sp) (ExpMean sp)
                                   (DimRange sp) (DimMean sp) (HMax sp)
                                   (HDelta sp) (HAR sp),
                                 mkInfo sc (map Q2R qs) (Some m)
                                   (Some (Vector slopes)) (Some sp)), st)
      else run = (Err (AttributeError no_reshape_msg), st)
  end.
Proof.
  intros Hfit _ run. subst run.
  destruct (_fractal_dfa_findscales expspace _ scale) as [sc|e] eqn:Esc.
  2:{ rewrite fractal_dfa_1d. cbv zeta. rewrite Esc. reflexivity. }
  destruct (_sanitize_q q true) as [qs|e] eqn:Eq.
  2:{ rewrite fractal_dfa_1d. cbv zeta. rewrite Esc, Eq. reflexivity. }
  pose proof (findscales_valid _ _ _ _ Esc) as [Hlen Hvalid].
  destruct (can_window is_array overlap integrate) eqn:Hmode.
  - apply can_window_cases in Hmode.
    destruct (fractal_dfa_reaches_slopes expspace polyfit polyfit_log is_array
                v scale overlap integrate order true q st sc qs Esc Eq Hfit
                Hmode) as [m [slopes [El [Hr [Es Hsl]]]]].
    exists m, slopes. split; [exact El|]. split; [exact Es|].
    split; [exact Hsl|].
    rewrite fractal_dfa_1d. cbv zeta. rewrite Esc, Eq, El.
    destruct (Nat.eqb_spec (length (rows m)) 0) as [H0|_]; [lia|].
    rewrite Es.
    destruct (Nat.ltb_spec (length qs) 2) as [Hshort|Hlong].
    + destruct qs as [|x [|y qs]]; cbn in Hshort; try lia;
        destruct slopes as [|s [|s' slopes]]; cbn in Hsl; try lia;
        reflexivity.
    + assert (Hu : unwrap_single slopes = Vector slopes).
      { destruct slopes as [|s [|s' slopes]]; cbn in Hsl; try lia.
        reflexivity. }
      rewrite Hu.
      assert (Hq : length slopes = length (map Q2R qs))
        by (rewrite length_map; exact Hsl).
      pose proof (spectrum_outcome (map Q2R qs) slopes Hq
                    ltac:(rewrite length_map; exact Hlong)) as Hsp.
      cbv zeta in Hsp |- *.
      destruct (forallb is_nan _).
      * rewrite Hsp. reflexivity.
      * destruct Hsp as [sp Esp]. exists sp. rewrite Esp. auto.
  - unfold can_window in Hmode.
    destruct overlap, integrate, is_array; try discriminate.
    rewrite fractal_dfa_1d. cbv zeta. rewrite Esc, Eq.
    rewrite loop_list_no_reshape;
      [reflexivity | destruct sc; [cbn in Hlen; lia | discriminate] | exact Hvalid].
Qed.

(** A witness of [fractal_dfa_multi_outcome]: with the single exponent 2
    the loop and the regression go through and the gradient rejects the
    run. *)
Lemma fractal_dfa_multi_outcome_witness :
  fractal_dfa no_expspace example_fit example_regression
    (signal_1d false seven_samples) (ScaleList [3; 4]%Z) true true 1 true
    (QList [Fl 2]) default_errstate
  = (Err (ValueError gradient_msg), default_errstate).
Proof.
  destruct (fractal_dfa_multi_outcome no_expspace example_fit
              example_regression false seven_samples (ScaleList [3; 4]%Z)
              true true 1 (QList [Fl 2]) default_errstate
              example_regression_nonempty eq_refl)
    as [m [slopes [_ [_ [_ E]]]]].
  exact E.
Defined.

(** ** ScaleSelector: signals that are too short *)

Lemma findscales_error (expspace : Z -> Z -> Z -> Z -> list Z) (n : Z)
  (scale : scale_arg) (e : exn) :
  _fractal_dfa_findscales expspace n scale = Err e -> InvalidScaleError e.
Proof.
  rewrite findscales_validates. cbv zeta. unfold InvalidScaleError.
  destruct (length _ <? 2)%nat; [intros E; inversion E; auto|].
  destruct (np_min _ <? 2)%Z; [intros E; inversion E; auto|].
  destruct (np_max _ >=? n)%Z; [intros E; inversion E; auto|discriminate].
Qed.

(** A window has at least 2 samples and fewer than the signal, so a signal
    of fewer than 3 samples has no valid window: whatever the [scale]
    argument, and whatever the scale generator returns, the entry point
    raises one of the three errors of the scale validation, before the
    exponents are looked at. *)
Theorem short_signal_rejected
  (expspace : Z -> Z -> Z -> Z -> list Z)
  (polyfit : list R -> list R -> nat -> list R)
  (polyfit_log : list xreal -> list xreal -> nat -> list xreal)
  (is_array : bool) (v : list R) (scale : scale_arg)
  (overlap integrate : bool) (order : nat) (multifractal : bool) (q : q_arg)
  (st : errstate) :
  (length v < 3)%nat ->
  exists e,
    InvalidScaleError e /\
    _fractal_dfa_findscales expspace (Z.of_nat (length v)) scale = Err e /\
    fractal_dfa expspace polyfit polyfit_log (signal_1d is_array v) scale
      overlap integrate order multifractal q st = (Err e, st).
Proof.
  intros Hshort.
  destruct (_fractal_dfa_findscales expspace (Z.of_nat (length v)) scale)
    as [sc|e] eqn:Esc.
  - exfalso.
    destruct (findscales_valid _ _ _ _ Esc) as [Hlen Hvalid].
    destruct sc as [|w sc]; [cbn in Hlen; lia|].
    inversion Hvalid as [|w' sc' Hw _]; subst. lia.
  - exists e. split; [exact (findscales_error _ _ _ _ Esc)|].
    split; [reflexivity|].
    rewrite fractal_dfa_1d. cbv zeta. rewrite Esc. reflexivity.
Qed.

(** A witness of [short_signal_rejected]: two samples. *)
Lemma short_signal_rejected_witness :
  exists e,
    InvalidScaleError e /\
    fractal_dfa no_expspace example_fit example_regression
      (signal_1d true [1; 2]%R) (ScaleList [2; 2]%Z) true true 1 false
      QDefault default_errstate = (Err e, default_errstate).
Proof.
  destruct (short_signal_rejected no_expspace example_fit example_regression
              true [1; 2]%R (ScaleList [2; 2]%Z) true true 1 false QDefault
              default_errstate ltac:(cbn; lia)) as [e [He [_ E]]].
  exists e. split; [exact He|exact E].
Defined.

(** ** The FluctuationMatrix, row by row *)

Lemma assign_row_row_of (m m' : matrix) (i : nat) (f : scalar_or_vector) :
  assign_row m i f = Ok m' ->
  ncols m' = ncols m /\ (i < length (rows m))%nat /\
  rows m' = update_nth i (row_of (ncols m) f) (rows m) /\
  length (row_of (ncols m) f) = ncols m.
Proof.
  intros E. destruct (assign_row_inv m m' i f E) as [Hc [Hi [row [Hr Hrow]]]].
  split; [exact Hc|]. split; [exact Hi|].
  destruct f as [x|l]; cbn [row_of].
  - subst row. split; [exact Hr|apply repeat_length].
  - destruct Hrow as [[-> Hl]|[x [-> ->]]].
    + rewrite Hl, Nat.eqb_refl. split; [exact Hr|exact Hl].
    + cbn [length]. destruct (Nat.eqb_spec 1 (ncols m)) as [H1|H1].
      * rewrite <- H1 in *. cbn [repeat] in Hr. split; [exact Hr|reflexivity].
      * split; [exact Hr|apply repeat_length].
Qed.

Section Rows.

Variable polyfit : list R -> list R -> nat -> list R.
Variable signal : series.
Variable n : Z.
Variable overlap : bool.
Variable order : nat.
Variable multifractal : bool.
Variable q : list R.

Local Abbreviation loop :=
  (fluctuation_loop polyfit signal n overlap order multifractal q).

(** The loop keeps the matrix rectangular. *)
Lemma loop_rect (scale : list Z) :
  forall i m m' st st',
    loop i scale m st = (Ok m', st') -> rectangular m -> rectangular m'.
Proof.
  induction scale as [|w scale IH]; intros i m m' st st' E Hm.
  - inversion E; subst. exact Hm.
  - apply loop_step in E.
    destruct E as [segments [trends [f [m1 [_ [_ [_ [Ha E]]]]]]]].
    apply (IH _ _ _ _ _ E).
    destruct (assign_row_row_of _ _ _ _ Ha) as [Hc [_ [Hr Hl]]].
    unfold rectangular. rewrite Hr, Hc.
    apply Forall_update_nth; [exact Hl|exact Hm].
Qed.

(** What the loop leaves in the matrix: the rows outside its range are
    untouched, and row [i0 + k] holds the fluctuation of the [k]-th
    window, computed from the segments of that window and their trends. *)
Lemma loop_rows (scale : list Z) :
  forall i0 m m' st st',
    loop i0 scale m st = (Ok m', st') ->
    (forall j, (j < i0 \/ i0 + length scale <= j)%nat ->
       nth j (rows m') [] = nth j (rows m) []) /\
    (forall k, (k < length scale)%nat ->
       exists segments trends f,
         _fractal_dfa_getwindow signal n (nth k scale 0%Z) overlap
         = Ok segments /\
         _fractal_dfa_trends polyfit segments (nth k scale 0%Z) order
         = Ok trends /\
         _fractal_dfa_fluctuation segments trends multifractal q st
         = (Ok f, st) /\
         nth (i0 + k) (rows m') [] = row_of (ncols m) f).
Proof.
  induction scale as [|w scale IH]; intros i0 m m' st st' E.
  - inversion E; subst. split; [reflexivity|]. intros k Hk. cbn in Hk. lia.
  - apply loop_step in E.
    destruct E as [segments [trends [f [m1 [Eg [Et [Ef [Ha E]]]]]]]].
    destruct (assign_row_row_of _ _ _ _ Ha) as [Hc [Hi [Hr Hl]]].
    destruct (IH _ _ _ _ _ E) as [Hout Hin].
    split.
    + intros j Hj. cbn [length] in Hj.
      rewrite Hout by lia. rewrite Hr.
      apply nth_update_nth_other. lia.
    + intros [|k] Hk; cbn [length] in Hk.
      * exists segments, trends, f. cbn [nth].
        repeat split; try assumption.
        rewrite Nat.add_0_r, Hout by lia.
        rewrite Hr. apply nth_update_nth_same. exact Hi.
      * destruct (Hin k ltac:(lia)) as [sg [tr [f' [Eg' [Et' [Ef' Hrow]]]]]].
        exists sg, tr, f'. cbn [nth]. repeat split; try assumption.
        replace (i0 + S k)%nat with (S i0 + k)%nat by lia.
        rewrite Hrow, Hc. reflexivity.
Qed.

End Rows.

Lemma rectangular_zeros (r c : nat) : rectangular (zeros r c).
Proof.
  unfold rectangular, zeros. cbn. apply Forall_forall. intros row Hrow.
  apply repeat_spec in Hrow. subst row. apply repeat_length.
Qed.

Lemma unwrap_single_cases (slopes : list xreal) :
  match unwrap_single slopes with
  | Scalar x => slopes = [x]
  | Vector l => l = slopes /\ length slopes <> 1%nat
  end.
Proof.
  destruct slopes as [|s [|s' slopes]]; cbn; auto.
Qed.

Lemma sanitize_q_kept (q : q_arg) (multifractal : bool) (qs : list Q) :
  _sanitize_q q multifractal = Ok qs -> Forall (fun x => exceeds_tenth x = true) qs.
Proof.
  rewrite sanitize_q_entries.
  destruct (rmapM _ _) as [l|e]; [|discriminate]. cbn [rbind].
  intros E. inversion E; subst qs. apply Forall_forall. intros x Hx.
  apply filter_In in Hx. apply Hx.
Qed.

(** The shape of what a run returns.  [info] holds the validated scales,
    each a window of at least 2 samples and fewer than the signal, and the
    exponents that were kept, each further than a tenth from zero; the
    FluctuationMatrix is rectangular with one row per scale and one column
    per exponent; [Alpha] is a bare number when exactly one exponent was
    kept and a vector of one slope per exponent otherwise; without
    [multifractal] the first result is [Alpha] and there is no spectrum,
    with it the first result is the frame of the seven features of the
    spectrum stored in [info], over at least two exponents. *)
Theorem fractal_dfa_result_shape
  (expspace : Z -> Z -> Z -> Z -> list Z)
  (polyfit : list R -> list R -> nat -> list R)
  (polyfit_log : list xreal -> list xreal -> nat -> list xreal)
  (is_array : bool) (v : list R) (scale : scale_arg)
  (overlap integrate : bool) (order : nat) (multifractal : bool) (q : q_arg)
  (st st' : errstate) (out : output) (i : info) :
  fractal_dfa expspace polyfit polyfit_log (signal_1d is_array v) scale
    overlap integrate order multifractal q st = (Ok (out, i), st') ->
  (2 <= length (info_scale i))%nat /\
  Forall (fun w => (2 <= w < Z.of_nat (length v))%Z) (info_scale i) /\
  (exists qs, info_q i = map Q2R qs /\
              Forall (fun x => exceeds_tenth x = true) qs) /\
  exists m a,
    Fluctuation i = Some m /\ Alpha i = Some a /\
    length (rows m) = length (info_scale i) /\
    ncols m = length (info_q i) /\ rectangular m /\
    match a with
    | Scalar _ => length (info_q i) = 1%nat
    | Vector l => length l = length (info_q i) /\ length l <> 1%nat
    end /\
    if multifractal
    then exists sp,
           Spectrum i = Some sp /\ (2 <= length (info_q i))%nat /\
           out = OutFrame (ExpRange sp) (ExpMean sp) (DimRange sp)
                   (DimMean sp) (HMax sp) (HDelta sp) (HAR sp)
    else Spectrum i = None /\ out = OutSlopes a.
Proof.
  intros E.
  destruct (fractal_dfa_returns _ _ _ _ _ _ _ _ _ _ _ _ _ _ _ E)
    as [ia [v' [sc [qs [m [slopes
         [Hsig [Esc [Eq [El [Es [_ [Hi1 [Hi2 [Hi3 [Hi4 Hout]]]]]]]]]]]]]]]].
  assert (Hv : v' = v /\ ia = is_array).
  { unfold signal_1d in Hsig. destruct is_array, ia; inversion Hsig; auto. }
  destruct Hv as [-> ->].
  destruct (findscales_valid _ _ _ _ Esc) as [Hlen Hvalid].
  destruct (loop_shape _ _ _ _ _ _ _ _ _ _ _ _ _ El) as [Hr [Hc _]].
  destruct (length_zeros (length sc) (length (map Q2R qs))) as [Hz Hzc].
  pose proof (loop_rect _ _ _ _ _ _ _ _ _ _ _ _ _ El
                (rectangular_zeros _ _)) as Hrect.
  destruct (slopes_length _ _ _ _ _ _ _ Es) as [Hsl _].
  rewrite Hi1, Hi2.
  split; [exact Hlen|]. split; [exact Hvalid|].
  split; [exists qs; split; [reflexivity|exact (sanitize_q_kept _ _ _ Eq)]|].
  exists m, (unwrap_single slopes).
  split; [exact Hi3|]. split; [exact Hi4|].
  split; [lia|]. split; [lia|]. split; [exact Hrect|].
  pose proof (unwrap_single_cases slopes) as Hu.
  split.
  { destruct (unwrap_single slopes) as [x|l].
    - subst slopes. symmetry. exact Hsl.
    - destruct Hu as [-> Hne]. split; [exact Hsl|exact Hne]. }
  destruct multifractal.
  - destruct Hout as [sp [Esp [Hsp ->]]].
    exists sp. split; [exact Hsp|]. split; [|reflexivity].
    destruct (le_lt_dec 2 (length (map Q2R qs))) as [H2|H2]; [exact H2|].
    exfalso.
    destruct (unwrap_single slopes) as [x|l].
    + subst slopes. cbn in Hsl.
      destruct (map Q2R qs) as [|q0 [|q1 l]]; cbn in Hsl; try lia.
      cbn in Esp. discriminate.
    + destruct Hu as [-> _].
      rewrite spectrum_too_short in Esp by assumption. discriminate.
  - exact Hout.
Qed.

(** A witness of [fractal_dfa_result_shape]: the default monofractal run on
    seven samples, which returns a bare number as [Alpha]. *)
Lemma fractal_dfa_result_shape_witness :
  exists out i m a,
    fractal_dfa no_expspace example_fit example_regression
      (signal_1d false seven_samples) (ScaleList [3; 4]%Z) true true 1 false
      QDefault default_errstate = (Ok (out, i), default_errstate) /\
    Fluctuation i = Some m /\ Alpha i = Some a /\
    length (rows m) = length (info_scale i) /\ rectangular m.
Proof.
  destruct (fractal_dfa_mono_returns no_expspace example_fit
              example_regression false seven_samples (ScaleList [3; 4]%Z)
              true true 1 QDefault default_errstate [3; 4]%Z [2%Q]
              findscales_3_4 eq_refl example_regression_nonempty
              (or_introl eq_refl)) as [m0 [slopes E]].
  destruct (fractal_dfa_result_shape _ _ _ _ _ _ _ _ _ _ _ _ _ _ _ E)
    as [_ [_ [_ [m [a [Hm [Ha [Hr [_ [Hrect _]]]]]]]]]].
  eexists _, _, m, a. split; [exact E|]. auto.
Defined.

(** ** Exponents that are all dropped *)

Lemma sanitize_q_near_zero (q : q_arg) (multifractal : bool) :
  forallb near_zero (q_entries q multifractal) = true ->
  _sanitize_q q multifractal = Ok [].
Proof.
  rewrite sanitize_q_entries.
  induction (q_entries q multifractal) as [|x l IH]; [reflexivity|].
  cbn [forallb]. rewrite andb_true_iff. intros [Hx Hl].
  specialize (IH Hl).
  destruct x as [v| |]; try discriminate. cbn [near_zero] in Hx.
  cbn [rmapM rbind].
  destruct (rmapM _ l) as [l0|e]; [|discriminate]. cbn [rbind] in IH |- *.
  cbn [filter]. apply negb_true_iff in Hx. rewrite Hx. exact IH.
Qed.

Lemma matrix_without_columns (m : matrix) (r : nat) :
  ncols m = 0%nat -> length (rows m) = r -> rectangular m -> m = zeros r 0.
Proof.
  destruct m as [c rs]. cbn. intros -> Hr Hrect. unfold zeros. f_equal.
  cbn [repeat]. subst r. unfold rectangular in Hrect. cbn in Hrect.
  induction Hrect as [|row rs Hrow _ IH]; [reflexivity|].
  cbn [length repeat]. rewrite <- IH.
  destruct row; [reflexivity|discriminate].
Qed.

(** When every exponent lies within a tenth of zero, [q = 0] for one, the
    sanitizer keeps none, and nothing warns of it.  On a flat list or a
    one-dimensional array whose scales are accepted, a list taken without
    overlap and without integration is rejected for its missing [reshape]
    as always; every other monofractal run returns an empty vector of
    slopes beside a matrix without columns, and every other multifractal
    run is rejected by the gradient of the spectrum. *)
Theorem near_zero_exponents_dropped
  (expspace : Z -> Z -> Z -> Z -> list Z)
  (polyfit : list R -> list R -> nat -> list R)
  (polyfit_log : list xreal -> list xreal -> nat -> list xreal)
  (is_array : bool) (v : list R) (scale : scale_arg)
  (overlap integrate : bool) (order : nat) (multifractal : bool) (q : q_arg)
  (st : errstate) (sc : list Z) :
  _fractal_dfa_findscales expspace (Z.of_nat (length v)) scale = Ok sc ->
  forallb near_zero (q_entries q multifractal) = true ->
  _sanitize_q q multifractal = Ok [] /\
  fractal_dfa expspace polyfit polyfit_log (signal_1d is_array v) scale
    overlap integrate order multifractal q st
  = if can_window is_array overlap integrate
    then if multifractal
         then (Err (ValueError gradient_msg), st)
         else (Ok (OutSlopes (Vector []),
                   mkInfo sc [] (Some (zeros (length sc) 0))
                     (Some (Vector [])) None), st)
    else (Err (AttributeError no_reshape_msg), st).
Proof.
  intros Esc Hq.
  pose proof (sanitize_q_near_zero q multifractal Hq) as Eq.
  split; [exact Eq|].
  destruct (findscales_valid _ _ _ _ Esc) as [Hlen Hvalid].
  destruct (length_zeros (length sc) 0) as [Hz Hzc].
  destruct (can_window is_array overlap integrate) eqn:Hmode.
  2:{ unfold can_window in Hmode.
      destruct overlap, integrate, is_array; try discriminate.
      rewrite fractal_dfa_1d. cbv zeta. rewrite Esc, Eq.
      rewrite loop_list_no_reshape;
        [reflexivity | destruct sc; [cbn in Hlen; lia | discriminate]
         | exact Hvalid]. }
  apply can_window_cases in Hmode.
  destruct (loop_completes polyfit (profile is_array v integrate)
              (Z.of_nat (length v)) overlap order multifractal [] sc)
    with (i := 0%nat) (m := zeros (length sc) 0) (st := st) as [m El].
  - rewrite length_profile. reflexivity.
  - destruct Hmode as [?|[->| ->]]; [left; assumption | right | right].
    + reflexivity.
    + unfold profile. destruct integrate; reflexivity.
  - exact Hvalid.
  - rewrite Hz. lia.
  - exact Hzc.
  - destruct (loop_shape _ _ _ _ _ _ _ _ _ _ _ _ _ El) as [Hr [Hc _]].
    pose proof (loop_rect _ _ _ _ _ _ _ _ _ _ _ _ _ El
                  (rectangular_zeros _ _)) as Hrect.
    assert (Hm : m = zeros (length sc) 0).
    { apply matrix_without_columns; [rewrite Hc; exact Hzc | lia | exact Hrect]. }
    subst m.
    rewrite fractal_dfa_1d. cbv zeta. rewrite Esc, Eq.
    cbn [map length]. rewrite El. rewrite Hz.
    destruct (Nat.eqb_spec (length sc) 0) as [H0|_]; [lia|].
    destruct multifractal; reflexivity.
Qed.

(** A witness of [near_zero_exponents_dropped]: the exponent 0 in a
    monofractal run on seven samples. *)
Lemma near_zero_exponents_dropped_witness :
  fractal_dfa no_expspace example_fit example_regression
    (signal_1d false seven_samples) (ScaleList [3; 4]%Z) true true 1 false
    (QScalar (Fl 0)) default_errstate
  = (Ok (OutSlopes (Vector []),
         mkInfo [3; 4]%Z [] (Some (zeros 2 0)) (Some (Vector [])) None),
     default_errstate).
Proof.
  exact (proj2 (near_zero_exponents_dropped no_expspace example_fit
                  example_regression false seven_samples (ScaleList [3; 4]%Z)
                  true true 1 false (QScalar (Fl 0)) default_errstate
                  [3; 4]%Z findscales_3_4 eq_refl)).
Defined.

(** ** SingularitySpectrumExtractor: the features *)

Lemma xleb_refl (a : xreal) : is_nan a = false -> xleb a a = true.
Proof.
  destruct a as [r| | |]; cbn; try reflexivity; try discriminate.
  intros _. destruct (Rle_dec r r) as [_|H]; [reflexivity|lra].
Qed.

Lemma xleb_total (a b : xreal) :
  is_nan a = false -> is_nan b = false -> xleb a b = false -> xleb b a = true.
Proof.
  destruct a as [x| | |], b as [y| | |]; cbn; try discriminate; auto.
  intros _ _. destruct (Rle_dec x y); [discriminate|].
  intros _. destruct (Rle_dec y x); [reflexivity|lra].
Qed.

Lemma xleb_trans (a b c : xreal) :
  xleb a b = true -> xleb b c = true -> xleb a c = true.
Proof.
  destruct a as [x| | |], b as [y| | |], c as [z| | |]; cbn;
    try discriminate; auto.
  destruct (Rle_dec x y); [|discriminate].
  destruct (Rle_dec y z); [|discriminate].
  intros _ _. destruct (Rle_dec x z); [reflexivity|lra].
Qed.

Lemma xleb_not_nan (a b : xreal) :
  xleb a b = true -> is_nan a = false /\ is_nan b = false.
Proof. destruct a, b; cbn; try discriminate; auto. Qed.

Lemma fold_xmax_spec (l : list xreal) (a : xreal) :
  is_nan a = false -> Forall (fun x => is_nan x = false) l ->
  In (fold_left xmax l a) (a :: l) /\
  (forall x, In x (a :: l) -> xleb x (fold_left xmax l a) = true).
Proof.
  intros Ha Hl. revert a Ha.
  induction Hl as [|b l Hb Hl IH]; intros a Ha.
  - cbn. split; [auto|]. intros x [<-|[]]. apply xleb_refl. exact Ha.
  - cbn [fold_left].
    assert (Hm : is_nan (xmax a b) = false)
      by (unfold xmax; destruct (xleb a b); assumption).
    destruct (IH (xmax a b) Hm) as [Hin Hle]. split.
    + destruct Hin as [Hin|Hin]; [|right; right; exact Hin].
      rewrite <- Hin. unfold xmax. destruct (xleb a b); cbn; auto.
    + assert (Hab : xleb a (xmax a b) = true /\ xleb b (xmax a b) = true).
      { unfold xmax. destruct (xleb a b) eqn:E.
        - split; [exact E|apply xleb_refl; exact Hb].
        - split; [apply xleb_refl; exact Ha|].
          apply xleb_total; assumption. }
      destruct Hab as [Hamax Hbmax].
      pose proof (Hle (xmax a b) (or_introl eq_refl)) as Htop.
      intros x [<-|[<-|Hx]].
      * apply (xleb_trans _ _ _ Hamax Htop).
      * apply (xleb_trans _ _ _ Hbmax Htop).
      * apply Hle. right. exact Hx.
Qed.

Lemma fold_xmin_spec (l : list xreal) (a : xreal) :
  is_nan a = false -> Forall (fun x => is_nan x = false) l ->
  In (fold_left xmin l a) (a :: l) /\
  (forall x, In x (a :: l) -> xleb (fold_left xmin l a) x = true).
Proof.
  intros Ha Hl. revert a Ha.
  induction Hl as [|b l Hb Hl IH]; intros a Ha.
  - cbn. split; [auto|]. intros x [<-|[]]. apply xleb_refl. exact Ha.
  - cbn [fold_left].
    assert (Hm : is_nan (xmin a b) = false)
      by (unfold xmin; destruct (xleb a b); assumption).
    destruct (IH (xmin a b) Hm) as [Hin Hle]. split.
    + destruct Hin as [Hin|Hin]; [|right; right; exact Hin].
      rewrite <- Hin. unfold xmin. destruct (xleb a b); cbn; auto.
    + assert (Hab : xleb (xmin a b) a = true /\ xleb (xmin a b) b = true).
      { unfold xmin. destruct (xleb a b) eqn:E.
        - split; [apply xleb_refl; exact Ha|exact E].
        - split; [apply xleb_total; assumption|].
          apply xleb_refl; exact Hb. }
      destruct Hab as [Hamin Hbmin].
      pose proof (Hle (xmin a b) (or_introl eq_refl)) as Hbot.
      intros x [<-|[<-|Hx]].
      * apply (xleb_trans _ _ _ Hbot Hamin).
      * apply (xleb_trans _ _ _ Hbot Hbmin).
      * apply Hle. right. exact Hx.
Qed.

Lemma drop_nan_spec (l : list xreal) :
  Forall (fun x => is_nan x = false) (drop_nan l) /\
  (forall x, In x (drop_nan l) <-> In x l /\ is_nan x = false).
Proof.
  unfold drop_nan. split.
  - apply Forall_forall. intros x Hx. apply filter_In in Hx.
    destruct Hx as [_ Hx]. apply negb_true_iff in Hx. exact Hx.
  - intros x. rewrite filter_In, negb_true_iff. reflexivity.
Qed.

(** [np.nanmax] and [np.nanmin] bound every entry that is a number; they
    are NaN only when no entry is one. *)
Lemma nanmax_nanmin_spec (l : list xreal) (mx mn : xreal) :
  nanmax l = Ok mx -> nanmin l = Ok mn ->
  (is_nan mx = true /\ is_nan mn = true /\
   forall x, In x l -> is_nan x = true) \/
  (xleb mn mx = true /\
   forall x, In x l -> is_nan x = false ->
     xleb mn x = true /\ xleb x mx = true).
Proof.
  unfold nanmax, nanmin. destruct l as [|y l]; [discriminate|].
  destruct (drop_nan_spec (y :: l)) as [Hall Hin].
  destruct (drop_nan (y :: l)) as [|a d].
  - intros E1 E2. inversion E1; inversion E2; subst. left.
    split; [reflexivity|]. split; [reflexivity|].
    intros x Hx. destruct (is_nan x) eqn:Ex; [reflexivity|].
    exfalso. apply (proj2 (Hin x)); auto.
  - intros E1 E2. inversion E1; inversion E2; subst. right.
    inversion Hall as [|a' d' Ha Hd]; subst.
    destruct (fold_xmax_spec d a Ha Hd) as [Hmaxin Hmax].
    destruct (fold_xmin_spec d a Ha Hd) as [Hminin Hmin].
    split.
    + apply Hmin. exact Hmaxin.
    + intros x Hx Hnan. split.
      * apply Hmin. apply Hin. auto.
      * apply Hmax. apply Hin. auto.
Qed.

(** The difference of a maximum and a minimum is never negative. *)
Lemma range_nonneg (mn mx : xreal) :
  xleb mn mx = true -> nonneg_or_nan (xsub mx mn).
Proof.
  destruct mn as [x| | |], mx as [y| | |]; cbn; try discriminate; auto.
  destruct (Rle_dec x y); [|discriminate]. intros _. lra.
Qed.

Lemma asymmetry_bounds (mn h mx : xreal) :
  xleb mn h = true -> xleb h mx = true ->
  unit_ratio_or_nan (xdiv (xsub mn h) (xsub mx mn)).
Proof.
  destruct mn as [x| | |], h as [y| | |], mx as [z| | |]; cbn;
    try discriminate; auto.
  - destruct (Rle_dec x y) as [Hxy|]; [|discriminate].
    destruct (Rle_dec y z) as [Hyz|]; [|discriminate].
    intros _ _.
    destruct (Req_dec_T (z + - x) 0) as [E|E].
    + assert (E0 : (x + - y = 0)%R) by lra. rewrite E0, Rsign_zero.
      exact I.
    + cbn. assert (0 < z + - x)%R by lra.
      split.
      * apply Rmult_le_reg_r with (r := (z + - x)%R); [assumption|].
        unfold Rdiv. rewrite Rmult_assoc, Rinv_l by assumption. lra.
      * apply Rmult_le_reg_r with (r := (z + - x)%R); [assumption|].
        unfold Rdiv. rewrite Rmult_assoc, Rinv_l by assumption. lra.
  - intros _ _. lra.
Qed.

(** What the extractor has computed when it returns. *)
Lemma spectrum_inv (q : list R) (slopes : scalar_or_vector) (sp : spectrum) :
  _singularity_spectrum q slopes = Ok sp ->
  exists maxH minH maxD minD imax,
    nanmax (H sp) = Ok maxH /\ nanmin (H sp) = Ok minH /\
    nanmax (D sp) = Ok maxD /\ nanmin (D sp) = Ok minD /\
    nanargmax (D sp) = Ok imax /\
    nth_error (H sp) imax = Some (HMax sp) /\
    ExpRange sp = xsub maxH minH /\ DimRange sp = xsub maxD minD /\
    HDelta sp = xsub maxH minH /\
    HAR sp = xdiv (xsub minH (HMax sp)) (xsub maxH minH) /\
    ExpMean sp = nanmean (H sp) /\ DimMean sp = nanmean (D sp).
Proof.
  unfold _singularity_spectrum.
  destruct (times q slopes) as [qh|e]; [|discriminate]. cbn [rbind].
  destruct (gradient _) as [dtau|e]; [|discriminate]. cbn [rbind].
  destruct (gradient _) as [dq|e]; [|discriminate]. cbn [rbind].
  destruct (broadcast xdiv dtau dq) as [Hq|e]; [|discriminate]. cbn [rbind].
  destruct (times q (Vector Hq)) as [qH|e]; [|discriminate]. cbn [rbind].
  destruct (broadcast xsub qH _) as [Dq|e]; [|discriminate]. cbn [rbind].
  destruct (nanmax Hq) as [maxH|e] eqn:E1; [|discriminate]. cbn [rbind].
  destruct (nanmin Hq) as [minH|e] eqn:E2; [|discriminate]. cbn [rbind].
  destruct (nanmax Dq) as [maxD|e] eqn:E3; [|discriminate]. cbn [rbind].
  destruct (nanmin Dq) as [minD|e] eqn:E4; [|discriminate]. cbn [rbind].
  destruct (nanargmax Dq) as [imax|e] eqn:E5; [|discriminate]. cbn [rbind].
  destruct (nth_error Hq imax) as [hmax|] eqn:E6; [|discriminate].
  intros E. inversion E; subst sp; clear E. cbn.
  exists maxH, minH, maxD, minD, imax. repeat split; assumption.
Qed.

(** [np.argmax] on numbers: the entry it points at is the first of the
    largest ones. *)
Lemma argmax_from_spec (l : list xreal) :
  Forall (fun x => is_nan x = false) l ->
  forall best ibest i,
    is_nan best = false ->
    let r := argmax_from best ibest i l in
    (r = ibest /\ Forall (fun x => xleb x best = true) l) \/
    (exists k, (k < length l)%nat /\ r = (i + k)%nat /\
       xleb (nth k l NaN) best = false /\
       (forall j, (j < length l)%nat ->
          xleb (nth j l NaN) (nth k l NaN) = true) /\
       (forall j, (j < k)%nat -> xleb (nth k l NaN) (nth j l NaN) = false)).
Proof.
  intros Hl. induction Hl as [|a l Ha Hl IH]; intros best ibest i Hbest.
  - left. split; [reflexivity|constructor].
  - cbn [argmax_from]. cbv zeta. destruct (xleb a best) eqn:Eab.
    + destruct (IH best ibest (S i) Hbest) as [[Hr Hall]|[k [Hk [Hr [Hgt [Hmax Hfirst]]]]]].
      * left. split; [exact Hr|]. constructor; assumption.
      * right. exists (S k). cbn [length nth].
        split; [lia|]. split; [rewrite Hr; lia|]. split; [exact Hgt|].
        assert (Hk_nan : is_nan (nth k l NaN) = false).
        { rewrite Forall_forall in Hl. apply Hl. apply nth_In. exact Hk. }
        assert (Hbk : xleb best (nth k l NaN) = true)
          by (apply xleb_total; assumption).
        split.
        -- intros [|j] Hj; [|apply Hmax; lia].
           apply (xleb_trans _ _ _ Eab Hbk).
        -- intros [|j] Hj; [|apply Hfirst; lia].
           destruct (xleb (nth k l NaN) a) eqn:Eka; [|reflexivity].
           rewrite (xleb_trans _ _ _ Eka Eab) in Hgt. discriminate.
    + assert (Hba : xleb best a = true) by (apply xleb_total; assumption).
      right.
      destruct (IH a i (S i) Ha) as [[Hr Hall]|[k [Hk [Hr [Hgt [Hmax Hfirst]]]]]].
      * exists 0%nat. cbn [length nth].
        split; [lia|]. split; [rewrite Hr; lia|]. split; [exact Eab|].
        split.
        -- intros [|j] Hj; [apply xleb_refl; exact Ha|].
           rewrite Forall_forall in Hall. apply Hall. apply nth_In. lia.
        -- intros j Hj. lia.
      * exists (S k). cbn [length nth].
        assert (Hk_nan : is_nan (nth k l NaN) = false).
        { rewrite Forall_forall in Hl. apply Hl. apply nth_In. exact Hk. }
        assert (Hak : xleb a (nth k l NaN) = true)
          by (apply xleb_total; assumption).
        split; [lia|]. split; [rewrite Hr; lia|]. split.
        -- destruct (xleb (nth k l NaN) best) eqn:Ekb; [|reflexivity].
           rewrite (xleb_trans _ _ _ Hak Ekb) in Eab. discriminate.
        -- split.
           ++ intros [|j] Hj; [exact Hak|apply Hmax; lia].
           ++ intros [|j] Hj; [exact Hgt|apply Hfirst; lia].
Qed.

Lemma nan_as_neginf_not_nan (a : xreal) : is_nan (nan_as_neginf a) = false.
Proof. destruct a; reflexivity. Qed.

(** [np.nanargmax]: with NaN read as minus infinity, the position it
    returns holds a largest entry, and no earlier entry is as large. *)
Lemma nanargmax_spec (l : list xreal) (imax : nat) :
  nanargmax l = Ok imax ->
  (imax < length l)%nat /\
  (forall j, (j < length l)%nat ->
     xleb (nan_as_neginf (nth j l NaN)) (nan_as_neginf (nth imax l NaN))
     = true) /\
  (forall j, (j < imax)%nat ->
     xleb (nan_as_neginf (nth imax l NaN)) (nan_as_neginf (nth j l NaN))
     = false).
Proof.
  intros E. pose proof (nanargmax_bound l imax E) as Hb.
  split; [exact Hb|].
  unfold nanargmax in E. destruct (forallb is_nan l); [discriminate|].
  injection E as Ei.
  destruct l as [|a l]; [cbn in Hb; lia|].
  cbn [map hd tl] in Ei.
  change (fun a : xreal => if is_nan a then NegInf else a)
    with nan_as_neginf in Ei.
  change (if is_nan a then NegInf else a) with (nan_as_neginf a) in Ei.
  assert (Hl : Forall (fun x => is_nan x = false) (map nan_as_neginf l)).
  { apply Forall_forall. intros x Hx. apply in_map_iff in Hx.
    destruct Hx as [y [<- _]]. apply nan_as_neginf_not_nan. }
  assert (Hnth : forall j, (j < length l)%nat ->
            nth j (map nan_as_neginf l) NaN = nan_as_neginf (nth j l NaN)).
  { intros j Hj. rewrite (nth_indep _ NaN (nan_as_neginf NaN))
      by (rewrite length_map; exact Hj).
    apply map_nth. }
  destruct (argmax_from_spec _ Hl (nan_as_neginf a) 0%nat 1%nat
              (nan_as_neginf_not_nan a))
    as [[Hr Hall]|[k [Hk [Hr [Hgt [Hmax Hfirst]]]]]];
    cbv zeta in Hr; rewrite Hr in Ei; subst imax.
  - cbn [nth]. split.
    + intros [|j] Hj; [apply xleb_refl, nan_as_neginf_not_nan|].
      cbn [length] in Hj. rewrite <- Hnth by lia.
      rewrite Forall_forall in Hall. apply Hall. apply nth_In.
      rewrite length_map. lia.
    + intros j Hj. lia.
  - rewrite length_map in Hk. cbn [Nat.add nth].
    rewrite Hnth in Hgt by exact Hk.
    assert (Hak : xleb (nan_as_neginf a) (nan_as_neginf (nth k l NaN)) = true).
    { apply xleb_total; [apply nan_as_neginf_not_nan..|exact Hgt]. }
    split.
    + intros [|j] Hj; [exact Hak|].
      cbn [length] in Hj. cbn [nth].
      rewrite <- !Hnth by lia. apply Hmax. rewrite length_map. lia.
    + intros [|j] Hj; cbn [nth]; [exact Hgt|].
      rewrite <- !Hnth by lia. apply Hfirst. lia.
Qed.

(** The ranges of the spectrum, whenever the extractor returns: the two
    ranges are never negative; [HDelta] is [ExpRange] again; and the
    asymmetry ratio [HAR], computed as [(min H - HMax) / HDelta], is NaN or
    lies between -1 and 0. *)
Theorem spectrum_ranges (q : list R) (slopes : scalar_or_vector)
  (sp : spectrum) :
  _singularity_spectrum q slopes = Ok sp ->
  nonneg_or_nan (ExpRange sp) /\ nonneg_or_nan (DimRange sp) /\
  HDelta sp = ExpRange sp /\
  unit_ratio_or_nan (HAR sp).
Proof.
  intros E.
  destruct (spectrum_inv q slopes sp E)
    as [maxH [minH [maxD [minD [imax
         [E1 [E2 [E3 [E4 [E5 [E6 [-> [-> [-> [-> _]]]]]]]]]]]]]]].
  pose proof (nanmax_nanmin_spec _ _ _ E1 E2) as HH.
  pose proof (nanmax_nanmin_spec _ _ _ E3 E4) as HD.
  split; [|split; [|split; [reflexivity|]]].
  - destruct HH as [[Hmx _]|[Hle _]].
    + destruct maxH; try discriminate. exact I.
    + apply range_nonneg. exact Hle.
  - destruct HD as [[Hmx _]|[Hle _]].
    + destruct maxD; try discriminate. exact I.
    + apply range_nonneg. exact Hle.
  - destruct HH as [[Hmx _]|[_ Hbound]].
    + destruct maxH; try discriminate.
      destruct (xsub minH (HMax sp)); exact I.
    + destruct (is_nan (HMax sp)) eqn:Hnan.
      * destruct (HMax sp); try discriminate.
        destruct minH; cbn; exact I.
      * destruct (Hbound (HMax sp)
                    (nth_error_In _ _ E6) Hnan) as [Hlo Hhi].
        apply asymmetry_bounds; assumption.
Qed.

(** [HMax] is the singularity strength at the first position where the
    singularity dimension, NaN counting as minus infinity, is largest. *)
Theorem spectrum_hmax_position (q : list R) (slopes : scalar_or_vector)
  (sp : spectrum) :
  _singularity_spectrum q slopes = Ok sp ->
  exists imax,
    (imax < length (D sp))%nat /\
    nth_error (H sp) imax = Some (HMax sp) /\
    (forall j, (j < length (D sp))%nat ->
       xleb (nan_as_neginf (nth j (D sp) NaN))
            (nan_as_neginf (nth imax (D sp) NaN)) = true) /\
    (forall j, (j < imax)%nat ->
       xleb (nan_as_neginf (nth imax (D sp) NaN))
            (nan_as_neginf (nth j (D sp) NaN)) = false).
Proof.
  intros E.
  destruct (spectrum_inv q slopes sp E)
    as [maxH [minH [maxD [minD [imax [_ [_ [_ [_ [E5 [E6 _]]]]]]]]]]].
  exists imax. destruct (nanargmax_spec _ _ E5) as [Hb [Hmax Hfirst]].
  auto.
Qed.

Lemma spectrum_example_returns :
  exists sp,
    _singularity_spectrum [1; 2]%R (Vector [Finite 1; Finite 1]) = Ok sp.
Proof.
  assert (Hnan : forallb is_nan
    (dimension_of [1; 2]%R
       (gradient_wrt (tau_of [1; 2]%R [Finite 1; Finite 1]) [1; 2]%R)
       (tau_of [1; 2]%R [Finite 1; Finite 1])) = false).
  { cbn. destruct (Req_dec_T (2 - 1) 0) as [E|_]; [lra|]. reflexivity. }
  pose proof (spectrum_outcome [1; 2]%R [Finite 1; Finite 1] eq_refl
                (le_n 2)) as Hsp.
  cbv zeta in Hsp. rewrite Hnan in Hsp. exact Hsp.
Qed.

(** A witness of [spectrum_ranges]: the exponents 1 and 2 with the slopes
    1 and 1. *)
Lemma spectrum_ranges_witness :
  exists sp,
    _singularity_spectrum [1; 2]%R (Vector [Finite 1; Finite 1]) = Ok sp /\
    unit_ratio_or_nan (HAR sp) /\ HDelta sp = ExpRange sp.
Proof.
  destruct spectrum_example_returns as [sp E].
  exists sp. split; [exact E|].
  destruct (spectrum_ranges _ _ _ E) as [_ [_ [Hd Har]]].
  split; [exact Har|exact Hd].
Defined.

(** A witness of [spectrum_hmax_position], on the same spectrum. *)
Lemma spectrum_hmax_position_witness :
  exists sp imax,
    _singularity_spectrum [1; 2]%R (Vector [Finite 1; Finite 1]) = Ok sp /\
    nth_error (H sp) imax = Some (HMax sp).
Proof.
  destruct spectrum_example_returns as [sp E].
  destruct (spectrum_hmax_position _ _ _ E) as [imax [_ [Hh _]]].
  exists sp, imax. split; [exact E|exact Hh].
Defined.

(** ** Detrender: trends that fit exactly *)

(** The Detrender and the FluctuationEstimator on a proper batch. *)
Lemma fluctuation_batch (polyfit : list R -> list R -> nat -> list R)
  (segments trends : list (list R)) (w : Z) (order : nat)
  (multifractal : bool) (q : list R) (st : errstate) :
  _fractal_dfa_trends polyfit segments w order = Ok trends ->
  (1 <= w)%Z /\ batch_of w segments /\
  _fractal_dfa_fluctuation segments trends multifractal q st
  = (Ok (fluctuation_of (detrended_of polyfit segments w order)
           multifractal q), st).
Proof.
  intros Et.
  destruct (trends_inv polyfit segments trends w order Et) as [Hw Hb].
  split; [exact Hw|]. split; [exact Hb|].
  rewrite (trends_batch polyfit segments w order Hw Hb) in Et.
  inversion Et; subst trends; clear Et.
  unfold _fractal_dfa_fluctuation, bind, lift, seterr_divide_invalid,
    seterr_all, ret.
  rewrite (detrended_batch polyfit segments w order Hb).
  unfold fluctuation_of, detrended_of. destruct multifractal; reflexivity.
Qed.

Section ExactFit.

Local Open Scope R_scope.

Lemma sum_sq_cons (r : R) (l : list R) : sum_sq (r :: l) = r ^ 2 + sum_sq l.
Proof. reflexivity. Qed.

Lemma sum_sq_zero (l : list R) :
  sum_sq l <= 0 -> l = repeat 0 (length l).
Proof.
  induction l as [|r l IH]; intros H; [reflexivity|].
  rewrite sum_sq_cons in H.
  pose proof (sum_sq_nonneg l) as Hl.
  pose proof (pow2_ge_0 r) as Hr.
  cbn [length repeat]. f_equal.
  - assert (E : r ^ 2 = 0) by lra.
    apply Rsqr_0_uniq. unfold Rsqr. rewrite <- E. ring.
  - apply IH. lra.
Qed.

Lemma sum_sq_repeat_zero (k : nat) : sum_sq (repeat 0 k) = 0.
Proof.
  induction k as [|k IH]; [reflexivity|].
  cbn [repeat]. rewrite sum_sq_cons, IH. ring.
Qed.

(** When some polynomial of the degree passes through every point, the
    least-squares fit leaves no residual. *)
Lemma exact_fit_residuals (x y : list R) (deg : nat) (c c0 : list R) :
  least_squares x y deg c -> length c0 = S deg ->
  residuals x y c0 = repeat 0 (length (residuals x y c0)) ->
  residuals x y c = repeat 0 (length (residuals x y c)).
Proof.
  intros [_ Hmin] Hlen H0. apply sum_sq_zero.
  specialize (Hmin c0 Hlen). rewrite H0, sum_sq_repeat_zero in Hmin.
  exact Hmin.
Qed.

Lemma polyval_zeros (k : nat) (x : R) : polyval (repeat 0 k) x = 0.
Proof.
  induction k as [|k IH]; [reflexivity|].
  replace (repeat 0 (S k)) with (repeat 0 k ++ [0])
    by (rewrite <- repeat_cons; reflexivity).
  rewrite polyval_snoc, IH. ring.
Qed.

Lemma polyval_constant (k : nat) (c x : R) :
  polyval (repeat 0 k ++ [c]) x = c.
Proof. rewrite polyval_snoc, polyval_zeros. ring. Qed.

Lemma residuals_constant (x : list R) (k : nat) (c : R) :
  residuals x (repeat c (length x)) (repeat 0 k ++ [c])
  = repeat 0 (length x).
Proof.
  unfold residuals. induction x as [|xi x IH]; [reflexivity|].
  cbn [length repeat zip_with]. rewrite IH, polyval_constant.
  f_equal. ring.
Qed.

Lemma polyval_linear (k : nat) (a b x : R) :
  polyval (repeat 0 k ++ [a; b]) x = a * x + b.
Proof.
  replace (repeat 0 k ++ [a; b]) with ((repeat 0 k ++ [a]) ++ [b])
    by (rewrite <- app_assoc; reflexivity).
  rewrite polyval_snoc, polyval_constant. reflexivity.
Qed.

End ExactFit.

Lemma Rsum_repeat_zero (k : nat) : Rsum (repeat 0%R k) = 0%R.
Proof.
  induction k as [|k IH]; [reflexivity|].
  cbn [repeat]. rewrite Rsum_cons, IH. ring.
Qed.

(** The values of the FluctuationEstimator on a batch without residuals:
    zero, for every exponent that is not zero. *)
Lemma fluctuation_mono_zero (detrended : list (list R)) (w : nat) :
  detrended <> [] -> (0 < w)%nat ->
  (forall row, In row detrended -> row = repeat 0%R w) ->
  fluctuation_mono detrended = Finite 0.
Proof.
  intros Hne Hw Hrows. unfold fluctuation_mono.
  assert (E : map (fun row => xdiv (Finite (Rsum (map (fun x => (x ^ 2)%R) row)))
                                   (Finite (INR (length row)))) detrended
              = map Finite (repeat 0%R (length detrended))).
  { clear Hne. induction detrended as [|row d IH]; [reflexivity|].
    cbn [map length repeat]. rewrite IH by (intros r Hr; apply Hrows; right; exact Hr).
    f_equal. rewrite (Hrows row (or_introl eq_refl)).
    fold (sum_sq (repeat 0%R w)). rewrite sum_sq_repeat_zero, repeat_length.
    unfold xdiv. destruct (Req_dec_T (INR w) 0) as [E|_].
    - exfalso. apply (not_0_INR w); [lia|exact E].
    - f_equal. unfold Rdiv. ring. }
  rewrite E, xsum_finite, length_map, repeat_length.
  rewrite Rsum_repeat_zero. unfold xdiv.
  destruct (Req_dec_T (INR (length detrended)) 0) as [E0|_].
  - exfalso. apply (not_0_INR (length detrended)); [|exact E0].
    destruct detrended; [congruence|discriminate].
  - unfold xsqrt. replace (0 / INR (length detrended))%R with 0%R
      by (unfold Rdiv; ring).
    destruct (Rlt_dec 0 0) as [H|_]; [lra|]. rewrite sqrt_0. reflexivity.
Qed.

Lemma map_repeat_eq {A B : Type} (f : A -> B) (a : A) (k : nat) :
  map f (repeat a k) = repeat (f a) k.
Proof.
  induction k as [|k IH]; [reflexivity|].
  cbn [repeat map]. rewrite IH. reflexivity.
Qed.

Lemma var_zero (w : nat) : (0 < w)%nat -> var (repeat 0%R w) = Finite 0.
Proof.
  intros Hw. rewrite var_centred.
  - rewrite sum_sq_repeat_zero. f_equal. unfold Rdiv. ring.
  - destruct w; [lia|discriminate].
  - apply Rsum_repeat_zero.
Qed.

Lemma xmean_repeat (e : xreal) (k : nat) :
  (0 < k)%nat -> e = Finite 0 \/ e = PosInf -> xmean (repeat e k) = e.
Proof.
  intros Hk He. unfold xmean. rewrite repeat_length.
  assert (Hs : xsum (repeat e k) = e).
  { destruct k as [|k]; [lia|]. clear Hk.
    induction k as [|k IH].
    - destruct He as [-> | ->]; cbn; [f_equal; ring|reflexivity].
    - change (repeat e (S (S k))) with (e :: repeat e (S k)).
      change (xsum (e :: repeat e (S k))) with (xadd e (xsum (repeat e (S k)))).
      rewrite IH. destruct He as [-> | ->]; cbn; [f_equal; ring|reflexivity]. }
  rewrite Hs. assert (Hpos : (0 < INR k)%R) by (apply lt_0_INR; exact Hk).
  destruct He as [-> | ->]; cbn.
  - destruct (Req_dec_T (INR k) 0) as [E|_]; [lra|]. f_equal.
    unfold Rdiv. ring.
  - destruct (Rlt_dec (INR k) 0) as [H|_]; [lra|reflexivity].
Qed.

Lemma fluctuation_multi_zero (detrended : list (list R)) (w : nat)
  (q : list R) :
  detrended <> [] -> (0 < w)%nat ->
  (forall row, In row detrended -> row = repeat 0%R w) ->
  Forall (fun qj => qj <> 0%R) q ->
  fluctuation_multi detrended q = repeat (Finite 0) (length q).
Proof.
  intros Hne Hw Hrows Hq. unfold fluctuation_multi.
  assert (Ev : map var detrended = repeat (Finite 0) (length detrended)).
  { clear Hne. induction detrended as [|row d IH]; [reflexivity|].
    cbn [map length repeat].
    rewrite IH by (intros r Hr; apply Hrows; right; exact Hr).
    rewrite (Hrows row (or_introl eq_refl)), var_zero by exact Hw.
    reflexivity. }
  rewrite Ev.
  assert (Hk : (0 < length detrended)%nat)
    by (destruct detrended; [congruence|cbn; lia]).
  induction Hq as [|qj q Hqj Hq IH]; [reflexivity|].
  cbn [map length repeat]. rewrite IH. f_equal.
  assert (Hhalf : (qj / 2 <> 0)%R) by lra.
  assert (Hinv : (1 / qj <> 0)%R).
  { unfold Rdiv. rewrite Rmult_1_l. apply Rinv_neq_0_compat. exact Hqj. }
  rewrite (map_repeat_eq (fun v => float_power v (Finite (qj / 2)))
             (Finite 0)).
  assert (Hd : xdiv (Finite 1) (Finite qj) = Finite (1 / qj)).
  { unfold xdiv. destruct (Req_dec_T qj 0) as [E|_]; [contradiction|].
    reflexivity. }
  rewrite Hd.
  unfold float_power at 2.
  destruct (Req_dec_T (qj / 2) 0) as [E|_]; [contradiction|].
  unfold Rpow_fin at 1. rewrite Rsign_zero.
  destruct (Rlt_dec 0 (qj / 2)) as [Hpos|Hneg].
  - rewrite xmean_repeat by auto.
    unfold float_power. destruct (Req_dec_T (1 / qj) 0) as [E|_];
      [contradiction|].
    unfold Rpow_fin. rewrite Rsign_zero.
    destruct (Rlt_dec 0 (1 / qj)) as [_|Hn]; [reflexivity|].
    exfalso. apply Hn. unfold Rdiv. rewrite Rmult_1_l.
    apply Rinv_0_lt_compat. lra.
  - rewrite xmean_repeat by auto.
    unfold float_power. destruct (Req_dec_T (1 / qj) 0) as [E|_];
      [contradiction|].
    destruct (Rlt_dec 0 (1 / qj)) as [Hp|_]; [|reflexivity].
    exfalso. unfold Rdiv in Hp. rewrite Rmult_1_l in Hp.
    assert (Hqneg : (qj < 0)%R) by lra.
    pose proof (Rinv_lt_0_compat qj Hqneg). lra.
Qed.

Lemma fluctuation_of_zero (detrended : list (list R)) (w : nat)
  (multifractal : bool) (q : list R) (c : nat) :
  detrended <> [] -> (0 < w)%nat ->
  (forall row, In row detrended -> row = repeat 0%R w) ->
  Forall (fun qj => qj <> 0%R) q -> c = length q ->
  row_of c (fluctuation_of detrended multifractal q) = repeat (Finite 0) c.
Proof.
  intros Hne Hw Hrows Hq ->. unfold fluctuation_of.
  destruct multifractal; cbn [row_of].
  - rewrite (fluctuation_multi_zero detrended w q Hne Hw Hrows Hq).
    rewrite repeat_length, Nat.eqb_refl. reflexivity.
  - rewrite (fluctuation_mono_zero detrended w Hne Hw Hrows). reflexivity.
Qed.

(** ** Signals without fluctuation *)

Lemma In_firstn_skipn {A : Type} (x : A) (a b : nat) (l : list A) :
  In x (firstn a (skipn b l)) -> In x l.
Proof.
  intros H.
  rewrite <- (firstn_skipn b l). apply in_or_app. right.
  rewrite <- (firstn_skipn a (skipn b l)). apply in_or_app. left. exact H.
Qed.

Lemma In_py_slice {A : Type} (x : A) (l : list A) (i j : Z) :
  In x (py_slice l i j) -> In x l.
Proof. unfold py_slice. apply In_firstn_skipn. Qed.

Lemma In_chunk {A : Type} (x : A) (s : list A) (r c : nat) (l : list A) :
  In s (chunk r c l) -> In x s -> In x l.
Proof.
  revert l. induction r as [|r IH]; intros l Hs Hx; [destruct Hs|].
  cbn [chunk] in Hs. destruct Hs as [<-|Hs].
  - apply (In_firstn_skipn x c 0 l). exact Hx.
  - specialize (IH _ Hs Hx).
    rewrite <- (firstn_skipn c l). apply in_or_app. right. exact IH.
Qed.

(** Every sample of every segment is a sample of the series. *)
Lemma getwindow_In (signal : series) (n w : Z) (overlap : bool)
  (segments : list (list R)) (s : list R) (x : R) :
  _fractal_dfa_getwindow signal n w overlap = Ok segments ->
  In s segments -> In x s -> In x (samples signal).
Proof.
  unfold _fractal_dfa_getwindow. destruct overlap.
  - destruct (arange 0 (n - w) (w / 2)) as [starts|e]; [|discriminate].
    cbn [rbind]. unfold np_array2d.
    destruct (map _ starts) as [|r l] eqn:Em; [intros E; inversion E; subst; intros []|].
    destruct (forallb _ (r :: l)); [|discriminate].
    intros E; inversion E; subst segments; clear E.
    rewrite <- Em. intros Hs Hx. apply in_map_iff in Hs.
    destruct Hs as [i [<- _]]. apply (In_py_slice x _ _ _ Hx).
  - destruct (w =? 0)%Z; [discriminate|].
    destruct (negb (is_ndarray signal)); [discriminate|].
    unfold reshape2d. destruct (_ && _ && _)%bool; [|discriminate].
    intros E; inversion E; subst segments; clear E.
    intros Hs Hx. apply (In_py_slice x _ 0 (n - n mod w)).
    apply (In_chunk x s _ _ _ Hs Hx).
Qed.

Lemma constant_list (c : R) (l : list R) :
  (forall x, In x l -> x = c) -> l = repeat c (length l).
Proof.
  induction l as [|y l IH]; intros H; [reflexivity|].
  cbn [length repeat]. rewrite (H y (or_introl eq_refl)). f_equal.
  apply IH. intros x Hx. apply H. right. exact Hx.
Qed.

Lemma cumsum_from_zeros (acc : R) (k : nat) :
  cumsum_from acc (repeat 0%R k) = repeat acc k.
Proof.
  induction k as [|k IH]; [reflexivity|].
  cbn [repeat cumsum_from]. rewrite Rplus_0_r, IH. reflexivity.
Qed.

Lemma Rmean_repeat (c : R) (k : nat) : (0 < k)%nat -> Rmean (repeat c k) = c.
Proof.
  intros Hk. unfold Rmean. rewrite repeat_length.
  assert (Hs : Rsum (repeat c k) = (INR k * c)%R).
  { clear Hk. induction k as [|k IH]; [cbn; ring|].
    cbn [repeat]. rewrite Rsum_cons, IH, S_INR. ring. }
  rewrite Hs. field. apply not_0_INR. lia.
Qed.

(** The series that the pipeline works on when the signal is constant:
    constant again, at zero once integrated. *)
Lemma profile_constant (is_array : bool) (c : R) (k : nat)
  (integrate : bool) (x : R) :
  In x (samples (profile is_array (repeat c k) integrate)) ->
  x = if integrate then 0%R else c.
Proof.
  unfold profile. destruct integrate; cbn [samples].
  - destruct k as [|k]; [intros []|].
    rewrite map_repeat_eq, Rmean_repeat by lia.
    replace (c - c)%R with 0%R by ring.
    unfold cumsum. rewrite cumsum_from_zeros. apply repeat_spec.
  - apply repeat_spec.
Qed.

Lemma exceeds_tenth_nonzero (x : Q) : exceeds_tenth x = true -> Q2R x <> 0%R.
Proof.
  unfold exceeds_tenth. rewrite Qlt_bool_iff. intros Hx E.
  rewrite <- RMicromega.Q2R_0 in E. apply eqR_Qeq in E.
  rewrite E in Hx. cbn in Hx. discriminate.
Qed.

(** A constant signal has no fluctuation (exact arithmetic): with
    least-squares trends every entry of the FluctuationMatrix of a run that
    returns is zero, with or without integration, for every mode and
    exponent; the regression is then fed the logarithm of zero at every
    scale. *)
Theorem constant_signal_zero_fluctuation
  (expspace : Z -> Z -> Z -> Z -> list Z)
  (polyfit : list R -> list R -> nat -> list R)
  (polyfit_log : list xreal -> list xreal -> nat -> list xreal)
  (is_array : bool) (c : R) (k : nat) (scale : scale_arg)
  (overlap integrate : bool) (order : nat) (multifractal : bool) (q : q_arg)
  (st st' : errstate) (out : output) (i : info) :
  fractal_dfa expspace polyfit polyfit_log (signal_1d is_array (repeat c k))
    scale overlap integrate order multifractal q st = (Ok (out, i), st') ->
  fits_least_squares polyfit (profile is_array (repeat c k) integrate)
    (Z.of_nat k) overlap order (info_scale i) ->
  Fluctuation i
  = Some (zeros (length (info_scale i)) (length (info_q i))) /\
  forall j, (j < length (info_q i))%nat ->
    map xlog2 (column (zeros (length (info_scale i)) (length (info_q i))) j)
    = repeat NegInf (length (info_scale i)).
Proof.
  intros E Hls.
  destruct (fractal_dfa_returns _ _ _ _ _ _ _ _ _ _ _ _ _ _ _ E)
    as [ia [v' [sc [qs [m [slopes
         [Hsig [Esc [Eq [El [Es [_ [Hi1 [Hi2 [Hi3 _]]]]]]]]]]]]]]].
  assert (Hv : v' = repeat c k /\ ia = is_array).
  { unfold signal_1d in Hsig. destruct is_array, ia; inversion Hsig; auto. }
  destruct Hv as [-> ->]. rewrite repeat_length in *.
  rewrite Hi1, Hi2, Hi3 in *. clear Hi1 Hi2 Hi3.
  set (qr := map Q2R qs) in *.
  destruct (loop_shape _ _ _ _ _ _ _ _ _ _ _ _ _ El) as [Hr [Hc _]].
  destruct (length_zeros (length sc) (length qr)) as [Hz Hzc].
  destruct (loop_rows _ _ _ _ _ _ _ _ _ _ _ _ _ El) as [_ Hrows].
  assert (Hq : Forall (fun qj => qj <> 0%R) qr).
  { subst qr. apply Forall_forall. intros x Hx. apply in_map_iff in Hx.
    destruct Hx as [y [<- Hy]]. apply exceeds_tenth_nonzero.
    pose proof (sanitize_q_kept _ _ _ Eq) as Hk.
    rewrite Forall_forall in Hk. apply Hk. exact Hy. }
  split.
  - f_equal. rewrite Hz in Hr. rewrite Hzc in Hc.
    assert (Hm : rows m = repeat (repeat (Finite 0) (length qr)) (length sc)).
    2:{ destruct m as [mc mr]. cbn in Hc, Hm. subst mc mr. reflexivity. }
    rewrite <- Hr. apply (all_nth_repeat _ []).
    intros j Hj. rewrite Hr in Hj.
    destruct (Hrows j Hj) as [segments [trends [f [Eg [Et [Ef Hrow]]]]]].
    cbn [Nat.add] in Hrow. rewrite Hrow, Hzc.
    destruct (fluctuation_batch _ _ _ _ _ multifractal qr st Et)
      as [Hw [[Hne Hlen] Ef']].
    rewrite Ef' in Ef. inversion Ef as [Hf]. clear Ef Ef'.
    set (c' := if integrate then 0%R else c).
    apply (fluctuation_of_zero _ (Z.to_nat (nth j sc 0%Z)));
      [| lia | | exact Hq | reflexivity].
    + unfold detrended_of. destruct segments; [congruence|discriminate].
    + intros row Hrow'. unfold detrended_of in Hrow'.
      apply in_map_iff in Hrow'. destruct Hrow' as [s [<- Hs]].
      assert (Hconst : s = repeat c' (length (abscissa (nth j sc 0%Z)))).
      { rewrite length_abscissa, <- (Hlen s Hs). apply constant_list.
        intros x Hx. apply (profile_constant is_array c k integrate).
        apply (getwindow_In _ _ _ _ _ s x Eg Hs Hx). }
      assert (Hres : length (residuals (abscissa (nth j sc 0%Z)) s
                               (polyfit (abscissa (nth j sc 0%Z)) s order))
                     = Z.to_nat (nth j sc 0%Z)).
      { rewrite length_residuals; [apply (Hlen s Hs)|].
        rewrite length_abscissa. symmetry. apply (Hlen s Hs). }
      rewrite <- Hres.
      apply (exact_fit_residuals _ _ order _ (repeat 0%R order ++ [c'])).
      * apply (Hls (nth j sc 0%Z) segments s); [|exact Eg|exact Hs].
        apply nth_In. exact Hj.
      * rewrite length_app, repeat_length. cbn. lia.
      * rewrite Hconst at 1 2. rewrite residuals_constant, repeat_length.
        reflexivity.
  - intros j Hj. unfold column, zeros. cbn [rows].
    rewrite !map_repeat_eq. f_equal.
    rewrite (nth_indep _ NaN (Finite 0)) by (rewrite repeat_length; exact Hj).
    rewrite nth_repeat. cbn. rewrite Rsign_zero. reflexivity.
Qed.

Lemma constant_samples_fit :
  fits_least_squares example_fit (profile false (repeat 1%R 7) true)
    (Z.of_nat 7) true 1 [3; 4]%Z.
Proof.
  apply example_fit_on_windows.
  - rewrite length_profile. reflexivity.
  - left. reflexivity.
  - repeat constructor; cbn; lia.
Qed.

(** A witness of [constant_signal_zero_fluctuation]: seven samples equal
    to 1, the windows 3 and 4. *)
Lemma constant_signal_zero_fluctuation_witness :
  exists out i,
    fractal_dfa no_expspace example_fit example_regression
      (signal_1d false (repeat 1%R 7)) (ScaleList [3; 4]%Z) true true 1 false
      QDefault default_errstate = (Ok (out, i), default_errstate) /\
    Fluctuation i = Some (zeros 2 1).
Proof.
  destruct (fractal_dfa_mono_returns no_expspace example_fit
              example_regression false (repeat 1%R 7) (ScaleList [3; 4]%Z)
              true true 1 QDefault default_errstate [3; 4]%Z [2%Q]
              eq_refl eq_refl example_regression_nonempty
              (or_introl eq_refl)) as [m [slopes E]].
  eexists _, _. split; [exact E|].
  exact (proj1 (constant_signal_zero_fluctuation no_expspace example_fit
                  example_regression false 1%R 7 (ScaleList [3; 4]%Z) true
                  true 1 false QDefault default_errstate default_errstate
                  _ _ E constant_samples_fit)).
Defined.

(** ** A window of two samples *)

Lemma residuals_two_points (k : nat) (y0 y1 : R) :
  residuals (abscissa 2) [y0; y1] (repeat 0%R k ++ [(y1 - y0)%R; y0])
  = [0%R; 0%R].
Proof.
  unfold residuals, abscissa. change (Z.to_nat 2) with 2%nat.
  cbn [seq map zip_with]. rewrite !polyval_linear.
  change (INR 0) with 0%R. change (INR 1) with 1%R.
  f_equal; [ring|]. f_equal. ring.
Qed.

(** A window of 2 samples passes the validation of the scales, yet with a
    trend of degree 1 or more it carries nothing (exact arithmetic): the
    least-squares polynomial goes through both samples of every segment,
    and the row of that scale in the FluctuationMatrix is zero. *)
Theorem window_of_two_zero_fluctuation
  (expspace : Z -> Z -> Z -> Z -> list Z)
  (polyfit : list R -> list R -> nat -> list R)
  (polyfit_log : list xreal -> list xreal -> nat -> list xreal)
  (is_array : bool) (v : list R) (scale : scale_arg)
  (overlap integrate : bool) (order : nat) (multifractal : bool) (q : q_arg)
  (st st' : errstate) (out : output) (i : info) (j : nat) :
  fractal_dfa expspace polyfit polyfit_log (signal_1d is_array v)
    scale overlap integrate order multifractal q st = (Ok (out, i), st') ->
  fits_least_squares polyfit (profile is_array v integrate)
    (Z.of_nat (length v)) overlap order (info_scale i) ->
  (1 <= order)%nat ->
  nth_error (info_scale i) j = Some 2%Z ->
  exists m,
    Fluctuation i = Some m /\
    nth j (rows m) [] = repeat (Finite 0) (length (info_q i)).
Proof.
  intros E Hls Horder Hj.
  destruct (fractal_dfa_returns _ _ _ _ _ _ _ _ _ _ _ _ _ _ _ E)
    as [ia [v' [sc [qs [m [slopes
         [Hsig [Esc [Eq [El [Es [_ [Hi1 [Hi2 [Hi3 _]]]]]]]]]]]]]]].
  assert (Hv : v' = v /\ ia = is_array).
  { unfold signal_1d in Hsig. destruct is_array, ia; inversion Hsig; auto. }
  destruct Hv as [-> ->].
  rewrite Hi1, Hi2, Hi3 in *. clear Hi1 Hi2 Hi3.
  set (qr := map Q2R qs) in *.
  exists m. split; [reflexivity|].
  destruct (length_zeros (length sc) (length qr)) as [Hz Hzc].
  destruct (loop_rows _ _ _ _ _ _ _ _ _ _ _ _ _ El) as [_ Hrows].
  assert (Hjlt : (j < length sc)%nat).
  { apply nth_error_Some. rewrite Hj. discriminate. }
  assert (Hw : nth j sc 0%Z = 2%Z) by (apply nth_error_nth; exact Hj).
  destruct (Hrows j Hjlt) as [segments [trends [f [Eg [Et [Ef Hrow]]]]]].
  rewrite Hw in Eg, Et. cbn [Nat.add] in Hrow. rewrite Hrow, Hzc.
  destruct (fluctuation_batch _ _ _ _ _ multifractal qr st Et)
    as [_ [[Hne Hlen] Ef']].
  rewrite Ef' in Ef. inversion Ef as [Hf]. clear Ef Ef'.
  assert (Hq : Forall (fun qj => qj <> 0%R) qr).
  { subst qr. apply Forall_forall. intros x Hx. apply in_map_iff in Hx.
    destruct Hx as [y [<- Hy]]. apply exceeds_tenth_nonzero.
    pose proof (sanitize_q_kept _ _ _ Eq) as Hk.
    rewrite Forall_forall in Hk. apply Hk. exact Hy. }
  apply (fluctuation_of_zero _ 2); [| lia | | exact Hq | reflexivity].
  - unfold detrended_of. destruct segments; [congruence|discriminate].
  - intros row Hrow'. unfold detrended_of in Hrow'.
    apply in_map_iff in Hrow'. destruct Hrow' as [s [<- Hs]].
    pose proof (Hlen s Hs) as Hs2.
    destruct s as [|y0 [|y1 [|y2 s]]]; try discriminate.
    destruct order as [|d]; [lia|].
    pose proof (exact_fit_residuals (abscissa 2) [y0; y1] (S d)
                  (polyfit (abscissa 2) [y0; y1] (S d))
                  (repeat 0%R d ++ [(y1 - y0)%R; y0])) as Hfit.
    rewrite (length_residuals (abscissa 2) [y0; y1]
               (polyfit (abscissa 2) [y0; y1] (S d))) in Hfit
      by (rewrite length_abscissa; reflexivity).
    apply Hfit.
    + apply (Hls 2%Z segments [y0; y1]); [|exact Eg|exact Hs].
      apply (nth_error_In _ _ Hj).
    + rewrite length_app, repeat_length. cbn. lia.
    + rewrite residuals_two_points. reflexivity.
Qed.

Lemma seven_samples_fit_2_3 :
  fits_least_squares example_fit (profile false seven_samples true)
    (Z.of_nat (length seven_samples)) true 1 [2; 3]%Z.
Proof.
  apply example_fit_on_windows.
  - rewrite length_profile. reflexivity.
  - left. reflexivity.
  - repeat constructor; cbn; lia.
Qed.

(** A witness of [window_of_two_zero_fluctuation]: seven samples, the
    windows 2 and 3, the line of least squares. *)
Lemma window_of_two_zero_fluctuation_witness :
  exists out i m,
    fractal_dfa no_expspace example_fit example_regression
      (signal_1d false seven_samples) (ScaleList [2; 3]%Z) true true 1 false
      QDefault default_errstate = (Ok (out, i), default_errstate) /\
    Fluctuation i = Some m /\
    nth 0 (rows m) [] = repeat (Finite 0) (length (info_q i)).
Proof.
  destruct (fractal_dfa_mono_returns no_expspace example_fit
              example_regression false seven_samples (ScaleList [2; 3]%Z)
              true true 1 QDefault default_errstate [2; 3]%Z [2%Q]
              eq_refl eq_refl example_regression_nonempty
              (or_introl eq_refl)) as [m0 [slopes E]].
  destruct (window_of_two_zero_fluctuation no_expspace example_fit
              example_regression false seven_samples (ScaleList [2; 3]%Z)
              true true 1 false QDefault default_errstate default_errstate
              _ _ 0%nat E seven_samples_fit_2_3 (le_n 1) eq_refl)
    as [m [Hm Hrow]].
  eexists _, _, m. split; [exact E|]. split; [exact Hm|exact Hrow].
Defined.

(** ** Detrender: the choice of the minimiser *)

Section Uniqueness.

Local Open Scope R_scope.

Lemma polyval_mid_from (c1 c2 : list R) (x : R) :
  length c1 = length c2 ->
  forall a1 a2,
    fold_left (fun y pv => y * x + pv)
      (zip_with (fun a b => (a + b) / 2) c1 c2) ((a1 + a2) / 2)
    = (fold_left (fun y pv => y * x + pv) c1 a1
       + fold_left (fun y pv => y * x + pv) c2 a2) / 2.
Proof.
  revert c2. induction c1 as [|p1 c1 IH]; intros [|p2 c2] Hlen a1 a2;
    try discriminate; [reflexivity|].
  cbn [zip_with fold_left].
  replace ((a1 + a2) / 2 * x + (p1 + p2) / 2)
    with (((a1 * x + p1) + (a2 * x + p2)) / 2) by field.
  apply IH. cbn in Hlen. congruence.
Qed.

(** The polynomial half-way between two polynomials of one degree takes
    the value half-way between theirs. *)
Lemma polyval_mid (c1 c2 : list R) (x : R) :
  length c1 = length c2 ->
  polyval (zip_with (fun a b => (a + b) / 2) c1 c2) x
  = (polyval c1 x + polyval c2 x) / 2.
Proof.
  intros Hlen. unfold polyval.
  replace 0 with ((0 + 0) / 2) at 1 by field.
  apply polyval_mid_from. exact Hlen.
Qed.

Lemma residuals_mid (x y c1 c2 : list R) :
  length c1 = length c2 ->
  residuals x y (zip_with (fun a b => (a + b) / 2) c1 c2)
  = zip_with (fun r1 r2 => (r1 + r2) / 2)
      (residuals x y c1) (residuals x y c2).
Proof.
  intros Hlen. unfold residuals. revert y.
  induction x as [|xi x IH]; intros [|yi y]; try reflexivity.
  cbn [zip_with]. rewrite IH, polyval_mid by exact Hlen.
  f_equal. field.
Qed.

Lemma sum_sq_mid (r1 r2 : list R) :
  length r1 = length r2 ->
  sum_sq (zip_with (fun a b => (a + b) / 2) r1 r2)
  = (sum_sq r1 + sum_sq r2) / 2
    - sum_sq (zip_with (fun a b => (a - b) / 2) r1 r2).
Proof.
  revert r2. induction r1 as [|a r1 IH]; intros [|b r2] Hlen;
    try discriminate.
  - unfold sum_sq. cbn. field.
  - cbn [zip_with]. rewrite !sum_sq_cons, IH by (cbn in Hlen; congruence).
    field.
Qed.

Lemma half_differences_zero (r1 r2 : list R) :
  length r1 = length r2 ->
  sum_sq (zip_with (fun a b => (a - b) / 2) r1 r2) <= 0 -> r1 = r2.
Proof.
  revert r2. induction r1 as [|a r1 IH]; intros [|b r2] Hlen H;
    try discriminate; [reflexivity|].
  cbn [zip_with] in H. rewrite sum_sq_cons in H.
  pose proof (sum_sq_nonneg (zip_with (fun a b => (a - b) / 2) r1 r2)) as Hn.
  pose proof (pow2_ge_0 ((a - b) / 2)) as Hp.
  f_equal.
  - assert (E : ((a - b) / 2) ^ 2 = 0) by lra.
    assert (E2 : (a - b) / 2 = 0).
    { apply Rsqr_0_uniq. unfold Rsqr. rewrite <- E. ring. }
    lra.
  - apply IH; [cbn in Hlen; congruence|lra].
Qed.

(** Two least-squares fits of the same points leave the same residuals,
    also when they are not the same polynomial. *)
Lemma least_squares_residuals_unique (x y : list R) (deg : nat)
  (c1 c2 : list R) :
  least_squares x y deg c1 -> least_squares x y deg c2 ->
  residuals x y c1 = residuals x y c2.
Proof.
  intros [Hl1 Hmin1] [Hl2 Hmin2].
  assert (Hlen : length c1 = length c2) by congruence.
  assert (Hr : length (residuals x y c1) = length (residuals x y c2)).
  { unfold residuals. rewrite !length_zip_with. reflexivity. }
  apply half_differences_zero; [exact Hr|].
  pose proof (Hmin1 c2 Hl2) as H12.
  pose proof (Hmin2 c1 Hl1) as H21.
  assert (Hmid : length (zip_with (fun a b => (a + b) / 2) c1 c2) = S deg).
  { rewrite length_zip_with. lia. }
  pose proof (Hmin1 _ Hmid) as Hm.
  rewrite residuals_mid, sum_sq_mid in Hm by assumption.
  lra.
Qed.

End Uniqueness.

(** The Detrender accepts and rejects a batch whatever the fit is. *)
Lemma trends_error_any_fit (polyfit1 polyfit2 : list R -> list R -> nat -> list R)
  (segments : list (list R)) (w : Z) (order : nat) (e : exn) :
  _fractal_dfa_trends polyfit1 segments w order = Err e ->
  _fractal_dfa_trends polyfit2 segments w order = Err e.
Proof.
  unfold _fractal_dfa_trends.
  destruct (py_slice _ 0 w) as [|x0 x]; [auto|].
  destruct segments as [|s0 segments]; [auto|].
  destruct (forallb _ (s0 :: segments)); [discriminate|auto].
Qed.

(** The FluctuationMatrix does not depend on which least-squares
    polynomial the fit returns: two fits that both minimise the squared
    residuals on every segment of the run give the same result, also
    where the minimiser is not unique. *)
Theorem fluctuation_independent_of_minimiser
  (expspace : Z -> Z -> Z -> Z -> list Z)
  (polyfit1 polyfit2 : list R -> list R -> nat -> list R)
  (polyfit_log : list xreal -> list xreal -> nat -> list xreal)
  (is_array : bool) (v : list R) (scale : scale_arg)
  (overlap integrate : bool) (order : nat) (multifractal : bool) (q : q_arg)
  (st : errstate) (sc : list Z) :
  _fractal_dfa_findscales expspace (Z.of_nat (length v)) scale = Ok sc ->
  fits_least_squares polyfit1 (profile is_array v integrate)
    (Z.of_nat (length v)) overlap order sc ->
  fits_least_squares polyfit2 (profile is_array v integrate)
    (Z.of_nat (length v)) overlap order sc ->
  (forall qs i m st0,
     fluctuation_loop polyfit1 (profile is_array v integrate)
       (Z.of_nat (length v)) overlap order multifractal qs i sc m st0
     = fluctuation_loop polyfit2 (profile is_array v integrate)
         (Z.of_nat (length v)) overlap order multifractal qs i sc m st0) /\
  fractal_dfa expspace polyfit1 polyfit_log (signal_1d is_array v) scale
    overlap integrate order multifractal q st
  = fractal_dfa expspace polyfit2 polyfit_log (signal_1d is_array v) scale
      overlap integrate order multifractal q st.
Proof.
  intros Esc Hls1 Hls2.
  set (working := profile is_array v integrate) in *.
  set (n := Z.of_nat (length v)) in *.
  assert (Hloop : forall qs i m st0,
    fluctuation_loop polyfit1 working n overlap order multifractal qs i sc m st0
    = fluctuation_loop polyfit2 working n overlap order multifractal qs i sc m
        st0).
  { intros qs. clear Esc. induction sc as [|w sc IH]; intros i m st0;
      [reflexivity|].
    rewrite !loop_cons.
    destruct (_fractal_dfa_getwindow working n w overlap) as [segments|e]
      eqn:Eg; [|reflexivity].
    destruct (_fractal_dfa_trends polyfit1 segments w order) as [trends1|e]
      eqn:Et1.
    2:{ rewrite (trends_error_any_fit polyfit1 polyfit2 _ _ _ _ Et1).
        reflexivity. }
    destruct (fluctuation_batch _ _ _ _ _ multifractal qs st0 Et1)
      as [Hw [Hb Ef1]].
    pose proof (trends_batch polyfit2 segments w order Hw Hb) as Et2.
    rewrite Et2.
    destruct (fluctuation_batch _ _ _ _ _ multifractal qs st0 Et2)
      as [_ [_ Ef2]].
    rewrite Ef1, Ef2.
    assert (Hd : detrended_of polyfit1 segments w order
                 = detrended_of polyfit2 segments w order).
    { unfold detrended_of. apply map_ext_in. intros s Hs.
      apply least_squares_residuals_unique with (deg := order).
      - apply (Hls1 w segments s); [left; reflexivity|exact Eg|exact Hs].
      - apply (Hls2 w segments s); [left; reflexivity|exact Eg|exact Hs]. }
    rewrite Hd.
    destruct (assign_row m i _) as [m1|e]; [|reflexivity].
    apply IH.
    - intros w' sg s' Hw' Eg' Hs'.
      apply (Hls1 w' sg s'); [right; exact Hw'|exact Eg'|exact Hs'].
    - intros w' sg s' Hw' Eg' Hs'.
      apply (Hls2 w' sg s'); [right; exact Hw'|exact Eg'|exact Hs']. }
  split; [exact Hloop|].
  rewrite !fractal_dfa_1d. cbv zeta. fold n working. rewrite Esc.
  destruct (_sanitize_q q multifractal) as [qs|e]; [|reflexivity].
  rewrite Hloop. reflexivity.
Qed.

Lemma two_point_fit_least_squares (lead y0 y1 : R) :
  least_squares (abscissa 2) [y0; y1] 2
    (two_point_fit lead (abscissa 2) [y0; y1] 2).
Proof.
  split; [reflexivity|]. intros c' _.
  replace (residuals (abscissa 2) [y0; y1]
             (two_point_fit lead (abscissa 2) [y0; y1] 2))
    with [0%R; 0%R].
  - unfold sum_sq at 1. cbn [map Rsum fold_right].
    pose proof (sum_sq_nonneg (residuals (abscissa 2) [y0; y1] c')). lra.
  - unfold residuals, abscissa, two_point_fit, polyval.
    change (Z.to_nat 2) with 2%nat.
    cbn [seq map zip_with Nat.sub repeat app fold_left].
    change (INR 0) with 0%R. change (INR 1) with 1%R.
    f_equal; [ring|]. f_equal. ring.
Qed.

Lemma two_point_fit_on_windows (lead : R) (signal : series) (n : Z)
  (overlap : bool) :
  Z.of_nat (length (samples signal)) = n -> (2 < n)%Z ->
  overlap = true \/ is_ndarray signal = true ->
  fits_least_squares (two_point_fit lead) signal n overlap 2 [2; 2]%Z.
Proof.
  intros Hn Hlen Hmode w segments s Hw Eg Hs.
  assert (w = 2%Z) by (destruct Hw as [<-|[<-|[]]]; reflexivity). subst w.
  destruct (getwindow_batch signal n 2 overlap Hn ltac:(lia) Hmode)
    as [segments' [Eg' [_ Hrows]]].
  rewrite Eg in Eg'. inversion Eg'; subst segments'.
  pose proof (Hrows s Hs) as Hs2. change (Z.to_nat 2) with 2%nat in Hs2.
  destruct s as [|y0 [|y1 [|y2 s]]]; try discriminate.
  apply two_point_fit_least_squares.
Qed.

(** A witness of [fluctuation_independent_of_minimiser]: on windows of 2
    samples the parabolas with leading coefficients 0 and 1 are both
    least-squares fits of degree 2, and the two runs agree. *)
Lemma fluctuation_independent_of_minimiser_witness :
  two_point_fit 0 (abscissa 2) [0; 1]%R 2
  <> two_point_fit 1 (abscissa 2) [0; 1]%R 2 /\
  fractal_dfa no_expspace (two_point_fit 0) example_regression
    (signal_1d false seven_samples) (ScaleList [2; 2]%Z) true true 2 false
    QDefault default_errstate
  = fractal_dfa no_expspace (two_point_fit 1) example_regression
      (signal_1d false seven_samples) (ScaleList [2; 2]%Z) true true 2 false
      QDefault default_errstate.
Proof.
  split.
  - unfold two_point_fit. cbn [Nat.sub repeat app].
    intros E. injection E as E _. lra.
  - apply (fluctuation_independent_of_minimiser no_expspace
             (two_point_fit 0) (two_point_fit 1) example_regression false
             seven_samples (ScaleList [2; 2]%Z) true true 2 false QDefault
             default_errstate [2; 2]%Z eq_refl).
    + apply two_point_fit_on_windows;
        [rewrite length_profile; reflexivity | cbn; lia | left; reflexivity].
    + apply two_point_fit_on_windows;
        [rewrite length_profile; reflexivity | cbn; lia | left; reflexivity].
Defined.

(** ** ScalingRegressor: [_slopes] *)

Lemma slopes_loop_nth
  (polyfit_log : list xreal -> list xreal -> nat -> list xreal)
  (scale : list Z) (fluctuations : matrix) (range : list nat) :
  forall slopes st res st',
    slopes_loop polyfit_log scale fluctuations range slopes st
    = (Ok res, st') ->
    NoDup range -> (forall i, In i range -> (i < length slopes)%nat) ->
    forall i,
      (In i range ->
       nth i res NaN =
       hd NaN (polyfit_log (map (fun s => xlog2 (Finite (IZR s))) scale)
                 (map xlog2 (column fluctuations i)) 1)) /\
      (~ In i range -> nth i res NaN = nth i slopes NaN).
Proof.
  induction range as [|i0 range IH]; intros slopes st res st' E Hnd Hlt i.
  - inversion E; subst. split; [intros []|reflexivity].
  - rewrite slopes_loop_cons in E.
    destruct (polyfit_log _ _ 1) as [|c cs] eqn:Ec; [discriminate|].
    inversion Hnd as [|i0' range' Hnotin Hnd']; subst.
    assert (Hlt' : forall k, In k range ->
                     (k < length (update_nth i0 c slopes))%nat).
    { intros k Hk. rewrite length_update_nth. apply Hlt. right. exact Hk. }
    destruct (IH _ _ _ _ E Hnd' Hlt' i) as [Hin Hout].
    split.
    + intros [<-|Hi]; [|apply Hin; exact Hi].
      rewrite (Hout Hnotin), Ec.
      apply nth_update_nth_same. apply Hlt. left. reflexivity.
    + intros Hni.
      assert (Hne : i0 <> i) by (intros ->; apply Hni; left; reflexivity).
      rewrite Hout by (intros Hi; apply Hni; right; exact Hi).
      apply nth_update_nth_other. exact Hne.
Qed.

Lemma xlog2_window (s : Z) :
  (2 <= s)%Z -> exists r, xlog2 (Finite (IZR s)) = Finite r /\ (1 <= r)%R.
Proof.
  intros Hs. unfold xlog2.
  assert (H2 : (2 <= IZR s)%R) by (apply IZR_le; exact Hs).
  rewrite Rsign_pos by lra.
  exists (ln (IZR s) / ln 2)%R. split; [reflexivity|].
  assert (Hln2 : (0 < ln 2)%R).
  { rewrite <- ln_1. apply ln_increasing; lra. }
  assert (Hle : (ln 2 <= ln (IZR s))%R).
  { destruct (Req_dec (IZR s) 2) as [->|Hne]; [lra|].
    left. apply ln_increasing; lra. }
  apply Rmult_le_reg_r with (r := ln 2); [exact Hln2|].
  unfold Rdiv. rewrite Rmult_assoc, Rinv_l by lra. lra.
Qed.

(** The regression of [_slopes].  A matrix whose number of columns is not
    the number of exponents is rejected before the error policy is
    touched.  Otherwise, when it returns, it returns one slope per
    exponent, the [i]-th being the leading coefficient of the fit of degree
    1 of the base-2 logarithms of column [i] against those of the scales,
    under the policy it found; and the logarithms of validated scales are
    finite, at least 1. *)
Theorem slopes_regression
  (polyfit_log : list xreal -> list xreal -> nat -> list xreal)
  (scale : list Z) (fluctuations : matrix) (q : list R) (st : errstate) :
  (ncols fluctuations <> length q ->
   _slopes polyfit_log scale fluctuations q st
   = (Err (ValueError mismatch_msg), st)) /\
  (forall slopes st',
     _slopes polyfit_log scale fluctuations q st = (Ok slopes, st') ->
     st' = st /\ ncols fluctuations = length q /\
     length slopes = length q /\
     forall i, (i < length q)%nat ->
       nth i slopes NaN =
       hd NaN (polyfit_log (map (fun s => xlog2 (Finite (IZR s))) scale)
                 (map xlog2 (column fluctuations i)) 1)) /\
  (Forall (fun s => (2 <= s)%Z) scale ->
   Forall (fun a => exists r, a = Finite r /\ (1 <= r)%R)
     (map (fun s => xlog2 (Finite (IZR s))) scale)).
Proof.
  split; [|split].
  - intros Hne. unfold _slopes.
    destruct (Nat.eqb_spec (ncols fluctuations) (length q)) as [?|_];
      [contradiction|reflexivity].
  - intros slopes st' E.
    pose proof (slopes_errstate _ _ _ _ _ _ _ E) as ->.
    destruct (slopes_length _ _ _ _ _ _ _ E) as [Hl Hc].
    split; [reflexivity|]. split; [exact Hc|]. split; [exact Hl|].
    intros i Hi. unfold _slopes in E.
    destruct (Nat.eqb_spec (ncols fluctuations) (length q)) as [_|?];
      [|contradiction].
    cbn [negb] in E.
    apply (slopes_loop_nth _ _ _ _ _ _ _ _ E).
    + apply seq_NoDup.
    + intros k Hk. apply in_seq in Hk. rewrite repeat_length. lia.
    + apply in_seq. lia.
  - intros Hs. apply Forall_forall. intros a Ha. apply in_map_iff in Ha.
    destruct Ha as [s [<- Hin]]. apply xlog2_window.
    rewrite Forall_forall in Hs. apply Hs. exact Hin.
Qed.

(** ** Detrender: [_fractal_dfa_trends] *)

(** The Detrender on the batch of a window.  When it returns, the window
    has at least one sample and every segment has as many; it returns one
    trend per segment, the values on [0, 1, ..., window - 1] of the
    polynomial fitted to that segment alone; and with a least-squares fit
    every detrended segment sums to zero (exact arithmetic). *)
Theorem trends_of_segments (polyfit : list R -> list R -> nat -> list R)
  (segments trends : list (list R)) (w : Z) (order : nat) :
  _fractal_dfa_trends polyfit segments w order = Ok trends ->
  (1 <= w)%Z /\ length trends = length segments /\
  forall k, (k < length segments)%nat ->
    let s := nth k segments [] in
    let t := nth k trends [] in
    length s = Z.to_nat w /\
    t = map (polyval (polyfit (abscissa w) s order)) (abscissa w) /\
    length t = Z.to_nat w /\
    (least_squares (abscissa w) s order (polyfit (abscissa w) s order) ->
     Rsum (zip_with Rminus s t) = 0%R).
Proof.
  intros Et.
  destruct (trends_inv polyfit segments trends w order Et) as [Hw Hb].
  rewrite (trends_batch polyfit segments w order Hw Hb) in Et.
  inversion Et; subst trends; clear Et.
  destruct Hb as [Hne Hrows].
  split; [exact Hw|]. split; [apply length_map|].
  intros k Hk s t.
  assert (Hs : In s segments) by (apply nth_In; exact Hk).
  assert (Ht : t = map (polyval (polyfit (abscissa w) s order)) (abscissa w)).
  { subst t s.
    rewrite (nth_indep _ []
               (map (polyval (polyfit (abscissa w) [] order)) (abscissa w)))
      by (rewrite length_map; exact Hk).
    apply (map_nth (fun s => map (polyval (polyfit (abscissa w) s order))
                               (abscissa w))). }
  split; [apply Hrows; exact Hs|]. split; [exact Ht|].
  split; [rewrite Ht, length_map; apply length_abscissa|].
  intros Hls. rewrite Ht, zip_with_minus_map.
  apply (least_squares_residuals_sum _ _ order _ Hls).
Qed.

(** A witness of [trends_of_segments]: two segments of three samples and
    the line of least squares. *)
Lemma trends_of_segments_witness :
  exists trends,
    _fractal_dfa_trends example_fit [[0; 1; 0]; [0; 2; 0]]%R 3 1 = Ok trends /\
    length trends = 2%nat.
Proof.
  assert (E : exists trends,
            _fractal_dfa_trends example_fit [[0; 1; 0]; [0; 2; 0]]%R 3 1
            = Ok trends).
  { eexists. apply trends_batch; [lia|]. split; [discriminate|].
    intros s [<-|[<-|[]]]; reflexivity. }
  destruct E as [trends E]. exists trends. split; [exact E|].
  exact (proj1 (proj2 (trends_of_segments _ _ _ _ _ E))).
Defined.

(** ** The run in one formula *)

Lemma nth_row_of_fluctuation (detrended : list (list R))
  (multifractal : bool) (q : list R) (j : nat) :
  (j < length q)%nat ->
  nth j (row_of (length q) (fluctuation_of detrended multifractal q)) NaN
  = if multifractal
    then float_power
           (xmean (map (fun v => float_power v (Finite (nth j q 0%R / 2)))
                       (map var detrended)))
           (xdiv (Finite 1) (Finite (nth j q 0%R)))
    else fluctuation_mono detrended.
Proof.
  intros Hj. unfold fluctuation_of. destruct multifractal; cbn [row_of].
  - unfold fluctuation_multi. rewrite length_map, Nat.eqb_refl.
    rewrite (nth_indep _ NaN
               ((fun qj => float_power
                   (xmean (map (fun v => float_power v (Finite (qj / 2)))
                               (map var detrended)))
                   (xdiv (Finite 1) (Finite qj))) 0%R))
      by (rewrite length_map; exact Hj).
    apply (map_nth (fun qj => float_power
                      (xmean (map (fun v => float_power v (Finite (qj / 2)))
                                  (map var detrended)))
                      (xdiv (Finite 1) (Finite qj)))).
  - apply nth_repeat_lt. exact Hj.
Qed.

Lemma list_eq_nth {A : Type} (d : A) (l1 l2 : list A) :
  length l1 = length l2 ->
  (forall k, (k < length l1)%nat -> nth k l1 d = nth k l2 d) -> l1 = l2.
Proof.
  revert l2. induction l1 as [|a l1 IH]; intros [|b l2] Hlen Hnth;
    try discriminate; [reflexivity|].
  f_equal.
  - apply (Hnth 0%nat). cbn. lia.
  - apply IH; [cbn in Hlen; congruence|].
    intros k Hk. apply (Hnth (S k)). cbn. lia.
Qed.

Lemma nth_map_default {A B : Type} (f : A -> B) (l : list A) (k : nat)
  (da : A) (db : B) :
  (k < length l)%nat -> nth k (map f l) db = f (nth k l da).
Proof.
  intros Hk. rewrite (nth_indep _ db (f da)) by (rewrite length_map; exact Hk).
  apply map_nth.
Qed.

(** The slopes that [_slopes] returns, one by one. *)
Lemma slopes_nth
  (polyfit_log : list xreal -> list xreal -> nat -> list xreal)
  (scale : list Z) (fluctuations : matrix) (q : list R) (st st' : errstate)
  (slopes : list xreal) (j : nat) :
  _slopes polyfit_log scale fluctuations q st = (Ok slopes, st') ->
  (j < length q)%nat ->
  nth j slopes NaN
  = hd NaN (polyfit_log (map (fun s => xlog2 (Finite (IZR s))) scale)
                        (map xlog2 (column fluctuations j)) 1).
Proof.
  intros Es Hj. unfold _slopes in Es.
  destruct (negb (ncols fluctuations =? length q)%nat); [discriminate|].
  apply (slopes_loop_nth _ _ _ _ _ _ _ _ Es).
  - apply seq_NoDup.
  - intros k Hk. apply in_seq in Hk. rewrite repeat_length. lia.
  - apply in_seq. lia.
Qed.

(** The matrix of a run that returns: its shape, and its entries as
    fluctuations of the working series. *)
Lemma run_entries
  (expspace : Z -> Z -> Z -> Z -> list Z)
  (polyfit : list R -> list R -> nat -> list R)
  (polyfit_log : list xreal -> list xreal -> nat -> list xreal)
  (is_array : bool) (v : list R) (scale : scale_arg)
  (overlap integrate : bool) (order : nat) (multifractal : bool) (q : q_arg)
  (st st' : errstate) (out : output) (i : info) :
  fractal_dfa expspace polyfit polyfit_log (signal_1d is_array v) scale
    overlap integrate order multifractal q st = (Ok (out, i), st') ->
  exists sc qs m slopes,
    _fractal_dfa_findscales expspace (Z.of_nat (length v)) scale = Ok sc /\
    _sanitize_q q multifractal = Ok qs /\
    info_scale i = sc /\ info_q i = map Q2R qs /\
    Fluctuation i = Some m /\ Alpha i = Some (unwrap_single slopes) /\
    _slopes polyfit_log sc m (map Q2R qs) st = (Ok slopes, st) /\
    length (rows m) = length sc /\ ncols m = length (map Q2R qs) /\
    rectangular m /\
    (forall k j,
       (k < length sc)%nat -> (j < length (map Q2R qs))%nat ->
       nth j (nth k (rows m) []) NaN
       = fluctuation_at polyfit (profile is_array v integrate)
           (Z.of_nat (length v)) overlap order multifractal
           (nth k sc 0%Z) (nth j (map Q2R qs) 0%R)).
Proof.
  intros E.
  destruct (fractal_dfa_returns _ _ _ _ _ _ _ _ _ _ _ _ _ _ _ E)
    as [ia [v' [sc [qs [m [slopes
         [Hsig [Esc [Eq [El [Es [_ [Hi1 [Hi2 [Hi3 [Hi4 _]]]]]]]]]]]]]]]].
  assert (Hv : v' = v /\ ia = is_array).
  { unfold signal_1d in Hsig. destruct is_array, ia; inversion Hsig; auto. }
  destruct Hv as [-> ->].
  set (qr := map Q2R qs) in *.
  exists sc, qs, m, slopes. fold qr.
  destruct (length_zeros (length sc) (length qr)) as [Hz Hzc].
  destruct (loop_shape _ _ _ _ _ _ _ _ _ _ _ _ _ El) as [Hr [Hc _]].
  destruct (loop_rows _ _ _ _ _ _ _ _ _ _ _ _ _ El) as [_ Hrows].
  pose proof (loop_rect _ _ _ _ _ _ _ _ _ _ _ _ _ El
                (rectangular_zeros _ _)) as Hrect.
  repeat (split; [first [assumption | congruence]|]).
  intros k j Hk Hj.
  destruct (Hrows k Hk) as [segments [trends [f [Eg [Et [Ef Hrow]]]]]].
  cbn [Nat.add] in Hrow. rewrite Hrow, Hzc.
  destruct (fluctuation_batch _ _ _ _ _ multifractal qr st Et)
    as [_ [_ Ef']].
  rewrite Ef' in Ef. inversion Ef as [Hf]. clear Ef Ef'.
  rewrite nth_row_of_fluctuation by exact Hj.
  unfold fluctuation_at. rewrite Eg. reflexivity.
Qed.

(** What a run that returns has computed.  Entry [(k, j)] of the
    FluctuationMatrix is the fluctuation of the working series at the
    [k]-th validated scale and the [j]-th exponent that was kept: with
    [multifractal] the generalised mean of order [q / 2] of the variances
    of the detrended segments, raised to [1 / q], without it the root mean
    square of the detrended segments; and the [j]-th slope of [Alpha] is
    the leading coefficient of the line fitted to the base-2 logarithms of
    column [j] against those of the scales. *)
Theorem run_closed_form
  (expspace : Z -> Z -> Z -> Z -> list Z)
  (polyfit : list R -> list R -> nat -> list R)
  (polyfit_log : list xreal -> list xreal -> nat -> list xreal)
  (is_array : bool) (v : list R) (scale : scale_arg)
  (overlap integrate : bool) (order : nat) (multifractal : bool) (q : q_arg)
  (st st' : errstate) (out : output) (i : info) :
  fractal_dfa expspace polyfit polyfit_log (signal_1d is_array v) scale
    overlap integrate order multifractal q st = (Ok (out, i), st') ->
  let working := profile is_array v integrate in
  let n := Z.of_nat (length v) in
  exists m a,
    Fluctuation i = Some m /\ Alpha i = Some a /\
    (forall k j,
       (k < length (info_scale i))%nat -> (j < length (info_q i))%nat ->
       nth j (nth k (rows m) []) NaN
       = fluctuation_at polyfit working n overlap order multifractal
           (nth k (info_scale i) 0%Z) (nth j (info_q i) 0%R)) /\
    (forall j, (j < length (info_q i))%nat ->
       slope_of a j
       = hurst_at polyfit polyfit_log working n overlap order multifractal
           (info_scale i) (nth j (info_q i) 0%R)).
Proof.
  intros E working n.
  destruct (run_entries _ _ _ _ _ _ _ _ _ _ _ _ _ _ _ E)
    as [sc [qs [m [slopes
         [_ [_ [Hi1 [Hi2 [Hi3 [Hi4 [Es [Hr [_ [_ Hentry]]]]]]]]]]]]]].
  rewrite Hi1, Hi2. clear Hi1 Hi2.
  set (qr := map Q2R qs) in *.
  exists m, (unwrap_single slopes).
  split; [exact Hi3|]. split; [exact Hi4|].
  split; [exact Hentry|].
  intros j Hj.
  destruct (slopes_length _ _ _ _ _ _ _ Es) as [Hsl _].
  assert (Hs : slope_of (unwrap_single slopes) j = nth j slopes NaN).
  { pose proof (unwrap_single_cases slopes) as Hu.
    destruct (unwrap_single slopes) as [x|l]; cbn [slope_of].
    - subst slopes. cbn in Hsl. rewrite <- Hsl in Hj.
      destruct j; [reflexivity|lia].
    - destruct Hu as [-> _]. reflexivity. }
  rewrite Hs. unfold hurst_at.
  assert (Hcol : map xlog2 (column m j)
                 = map (fun w => xlog2 (fluctuation_at polyfit working n
                                          overlap order multifractal w
                                          (nth j qr 0%R))) sc).
  { unfold column. rewrite map_map.
    apply (list_eq_nth NaN); [rewrite !length_map; lia|].
    intros k Hk. rewrite length_map, Hr in Hk.
    rewrite (nth_map_default _ _ _ [] NaN) by lia.
    rewrite (nth_map_default _ _ _ 0%Z NaN) by exact Hk.
    rewrite Hentry by assumption. reflexivity. }
  rewrite <- Hcol.
  apply (slopes_nth _ _ _ _ _ _ _ _ Es Hj).
Qed.

(** A witness of [run_closed_form]: the default monofractal run on seven
    samples. *)
Lemma run_closed_form_witness :
  exists out i a,
    fractal_dfa no_expspace example_fit example_regression
      (signal_1d false seven_samples) (ScaleList [3; 4]%Z) true true 1 false
      QDefault default_errstate = (Ok (out, i), default_errstate) /\
    Alpha i = Some a /\
    slope_of a 0
    = hurst_at example_fit example_regression
        (profile false seven_samples true) (Z.of_nat (length seven_samples))
        true 1 false (info_scale i) (nth 0 (info_q i) 0%R).
Proof.
  destruct (fractal_dfa_mono_returns no_expspace example_fit
              example_regression false seven_samples (ScaleList [3; 4]%Z)
              true true 1 QDefault default_errstate [3; 4]%Z [2%Q]
              findscales_3_4 eq_refl example_regression_nonempty
              (or_introl eq_refl)) as [m0 [slopes E]].
  destruct (run_closed_form _ _ _ _ _ _ _ _ _ _ _ _ _ _ _ E)
    as [m [a [_ [Ha [_ Hslope]]]]].
  eexists _, _, a. split; [exact E|]. split; [exact Ha|].
  apply Hslope. cbn. lia.
Defined.

(* ================================================================= *)
(** * Properties of [video_ppg] *)

(** ** The overlap-adding *)

Lemma clip_index_range (len i : Z) :
  (0 <= len)%Z -> (0 <= clip_index len i <= len)%Z.
Proof.
  intros Hlen. unfold clip_index.
  destruct (Z.ltb_spec i 0); lia.
Qed.

Lemma length_py_slice {A : Type} (l : list A) (i j : Z) :
  let len := Z.of_nat (length l) in
  length (py_slice l i j)
  = Z.to_nat (Z.min (clip_index len j - clip_index len i)
                    (len - clip_index len i)).
Proof.
  cbv zeta. unfold py_slice. rewrite length_firstn, length_skipn.
  pose proof (clip_index_range (Z.of_nat (length l)) i ltac:(lia)).
  pose proof (clip_index_range (Z.of_nat (length l)) j ltac:(lia)).
  lia.
Qed.

(** Adding to a slice keeps the length of the array and everything
    outside the slice. *)
Lemma slice_add_inv (H H' : list xreal) (i j : Z) (v : list xreal) :
  slice_add H i j v = Returns H' ->
  length H' = length H /\
  forall (k : nat) (d : xreal),
    (Z.of_nat k < clip_index (Z.of_nat (length H)) i)%Z \/
    (clip_index (Z.of_nat (length H)) j <= Z.of_nat k)%Z /\
    (clip_index (Z.of_nat (length H)) i <= Z.of_nat k)%Z ->
    nth k H' d = nth k H d.
Proof.
  unfold slice_add.
  pose proof (clip_index_range (Z.of_nat (length H)) i ltac:(lia)) as Hi.
  pose proof (clip_index_range (Z.of_nat (length H)) j ltac:(lia)) as Hj.
  pose proof (length_py_slice H i j) as Hold. cbv zeta in Hold.
  set (a := clip_index (Z.of_nat (length H)) i) in *.
  set (b := clip_index (Z.of_nat (length H)) j) in *.
  destruct (broadcast xadd (py_slice H i j) v) as [new|e]; [|discriminate].
  destruct (Nat.eqb_spec (length new) (length (py_slice H i j))) as [Hn|Hn];
    [|discriminate].
  intros E. inversion E; subst H'; clear E.
  split.
  - rewrite !length_app, length_firstn, length_skipn. lia.
  - intros k d Hk.
    assert (Ha : length (firstn (Z.to_nat a) H) = Z.to_nat a)
      by (rewrite length_firstn; lia).
    destruct Hk as [Hk|[Hk1 Hk2]].
    + rewrite app_nth1 by lia. rewrite nth_firstn.
      destruct (Nat.ltb_spec k (Z.to_nat a)) as [_|?]; [reflexivity|lia].
    + rewrite app_nth2 by lia. rewrite app_nth2 by lia.
      rewrite nth_skipn, Ha, Hn. f_equal. lia.
Qed.

Section PpgLoop.

Variable inv_nonfinite : list xreal -> answer (list (list xreal)).
Variable rgb : list (list xreal).
Variable l : Z.

Lemma ppg_loop_cons (t : nat) (range : list nat) (H : list xreal) :
  ppg_loop inv_nonfinite rgb l (t :: range) H =
  match pos_window inv_nonfinite
          (transpose 3 (py_slice rgb (Z.of_nat t) (Z.of_nat t + l - 1))) with
  | Raises e => Raises e
  | Returns pulse =>
      match slice_add H (Z.of_nat t) (Z.of_nat t + l - 1) pulse with
      | Raises e => Raises e
      | Returns H' => ppg_loop inv_nonfinite rgb l range H'
      end
  end.
Proof. reflexivity. Qed.

(** The loop keeps the length of [H], and what lies beyond every slice it
    adds to. *)
Lemma ppg_loop_inv (bound : nat) (range : list nat) :
  (1 <= l)%Z ->
  (forall t, In t range -> (Z.of_nat t + l - 1 <= Z.of_nat bound)%Z) ->
  forall H H',
    (bound <= length H)%nat ->
    ppg_loop inv_nonfinite rgb l range H = Returns H' ->
    length H' = length H /\
    forall k d, (bound <= k)%nat -> nth k H' d = nth k H d.
Proof.
  intros Hl. induction range as [|t range IH]; intros Hrange H H' Hb E.
  - inversion E; subst. auto.
  - rewrite ppg_loop_cons in E.
    destruct (pos_window _ _) as [pulse|e]; [|discriminate].
    destruct (slice_add H _ _ pulse) as [H1|e] eqn:Es; [|discriminate].
    destruct (slice_add_inv _ _ _ _ _ Es) as [Hlen Hout].
    pose proof (Hrange t (or_introl eq_refl)) as Ht.
    destruct (IH (fun t' Ht' => Hrange t' (or_intror Ht')) H1 H'
                ltac:(lia) E) as [Hlen' Hout'].
    split; [congruence|].
    intros k d Hk. rewrite Hout' by exact Hk. apply Hout. right.
    unfold clip_index.
    destruct (Z.ltb_spec (Z.of_nat t + l - 1) 0) as [?|_]; [lia|].
    destruct (Z.ltb_spec (Z.of_nat t) 0) as [?|_]; lia.
Qed.

Lemma ppg_loop_length (range : list nat) :
  forall H H',
    ppg_loop inv_nonfinite rgb l range H = Returns H' ->
    length H' = length H.
Proof.
  induction range as [|t range IH]; intros H H' E.
  - inversion E; subst. reflexivity.
  - rewrite ppg_loop_cons in E.
    destruct (pos_window _ _) as [pulse|e]; [|discriminate].
    destruct (slice_add H _ _ pulse) as [H1|e] eqn:Es; [|discriminate].
    destruct (slice_add_inv _ _ _ _ _ Es) as [Hlen _].
    rewrite (IH _ _ E). exact Hlen.
Qed.

End PpgLoop.

(** ** The shape of the result *)

(** A video with no more frames than the window, 48 frames at the default
    rate of 30, gives a signal of zeros, one per frame, whatever the
    frames show: the loop over the windows has nothing to do. *)
Theorem video_ppg_short_video (video face : Type)
  (video_face : video -> list face) (video_skin : face -> skin)
  (inv_nonfinite : list xreal -> answer (list (list xreal)))
  (v : video) (sampling_rate : Z) :
  (Z.of_nat (length (video_face v)) <= window_length sampling_rate)%Z ->
  video_ppg video_face video_skin inv_nonfinite v sampling_rate
  = Returns (repeat (Finite 0) (length (video_face v))).
Proof.
  intros Hshort. unfold video_ppg. rewrite length_map.
  replace (Z.to_nat _) with 0%nat by lia. reflexivity.
Qed.

(** A witness of [video_ppg_short_video]: four frames at 30 frames per
    second. *)
Lemma video_ppg_short_video_witness :
  window_length 30 = 48%Z /\
  video_ppg (fun v : list skin => v) (fun s => s) no_inverse example_video 30
  = Returns (repeat (Finite 0) 4).
Proof.
  split; [reflexivity|].
  apply (video_ppg_short_video (list skin) skin (fun v => v) (fun s => s)
           no_inverse example_video 30).
  cbn. lia.
Defined.

(** Whenever [video_ppg] returns, it returns one sample per frame, and for
    a rate of 1 or more the last two samples are zero: window [t] adds to
    [H[t : t + l - 1]] only, and [t] stays below [n - l]. *)
Theorem video_ppg_shape (video face : Type)
  (video_face : video -> list face) (video_skin : face -> skin)
  (inv_nonfinite : list xreal -> answer (list (list xreal)))
  (v : video) (sampling_rate : Z) (H : list xreal) :
  video_ppg video_face video_skin inv_nonfinite v sampling_rate = Returns H ->
  length H = length (video_face v) /\
  ((1 <= window_length sampling_rate)%Z ->
   forall k, (length (video_face v) <= k + 2)%nat ->
             (k < length (video_face v))%nat ->
             nth k H NaN = Finite 0).
Proof.
  unfold video_ppg. rewrite length_map.
  set (n := length (video_face v)).
  set (l := window_length sampling_rate).
  intros E. split.
  - rewrite (ppg_loop_length _ _ _ _ _ _ E). apply repeat_length.
  - intros Hl k Hk Hkn.
    destruct (ppg_loop_inv inv_nonfinite
                (map (fun f => skin_colour (video_skin f)) (video_face v))
                l (n - 2) (seq 0 (Z.to_nat (Z.of_nat n - l))) Hl) with
      (H := repeat (Finite 0) n) (H' := H) as [_ Hout].
    + intros t Ht. apply in_seq in Ht. lia.
    + rewrite repeat_length. lia.
    + exact E.
    + rewrite Hout by lia. apply nth_repeat_lt. exact Hkn.
Qed.

(** ** Windows of finite colours *)

Lemma py_slice_map {A B : Type} (f : A -> B) (l : list A) (i j : Z) :
  py_slice (map f l) i j = map f (py_slice l i j).
Proof.
  unfold py_slice. rewrite length_map, skipn_map, firstn_map. reflexivity.
Qed.

Lemma finite_values_Finite (l : list R) :
  finite_values (map Finite l) = Some l.
Proof.
  induction l as [|x l IH]; [reflexivity|].
  cbn [map finite_values]. rewrite IH. reflexivity.
Qed.

Lemma skin_colour_visible (s : skin) :
  skin_visible s = true -> skin_colour s = map Finite (mean_colour s).
Proof.
  unfold skin_visible, skin_colour, mean_colour. intros Hs.
  apply Nat.ltb_lt in Hs.
  assert (Hc : INR (count_positive (mask s)) <> 0%R)
    by (apply not_0_INR; lia).
  cbn [map]. unfold xdiv.
  destruct (Req_dec_T (INR (count_positive (mask s))) 0) as [E|_];
    [contradiction|reflexivity].
Qed.

Lemma length_mean_colour (s : skin) : length (mean_colour s) = 3%nat.
Proof. reflexivity. Qed.

Lemma transpose_finite (w : list (list R)) :
  Forall (fun row => length row = 3%nat) w ->
  transpose 3 (map (map Finite) w)
  = map (fun c => map Finite (channel c w)) (seq 0 3).
Proof.
  intros Hw. unfold transpose, channel. apply map_ext_in. intros c Hc.
  apply in_seq in Hc. rewrite !map_map. apply map_ext_in. intros row Hrow.
  rewrite Forall_forall in Hw.
  apply nth_map_default. rewrite (Hw row Hrow). lia.
Qed.

Lemma channel_nonempty (c : nat) (w : list (list R)) :
  w <> [] -> channel c w <> [].
Proof. destruct w; [congruence|discriminate]. Qed.

Lemma combination3 (a b c : R) (w : list (list R)) :
  combination [Finite a; Finite b; Finite c]
    (map (fun k => map Finite (channel k w)) (seq 0 3)) (length w)
  = map (fun row => Finite (a * nth 0 row 0%R + (b * nth 1 row 0%R
                             + (c * nth 2 row 0%R + 0)))%R) w.
Proof.
  cbn [seq map combination]. unfold channel.
  induction w as [|row w IH]; [reflexivity|].
  cbn [map length repeat zip_with]. rewrite IH. reflexivity.
Qed.

Lemma existsb_map_eq {A B : Type} (f : B -> bool) (g : A -> B) (l : list A) :
  existsb f (map g l) = existsb (fun a => f (g a)) l.
Proof.
  induction l as [|a l IH]; [reflexivity|].
  cbn [map existsb]. rewrite IH. reflexivity.
Qed.

(** The temporal normalization of a window of finite colours: a channel
    with mean zero makes the matrix singular; otherwise every channel is
    divided by its mean. *)
Lemma temporal_normalization_finite
  (inv_nonfinite : list xreal -> answer (list (list xreal)))
  (w : list (list R)) :
  w <> [] -> Forall (fun row => length row = 3%nat) w ->
  temporal_normalization inv_nonfinite (transpose 3 (map (map Finite) w))
  = if zero_mean_channel w then Raises (LinAlgError singular_msg)
    else Returns (map (fun c =>
                         map (fun row =>
                                Finite (nth c row 0%R / Rmean (channel c w))%R)
                             w) (seq 0 3)).
Proof.
  intros Hne Hw. unfold temporal_normalization.
  rewrite (transpose_finite w Hw). cbv zeta.
  assert (Hmeans : map xmean (map (fun c => map Finite (channel c w)) (seq 0 3))
                   = map Finite (map (fun c => Rmean (channel c w)) (seq 0 3))).
  { rewrite !map_map. apply map_ext. intros c.
    apply xmean_finite. apply channel_nonempty. exact Hne. }
  rewrite Hmeans. unfold inv_diag. rewrite finite_values_Finite.
  unfold zero_mean_channel. rewrite existsb_map_eq.
  destruct (existsb _ (seq 0 3)); [reflexivity|].
  cbn [and_then]. f_equal.
  unfold matmul.
  assert (Hm : length (hd [] (map (fun c => map Finite (channel c w)) (seq 0 3)))
               = length w).
  { cbn [seq map hd]. unfold channel. rewrite !length_map. reflexivity. }
  rewrite Hm.
  cbn [seq map diag length Nat.eqb nth].
  rewrite !(combination3 _ _ _ w).
  f_equal; [apply map_ext; intros row; f_equal; unfold Rdiv; ring|].
  f_equal; [apply map_ext; intros row; f_equal; unfold Rdiv; ring|].
  f_equal. apply map_ext; intros row; f_equal; unfold Rdiv; ring.
Qed.

Lemma length_combination (a : list xreal) (B : list (list xreal)) (m : nat) :
  Forall (fun row => length row = m) B -> length (combination a B m) = m.
Proof.
  intros HB. revert a. induction HB as [|row B Hrow HB IH]; intros a.
  - destruct a; cbn; apply repeat_length.
  - destruct a as [|aj a]; cbn [combination]; [apply repeat_length|].
    rewrite length_zip_with, length_map, IH, Hrow. apply Nat.min_id.
Qed.

Lemma matmul_rows (A B : list (list xreal)) (m : nat) :
  B <> [] -> Forall (fun row => length row = m) B ->
  Forall (fun row => length row = m) (matmul A B).
Proof.
  intros Hne HB. unfold matmul.
  assert (Hm : length (hd [] B) = m).
  { destruct B as [|row B]; [congruence|]. inversion HB; assumption. }
  rewrite Hm. apply Forall_forall. intros row Hrow.
  apply in_map_iff in Hrow. destruct Hrow as [a [<- _]].
  apply length_combination. exact HB.
Qed.

(** The pulse of a window whose normalised colours have [m] samples per
    channel has [m] samples. *)
Lemma length_pulse (Cn : list (list xreal)) (m : nat) :
  length Cn = 3%nat -> Forall (fun row => length row = m) Cn ->
  length (standardised (tuning (projection Cn))) = m.
Proof.
  intros H3 Hrows. unfold standardised. rewrite length_map.
  assert (Hne : Cn <> []) by (destruct Cn; [discriminate|discriminate]).
  pose proof (matmul_rows [[Finite 0; Finite 1; Finite (-1)];
                           [Finite (-2); Finite 1; Finite 1]] Cn m Hne Hrows)
    as HS.
  fold (projection Cn) in HS.
  assert (HSne : projection Cn <> []) by (unfold projection, matmul; discriminate).
  unfold tuning. cbv zeta.
  pose proof (matmul_rows
                [[Finite 1; xdiv (xstd (nth 0 (projection Cn) []))
                                 (xstd (nth 1 (projection Cn) []))]]
                (projection Cn) m HSne HS) as HP.
  unfold matmul in HP |- *. cbn [map hd] in HP |- *.
  inversion HP; assumption.
Qed.

Lemma pos_window_finite
  (inv_nonfinite : list xreal -> answer (list (list xreal)))
  (w : list (list R)) :
  w <> [] -> Forall (fun row => length row = 3%nat) w ->
  if zero_mean_channel w
  then pos_window inv_nonfinite (transpose 3 (map (map Finite) w))
       = Raises (LinAlgError singular_msg)
  else exists pulse,
         pos_window inv_nonfinite (transpose 3 (map (map Finite) w))
         = Returns pulse /\ length pulse = length w.
Proof.
  intros Hne Hw. unfold pos_window.
  rewrite (temporal_normalization_finite inv_nonfinite w Hne Hw).
  destruct (zero_mean_channel w); [reflexivity|].
  cbn [and_then]. eexists. split; [reflexivity|].
  apply length_pulse; [reflexivity|].
  apply Forall_forall. intros row Hrow. apply in_map_iff in Hrow.
  destruct Hrow as [c [<- _]]. apply length_map.
Qed.

Lemma slice_add_returns (H : list xreal) (i j : Z) (v : list xreal) :
  length v = length (py_slice H i j) ->
  exists H', slice_add H i j v = Returns H'.
Proof.
  intros Hv. unfold slice_add.
  rewrite broadcast_same_length by (symmetry; exact Hv).
  rewrite length_zip_with, Hv, Nat.min_id, Nat.eqb_refl.
  eexists. reflexivity.
Qed.

Lemma length_py_slice_same {A B : Type} (l1 : list A) (l2 : list B)
  (i j : Z) :
  length l1 = length l2 -> length (py_slice l1 i j) = length (py_slice l2 i j).
Proof.
  intros Hl. rewrite !length_py_slice. cbv zeta. rewrite Hl. reflexivity.
Qed.

Section FiniteRun.

Variable inv_nonfinite : list xreal -> answer (list (list xreal)).
Variable colours : list (list R).
Variable l : Z.
Hypothesis colours_rgb : Forall (fun row => length row = 3%nat) colours.
Hypothesis window_two : (2 <= l)%Z.

Lemma window_colours_rows (t : nat) :
  Forall (fun row => length row = 3%nat) (window_colours colours l t).
Proof.
  apply Forall_forall. intros row Hrow.
  rewrite Forall_forall in colours_rgb. apply colours_rgb.
  apply (In_py_slice row _ _ _ Hrow).
Qed.

Lemma window_colours_nonempty (t : nat) :
  (Z.of_nat t + l - 1 <= Z.of_nat (length colours))%Z ->
  window_colours colours l t <> [].
Proof.
  intros Ht E. apply (f_equal (@length _)) in E.
  unfold window_colours in E.
  destruct (py_slice_inside colours (Z.of_nat t) (Z.of_nat t + l - 1)
              ltac:(lia) Ht) as [_ Hlen].
  rewrite Hlen in E. cbn in E. lia.
Qed.

(** The loop on finite colours: the first window with a channel of mean
    zero stops it with [LinAlgError]; without one it goes through. *)
Lemma ppg_loop_finite (range : list nat) :
  (forall t, In t range ->
     (Z.of_nat t + l - 1 <= Z.of_nat (length colours))%Z) ->
  forall H,
    length H = length colours ->
    if existsb (fun t => zero_mean_channel (window_colours colours l t)) range
    then ppg_loop inv_nonfinite (map (map Finite) colours) l range H
         = Raises (LinAlgError singular_msg)
    else exists H',
           ppg_loop inv_nonfinite (map (map Finite) colours) l range H
           = Returns H'.
Proof.
  induction range as [|t range IH]; intros Hrange H HH.
  - cbn. eexists. reflexivity.
  - cbn [existsb]. rewrite ppg_loop_cons, py_slice_map.
    fold (window_colours colours l t).
    pose proof (pos_window_finite inv_nonfinite (window_colours colours l t)
                  (window_colours_nonempty t (Hrange t (or_introl eq_refl)))
                  (window_colours_rows t)) as Hw.
    destruct (zero_mean_channel (window_colours colours l t)).
    + rewrite Hw. reflexivity.
    + destruct Hw as [pulse [-> Hp]]. cbn [orb].
      destruct (slice_add_returns H (Z.of_nat t) (Z.of_nat t + l - 1) pulse)
        as [H1 E1].
      { rewrite Hp. unfold window_colours.
        apply length_py_slice_same. symmetry. exact HH. }
      rewrite E1.
      apply IH.
      * intros t' Ht'. apply Hrange. right. exact Ht'.
      * destruct (slice_add_inv _ _ _ _ _ E1) as [Hlen _]. congruence.
Qed.

End FiniteRun.

Lemma colours_of_rgb {face : Type} (video_skin : face -> skin)
  (faces : list face) :
  Forall (fun f => skin_visible (video_skin f) = true) faces ->
  map (fun f => skin_colour (video_skin f)) faces
  = map (map Finite) (colours_of video_skin faces) /\
  Forall (fun row => length row = 3%nat) (colours_of video_skin faces).
Proof.
  intros Hvis. unfold colours_of. split.
  - rewrite map_map. apply map_ext_in. intros f Hf.
    rewrite Forall_forall in Hvis. apply skin_colour_visible, Hvis, Hf.
  - apply Forall_forall. intros row Hrow. apply in_map_iff in Hrow.
    destruct Hrow as [f [<- _]]. reflexivity.
Qed.

(** ** The outcome on faces with visible skin *)

(** When the mask of every face has a pixel and the window has at least
    two frames ([l >= 2]), the run depends on the means of the colour
    channels over the windows [rgb[t : t + l - 1]], [t < n - l]: a channel
    of mean zero in one of them, a black skin region for one, makes
    [np.linalg.inv] raise [LinAlgError]; without one the function
    returns. *)
Theorem video_ppg_outcome (video face : Type)
  (video_face : video -> list face) (video_skin : face -> skin)
  (inv_nonfinite : list xreal -> answer (list (list xreal)))
  (v : video) (sampling_rate : Z) :
  Forall (fun f => skin_visible (video_skin f) = true) (video_face v) ->
  (2 <= window_length sampling_rate)%Z ->
  if some_window_singular (colours_of video_skin (video_face v))
       (window_length sampling_rate)
  then video_ppg video_face video_skin inv_nonfinite v sampling_rate
       = Raises (LinAlgError singular_msg)
  else exists H,
         video_ppg video_face video_skin inv_nonfinite v sampling_rate
         = Returns H.
Proof.
  intros Hvis Hl. unfold video_ppg, some_window_singular.
  destruct (colours_of_rgb video_skin (video_face v) Hvis) as [-> Hrows].
  rewrite length_map.
  apply ppg_loop_finite; try assumption.
  - intros t Ht. apply in_seq in Ht. lia.
  - apply repeat_length.
Qed.

(** Colours that are all positive have no channel of mean zero. *)
Lemma Rsum_positive (l : list R) :
  l <> [] -> Forall (fun x => (0 < x)%R) l -> (0 < Rsum l)%R.
Proof.
  intros Hne Hl. induction Hl as [|x l Hx Hl IH]; [congruence|].
  rewrite Rsum_cons. destruct l as [|y l].
  - cbn. lra.
  - specialize (IH ltac:(discriminate)). lra.
Qed.

Lemma Rmean_positive (l : list R) :
  l <> [] -> Forall (fun x => (0 < x)%R) l -> (0 < Rmean l)%R.
Proof.
  intros Hne Hl. unfold Rmean. apply Rdiv_lt_0_compat.
  - apply Rsum_positive; assumption.
  - apply lt_0_INR. destruct l; [congruence|cbn; lia].
Qed.

Lemma is_zero_false (x : R) : x <> 0%R -> is_zero x = false.
Proof.
  intros Hx. unfold is_zero. destruct (Req_dec_T x 0); [contradiction|reflexivity].
Qed.

Lemma positive_window_regular (w : list (list R)) :
  w <> [] ->
  Forall (fun row => length row = 3%nat /\ Forall (fun x => (0 < x)%R) row) w ->
  zero_mean_channel w = false.
Proof.
  intros Hne Hw. unfold zero_mean_channel.
  assert (Hc : forall c, (c < 3)%nat -> is_zero (Rmean (channel c w)) = false).
  { intros c Hc. apply is_zero_false.
    assert (0 < Rmean (channel c w))%R; [|lra].
    apply Rmean_positive; [apply channel_nonempty; exact Hne|].
    unfold channel. apply Forall_forall. intros x Hx.
    apply in_map_iff in Hx. destruct Hx as [row [<- Hrow]].
    rewrite Forall_forall in Hw. destruct (Hw row Hrow) as [Hlen Hpos].
    rewrite Forall_forall in Hpos. apply Hpos. apply nth_In. lia. }
  cbn [seq existsb]. rewrite !Hc by lia. reflexivity.
Qed.

Lemma positive_colours_regular (colours : list (list R)) (l : Z) :
  (2 <= l)%Z ->
  Forall (fun row => length row = 3%nat /\ Forall (fun x => (0 < x)%R) row)
    colours ->
  some_window_singular colours l = false.
Proof.
  intros Hl Hpos. unfold some_window_singular.
  apply not_true_is_false. intros E. apply existsb_exists in E.
  destruct E as [t [Ht E]]. apply in_seq in Ht.
  rewrite positive_window_regular in E; [discriminate| |].
  - intros E0. apply (f_equal (@length _)) in E0. unfold window_colours in E0.
    destruct (py_slice_inside colours (Z.of_nat t) (Z.of_nat t + l - 1)
                ltac:(lia) ltac:(lia)) as [_ Hlen].
    rewrite Hlen in E0. cbn in E0. lia.
  - apply Forall_forall. intros row Hrow. rewrite Forall_forall in Hpos.
    apply Hpos. apply (In_py_slice row _ _ _ Hrow).
Qed.

Lemma one_pixel_colour (r g b : R) :
  skin_visible (one_pixel r g b) = true /\
  mean_colour (one_pixel r g b) = [r; g; b].
Proof.
  assert (Hc : count_positive [1%R] = 1%nat).
  { unfold count_positive. cbn [filter].
    destruct (Rlt_dec 0 1) as [_|Hn]; [reflexivity|lra]. }
  unfold skin_visible, mean_colour, one_pixel. cbn [mask plane0 plane1 plane2].
  rewrite Hc. split; [reflexivity|].
  change (INR 1) with 1%R. cbn [Rsum fold_right].
  f_equal; [field|]. f_equal; [field|]. f_equal. field.
Qed.

Lemma example_video_visible :
  Forall (fun f => skin_visible f = true) example_video.
Proof.
  unfold example_video. repeat constructor; apply one_pixel_colour.
Qed.

Lemma example_video_regular :
  some_window_singular (colours_of (fun s => s) example_video) 3 = false.
Proof.
  apply positive_colours_regular; [lia|].
  unfold colours_of, example_video. cbn [map].
  rewrite !(proj2 (one_pixel_colour _ _ _)).
  repeat constructor; lra.
Qed.

(** A witness of [video_ppg_outcome]: a video of four frames at 2 frames
    per second, with positive colours. *)
Lemma video_ppg_outcome_witness :
  window_length 2 = 3%Z /\
  exists H,
    video_ppg (fun v : list skin => v) (fun s => s) no_inverse example_video 2
    = Returns H.
Proof.
  split; [reflexivity|].
  pose proof (video_ppg_outcome (list skin) skin (fun v => v) (fun s => s)
                no_inverse example_video 2 example_video_visible
                ltac:(cbn; lia)) as Hout.
  cbv beta in Hout. change (window_length 2) with 3%Z in Hout.
  rewrite example_video_regular in Hout. exact Hout.
Defined.

(** A witness of [video_ppg_shape]: the same run; its last two samples
    are zero. *)
Lemma video_ppg_shape_witness :
  exists H,
    video_ppg (fun v : list skin => v) (fun s => s) no_inverse example_video 2
    = Returns H /\
    length H = 4%nat /\ nth 2 H NaN = Finite 0 /\ nth 3 H NaN = Finite 0.
Proof.
  pose proof (video_ppg_outcome (list skin) skin (fun v => v) (fun s => s)
                no_inverse example_video 2 example_video_visible
                ltac:(cbn; lia)) as Hout.
  cbv beta in Hout. change (window_length 2) with 3%Z in Hout.
  rewrite example_video_regular in Hout. destruct Hout as [H E].
  destruct (video_ppg_shape (list skin) skin (fun v => v) (fun s => s)
              no_inverse example_video 2 H E) as [Hlen Htail].
  exists H. split; [exact E|]. split; [exact Hlen|].
  split; apply Htail; cbn; lia.
Defined.

(** ** The gain of the camera *)

Lemma Rsum_map_mult (k : R) (l : list R) :
  Rsum (map (Rmult k) l) = (k * Rsum l)%R.
Proof.
  induction l as [|x l IH]; [cbn; ring|].
  cbn [map]. rewrite !Rsum_cons, IH. ring.
Qed.

Lemma mean_colour_gain (k0 k1 k2 : R) (s : skin) :
  mean_colour (with_gain k0 k1 k2 s) = gain_row k0 k1 k2 (mean_colour s).
Proof.
  unfold mean_colour, with_gain, gain_row.
  cbn [mask plane0 plane1 plane2 nth]. rewrite !Rsum_map_mult.
  f_equal; [unfold Rdiv; ring|]. f_equal; [unfold Rdiv; ring|].
  f_equal. unfold Rdiv; ring.
Qed.

Lemma Rmean_scaled {A : Type} (k : R) (f : A -> R) (w : list A) :
  Rmean (map (fun a => (k * f a)%R) w) = (k * Rmean (map f w))%R.
Proof.
  unfold Rmean. rewrite !length_map.
  replace (map (fun a => (k * f a)%R) w) with (map (Rmult k) (map f w))
    by (rewrite map_map; reflexivity).
  rewrite Rsum_map_mult. unfold Rdiv. ring.
Qed.

Lemma channel_gain (k0 k1 k2 : R) (w : list (list R)) (c : nat) :
  (c < 3)%nat ->
  channel c (map (gain_row k0 k1 k2) w)
  = map (fun row => (nth c [k0; k1; k2] 0 * nth c row 0)%R) w.
Proof.
  intros Hc. unfold channel. rewrite map_map. apply map_ext. intros row.
  destruct c as [|[|[|c]]]; [reflexivity..|lia].
Qed.

Lemma is_zero_scaled (k x : R) : k <> 0%R -> is_zero (k * x) = is_zero x.
Proof.
  intros Hk. unfold is_zero.
  destruct (Req_dec_T (k * x) 0) as [E|E], (Req_dec_T x 0) as [E'|E'];
    try reflexivity.
  - exfalso. apply Rmult_integral in E. tauto.
  - exfalso. apply E. rewrite E'. ring.
Qed.

Lemma zero_mean_channel_gain (k0 k1 k2 : R) (w : list (list R)) :
  k0 <> 0%R -> k1 <> 0%R -> k2 <> 0%R ->
  zero_mean_channel (map (gain_row k0 k1 k2) w) = zero_mean_channel w.
Proof.
  intros H0 H1 H2. unfold zero_mean_channel. cbn [seq existsb].
  rewrite !channel_gain by lia. cbn [nth].
  rewrite !(Rmean_scaled _ (fun row => nth _ row 0%R)).
  fold (channel 0 w) (channel 1 w) (channel 2 w).
  rewrite !is_zero_scaled by assumption. reflexivity.
Qed.

Lemma existsb_false_In {A : Type} (f : A -> bool) (l : list A) (a : A) :
  existsb f l = false -> In a l -> f a = false.
Proof.
  intros E Ha. destruct (f a) eqn:Efa; [|reflexivity].
  assert (existsb f l = true) by (apply existsb_exists; exists a; auto).
  congruence.
Qed.

(** The pulse of a window does not change when each colour channel is
    multiplied by its own factor: the temporal normalization divides each
    channel by its mean. *)
Lemma pos_window_gain
  (inv_nonfinite : list xreal -> answer (list (list xreal)))
  (k0 k1 k2 : R) (w : list (list R)) :
  k0 <> 0%R -> k1 <> 0%R -> k2 <> 0%R ->
  Forall (fun row => length row = 3%nat) w ->
  pos_window inv_nonfinite
    (transpose 3 (map (map Finite) (map (gain_row k0 k1 k2) w)))
  = pos_window inv_nonfinite (transpose 3 (map (map Finite) w)).
Proof.
  intros H0 H1 H2 Hw.
  destruct w as [|row0 w0] eqn:Ew; [reflexivity|]. rewrite <- Ew in *.
  assert (Hne : w <> []) by (rewrite Ew; discriminate).
  assert (Hne' : map (gain_row k0 k1 k2) w <> [])
    by (rewrite Ew; discriminate).
  assert (Hw' : Forall (fun row => length row = 3%nat)
                  (map (gain_row k0 k1 k2) w)).
  { apply Forall_forall. intros row Hrow. apply in_map_iff in Hrow.
    destruct Hrow as [r [<- _]]. reflexivity. }
  unfold pos_window.
  rewrite (temporal_normalization_finite inv_nonfinite _ Hne' Hw').
  rewrite (temporal_normalization_finite inv_nonfinite _ Hne Hw).
  rewrite zero_mean_channel_gain by assumption.
  destruct (zero_mean_channel w) eqn:Ez; [reflexivity|].
  assert (Hmean : forall c, (c < 3)%nat -> Rmean (channel c w) <> 0%R).
  { intros c Hc E.
    unfold zero_mean_channel in Ez.
    pose proof (existsb_false_In _ _ c Ez ltac:(apply in_seq; lia)) as Hz.
    cbv beta in Hz. unfold is_zero in Hz.
    destruct (Req_dec_T (Rmean (channel c w)) 0); [discriminate|contradiction]. }
  assert (Hk : forall c, (c < 3)%nat -> nth c [k0; k1; k2] 0%R <> 0%R).
  { intros [|[|[|c]]] Hc; cbn; try assumption. lia. }
  assert (E : map (fun c => map (fun row =>
                     Finite (nth c row 0%R / Rmean (channel c
                               (map (gain_row k0 k1 k2) w)))%R)
                   (map (gain_row k0 k1 k2) w)) (seq 0 3)
              = map (fun c => map (fun row =>
                       Finite (nth c row 0%R / Rmean (channel c w))%R)
                     w) (seq 0 3)).
  { apply map_ext_in. intros c Hc. apply in_seq in Hc.
    rewrite map_map. apply map_ext. intros row. f_equal.
    rewrite channel_gain by lia.
    rewrite (Rmean_scaled _ (fun row => nth c row 0%R)).
    fold (channel c w).
    assert (Hg : nth c (gain_row k0 k1 k2 row) 0%R
                 = (nth c [k0; k1; k2] 0 * nth c row 0)%R).
    { destruct c as [|[|[|c]]]; [reflexivity..|lia]. }
    rewrite Hg. field. split; [apply Hmean|apply Hk]; lia. }
  rewrite E. reflexivity.
Qed.

(** A gain on each colour channel of the camera does not change the
    signal (exact arithmetic): when the mask of every face has a pixel,
    multiplying the three colour planes of every frame by three factors
    that are not zero leaves the result as it is, a value or an
    exception. *)
Theorem video_ppg_gain_invariant (video face : Type)
  (video_face : video -> list face) (video_skin : face -> skin)
  (inv_nonfinite : list xreal -> answer (list (list xreal)))
  (v : video) (sampling_rate : Z) (k0 k1 k2 : R) :
  Forall (fun f => skin_visible (video_skin f) = true) (video_face v) ->
  k0 <> 0%R -> k1 <> 0%R -> k2 <> 0%R ->
  video_ppg video_face (fun f => with_gain k0 k1 k2 (video_skin f))
    inv_nonfinite v sampling_rate
  = video_ppg video_face video_skin inv_nonfinite v sampling_rate.
Proof.
  intros Hvis H0 H1 H2. unfold video_ppg.
  destruct (colours_of_rgb video_skin (video_face v) Hvis) as [-> Hrows].
  assert (Hvis' : Forall (fun f => skin_visible
                            (with_gain k0 k1 k2 (video_skin f)) = true)
                    (video_face v)) by exact Hvis.
  destruct (colours_of_rgb (fun f => with_gain k0 k1 k2 (video_skin f))
              (video_face v) Hvis') as [-> _].
  assert (Hc : colours_of (fun f => with_gain k0 k1 k2 (video_skin f))
                 (video_face v)
               = map (gain_row k0 k1 k2) (colours_of video_skin (video_face v))).
  { unfold colours_of. rewrite map_map. apply map_ext. intros f.
    apply mean_colour_gain. }
  rewrite Hc, !length_map.
  set (colours := colours_of video_skin (video_face v)) in *.
  set (l := window_length sampling_rate).
  generalize (repeat (Finite 0) (length colours)).
  generalize (seq 0 (Z.to_nat (Z.of_nat (length colours) - l))).
  intros range. induction range as [|t range IH]; intros H; [reflexivity|].
  rewrite !ppg_loop_cons, !py_slice_map.
  rewrite pos_window_gain; try assumption.
  - destruct (pos_window _ _) as [pulse|e]; [|reflexivity].
    destruct (slice_add H _ _ pulse) as [H'|e]; [|reflexivity].
    apply IH.
  - apply Forall_forall. intros row Hrow. rewrite Forall_forall in Hrows.
    apply Hrows. apply (In_py_slice row _ _ _ Hrow).
Qed.

(** A witness of [video_ppg_gain_invariant]: the red channel doubled and
    the blue one halved. *)
Lemma video_ppg_gain_invariant_witness :
  video_ppg (fun v : list skin => v) (fun s => with_gain 2 1 (/ 2) s)
    no_inverse example_video 2
  = video_ppg (fun v : list skin => v) (fun s => s) no_inverse
      example_video 2.
Proof.
  apply (video_ppg_gain_invariant (list skin) skin (fun v => v) (fun s => s)
           no_inverse example_video 2 2 1 (/ 2) example_video_visible);
    lra.
Defined.

(** ** The amplitude of the signal *)

Section Amplitude.

Local Open Scope R_scope.

Variable k : R.

Lemma cumsum_from_scaled (acc : R) (l : list R) :
  cumsum_from (k * acc) (map (Rmult k) l) = map (Rmult k) (cumsum_from acc l).
Proof.
  revert acc. induction l as [|x l IH]; intros acc; [reflexivity|].
  cbn [map cumsum_from].
  replace (k * acc + k * x) with (k * (acc + x)) by ring.
  rewrite IH. reflexivity.
Qed.

Lemma Rmean_map_mult (l : list R) :
  Rmean (map (Rmult k) l) = k * Rmean l.
Proof.
  unfold Rmean. rewrite Rsum_map_mult, length_map. unfold Rdiv. ring.
Qed.

(** The working series of a scaled signal is the scaled working series. *)
Lemma profile_scaled (is_array : bool) (v : list R) (integrate : bool) :
  profile is_array (map (Rmult k) v) integrate
  = {| is_ndarray := is_ndarray (profile is_array v integrate);
       samples := map (Rmult k) (samples (profile is_array v integrate)) |}.
Proof.
  unfold profile. destruct integrate; cbn [is_ndarray samples];
    [|reflexivity].
  f_equal. unfold cumsum. rewrite Rmean_map_mult, map_map.
  replace (map (fun x => k * x - k * Rmean v) v)
    with (map (Rmult k) (map (fun x => x - Rmean v) v))
    by (rewrite map_map; apply map_ext; intros; ring).
  rewrite <- cumsum_from_scaled. f_equal. ring.
Qed.

Lemma chunk_map {A B : Type} (f : A -> B) (r c : nat) (l : list A) :
  chunk r c (map f l) = map (map f) (chunk r c l).
Proof.
  revert l. induction r as [|r IH]; intros l; [reflexivity|].
  cbn [chunk map]. rewrite firstn_map, skipn_map, IH. reflexivity.
Qed.

Lemma np_array2d_map (f : R -> R) (l : list (list R)) :
  np_array2d (map (map f) l)
  = match np_array2d l with
    | Ok segments => Ok (map (map f) segments)
    | Err e => Err e
    end.
Proof.
  unfold np_array2d. destruct l as [|r l]; [reflexivity|].
  cbn [map].
  assert (E : forall rs,
             forallb (fun r' => (length r' =? length (map f r))%nat)
                     (map (map f) rs)
             = forallb (fun r' => (length r' =? length r)%nat) rs).
  { induction rs as [|r' rs IH]; [reflexivity|].
    cbn [map forallb]. rewrite IH, !length_map. reflexivity. }
  specialize (E (r :: l)). cbn [map] in E. rewrite E.
  destruct (forallb _ (r :: l)); reflexivity.
Qed.

(** The segments of a scaled series are the scaled segments. *)
Lemma getwindow_scaled (signal : series) (n w : Z) (overlap : bool) :
  _fractal_dfa_getwindow
    {| is_ndarray := is_ndarray signal;
       samples := map (Rmult k) (samples signal) |} n w overlap
  = match _fractal_dfa_getwindow signal n w overlap with
    | Ok segments => Ok (map (map (Rmult k)) segments)
    | Err e => Err e
    end.
Proof.
  unfold _fractal_dfa_getwindow. cbn [is_ndarray samples].
  destruct overlap.
  - destruct (arange 0 (n - w) (w / 2)) as [starts|e]; [|reflexivity].
    cbn [rbind].
    replace (map (fun i => py_slice (map (Rmult k) (samples signal)) i (i + w))
                 starts)
      with (map (map (Rmult k))
                (map (fun i => py_slice (samples signal) i (i + w)) starts))
      by (rewrite map_map; apply map_ext; intros i;
          symmetry; apply py_slice_map).
    apply np_array2d_map.
  - destruct (w =? 0)%Z; [reflexivity|].
    destruct (negb (is_ndarray signal)); [reflexivity|].
    unfold reshape2d. rewrite py_slice_map, !length_map.
    destruct (_ && _ && _)%bool; [|reflexivity].
    rewrite chunk_map. reflexivity.
Qed.

Lemma polyval_scaled_from (c : list R) (x : R) :
  forall a,
    fold_left (fun y pv => y * x + pv) (map (Rmult k) c) (k * a)
    = k * fold_left (fun y pv => y * x + pv) c a.
Proof.
  induction c as [|p c IH]; intros a; [reflexivity|].
  cbn [map fold_left].
  replace (k * a * x + k * p) with (k * (a * x + p)) by ring.
  apply IH.
Qed.

Lemma polyval_scaled (c : list R) (x : R) :
  polyval (map (Rmult k) c) x = k * polyval c x.
Proof.
  unfold polyval. replace 0 with (k * 0) at 1 by ring.
  apply polyval_scaled_from.
Qed.

Lemma residuals_scaled (x y c : list R) :
  residuals x (map (Rmult k) y) (map (Rmult k) c)
  = map (Rmult k) (residuals x y c).
Proof.
  unfold residuals. revert y.
  induction x as [|xi x IH]; intros [|yi y]; try reflexivity.
  cbn [map zip_with]. rewrite IH, polyval_scaled. f_equal. ring.
Qed.

Lemma sum_sq_scaled (r : list R) :
  sum_sq (map (Rmult k) r) = k ^ 2 * sum_sq r.
Proof.
  induction r as [|a r IH]; [unfold sum_sq; cbn; ring|].
  cbn [map]. rewrite !sum_sq_cons, IH. ring.
Qed.

End Amplitude.

Section AmplitudeFit.

Local Open Scope R_scope.

(** The scaled coefficients of a least-squares fit are a least-squares
    fit of the scaled points. *)
Lemma least_squares_scaled (k : R) (x y : list R) (deg : nat) (c : list R) :
  least_squares x y deg c ->
  least_squares x (map (Rmult k) y) deg (map (Rmult k) c).
Proof.
  intros [Hlen Hmin]. split; [rewrite length_map; exact Hlen|].
  intros c' Hc'. rewrite residuals_scaled, sum_sq_scaled.
  destruct (Req_dec k 0) as [->|Hk].
  - pose proof (sum_sq_nonneg (residuals x (map (Rmult 0) y) c')). lra.
  - assert (Ec : c' = map (Rmult k) (map (Rmult (/ k)) c')).
    { rewrite map_map. rewrite <- (map_id c') at 1. apply map_ext.
      intros a. field. exact Hk. }
    rewrite Ec, residuals_scaled, sum_sq_scaled.
    apply Rmult_le_compat_l; [apply pow2_ge_0|].
    apply Hmin. rewrite length_map. exact Hc'.
Qed.

(** The residuals of the fit of a scaled segment are the scaled residuals
    of the fit of the segment. *)
Lemma detrended_scaled (polyfit : list R -> list R -> nat -> list R) (k : R)
  (x s : list R) (deg : nat) :
  least_squares x s deg (polyfit x s deg) ->
  least_squares x (map (Rmult k) s) deg (polyfit x (map (Rmult k) s) deg) ->
  residuals x (map (Rmult k) s) (polyfit x (map (Rmult k) s) deg)
  = map (Rmult k) (residuals x s (polyfit x s deg)).
Proof.
  intros Hs Hks. rewrite <- residuals_scaled.
  apply least_squares_residuals_unique with (deg := deg); [exact Hks|].
  apply least_squares_scaled. exact Hs.
Qed.

Lemma fluctuation_mono_finite (detrended : list (list R)) :
  detrended <> [] -> (forall row, In row detrended -> row <> []) ->
  fluctuation_mono detrended
  = Finite (sqrt (Rmean (map (fun row => sum_sq row / INR (length row))
                             detrended))).
Proof.
  intros Hne Hrows. unfold fluctuation_mono.
  assert (E : map (fun row => xdiv (Finite (Rsum (map (fun x => x ^ 2) row)))
                                   (Finite (INR (length row)))) detrended
              = map Finite (map (fun row => sum_sq row / INR (length row))
                                detrended)).
  { rewrite map_map. apply map_ext_in. intros row Hrow.
    apply mean_sq_row. apply Hrows. exact Hrow. }
  rewrite E.
  assert (Hm : xmean (map Finite (map (fun row => sum_sq row / INR (length row))
                                      detrended))
               = Finite (Rmean (map (fun row => sum_sq row / INR (length row))
                                    detrended)))
    by (apply xmean_finite; destruct detrended; [congruence|discriminate]).
  unfold xmean in Hm. rewrite Hm.
  unfold xsqrt.
  destruct (Rlt_dec _ 0) as [Hneg|_]; [|reflexivity].
  exfalso. apply (Rlt_not_le _ _ Hneg). apply Rmean_nonneg.
  apply Forall_forall. intros m Hin. apply in_map_iff in Hin.
  destruct Hin as [row [<- _]]. apply mean_sq_nonneg.
Qed.

(** The root mean square of a scaled batch. *)
Lemma fluctuation_mono_scaled (k : R) (detrended : list (list R)) :
  detrended <> [] -> (forall row, In row detrended -> row <> []) ->
  fluctuation_mono (map (map (Rmult k)) detrended)
  = xmul (Finite (Rabs k)) (fluctuation_mono detrended).
Proof.
  intros Hne Hrows.
  rewrite (fluctuation_mono_finite detrended Hne Hrows).
  rewrite fluctuation_mono_finite.
  - cbn [xmul]. f_equal. rewrite map_map.
    replace (map (fun row => sum_sq (map (Rmult k) row)
                             / INR (length (map (Rmult k) row))) detrended)
      with (map (Rmult (k ^ 2))
                (map (fun row => sum_sq row / INR (length row)) detrended)).
    2:{ rewrite map_map. apply map_ext. intros row.
        rewrite sum_sq_scaled, length_map. unfold Rdiv. ring. }
    rewrite Rmean_map_mult, sqrt_mult_alt by apply pow2_ge_0.
    f_equal. replace (k ^ 2) with (Rsqr k) by (unfold Rsqr; ring).
    apply sqrt_Rsqr_abs.
  - destruct detrended; [congruence|discriminate].
  - intros row Hrow. apply in_map_iff in Hrow.
    destruct Hrow as [r [<- Hr]]. specialize (Hrows r Hr).
    destruct r; [congruence|discriminate].
Qed.

End AmplitudeFit.

(** *** Generalised means of rescaled variances *)

Section AmplitudeMulti.

Local Open Scope R_scope.

Variable c : R.
Hypothesis c_nonzero : c <> 0.

Lemma square_positive : 0 < c ^ 2.
Proof.
  replace (c ^ 2) with (Rsqr c) by (unfold Rsqr; ring).
  apply Rsqr_pos_lt. exact c_nonzero.
Qed.

Lemma var_scaled (row : list R) :
  var (map (Rmult c) row) = xmul (Finite (c ^ 2)) (var row).
Proof.
  destruct row as [|x row]; [reflexivity|].
  change (map (Rmult c) (x :: row)) with (c * x :: map (Rmult c) row).
  cbn [var xmul]. f_equal.
  change (c * x :: map (Rmult c) row) with (map (Rmult c) (x :: row)).
  rewrite Rmean_map_mult, map_map.
  rewrite <- (Rmean_scaled (c ^ 2) (fun y => Rsqr (y - Rmean (x :: row)))).
  f_equal. apply map_ext. intros y. unfold Rsqr. ring.
Qed.

Lemma var_nonneg_or_inf (row : list R) :
  row <> [] -> nonneg_or_inf (var row).
Proof.
  intros Hne. pose proof (nonneg_var row) as Hv.
  destruct row as [|x row]; [congruence|]. exact Hv.
Qed.

(** A power of a rescaled variance. *)
Lemma float_power_scaled (a : xreal) (p : R) :
  nonneg_or_inf a -> p <> 0 ->
  float_power (xmul (Finite (c ^ 2)) a) (Finite p)
  = xmul (Finite (Rpower (c ^ 2) p)) (float_power a (Finite p)) /\
  nonneg_or_inf (float_power a (Finite p)).
Proof.
  intros Ha Hp. pose proof square_positive as Hc.
  assert (HK : 0 < Rpower (c ^ 2) p) by apply exp_pos.
  destruct a as [x| | |]; cbn [nonneg_or_inf] in Ha; try contradiction.
  - cbn [xmul float_power].
    destruct (Req_dec_T p 0) as [E|_]; [contradiction|].
    unfold Rpow_fin.
    destruct (Req_dec x 0) as [->|Hx].
    + rewrite Rmult_0_r, Rsign_zero.
      destruct (Rlt_dec 0 p); cbn [xmul nonneg_or_inf].
      * split; [f_equal; ring|lra].
      * rewrite Rsign_pos by exact HK. cbn. auto.
    + assert (Hx0 : 0 < x) by lra.
      rewrite (Rsign_pos x Hx0), (Rsign_pos (c ^ 2 * x))
        by (apply Rmult_lt_0_compat; assumption).
      cbn [xmul nonneg_or_inf]. split.
      * f_equal. symmetry. apply Rpower_mult_distr; assumption.
      * left. apply exp_pos.
  - cbn [xmul]. rewrite (Rsign_pos _ Hc). cbn [inf_of_sign float_power].
    destruct (Req_dec_T p 0) as [E|_]; [contradiction|].
    destruct (Rlt_dec 0 p); cbn [xmul nonneg_or_inf].
    + rewrite Rsign_pos by exact HK. cbn. auto.
    + split; [f_equal; ring|lra].
Qed.

Lemma xadd_scaled (K : R) (a b : xreal) :
  0 < K -> nonneg_or_inf a -> nonneg_or_inf b ->
  xadd (xmul (Finite K) a) (xmul (Finite K) b)
  = xmul (Finite K) (xadd a b) /\
  nonneg_or_inf (xadd a b).
Proof.
  intros HK Ha Hb.
  destruct a as [x| | |], b as [y| | |]; cbn [nonneg_or_inf] in Ha, Hb;
    try contradiction; cbn [xmul xadd xopp];
    rewrite ?(Rsign_pos K HK); cbn [inf_of_sign xadd nonneg_or_inf];
    (split; [try reflexivity|try exact I]).
  - f_equal. ring.
  - lra.
Qed.

Lemma xsum_scaled (K : R) (ts : list xreal) :
  0 < K -> Forall nonneg_or_inf ts ->
  xsum (map (xmul (Finite K)) ts) = xmul (Finite K) (xsum ts) /\
  nonneg_or_inf (xsum ts).
Proof.
  intros HK Hts. induction Hts as [|t ts Ht Hts [IH1 IH2]].
  - cbn. split; [f_equal; ring|lra].
  - cbn [map]. unfold xsum in *. cbn [fold_right]. rewrite IH1.
    apply xadd_scaled; assumption.
Qed.

Lemma xmean_scaled (K : R) (ts : list xreal) :
  0 < K -> ts <> [] -> Forall nonneg_or_inf ts ->
  xmean (map (xmul (Finite K)) ts) = xmul (Finite K) (xmean ts) /\
  nonneg_or_inf (xmean ts).
Proof.
  intros HK Hne Hts. unfold xmean. rewrite length_map.
  destruct (xsum_scaled K ts HK Hts) as [-> Hs].
  assert (HN : 0 < INR (length ts)).
  { apply lt_0_INR. destruct ts; [congruence|cbn; lia]. }
  destruct (xsum ts) as [s| | |]; cbn [nonneg_or_inf] in Hs;
    try contradiction.
  - cbn [xmul xdiv].
    destruct (Req_dec_T (INR (length ts)) 0) as [E|_]; [lra|].
    cbn [xmul nonneg_or_inf]. split; [f_equal; unfold Rdiv; ring|].
    apply Rmult_le_pos; [exact Hs|]. apply Rlt_le, Rinv_0_lt_compat, HN.
  - cbn [xmul]. rewrite (Rsign_pos K HK). cbn [inf_of_sign xdiv].
    destruct (Rlt_dec (INR (length ts)) 0) as [E|_]; [lra|].
    cbn. auto.
Qed.

Lemma Rpower_square_root (q : R) :
  q <> 0 -> Rpower (Rpower (c ^ 2) (q / 2)) (1 / q) = Rabs c.
Proof.
  intros Hq. rewrite Rpower_mult.
  replace (q / 2 * (1 / q)) with (/ 2) by (field; exact Hq).
  rewrite Rpower_sqrt by exact square_positive.
  replace (c ^ 2) with (Rsqr c) by (unfold Rsqr; ring).
  apply sqrt_Rsqr_abs.
Qed.

(** The root of a rescaled mean. *)
Lemma float_power_root_scaled (M : xreal) (q : R) :
  nonneg_or_inf M -> q <> 0 ->
  float_power (xmul (Finite (Rpower (c ^ 2) (q / 2))) M)
              (xdiv (Finite 1) (Finite q))
  = xmul (Finite (Rabs c)) (float_power M (xdiv (Finite 1) (Finite q))).
Proof.
  intros HM Hq.
  assert (HK : 0 < Rpower (c ^ 2) (q / 2)) by apply exp_pos.
  assert (Ha : 0 < Rabs c) by (apply Rabs_pos_lt; exact c_nonzero).
  cbn [xdiv]. destruct (Req_dec_T q 0) as [E|_]; [contradiction|].
  assert (Hr : 1 / q <> 0).
  { unfold Rdiv. rewrite Rmult_1_l. apply Rinv_neq_0_compat. exact Hq. }
  destruct M as [m| | |]; cbn [nonneg_or_inf] in HM; try contradiction.
  - cbn [xmul float_power].
    destruct (Req_dec_T (1 / q) 0) as [E|_]; [contradiction|].
    unfold Rpow_fin.
    destruct (Req_dec m 0) as [->|Hm].
    + rewrite Rmult_0_r, Rsign_zero.
      destruct (Rlt_dec 0 (1 / q)); cbn [xmul].
      * f_equal. ring.
      * rewrite (Rsign_pos _ Ha). reflexivity.
    + assert (Hm0 : 0 < m) by lra.
      rewrite (Rsign_pos m Hm0), (Rsign_pos (Rpower (c ^ 2) (q / 2) * m))
        by (apply Rmult_lt_0_compat; assumption).
      cbn [xmul]. f_equal.
      rewrite <- Rpower_mult_distr by assumption.
      rewrite Rpower_square_root by exact Hq. reflexivity.
  - cbn [xmul]. rewrite (Rsign_pos _ HK). cbn [inf_of_sign float_power].
    destruct (Req_dec_T (1 / q) 0) as [E|_]; [contradiction|].
    destruct (Rlt_dec 0 (1 / q)); cbn [xmul].
    + rewrite (Rsign_pos _ Ha). reflexivity.
    + f_equal. ring.
Qed.

(** The fluctuation of a rescaled batch, for one exponent. *)
Lemma fluctuation_multi_scaled (detrended : list (list R)) (q : R) :
  detrended <> [] -> (forall row, In row detrended -> row <> []) ->
  q <> 0 ->
  float_power
    (xmean (map (fun v => float_power v (Finite (q / 2)))
                (map var (map (map (Rmult c)) detrended))))
    (xdiv (Finite 1) (Finite q))
  = xmul (Finite (Rabs c))
      (float_power
         (xmean (map (fun v => float_power v (Finite (q / 2)))
                     (map var detrended)))
         (xdiv (Finite 1) (Finite q))).
Proof.
  intros Hne Hrows Hq.
  assert (Hp : q / 2 <> 0) by lra.
  set (ts := map (fun v => float_power v (Finite (q / 2)))
                 (map var detrended)).
  assert (Hts : Forall nonneg_or_inf ts).
  { apply Forall_forall. intros t Ht. unfold ts in Ht.
    rewrite map_map in Ht. apply in_map_iff in Ht.
    destruct Ht as [row [<- Hrow]].
    apply float_power_scaled; [|exact Hp].
    apply var_nonneg_or_inf, Hrows, Hrow. }
  assert (E : map (fun v => float_power v (Finite (q / 2)))
                  (map var (map (map (Rmult c)) detrended))
              = map (xmul (Finite (Rpower (c ^ 2) (q / 2)))) ts).
  { unfold ts. rewrite !map_map. apply map_ext_in. intros row Hrow.
    rewrite var_scaled. apply float_power_scaled; [|exact Hp].
    apply var_nonneg_or_inf, Hrows, Hrow. }
  rewrite E.
  assert (Hne' : ts <> []).
  { unfold ts. destruct detrended; [congruence|discriminate]. }
  destruct (xmean_scaled (Rpower (c ^ 2) (q / 2)) ts (exp_pos _) Hne' Hts)
    as [-> HM].
  apply float_power_root_scaled; assumption.
Qed.

End AmplitudeMulti.

(** ** Rescaling the signal rescales the fluctuations *)

(** A batch that the Windower returns for a validated window is a proper
    batch. *)
Lemma getwindow_ok_batch (signal : series) (n w : Z) (overlap : bool)
  (segments : list (list R)) :
  Z.of_nat (length (samples signal)) = n -> (2 <= w < n)%Z ->
  _fractal_dfa_getwindow signal n w overlap = Ok segments ->
  batch_of w segments.
Proof.
  intros Hn Hw Eg.
  assert (Hmode : overlap = true \/ is_ndarray signal = true).
  { destruct overlap; [left; reflexivity|right].
    destruct (is_ndarray signal) eqn:Harr; [reflexivity|].
    unfold _fractal_dfa_getwindow in Eg. rewrite Harr in Eg.
    destruct (w =? 0)%Z; discriminate. }
  destruct (getwindow_batch signal n w overlap Hn Hw Hmode)
    as [segments' [Eg' Hb]].
  rewrite Eg in Eg'. injection Eg' as <-. exact Hb.
Qed.

(** One entry: the fluctuation of the rescaled working series at a window
    is [|c|] times the fluctuation of the working series. *)
Lemma fluctuation_at_scaled (polyfit : list R -> list R -> nat -> list R)
  (c : R) (working : series) (n : Z) (overlap : bool) (order : nat)
  (multifractal : bool) (scale : list Z) (w : Z) (qj : R) :
  let scaled := {| is_ndarray := is_ndarray working;
                   samples := map (Rmult c) (samples working) |} in
  c <> 0%R -> qj <> 0%R ->
  Z.of_nat (length (samples working)) = n -> (2 <= w < n)%Z -> In w scale ->
  fits_least_squares polyfit working n overlap order scale ->
  fits_least_squares polyfit scaled n overlap order scale ->
  fluctuation_at polyfit scaled n overlap order multifractal w qj
  = match _fractal_dfa_getwindow working n w overlap with
    | Ok _ => xmul (Finite (Rabs c))
                (fluctuation_at polyfit working n overlap order multifractal
                   w qj)
    | Err _ => NaN
    end.
Proof.
  intros scaled Hc Hq Hn Hw Hin Hfit Hfit'.
  unfold fluctuation_at.
  pose proof (getwindow_scaled c working n w overlap) as Eg'.
  fold scaled in Eg'.
  destruct (_fractal_dfa_getwindow working n w overlap) as [segments|e]
    eqn:Eg; rewrite Eg'; [|reflexivity].
  destruct (getwindow_ok_batch working n w overlap segments Hn Hw Eg)
    as [Hne Hrows].
  assert (Ed : detrended_of polyfit (map (map (Rmult c)) segments) w order
               = map (map (Rmult c)) (detrended_of polyfit segments w order)).
  { unfold detrended_of. rewrite !map_map. apply map_ext_in. intros s Hs.
    apply detrended_scaled.
    - apply (Hfit w segments s Hin Eg Hs).
    - apply (Hfit' w (map (map (Rmult c)) segments) (map (Rmult c) s) Hin Eg').
      apply in_map. exact Hs. }
  cbv zeta. rewrite Ed.
  assert (Hdne : detrended_of polyfit segments w order <> []).
  { unfold detrended_of. destruct segments; [congruence|discriminate]. }
  assert (Hdrows : forall row, In row (detrended_of polyfit segments w order)
                               -> row <> []).
  { intros row Hrow. unfold detrended_of in Hrow. apply in_map_iff in Hrow.
    destruct Hrow as [s [<- Hs]]. intros E.
    apply (f_equal (@length _)) in E.
    rewrite length_residuals in E
      by (rewrite length_abscissa; symmetry; apply Hrows, Hs).
    rewrite (Hrows s Hs) in E. cbn in E. lia. }
  destruct multifractal.
  - apply fluctuation_multi_scaled; assumption.
  - apply fluctuation_mono_scaled; assumption.
Qed.

Lemma profile_is_ndarray (is_array : bool) (v : list R) (integrate : bool) :
  is_ndarray (profile is_array v integrate) = (integrate || is_array)%bool.
Proof. unfold profile. destruct integrate; reflexivity. Qed.

(** Entry by entry: the matrices of a run and of the run on the rescaled
    signal. *)
Lemma run_scaled_entries
  (expspace : Z -> Z -> Z -> Z -> list Z)
  (polyfit : list R -> list R -> nat -> list R)
  (polyfit_log : list xreal -> list xreal -> nat -> list xreal)
  (c : R) (is_array : bool) (v : list R) (scale : scale_arg)
  (overlap integrate : bool) (order : nat) (multifractal : bool) (q : q_arg)
  (st st1 st2 : errstate) (out1 out2 : output) (i1 i2 : info) :
  c <> 0%R ->
  fractal_dfa expspace polyfit polyfit_log (signal_1d is_array v) scale
    overlap integrate order multifractal q st = (Ok (out1, i1), st1) ->
  fractal_dfa expspace polyfit polyfit_log
    (signal_1d is_array (map (Rmult c) v)) scale
    overlap integrate order multifractal q st = (Ok (out2, i2), st2) ->
  fits_least_squares polyfit (profile is_array v integrate)
    (Z.of_nat (length v)) overlap order (info_scale i1) ->
  fits_least_squares polyfit (profile is_array (map (Rmult c) v) integrate)
    (Z.of_nat (length v)) overlap order (info_scale i1) ->
  exists sc qs m1 m2 slopes1 slopes2,
    info_scale i1 = sc /\ info_scale i2 = sc /\
    info_q i1 = map Q2R qs /\ info_q i2 = map Q2R qs /\
    _sanitize_q q multifractal = Ok qs /\ valid_scales (Z.of_nat (length v)) sc /\
    Fluctuation i1 = Some m1 /\ Fluctuation i2 = Some m2 /\
    Alpha i1 = Some (unwrap_single slopes1) /\
    Alpha i2 = Some (unwrap_single slopes2) /\
    _slopes polyfit_log sc m1 (map Q2R qs) st = (Ok slopes1, st) /\
    _slopes polyfit_log sc m2 (map Q2R qs) st = (Ok slopes2, st) /\
    length (rows m1) = length sc /\ length (rows m2) = length sc /\
    ncols m1 = length qs /\ ncols m2 = length qs /\
    rectangular m1 /\ rectangular m2 /\
    (forall k j,
       (k < length sc)%nat -> (j < length qs)%nat ->
       nth j (nth k (rows m2) []) NaN
       = xmul (Finite (Rabs c)) (nth j (nth k (rows m1) []) NaN)).
Proof.
  intros Hc E1 E2 Hfit Hfit'.
  destruct (run_entries _ _ _ _ _ _ _ _ _ _ _ _ _ _ _ E1)
    as [sc [qs [m1 [slopes1
         [Esc [Eq [Hs1 [Hq1 [Hm1 [Ha1 [Es1 [Hr1 [Hc1 [Hrect1 Hent1]]]]]]]]]]]]]].
  destruct (run_entries _ _ _ _ _ _ _ _ _ _ _ _ _ _ _ E2)
    as [sc2 [qs2 [m2 [slopes2
         [Esc2 [Eq2 [Hs2 [Hq2 [Hm2 [Ha2 [Es2 [Hr2 [Hc2 [Hrect2 Hent2]]]]]]]]]]]]]].
  rewrite (length_map (Rmult c) v) in Esc2, Hent2.
  rewrite Esc in Esc2. injection Esc2 as <-.
  rewrite Eq in Eq2. injection Eq2 as <-.
  rewrite length_map in Hc1, Hc2.
  pose proof (findscales_valid _ _ _ _ Esc) as Hvalid.
  exists sc, qs, m1, m2, slopes1, slopes2.
  repeat (split; [assumption|]).
  intros k j Hk Hj.
  rewrite Hent2, Hent1 by (rewrite ?length_map; assumption).
  rewrite profile_scaled.
  destruct Hvalid as [_ Hvalid]. rewrite Forall_forall in Hvalid.
  assert (Hin : In (nth k sc 0%Z) sc) by (apply nth_In; exact Hk).
  rewrite Hs1 in Hfit, Hfit'. rewrite profile_scaled in Hfit'.
  rewrite (fluctuation_at_scaled polyfit c (profile is_array v integrate)
             (Z.of_nat (length v)) overlap order multifractal sc
             (nth k sc 0%Z) (nth j (map Q2R qs) 0%R) Hc).
  - destruct (_fractal_dfa_getwindow _ _ (nth k sc 0%Z) overlap) eqn:Eg;
      [reflexivity|].
    unfold fluctuation_at. rewrite Eg. reflexivity.
  - rewrite (nth_map_default Q2R qs j 0%Q 0%R) by exact Hj.
    apply exceeds_tenth_nonzero.
    pose proof (sanitize_q_kept _ _ _ Eq) as Hkept.
    rewrite Forall_forall in Hkept. apply Hkept, nth_In, Hj.
  - rewrite length_profile. reflexivity.
  - apply Hvalid, Hin.
  - exact Hin.
  - exact Hfit.
  - exact Hfit'.
Qed.

(** Rescaling the signal by a factor [c] that is not zero rescales the
    fluctuations by [|c|] (exact arithmetic): when the run on [v] and the
    run on [c * v] both return and the trends are least-squares fits, they
    use the same scales and exponents, and every entry of the
    FluctuationMatrix of the second is [|c|] times the entry of the first,
    with and without [multifractal]. *)
Theorem fluctuation_scales_with_amplitude
  (expspace : Z -> Z -> Z -> Z -> list Z)
  (polyfit : list R -> list R -> nat -> list R)
  (polyfit_log : list xreal -> list xreal -> nat -> list xreal)
  (c : R) (is_array : bool) (v : list R) (scale : scale_arg)
  (overlap integrate : bool) (order : nat) (multifractal : bool) (q : q_arg)
  (st st1 st2 : errstate) (out1 out2 : output) (i1 i2 : info) :
  c <> 0%R ->
  fractal_dfa expspace polyfit polyfit_log (signal_1d is_array v) scale
    overlap integrate order multifractal q st = (Ok (out1, i1), st1) ->
  fractal_dfa expspace polyfit polyfit_log
    (signal_1d is_array (map (Rmult c) v)) scale
    overlap integrate order multifractal q st = (Ok (out2, i2), st2) ->
  fits_least_squares polyfit (profile is_array v integrate)
    (Z.of_nat (length v)) overlap order (info_scale i1) ->
  fits_least_squares polyfit (profile is_array (map (Rmult c) v) integrate)
    (Z.of_nat (length v)) overlap order (info_scale i1) ->
  info_scale i2 = info_scale i1 /\ info_q i2 = info_q i1 /\
  exists m1 m2,
    Fluctuation i1 = Some m1 /\ Fluctuation i2 = Some m2 /\
    ncols m2 = ncols m1 /\
    rows m2 = map (map (xmul (Finite (Rabs c)))) (rows m1).
Proof.
  intros Hc E1 E2 Hfit Hfit'.
  destruct (run_scaled_entries expspace polyfit polyfit_log c is_array v
              scale overlap integrate order multifractal q st st1 st2
              out1 out2 i1 i2 Hc E1 E2 Hfit Hfit')
    as [sc [qs [m1 [m2 [slopes1 [slopes2
         [Hs1 [Hs2 [Hq1 [Hq2 [_ [_ [Hm1 [Hm2 [_ [_ [_ [_
         [Hr1 [Hr2 [Hc1 [Hc2 [Hrect1 [Hrect2 Hent]]]]]]]]]]]]]]]]]]]]]]]].
  split; [congruence|]. split; [congruence|].
  exists m1, m2. split; [exact Hm1|]. split; [exact Hm2|].
  split; [congruence|].
  unfold rectangular in Hrect1, Hrect2.
  rewrite Forall_forall in Hrect1, Hrect2.
  apply (list_eq_nth []); [rewrite length_map; congruence|].
  intros k Hk. rewrite Hr2 in Hk.
  rewrite (nth_map_default _ _ _ [] []) by lia.
  assert (Hl1 : length (nth k (rows m1) []) = length qs).
  { rewrite <- Hc1. apply Hrect1, nth_In. lia. }
  assert (Hl2 : length (nth k (rows m2) []) = length qs).
  { rewrite <- Hc2. apply Hrect2, nth_In. lia. }
  apply (list_eq_nth NaN); [rewrite length_map; congruence|].
  intros j Hj. rewrite Hl2 in Hj.
  rewrite (nth_map_default _ _ _ NaN NaN) by lia.
  apply Hent; assumption.
Qed.

Lemma findscales_3_4_scaled (c : R) :
  _fractal_dfa_findscales no_expspace
    (Z.of_nat (length (map (Rmult c) seven_samples)))
    (ScaleList [3; 4]%Z) = Ok [3; 4]%Z.
Proof. reflexivity. Qed.

(** On seven samples the fit of the examples is a least-squares fit for
    the windows 3 and 4. *)
Lemma example_fit_seven (v : list R) (integrate : bool) :
  length v = 7%nat ->
  fits_least_squares example_fit (profile false v integrate) 7 true 1
    [3; 4]%Z.
Proof.
  intros Hv. apply example_fit_on_windows.
  - rewrite length_profile, Hv. reflexivity.
  - left. reflexivity.
  - repeat constructor; cbn; lia.
Qed.

Lemma minus_two_nonzero : (-2 <> 0)%R.
Proof. lra. Qed.

(** A witness of [fluctuation_scales_with_amplitude]: seven samples and
    the same seven multiplied by -2, the windows 3 and 4, the line of
    least squares as the fit. *)
Lemma fluctuation_scales_with_amplitude_witness :
  exists out1 i1 out2 i2 m1 m2,
    fractal_dfa no_expspace example_fit example_regression
      (signal_1d false seven_samples) (ScaleList [3; 4]%Z) true true 1 false
      QDefault default_errstate = (Ok (out1, i1), default_errstate) /\
    fractal_dfa no_expspace example_fit example_regression
      (signal_1d false (map (Rmult (-2)) seven_samples)) (ScaleList [3; 4]%Z)
      true true 1 false QDefault default_errstate
    = (Ok (out2, i2), default_errstate) /\
    Fluctuation i1 = Some m1 /\ Fluctuation i2 = Some m2 /\
    rows m2 = map (map (xmul (Finite (Rabs (-2))))) (rows m1).
Proof.
  destruct (fractal_dfa_mono_returns no_expspace example_fit
              example_regression false seven_samples (ScaleList [3; 4]%Z)
              true true 1 QDefault default_errstate [3; 4]%Z [2%Q]
              findscales_3_4 eq_refl example_regression_nonempty
              (or_introl eq_refl)) as [m0 [slopes E1]].
  destruct (fractal_dfa_mono_returns no_expspace example_fit
              example_regression false (map (Rmult (-2)) seven_samples)
              (ScaleList [3; 4]%Z)
              true true 1 QDefault default_errstate [3; 4]%Z [2%Q]
              (findscales_3_4_scaled (-2)) eq_refl
              example_regression_nonempty
              (or_introl eq_refl)) as [m0' [slopes' E2]].
  destruct (fluctuation_scales_with_amplitude _ _ _ _ _ _ _ _ _ _ _ _ _ _ _
              _ _ _ _ minus_two_nonzero E1 E2
              (example_fit_seven seven_samples true eq_refl)
              (example_fit_seven (map (Rmult (-2)) seven_samples) true
                 eq_refl))
    as [_ [_ [m1 [m2 [Hm1 [Hm2 [_ Hrows]]]]]]].
  eexists _, _, _, _, m1, m2.
  split; [exact E1|]. split; [exact E2|].
  split; [exact Hm1|]. split; [exact Hm2|]. exact Hrows.
Defined.

(** ** Rescaling the signal leaves the exponents unchanged *)

Section LineUnique.

Local Open Scope R_scope.

Lemma residuals_eq_polyval (x y c1 c2 : list R) :
  length y = length x ->
  residuals x y c1 = residuals x y c2 ->
  forall xi, In xi x -> polyval c1 xi = polyval c2 xi.
Proof.
  unfold residuals. revert y.
  induction x as [|x0 x IH]; intros [|y0 y] Hlen E xi Hin;
    try discriminate; [destruct Hin|].
  cbn [zip_with] in E. injection E as E0 E.
  destruct Hin as [<-|Hin]; [lra|].
  apply (IH y); [cbn in Hlen; congruence|exact E|exact Hin].
Qed.

(** Over abscissae that are not all equal there is one line of least
    squares. *)
Lemma line_unique (x y c1 c2 : list R) :
  length y = length x ->
  (exists u u', In u x /\ In u' x /\ u <> u') ->
  least_squares x y 1 c1 -> least_squares x y 1 c2 -> c1 = c2.
Proof.
  intros Hlen [u [u' [Hu [Hu' Hne]]]] H1 H2.
  pose proof (least_squares_residuals_unique x y 1 c1 c2 H1 H2) as Er.
  pose proof (residuals_eq_polyval x y c1 c2 Hlen Er) as Hp.
  destruct H1 as [Hl1 _], H2 as [Hl2 _].
  destruct c1 as [|a1 [|b1 [|? ?]]]; try discriminate.
  destruct c2 as [|a2 [|b2 [|? ?]]]; try discriminate.
  pose proof (Hp u Hu) as Eu. pose proof (Hp u' Hu') as Eu'.
  rewrite !polyval_line in Eu, Eu'.
  assert (Ea : (a1 - a2) * (u - u') = 0) by lra.
  apply Rmult_integral in Ea. destruct Ea as [Ea|Ea]; [|lra].
  assert (a1 = a2) by lra. subst a2.
  assert (b1 = b2) by lra. subst b2. reflexivity.
Qed.

Lemma residuals_shifted (x y : list R) (a b L : R) :
  residuals x (map (fun yi => yi + L) y) [a; b + L] = residuals x y [a; b].
Proof.
  unfold residuals. revert y.
  induction x as [|x0 x IH]; intros [|y0 y]; try reflexivity.
  cbn [map zip_with]. rewrite IH, !polyval_line. f_equal. ring.
Qed.

(** Adding a constant to the ordinates adds it to the intercept of the
    line of least squares. *)
Lemma least_squares_shifted (x y : list R) (a b L : R) :
  least_squares x y 1 [a; b] ->
  least_squares x (map (fun yi => yi + L) y) 1 [a; b + L].
Proof.
  intros [_ Hmin]. split; [reflexivity|].
  intros c' Hc'. destruct c' as [|a' [|b' [|? ?]]]; try discriminate.
  rewrite residuals_shifted.
  replace b' with (b' - L + L) by ring.
  rewrite residuals_shifted. apply Hmin. reflexivity.
Qed.

Lemma ln_2_pos : 0 < ln 2.
Proof. rewrite <- ln_1. apply ln_increasing; lra. Qed.

Lemma xlog2_positive (r : R) :
  0 < r -> xlog2 (Finite r) = Finite (ln r / ln 2).
Proof. intros Hr. unfold xlog2. rewrite Rsign_pos by exact Hr. reflexivity. Qed.

Lemma xlog2_scales (n : Z) (sc : list Z) :
  Forall (fun w => (2 <= w < n)%Z) sc ->
  map (fun s => xlog2 (Finite (IZR s))) sc = map Finite (map log2_window sc).
Proof.
  intros Hsc. rewrite map_map. apply map_ext_in. intros s Hs.
  rewrite Forall_forall in Hsc. specialize (Hsc s Hs).
  apply xlog2_positive. apply IZR_lt. lia.
Qed.

Lemma log2_window_inj (s s' : Z) :
  (0 < s)%Z -> (0 < s')%Z -> log2_window s = log2_window s' -> s = s'.
Proof.
  intros Hs Hs' E. unfold log2_window in E.
  pose proof ln_2_pos as H2.
  assert (El : ln (IZR s) = ln (IZR s')).
  { apply Rmult_eq_reg_r with (r := / ln 2); [exact E|].
    apply Rinv_neq_0_compat. lra. }
  apply ln_inv in El; [apply eq_IZR; exact El| |];
    apply IZR_lt; assumption.
Qed.

Lemma positive_values (l : list xreal) :
  Forall positive_finite l ->
  exists fs, l = map Finite fs /\ Forall (fun r => 0 < r) fs.
Proof.
  induction 1 as [|a l Ha Hl [fs [-> Hfs]]].
  - exists []. split; [reflexivity|constructor].
  - destruct a as [r| | |]; cbn [positive_finite] in Ha; try contradiction.
    exists (r :: fs). split; [reflexivity|]. constructor; assumption.
Qed.

(** The logarithms of rescaled positive fluctuations are the logarithms
    of the fluctuations plus a constant. *)
Lemma xlog2_scaled (a : R) (fs : list R) :
  0 < a -> Forall (fun r => 0 < r) fs ->
  map xlog2 (map (xmul (Finite a)) (map Finite fs))
  = map Finite (map (fun y => y + ln a / ln 2)
                    (map (fun r => ln r / ln 2) fs)) /\
  map xlog2 (map Finite fs) = map Finite (map (fun r => ln r / ln 2) fs).
Proof.
  intros Ha Hfs. rewrite !map_map. split.
  - apply map_ext_in. intros r Hr. rewrite Forall_forall in Hfs.
    specialize (Hfs r Hr). cbn [xmul].
    rewrite xlog2_positive by (apply Rmult_lt_0_compat; assumption).
    f_equal. rewrite ln_mult by assumption.
    pose proof ln_2_pos. field. lra.
  - apply map_ext_in. intros r Hr. rewrite Forall_forall in Hfs.
    apply xlog2_positive, Hfs, Hr.
Qed.

(** The slope that a least-squares regression finds does not move when
    every positive fluctuation of the column is multiplied by [a]. *)
Lemma slope_scaled
  (polyfit_log : list xreal -> list xreal -> nat -> list xreal)
  (xs : list R) (col : list xreal) (a : R) :
  regression_least_squares polyfit_log xs ->
  (exists u u', In u xs /\ In u' xs /\ u <> u') ->
  length col = length xs -> Forall positive_finite col -> 0 < a ->
  hd NaN (polyfit_log (map Finite xs)
                      (map xlog2 (map (xmul (Finite a)) col)) 1%nat)
  = hd NaN (polyfit_log (map Finite xs) (map xlog2 col) 1%nat).
Proof.
  intros Hreg Hdiff Hlen Hpos Ha.
  destruct (positive_values col Hpos) as [fs [-> Hfs]].
  rewrite length_map in Hlen.
  destruct (xlog2_scaled a fs Ha Hfs) as [-> ->].
  set (ys := map (fun r => ln r / ln 2) fs).
  assert (Hys : length ys = length xs)
    by (unfold ys; rewrite length_map; exact Hlen).
  destruct (Hreg ys Hys) as [c1 [-> H1]].
  destruct (Hreg (map (fun y => y + ln a / ln 2) ys)
              ltac:(rewrite length_map; exact Hys)) as [c2 [-> H2]].
  pose proof H1 as [Hl1 _].
  destruct c1 as [|a1 [|b1 [|? ?]]]; try discriminate.
  apply (least_squares_shifted xs ys a1 b1 (ln a / ln 2)) in H1.
  rewrite (line_unique xs _ c2 [a1; b1 + ln a / ln 2]
             ltac:(rewrite length_map; exact Hys) Hdiff H2 H1).
  reflexivity.
Qed.

End LineUnique.

Lemma column_positive (m : matrix) (j : nat) :
  matrix_forall positive_finite m -> rectangular m -> (j < ncols m)%nat ->
  Forall positive_finite (column m j).
Proof.
  unfold matrix_forall, rectangular, column. intros Hpos Hrect Hj.
  rewrite Forall_forall in *. intros x Hx. apply in_map_iff in Hx.
  destruct Hx as [row [<- Hrow]].
  specialize (Hpos row Hrow). rewrite Forall_forall in Hpos.
  apply Hpos, nth_In. rewrite (Hrect row Hrow). exact Hj.
Qed.

(** Rescaling the signal by a factor that is not zero changes neither the
    returned value nor [Alpha] nor the spectrum (exact arithmetic), with
    and without [multifractal]: provided both runs return, the trends are
    least-squares fits, the regression is a least-squares fit on finite
    data, two of the scales differ, and every fluctuation of the first run
    is a positive number. *)
Theorem exponents_amplitude_invariant
  (expspace : Z -> Z -> Z -> Z -> list Z)
  (polyfit : list R -> list R -> nat -> list R)
  (polyfit_log : list xreal -> list xreal -> nat -> list xreal)
  (c : R) (is_array : bool) (v : list R) (scale : scale_arg)
  (overlap integrate : bool) (order : nat) (multifractal : bool) (q : q_arg)
  (st st1 st2 : errstate) (out1 out2 : output) (i1 i2 : info) :
  c <> 0%R ->
  fractal_dfa expspace polyfit polyfit_log (signal_1d is_array v) scale
    overlap integrate order multifractal q st = (Ok (out1, i1), st1) ->
  fractal_dfa expspace polyfit polyfit_log
    (signal_1d is_array (map (Rmult c) v)) scale
    overlap integrate order multifractal q st = (Ok (out2, i2), st2) ->
  fits_least_squares polyfit (profile is_array v integrate)
    (Z.of_nat (length v)) overlap order (info_scale i1) ->
  fits_least_squares polyfit (profile is_array (map (Rmult c) v) integrate)
    (Z.of_nat (length v)) overlap order (info_scale i1) ->
  regression_least_squares polyfit_log (map log2_window (info_scale i1)) ->
  (exists s s', In s (info_scale i1) /\ In s' (info_scale i1) /\ s <> s') ->
  (forall m, Fluctuation i1 = Some m -> matrix_forall positive_finite m) ->
  out2 = out1 /\ Alpha i2 = Alpha i1 /\ Spectrum i2 = Spectrum i1.
Proof.
  intros Hc E1 E2 Hfit Hfit' Hreg Hdiff Hpos.
  destruct (run_scaled_entries expspace polyfit polyfit_log c is_array v
              scale overlap integrate order multifractal q st st1 st2
              out1 out2 i1 i2 Hc E1 E2 Hfit Hfit')
    as [sc [qs [m1 [m2 [slopes1 [slopes2
         [Hs1 [Hs2 [Hq1 [Hq2 [Eq [Hvalid [Hm1 [Hm2 [Ha1 [Ha2 [Es1 [Es2
         [Hr1 [Hr2 [Hc1 [Hc2 [Hrect1 [Hrect2 Hent]]]]]]]]]]]]]]]]]]]]]]]].
  rewrite Hs1 in Hreg, Hdiff. specialize (Hpos m1 Hm1).
  destruct Hvalid as [_ Hvalid].
  assert (Habs : (0 < Rabs c)%R) by (apply Rabs_pos_lt; exact Hc).
  assert (Hdiff' : exists u u', In u (map log2_window sc) /\
                                In u' (map log2_window sc) /\ u <> u').
  { destruct Hdiff as [s [s' [Hs [Hs' Hne]]]].
    exists (log2_window s), (log2_window s').
    split; [apply in_map; exact Hs|]. split; [apply in_map; exact Hs'|].
    intros E. apply Hne. rewrite Forall_forall in Hvalid.
    pose proof (Hvalid s Hs). pose proof (Hvalid s' Hs').
    apply log2_window_inj; [lia|lia|exact E]. }
  assert (Hslopes : slopes2 = slopes1).
  { destruct (slopes_length _ _ _ _ _ _ _ Es1) as [Hl1 _].
    destruct (slopes_length _ _ _ _ _ _ _ Es2) as [Hl2 _].
    apply (list_eq_nth NaN); [congruence|].
    intros j Hj. rewrite Hl2 in Hj.
    rewrite (slopes_nth _ _ _ _ _ _ _ j Es1 Hj).
    rewrite (slopes_nth _ _ _ _ _ _ _ j Es2 Hj).
    rewrite length_map in Hj.
    assert (Hcol : column m2 j = map (xmul (Finite (Rabs c))) (column m1 j)).
    { unfold column. rewrite map_map.
      apply (list_eq_nth NaN); [rewrite !length_map; congruence|].
      intros k Hk. rewrite length_map, Hr2 in Hk.
      rewrite (nth_map_default _ _ _ [] NaN) by lia.
      rewrite (nth_map_default _ _ _ [] NaN) by lia.
      apply Hent; assumption. }
    rewrite Hcol, (xlog2_scales _ _ Hvalid).
    apply slope_scaled; try assumption.
    - unfold column. rewrite !length_map. exact Hr1.
    - apply column_positive; [assumption|assumption|lia]. }
  subst slopes2.
  assert (HA : Alpha i2 = Alpha i1) by congruence.
  destruct (fractal_dfa_returns _ _ _ _ _ _ _ _ _ _ _ _ _ _ _ E1)
    as [ia [v1 [sc1 [qs1 [m1' [s1
         [_ [_ [Eq1 [_ [_ [_ [_ [_ [_ [Ha1' Hout1]]]]]]]]]]]]]]]].
  destruct (fractal_dfa_returns _ _ _ _ _ _ _ _ _ _ _ _ _ _ _ E2)
    as [ia2 [v2 [sc2 [qs2 [m2' [s2
         [_ [_ [Eq2 [_ [_ [_ [_ [_ [_ [Ha2' Hout2]]]]]]]]]]]]]]]].
  rewrite Eq in Eq1, Eq2. injection Eq1 as <-. injection Eq2 as <-.
  assert (Hu : unwrap_single s2 = unwrap_single s1) by congruence.
  rewrite Hu in Hout2.
  destruct multifractal.
  - destruct Hout1 as [sp1 [Esp1 [Hsp1 ->]]].
    destruct Hout2 as [sp2 [Esp2 [Hsp2 ->]]].
    rewrite Esp1 in Esp2. injection Esp2 as <-.
    split; [reflexivity|]. split; [exact HA|congruence].
  - destruct Hout1 as [Hsp1 ->]. destruct Hout2 as [Hsp2 ->].
    split; [reflexivity|]. split; [exact HA|congruence].
Qed.

(** *** The example: seven samples, not integrated *)

Section InvariantExample.

Local Open Scope R_scope.

(** The regression of the examples is a least-squares fit over the
    logarithms of the windows 3 and 4. *)
Lemma example_regression_least_squares :
  regression_least_squares example_regression (map log2_window [3; 4]%Z).
Proof.
  intros ys Hlen. exists (line_fit (map log2_window [3; 4]%Z) ys). split.
  - unfold example_regression. rewrite !finite_values_Finite. reflexivity.
  - apply line_fit_least_squares; [symmetry; exact Hlen|].
    assert (Hne : log2_window 3 <> log2_window 4).
    { intros E. apply log2_window_inj in E; lia. }
    cbn [map length dot zip_with Rsum fold_right].
    change (INR 2) with (1 + 1).
    set (a := log2_window 3) in *. set (b := log2_window 4) in *.
    clearbody a b. intros E. apply Hne. nra.
Qed.

(** A segment whose first three samples are not on a line has residuals
    that are not all zero, whatever line is fitted. *)
Lemma residuals_bent (x0 x1 x2 s0 s1 s2 : R) (xr sr c : list R) :
  x0 = 0 -> x1 = 1 -> x2 = 2 -> length c = 2%nat ->
  s0 - 2 * s1 + s2 <> 0 ->
  0 < sum_sq (residuals (x0 :: x1 :: x2 :: xr) (s0 :: s1 :: s2 :: sr) c).
Proof.
  intros -> -> -> Hc Hbend.
  destruct c as [|a [|b [|? ?]]]; try discriminate.
  unfold residuals. cbn [zip_with].
  rewrite !sum_sq_cons, !polyval_line.
  pose proof (sum_sq_nonneg
                (zip_with (fun xi yi => yi - polyval [a; b] xi) xr sr)) as Hr.
  set (T := sum_sq _) in *.
  destruct (Rlt_le_dec 0 ((s0 - (a * 0 + b)) ^ 2
                          + ((s1 - (a * 1 + b)) ^ 2
                             + ((s2 - (a * 2 + b)) ^ 2 + T)))) as [Hlt|Hle];
    [exact Hlt|].
  exfalso. apply Hbend.
  pose proof (pow2_ge_0 (s0 - (a * 0 + b))) as P0.
  pose proof (pow2_ge_0 (s1 - (a * 1 + b))) as P1.
  pose proof (pow2_ge_0 (s2 - (a * 2 + b))) as P2.
  assert (H0 : s0 - (a * 0 + b) = 0)
    by (apply Rsqr_0_uniq; unfold Rsqr; lra).
  assert (H1 : s1 - (a * 1 + b) = 0)
    by (apply Rsqr_0_uniq; unfold Rsqr; lra).
  assert (H2 : s2 - (a * 2 + b) = 0)
    by (apply Rsqr_0_uniq; unfold Rsqr; lra).
  lra.
Qed.

Lemma Rsum_ge_member (l : list R) (x : R) :
  Forall (fun y => 0 <= y) l -> In x l -> x <= Rsum l.
Proof.
  induction 1 as [|y l Hy Hl IH]; intros Hin; [destruct Hin|].
  rewrite Rsum_cons. pose proof (Rsum_nonneg l Hl).
  destruct Hin as [->|Hin]; [lra|]. specialize (IH Hin). lra.
Qed.

(** The root mean square of a batch with one residual that is not zero
    is positive. *)
Lemma fluctuation_mono_positive (detrended : list (list R)) (row : list R) :
  (forall r, In r detrended -> r <> []) ->
  In row detrended -> 0 < sum_sq row ->
  positive_finite (fluctuation_mono detrended).
Proof.
  intros Hrows Hin Hpos.
  assert (Hne : detrended <> []) by (destruct detrended; [destruct Hin|discriminate]).
  rewrite (fluctuation_mono_finite detrended Hne Hrows). cbn [positive_finite].
  apply sqrt_lt_R0. unfold Rmean. apply Rdiv_lt_0_compat.
  - apply Rlt_le_trans with (r2 := sum_sq row / INR (length row)).
    + apply Rdiv_lt_0_compat; [exact Hpos|].
      apply lt_0_INR. specialize (Hrows row Hin).
      destruct row; [congruence|cbn; lia].
    + apply Rsum_ge_member.
      * apply Forall_forall. intros y Hy. apply in_map_iff in Hy.
        destruct Hy as [r [<- _]]. apply mean_sq_nonneg.
      * apply (in_map (fun r => sum_sq r / INR (length r))). exact Hin.
  - rewrite length_map. apply lt_0_INR.
    destruct detrended; [congruence|cbn; lia].
Qed.

Lemma matrix_forall_entries (P : xreal -> Prop) (m : matrix) :
  rectangular m ->
  (forall k j, (k < length (rows m))%nat -> (j < ncols m)%nat ->
     P (nth j (nth k (rows m) []) NaN)) ->
  matrix_forall P m.
Proof.
  unfold rectangular, matrix_forall. intros Hrect Hent.
  rewrite Forall_forall in *. intros row Hrow.
  apply Forall_forall. intros x Hx.
  destruct (In_nth _ _ [] Hrow) as [k [Hk <-]].
  destruct (In_nth _ _ NaN Hx) as [j [Hj <-]].
  apply Hent; [exact Hk|]. rewrite <- (Hrect _ Hrow). exact Hj.
Qed.

Lemma seven_samples_windows :
  _fractal_dfa_getwindow (profile false seven_samples false) 7 3 true
  = Ok [[0; 1; 0]; [1; 0; 0]; [0; 0; 2]; [0; 2; 0]] /\
  _fractal_dfa_getwindow (profile false seven_samples false) 7 4 true
  = Ok [[0; 1; 0; 0]; [0; 0; 2; 0]].
Proof. split; reflexivity. Qed.

(** The fluctuations of the seven samples at the windows 3 and 4 are
    positive. *)
Lemma seven_samples_positive (k : nat) (qj : R) :
  (k < 2)%nat ->
  positive_finite (fluctuation_at example_fit (profile false seven_samples false)
              7 true 1 false (nth k [3; 4]%Z 0%Z) qj).
Proof.
  intros Hk. destruct seven_samples_windows as [E3 E4].
  unfold fluctuation_at.
  destruct k as [|[|k]]; [| |lia]; cbn [nth].
  - rewrite E3. cbv zeta.
    apply (fluctuation_mono_positive _
             (residuals (abscissa 3) [0; 1; 0]
                (example_fit (abscissa 3) [0; 1; 0] 1))).
    + intros r Hr. unfold detrended_of in Hr. apply in_map_iff in Hr.
      destruct Hr as [s [<- Hs]]. intros E.
      apply (f_equal (@length _)) in E.
      rewrite length_residuals in E;
        cbn in Hs; decompose [or] Hs; subst; cbn in E; try discriminate;
        try contradiction; reflexivity.
    + left. reflexivity.
    + apply residuals_bent; try reflexivity; cbn; lra.
  - rewrite E4. cbv zeta.
    apply (fluctuation_mono_positive _
             (residuals (abscissa 4) [0; 1; 0; 0]
                (example_fit (abscissa 4) [0; 1; 0; 0] 1))).
    + intros r Hr. unfold detrended_of in Hr. apply in_map_iff in Hr.
      destruct Hr as [s [<- Hs]]. intros E.
      apply (f_equal (@length _)) in E.
      rewrite length_residuals in E;
        cbn in Hs; decompose [or] Hs; subst; cbn in E; try discriminate;
        try contradiction; reflexivity.
    + left. reflexivity.
    + apply residuals_bent; try reflexivity; cbn; lra.
Qed.

Lemma seven_samples_matrix_positive (out : output) (i : info)
  (st' : errstate) :
  fractal_dfa no_expspace example_fit example_regression
    (signal_1d false seven_samples) (ScaleList [3; 4]%Z) true false 1 false
    QDefault default_errstate = (Ok (out, i), st') ->
  forall m, Fluctuation i = Some m -> matrix_forall positive_finite m.
Proof.
  intros E m Hm.
  destruct (run_entries _ _ _ _ _ _ _ _ _ _ _ _ _ _ _ E)
    as [sc [qs [m' [slopes
         [Esc [Eq [_ [_ [Hm' [_ [_ [Hr [Hc [Hrect Hent]]]]]]]]]]]]]].
  rewrite Hm in Hm'. injection Hm' as <-.
  change (Ok [3; 4]%Z = Ok sc) in Esc. injection Esc as <-.
  apply matrix_forall_entries; [exact Hrect|].
  intros k j Hk Hj. rewrite Hr in Hk. rewrite Hc in Hj.
  rewrite Hent by assumption.
  apply (seven_samples_positive k). exact Hk.
Qed.

End InvariantExample.

Lemma windows_3_4_differ :
  exists s s' : Z, In s [3; 4]%Z /\ In s' [3; 4]%Z /\ s <> s'.
Proof.
  exists 3%Z, 4%Z. split; [left; reflexivity|].
  split; [right; left; reflexivity|discriminate].
Qed.

(** A witness of [exponents_amplitude_invariant]: seven samples and the
    same seven multiplied by -2, the windows 3 and 4, lines of least
    squares as the fit and as the regression. *)
Lemma exponents_amplitude_invariant_witness :
  exists out1 i1 out2 i2,
    fractal_dfa no_expspace example_fit example_regression
      (signal_1d false seven_samples) (ScaleList [3; 4]%Z) true false 1 false
      QDefault default_errstate = (Ok (out1, i1), default_errstate) /\
    fractal_dfa no_expspace example_fit example_regression
      (signal_1d false (map (Rmult (-2)) seven_samples)) (ScaleList [3; 4]%Z)
      true false 1 false QDefault default_errstate
    = (Ok (out2, i2), default_errstate) /\
    out2 = out1 /\ Alpha i2 = Alpha i1.
Proof.
  destruct (fractal_dfa_mono_returns no_expspace example_fit
              example_regression false seven_samples (ScaleList [3; 4]%Z)
              true false 1 QDefault default_errstate [3; 4]%Z [2%Q]
              findscales_3_4 eq_refl example_regression_nonempty
              (or_introl eq_refl)) as [m0 [slopes E1]].
  destruct (fractal_dfa_mono_returns no_expspace example_fit
              example_regression false (map (Rmult (-2)) seven_samples)
              (ScaleList [3; 4]%Z)
              true false 1 QDefault default_errstate [3; 4]%Z [2%Q]
              (findscales_3_4_scaled (-2)) eq_refl
              example_regression_nonempty
              (or_introl eq_refl)) as [m0' [slopes' E2]].
  pose proof (example_fit_seven seven_samples false eq_refl) as F1.
  pose proof (example_fit_seven (map (Rmult (-2)) seven_samples) false
                eq_refl) as F2.
  pose proof (seven_samples_matrix_positive _ _ _ E1) as P1.
  destruct (exponents_amplitude_invariant no_expspace example_fit
              example_regression (-2) false seven_samples
              (ScaleList [3; 4]%Z) true false 1 false QDefault
              default_errstate default_errstate default_errstate _ _ _ _
              minus_two_nonzero E1 E2 F1 F2
              example_regression_least_squares windows_3_4_differ P1)
    as [Hout [HA _]].
  eexists _, _, _, _.
  split; [exact E1|]. split; [exact E2|]. split; [exact Hout|exact HA].
Defined.

(** ** Detrending removes a straight line *)

Section Trend.

Local Open Scope R_scope.

Variables a b : R.

Lemma trend_cons (o : nat) (x : R) (v : list R) :
  with_trend_from a b o (x :: v)
  = (x + (a * INR o + b)) :: with_trend_from a b (S o) v.
Proof. reflexivity. Qed.

Lemma length_trend (o : nat) (v : list R) :
  length (with_trend_from a b o v) = length v.
Proof.
  revert o. induction v as [|x v IH]; intros o; [reflexivity|].
  rewrite trend_cons. cbn [length]. rewrite IH. reflexivity.
Qed.

Lemma skipn_trend (k o : nat) (v : list R) :
  skipn k (with_trend_from a b o v)
  = with_trend_from a b (o + k) (skipn k v).
Proof.
  revert o v. induction k as [|k IH]; intros o v.
  - rewrite Nat.add_0_r. reflexivity.
  - destruct v as [|x v]; [reflexivity|].
    rewrite trend_cons. cbn [skipn]. rewrite IH.
    f_equal. lia.
Qed.

Lemma firstn_trend (k o : nat) (v : list R) :
  firstn k (with_trend_from a b o v) = with_trend_from a b o (firstn k v).
Proof.
  revert o v. induction k as [|k IH]; intros o v; [reflexivity|].
  destruct v as [|x v]; [reflexivity|].
  rewrite trend_cons. cbn [firstn]. rewrite trend_cons, IH. reflexivity.
Qed.

Lemma py_slice_trend (o : nat) (v : list R) (i j : Z) :
  exists o',
    py_slice (with_trend_from a b o v) i j
    = with_trend_from a b o' (py_slice v i j).
Proof.
  unfold py_slice. rewrite length_trend, skipn_trend, firstn_trend.
  eexists. reflexivity.
Qed.

Lemma chunk_trend (r c : nat) :
  forall o l,
    Forall2 (fun s' s => exists o', s' = with_trend_from a b o' s)
      (chunk r c (with_trend_from a b o l)) (chunk r c l).
Proof.
  induction r as [|r IH]; intros o l; [constructor|].
  cbn [chunk]. constructor.
  - exists o. apply firstn_trend.
  - rewrite skipn_trend. apply IH.
Qed.

Lemma np_array2d_trend (l' l : list (list R)) :
  Forall2 (fun s' s => exists o', s' = with_trend_from a b o' s) l' l ->
  match np_array2d l with
  | Ok _ => np_array2d l' = Ok l'
  | Err e => np_array2d l' = Err e
  end.
Proof.
  intros H.
  assert (Hall : forall k k' : nat, k' = k ->
            forallb (fun r => (length r =? k')%nat) l'
            = forallb (fun r => (length r =? k)%nat) l).
  { intros k k' ->. induction H as [|s' s l' l [o' ->] _ IH]; [reflexivity|].
    cbn [forallb]. rewrite IH, length_trend. reflexivity. }
  unfold np_array2d.
  destruct H as [|s' s l' l [o' ->] Hl]; [reflexivity|].
  rewrite (Hall (length s) (length (with_trend_from a b o' s)))
    by apply length_trend.
  destruct (forallb _ (s :: l)); reflexivity.
Qed.

(** The segments of a series with a trend are the segments of the series,
    each with a straight line of the same slope added. *)
Lemma getwindow_trend (is_array : bool) (v : list R) (n w : Z)
  (overlap : bool) :
  match _fractal_dfa_getwindow {| is_ndarray := is_array; samples := v |}
          n w overlap with
  | Ok segments =>
      exists segments',
        _fractal_dfa_getwindow
          {| is_ndarray := is_array; samples := with_trend a b v |}
          n w overlap = Ok segments' /\
        Forall2 (fun s' s => exists o', s' = with_trend_from a b o' s)
          segments' segments
  | Err e =>
      _fractal_dfa_getwindow
        {| is_ndarray := is_array; samples := with_trend a b v |}
        n w overlap = Err e
  end.
Proof.
  unfold _fractal_dfa_getwindow, with_trend. cbn [is_ndarray samples].
  destruct overlap.
  - destruct (arange 0 (n - w) (w / 2)) as [starts|e]; [|reflexivity].
    cbn [rbind].
    assert (H : Forall2 (fun s' s => exists o', s' = with_trend_from a b o' s)
                  (map (fun i => py_slice (with_trend_from a b 0 v) i (i + w))
                       starts)
                  (map (fun i => py_slice v i (i + w)) starts)).
    { induction starts as [|i starts IH]; [constructor|].
      cbn [map]. constructor; [apply py_slice_trend|exact IH]. }
    pose proof (np_array2d_trend _ _ H) as Ha.
    destruct (np_array2d (map (fun i => py_slice v i (i + w)) starts))
      as [segments|e] eqn:E; [|exact Ha].
    eexists. split; [exact Ha|].
    unfold np_array2d in E.
    destruct (map (fun i => py_slice v i (i + w)) starts) as [|r l] eqn:El.
    + injection E as <-. exact H.
    + destruct (forallb _ (r :: l)); [|discriminate].
      injection E as <-. exact H.
  - destruct (w =? 0)%Z; [reflexivity|].
    destruct (negb is_array); [reflexivity|].
    unfold reshape2d. rewrite length_trend.
    destruct (py_slice_trend 0 v 0 (n - n mod w)) as [o' ->].
    rewrite length_trend.
    destruct (_ && _ && _)%bool; [|reflexivity].
    eexists. split; [reflexivity|]. apply chunk_trend.
Qed.

Lemma polyval_plus_from (c1 c2 : list R) (x : R) :
  length c1 = length c2 ->
  forall a1 a2,
    fold_left (fun y pv => y * x + pv) (zip_with Rplus c1 c2) (a1 + a2)
    = fold_left (fun y pv => y * x + pv) c1 a1
      + fold_left (fun y pv => y * x + pv) c2 a2.
Proof.
  revert c2. induction c1 as [|p1 c1 IH]; intros [|p2 c2] Hlen a1 a2;
    try discriminate; [reflexivity|].
  cbn [zip_with fold_left].
  replace ((a1 + a2) * x + (p1 + p2)) with ((a1 * x + p1) + (a2 * x + p2))
    by ring.
  apply IH. cbn in Hlen. congruence.
Qed.

Lemma polyval_plus (c1 c2 : list R) (x : R) :
  length c1 = length c2 ->
  polyval (zip_with Rplus c1 c2) x = polyval c1 x + polyval c2 x.
Proof.
  intros Hlen. unfold polyval.
  pose proof (polyval_plus_from c1 c2 x Hlen 0 0) as H.
  rewrite Rplus_0_l in H. exact H.
Qed.

Lemma zip_minus_plus (c' cP : list R) :
  length c' = length cP ->
  zip_with Rplus (zip_with Rminus c' cP) cP = c'.
Proof.
  revert cP. induction c' as [|p c' IH]; intros [|p0 cP] Hlen;
    try discriminate; [reflexivity|].
  cbn [zip_with]. rewrite IH by (cbn in Hlen; congruence).
  f_equal. ring.
Qed.

Lemma residuals_add_poly (x s c cP : list R) :
  length c = length cP ->
  residuals x (zip_with (fun xi si => si + polyval cP xi) x s)
            (zip_with Rplus c cP)
  = residuals x s c.
Proof.
  intros Hlen. unfold residuals. revert s.
  induction x as [|xi x IH]; intros [|si s]; try reflexivity.
  cbn [zip_with]. rewrite IH, polyval_plus by exact Hlen.
  f_equal. ring.
Qed.

(** Adding a polynomial of the degree to the ordinates adds it to the
    least-squares fit. *)
Lemma least_squares_add_poly (x s : list R) (deg : nat) (c cP : list R) :
  least_squares x s deg c -> length cP = S deg ->
  least_squares x (zip_with (fun xi si => si + polyval cP xi) x s) deg
    (zip_with Rplus c cP).
Proof.
  intros [Hlen Hmin] HP. split.
  - rewrite length_zip_with, Hlen, HP. apply Nat.min_id.
  - intros c' Hc'.
    rewrite residuals_add_poly by congruence.
    rewrite <- (zip_minus_plus c' cP) by congruence.
    rewrite residuals_add_poly
      by (rewrite length_zip_with, Hc', HP; apply Nat.min_id).
    apply Hmin. rewrite length_zip_with, Hc', HP. apply Nat.min_id.
Qed.

Lemma zip_with_pointwise {A B C : Type} (f g : A -> B -> C)
  (l1 : list A) (l2 : list B) :
  (forall x y, f x y = g x y) -> zip_with f l1 l2 = zip_with g l1 l2.
Proof.
  intros Hfg. revert l2.
  induction l1 as [|x l1 IH]; intros [|y l2]; try reflexivity.
  cbn [zip_with]. rewrite Hfg, IH. reflexivity.
Qed.

Lemma trend_as_line (o : nat) (s : list R) :
  forall t0,
    with_trend_from a b (o + t0) s
    = zip_with (fun xi si => si + (a * xi + (a * INR o + b)))
        (map INR (seq t0 (length s))) s.
Proof.
  induction s as [|x s IH]; intros t0; [reflexivity|].
  rewrite trend_cons. cbn [length seq map zip_with].
  rewrite <- Nat.add_succ_r, IH, plus_INR. f_equal. ring.
Qed.

(** A segment with a straight line added is the segment plus a polynomial
    of the degree of the fit, evaluated on the abscissa of the window. *)
Lemma trend_segment (o : nat) (s : list R) (w : Z) (order : nat) :
  length s = Z.to_nat w -> a = 0 \/ (1 <= order)%nat ->
  exists cP,
    length cP = S order /\
    with_trend_from a b o s
    = zip_with (fun xi si => si + polyval cP xi) (abscissa w) s.
Proof.
  intros Hs Horder. unfold abscissa. rewrite <- Hs.
  pose proof (trend_as_line o s 0%nat) as Hline.
  rewrite Nat.add_0_r in Hline. rewrite Hline. clear Hline.
  destruct Horder as [Ha|Ho].
  - exists (repeat 0 order ++ [a * INR o + b]). split.
    + rewrite length_app, repeat_length. cbn. lia.
    + apply zip_with_pointwise. intros xi si.
      rewrite polyval_constant, Ha. ring.
  - exists (repeat 0 (order - 1) ++ [a; a * INR o + b]). split.
    + rewrite length_app, repeat_length. cbn. lia.
    + apply zip_with_pointwise. intros xi si.
      rewrite polyval_linear. reflexivity.
Qed.

(** The detrended batch of the series with a trend is the detrended batch
    of the series. *)
Lemma detrended_trend (polyfit : list R -> list R -> nat -> list R)
  (segments' segments : list (list R)) (w : Z) (order : nat) :
  a = 0 \/ (1 <= order)%nat ->
  Forall2 (fun s' s => exists o', s' = with_trend_from a b o' s)
    segments' segments ->
  (forall s, In s segments -> length s = Z.to_nat w) ->
  (forall s, In s segments ->
     least_squares (abscissa w) s order (polyfit (abscissa w) s order)) ->
  (forall s, In s segments' ->
     least_squares (abscissa w) s order (polyfit (abscissa w) s order)) ->
  detrended_of polyfit segments' w order
  = detrended_of polyfit segments w order.
Proof.
  intros Horder H. unfold detrended_of.
  induction H as [|s' s l' l [o' ->] _ IH]; intros Hlen Hls Hls';
    [reflexivity|].
  cbn [map]. f_equal.
  - destruct (trend_segment o' s w order (Hlen s (or_introl eq_refl)) Horder)
      as [cP [HP Es]].
    pose proof (Hls' _ (or_introl eq_refl)) as H'.
    pose proof (Hls s (or_introl eq_refl)) as H0.
    rewrite Es in H' |- *.
    rewrite <- (residuals_add_poly (abscissa w) s _ cP)
      by (destruct H0 as [-> _]; congruence).
    apply least_squares_residuals_unique with (deg := order); [exact H'|].
    apply least_squares_add_poly; assumption.
  - apply IH; intros s0 Hs0;
      [apply Hlen|apply Hls|apply Hls']; right; exact Hs0.
Qed.

End Trend.

Lemma batch_of_trend (a b : R) (w : Z) (segments' segments : list (list R)) :
  Forall2 (fun s' s => exists o', s' = with_trend_from a b o' s)
    segments' segments ->
  batch_of w segments -> batch_of w segments'.
Proof.
  intros H [Hne Hrows]. split.
  - destruct H; [congruence|discriminate].
  - clear Hne. revert Hrows.
    induction H as [|s' s l' l [o' ->] _ IH]; intros Hrows s0 Hs0;
      [destruct Hs0|].
    destruct Hs0 as [<-|Hs0].
    + rewrite length_trend. apply Hrows. left. reflexivity.
    + apply IH; [|exact Hs0].
      intros s2 Hs2. apply Hrows. right. exact Hs2.
Qed.

(** Detrending removes a straight line (exact arithmetic).  Without
    [integrate], adding [a * i + b] to sample [i] of the signal changes
    nothing in what the entry point returns, when the trends are
    least-squares fits of degree [order >= 1]; for [order = 0] the same
    holds for a constant ([a = 0]). *)
Theorem linear_trend_removed
  (expspace : Z -> Z -> Z -> Z -> list Z)
  (polyfit : list R -> list R -> nat -> list R)
  (polyfit_log : list xreal -> list xreal -> nat -> list xreal)
  (a b : R) (is_array : bool) (v : list R) (scale : scale_arg)
  (overlap : bool) (order : nat) (multifractal : bool) (q : q_arg)
  (st : errstate) (sc : list Z) :
  a = 0%R \/ (1 <= order)%nat ->
  _fractal_dfa_findscales expspace (Z.of_nat (length v)) scale = Ok sc ->
  fits_least_squares polyfit (profile is_array v false)
    (Z.of_nat (length v)) overlap order sc ->
  fits_least_squares polyfit (profile is_array (with_trend a b v) false)
    (Z.of_nat (length v)) overlap order sc ->
  fractal_dfa expspace polyfit polyfit_log
    (signal_1d is_array (with_trend a b v)) scale overlap false order
    multifractal q st
  = fractal_dfa expspace polyfit polyfit_log (signal_1d is_array v) scale
      overlap false order multifractal q st.
Proof.
  intros Horder Esc Hls Hls'.
  pose proof (findscales_valid _ _ _ _ Esc) as [_ Hvalid].
  change (profile is_array v false)
    with {| is_ndarray := is_array; samples := v |} in Hls.
  change (profile is_array (with_trend a b v) false)
    with {| is_ndarray := is_array; samples := with_trend a b v |} in Hls'.
  set (n := Z.of_nat (length v)) in *.
  set (working := {| is_ndarray := is_array; samples := v |}) in *.
  set (working' := {| is_ndarray := is_array;
                      samples := with_trend a b v |}) in *.
  assert (Hloop : forall qs i m st0,
    fluctuation_loop polyfit working' n overlap order multifractal qs i sc m
      st0
    = fluctuation_loop polyfit working n overlap order multifractal qs i sc m
        st0).
  { intros qs. clear Esc. induction sc as [|w sc IH]; intros i m st0;
      [reflexivity|].
    rewrite !loop_cons.
    pose proof (getwindow_trend a b is_array v n w overlap) as Hg.
    fold working working' in Hg.
    destruct (_fractal_dfa_getwindow working n w overlap) as [segments|e]
      eqn:Eg; [|rewrite Hg; reflexivity].
    destruct Hg as [segments' [Eg' HF]]. rewrite Eg'.
    assert (Hw : (2 <= w < n)%Z) by (inversion Hvalid; assumption).
    pose proof (getwindow_ok_batch working n w overlap segments eq_refl Hw Eg)
      as Hb.
    pose proof (batch_of_trend a b w _ _ HF Hb) as Hb'.
    pose proof (trends_batch polyfit segments w order ltac:(lia) Hb) as Et.
    pose proof (trends_batch polyfit segments' w order ltac:(lia) Hb') as Et'.
    rewrite Et, Et'.
    destruct (fluctuation_batch _ _ _ _ _ multifractal qs st0 Et)
      as [_ [_ Ef]].
    destruct (fluctuation_batch _ _ _ _ _ multifractal qs st0 Et')
      as [_ [_ Ef']].
    rewrite Ef, Ef'.
    rewrite (detrended_trend a b polyfit segments' segments w order Horder HF).
    - destruct (assign_row m i _) as [m1|e]; [|reflexivity].
      apply IH.
      + intros w' sg s' Hw' Eg2 Hs'.
        apply (Hls w' sg s'); [right; exact Hw'|exact Eg2|exact Hs'].
      + intros w' sg s' Hw' Eg2 Hs'.
        apply (Hls' w' sg s'); [right; exact Hw'|exact Eg2|exact Hs'].
      + inversion Hvalid; assumption.
    - apply Hb.
    - intros s Hs. apply (Hls w segments s); [left; reflexivity|exact Eg|exact Hs].
    - intros s Hs.
      apply (Hls' w segments' s); [left; reflexivity|exact Eg'|exact Hs]. }
  assert (Hlen : length (with_trend a b v) = length v)
    by apply length_trend.
  rewrite !fractal_dfa_1d. cbv zeta. rewrite !Hlen.
  change (profile is_array v false) with working.
  change (profile is_array (with_trend a b v) false) with working'.
  fold n. rewrite Esc.
  destruct (_sanitize_q q multifractal) as [qs|e]; [|reflexivity].
  rewrite Hloop. reflexivity.
Qed.

(** A witness of [linear_trend_removed]: the line [i + 5] added to seven
    samples, the windows 3 and 4, the line of least squares as the fit. *)
Lemma linear_trend_removed_witness :
  fractal_dfa no_expspace example_fit example_regression
    (signal_1d false (with_trend 1 5 seven_samples)) (ScaleList [3; 4]%Z)
    true false 1 false QDefault default_errstate
  = fractal_dfa no_expspace example_fit example_regression
      (signal_1d false seven_samples) (ScaleList [3; 4]%Z)
      true false 1 false QDefault default_errstate.
Proof.
  apply (linear_trend_removed no_expspace example_fit example_regression
           1 5 false seven_samples (ScaleList [3; 4]%Z) true 1 false
           QDefault default_errstate [3; 4]%Z
           (or_intror (le_n 1)) findscales_3_4
           (example_fit_seven seven_samples false eq_refl)
           (example_fit_seven (with_trend 1 5 seven_samples) false eq_refl)).
Defined.

(** ** A Series as the signal *)

(** A [pd.Series] (with the default index) is no array and gets past the
    guard.  With [overlap] the entry point does on it what it does on the
    array of its values.  Without [overlap], once the scales and the
    exponents are accepted, the first window raises [AttributeError]: a
    Series has no [reshape], and integrating it does not change that,
    since the cumulative sum of a Series is a Series. *)
Theorem series_outcome
  (expspace : Z -> Z -> Z -> Z -> list Z)
  (polyfit : list R -> list R -> nat -> list R)
  (polyfit_log : list xreal -> list xreal -> nat -> list xreal)
  (v : list R) (scale : scale_arg) (overlap integrate : bool) (order : nat)
  (multifractal : bool) (q : q_arg) (st : errstate) :
  fractal_dfa expspace polyfit polyfit_log (PdSeries v) scale overlap
    integrate order multifractal q st
  = if overlap
    then fractal_dfa expspace polyfit polyfit_log (NdArray 1 v) scale true
           integrate order multifractal q st
    else
      match _fractal_dfa_findscales expspace (Z.of_nat (length v)) scale,
            _sanitize_q q multifractal with
      | Err e, _ => (Err e, st)
      | Ok _, Err e => (Err e, st)
      | Ok _, Ok _ => (Err (AttributeError series_no_reshape_msg), st)
      end.
Proof.
  destruct overlap.
  - rewrite series_run_on. symmetry.
    apply (fractal_dfa_run_on expspace polyfit polyfit_log true).
  - rewrite series_not_overlapping.
    destruct (_fractal_dfa_findscales expspace _ scale); [|reflexivity].
    destruct (_sanitize_q q multifractal); reflexivity.
Qed.
